(** * APDoom: the Archipelago synchronisation core ([apdoom.cpp])

    A shallow embedding of the session state, the catalog accessors, the
    server callbacks ([f_itemrecv], [f_locrecv]), the per-frame update, the
    victory check, the seeded randomisation of [apdoom_init] and the
    save/load pair, followed by the properties the design document states
    about them.

    Conventions.
    - A C [int] is a [Z]; results of [int] arithmetic go through [wrap_int]
      (two's complement, 32 bits).  [int64_t] item and location ids are
      plain [Z].
    - A C array is a [list]; an access outside its bounds has no defined
      behaviour in C and is [None] here, so every operation that indexes an
      array returns an [option].
    - Calls into the engine callbacks and into the network library are
      recorded, in call order, in the [trace] field of [world]. *)

From Stdlib Require Import ZArith QArith Lia String Ascii List Permutation.
From stdpp Require Import base numbers option list sorting gmap strings.

Local Open Scope Z_scope.

(** ** Machine integers and arrays *)

Definition INT_MIN : Z := -2147483648.
Definition INT_MAX : Z := 2147483647.

Definition in_int (z : Z) : Prop := INT_MIN ≤ z ≤ INT_MAX.

Definition wrap_int (z : Z) : Z := (z + 2147483648) `mod` 4294967296 - 2147483648.

Definition int_add (a b : Z) : Z := wrap_int (a + b).
Definition int_sub (a b : Z) : Z := wrap_int (a - b).
Definition int_mul (a b : Z) : Z := wrap_int (a * b).

(** [(int)v.size()] *)
Definition int_size {A} (l : list A) : Z := wrap_int (Z.of_nat (length l)).

(** [a[i]] as an rvalue. *)
Definition arr_get {A} (a : list A) (i : Z) : option A :=
  if decide (0 ≤ i) then a !! Z.to_nat i else None.

(** [a[i] = v]. *)
Definition arr_set {A} (a : list A) (i : Z) (v : A) : option (list A) :=
  if decide (0 ≤ i < Z.of_nat (length a)) then Some (<[Z.to_nat i := v]> a) else None.

(** [for (int i = lo; i < lo + n; ++i) body(i)] over a state of type [St];
    the loop stops at the first undefined access. *)
Fixpoint for_loop {St} (n : nat) (i : Z) (body : Z → St → option St) (s : St)
  : option St :=
  match n with
  | O => Some s
  | S n' => body i s ≫= for_loop n' (i + 1) body
  end.

(** [for (int i = 0; i < hi; ++i) body(i)] *)
Definition for_upto {St} (hi : Z) (body : Z → St → option St) (s : St) : option St :=
  for_loop (Z.to_nat hi) 0 body s.

(** ** Data model ([apdoom.h]) *)

Definition AP_CHECK_MAX : Z := 128.
Definition AP_NOTIF_STATE_PENDING : Z := 0.
Definition AP_NOTIF_STATE_DROPPING : Z := 1.
Definition AP_NOTIF_STATE_HIDING : Z := 2.
Definition AP_NOTIF_SIZE : Z := 30.
Definition AP_NOTIF_PADDING : Z := 2.

Inductive ap_game_t := doom | doom2 | heretic.

#[global] Instance ap_game_t_eq_dec : EqDecision ap_game_t.
Proof. solve_decision. Defined.

Record ap_thing_info_t := {
  ti_doom_type : Z;
  ti_index : Z;
  ti_check_sanity : Z;
  ti_unreachable : Z
}.

Record ap_level_info_t := {
  li_name : string;
  li_keys : list Z;
  li_use_skull : list Z;
  li_check_count : Z;
  li_thing_count : Z;
  li_thing_infos : list ap_thing_info_t;
  li_sanity_check_count : Z;
  li_game_episode : Z;
  li_game_map : Z
}.

Record ap_level_state_t := {
  completed : Z;
  keys : list Z;
  check_count : Z;
  has_map : Z;
  unlocked : Z;
  checks : list Z;
  special : Z;
  flipped : Z;
  music : Z
}.

Record ap_inventory_slot_t := { slot_type : Z; slot_count : Z }.

Record ap_player_state_t := {
  health : Z;
  armor_points : Z;
  armor_type : Z;
  ready_weapon : Z;
  kill_count : Z;
  item_count : Z;
  secret_count : Z;
  powers : list Z;
  weapon_owned : list Z;
  ammo : list Z;
  max_ammo : list Z;
  capacity_upgrades : list Z;
  inventory : list ap_inventory_slot_t
}.

Record ap_state_t := {
  level_states : list ap_level_state_t;
  player_state : ap_player_state_t;
  st_ep : Z;
  st_map : Z;
  difficulty : Z;
  random_monsters : Z;
  random_items : Z;
  random_music : Z;
  two_ways_keydoors : Z;
  episodes : list Z;
  victory : Z;
  flip_levels : Z;
  check_sanity : Z;
  reset_level_on_death : Z;
  goal : Z;
  max_ammo_start : list Z;
  max_ammo_add : list Z
}.

Record ap_level_index_t := { idx_ep : Z; idx_map : Z }.

Record ap_item_t := { doom_type : Z; item_ep : Z; item_map : Z }.

(** Float fields hold their value as a rational; the float arithmetic of
    the icon animation is not part of this model. *)
Record ap_notification_icon_t := {
  n_sprite : string;
  n_x : Z; n_y : Z;
  n_xf : Q; n_yf : Q;
  n_velx : Q; n_vely : Q;
  n_text : string;
  n_t : Z;
  n_state : Z
}.

(** The tables filled by [ap_preload_defs_for_game]. The three-level
    location table is a [std::map] of [std::map]s; it is kept as association
    lists in iteration (key) order because [find_location] walks it. *)
Record defs := {
  ap_base_game : ap_game_t;
  preloaded_level_info : list (list ap_level_info_t);
  preloaded_item_table : gmap Z ap_item_t;
  preloaded_location_table : list (Z * list (Z * list (Z * Z)));
  preloaded_type_sprites : gmap Z string
}.

(** Calls that leave the core: engine callbacks of [ap_settings] and
    requests to the network library. *)
Inductive event :=
  | Ev_give_item (doom_type ep map : Z)
  | Ev_message (msg : string)
  | Ev_victory
  | Ev_AP_StoryComplete
  | Ev_AP_SendItem (id : Z).

#[global] Instance event_eq_dec : EqDecision event.
Proof. solve_decision. Defined.

(** The file-scope variables of [apdoom.cpp] that the modelled entry
    points read or write. *)
Record world := {
  ap_state : ap_state_t;
  ap_is_in_game : Z;
  ap_item_queue : list Z;
  ap_progressive_locations : gset Z;
  ap_initialized : bool;
  ap_cached_messages : list string;
  ap_notification_icons : list ap_notification_icon_t;
  ap_save_dir_name : string;
  trace : list event
}.

(** Field updates. *)
Definition set_level_states (f : list ap_level_state_t) (s : ap_state_t) : ap_state_t :=
  {| level_states := f; player_state := player_state s; st_ep := st_ep s;
     st_map := st_map s; difficulty := difficulty s;
     random_monsters := random_monsters s; random_items := random_items s;
     random_music := random_music s; two_ways_keydoors := two_ways_keydoors s;
     episodes := episodes s; victory := victory s; flip_levels := flip_levels s;
     check_sanity := check_sanity s; reset_level_on_death := reset_level_on_death s;
     goal := goal s; max_ammo_start := max_ammo_start s;
     max_ammo_add := max_ammo_add s |}.

Definition set_player_state (p : ap_player_state_t) (s : ap_state_t) : ap_state_t :=
  {| level_states := level_states s; player_state := p; st_ep := st_ep s;
     st_map := st_map s; difficulty := difficulty s;
     random_monsters := random_monsters s; random_items := random_items s;
     random_music := random_music s; two_ways_keydoors := two_ways_keydoors s;
     episodes := episodes s; victory := victory s; flip_levels := flip_levels s;
     check_sanity := check_sanity s; reset_level_on_death := reset_level_on_death s;
     goal := goal s; max_ammo_start := max_ammo_start s;
     max_ammo_add := max_ammo_add s |}.

Definition set_victory (v : Z) (s : ap_state_t) : ap_state_t :=
  {| level_states := level_states s; player_state := player_state s; st_ep := st_ep s;
     st_map := st_map s; difficulty := difficulty s;
     random_monsters := random_monsters s; random_items := random_items s;
     random_music := random_music s; two_ways_keydoors := two_ways_keydoors s;
     episodes := episodes s; victory := v; flip_levels := flip_levels s;
     check_sanity := check_sanity s; reset_level_on_death := reset_level_on_death s;
     goal := goal s; max_ammo_start := max_ammo_start s;
     max_ammo_add := max_ammo_add s |}.

Definition set_episodes (e : list Z) (s : ap_state_t) : ap_state_t :=
  {| level_states := level_states s; player_state := player_state s; st_ep := st_ep s;
     st_map := st_map s; difficulty := difficulty s;
     random_monsters := random_monsters s; random_items := random_items s;
     random_music := random_music s; two_ways_keydoors := two_ways_keydoors s;
     episodes := e; victory := victory s; flip_levels := flip_levels s;
     check_sanity := check_sanity s; reset_level_on_death := reset_level_on_death s;
     goal := goal s; max_ammo_start := max_ammo_start s;
     max_ammo_add := max_ammo_add s |}.

Definition set_ep_map (e m : Z) (s : ap_state_t) : ap_state_t :=
  {| level_states := level_states s; player_state := player_state s; st_ep := e;
     st_map := m; difficulty := difficulty s;
     random_monsters := random_monsters s; random_items := random_items s;
     random_music := random_music s; two_ways_keydoors := two_ways_keydoors s;
     episodes := episodes s; victory := victory s; flip_levels := flip_levels s;
     check_sanity := check_sanity s; reset_level_on_death := reset_level_on_death s;
     goal := goal s; max_ammo_start := max_ammo_start s;
     max_ammo_add := max_ammo_add s |}.

(** [f_random_music] and [f_flip_levels], the slot-data callbacks, with no
    override in the settings: the value sent by the server is stored. *)
Definition f_random_music (v : Z) (s : ap_state_t) : ap_state_t :=
  {| level_states := level_states s; player_state := player_state s; st_ep := st_ep s;
     st_map := st_map s; difficulty := difficulty s;
     random_monsters := random_monsters s; random_items := random_items s;
     random_music := v; two_ways_keydoors := two_ways_keydoors s;
     episodes := episodes s; victory := victory s; flip_levels := flip_levels s;
     check_sanity := check_sanity s; reset_level_on_death := reset_level_on_death s;
     goal := goal s; max_ammo_start := max_ammo_start s;
     max_ammo_add := max_ammo_add s |}.

Definition f_flip_levels (v : Z) (s : ap_state_t) : ap_state_t :=
  {| level_states := level_states s; player_state := player_state s; st_ep := st_ep s;
     st_map := st_map s; difficulty := difficulty s;
     random_monsters := random_monsters s; random_items := random_items s;
     random_music := random_music s; two_ways_keydoors := two_ways_keydoors s;
     episodes := episodes s; victory := victory s; flip_levels := v;
     check_sanity := check_sanity s; reset_level_on_death := reset_level_on_death s;
     goal := goal s; max_ammo_start := max_ammo_start s;
     max_ammo_add := max_ammo_add s |}.

Definition set_max_ammo (m : list Z) (p : ap_player_state_t) : ap_player_state_t :=
  {| health := health p; armor_points := armor_points p; armor_type := armor_type p;
     ready_weapon := ready_weapon p; kill_count := kill_count p;
     item_count := item_count p; secret_count := secret_count p;
     powers := powers p; weapon_owned := weapon_owned p; ammo := ammo p;
     max_ammo := m; capacity_upgrades := capacity_upgrades p;
     inventory := inventory p |}.

Definition set_capacity_upgrades (c : list Z) (p : ap_player_state_t) : ap_player_state_t :=
  {| health := health p; armor_points := armor_points p; armor_type := armor_type p;
     ready_weapon := ready_weapon p; kill_count := kill_count p;
     item_count := item_count p; secret_count := secret_count p;
     powers := powers p; weapon_owned := weapon_owned p; ammo := ammo p;
     max_ammo := max_ammo p; capacity_upgrades := c;
     inventory := inventory p |}.

Definition set_weapon_owned (o : list Z) (p : ap_player_state_t) : ap_player_state_t :=
  {| health := health p; armor_points := armor_points p; armor_type := armor_type p;
     ready_weapon := ready_weapon p; kill_count := kill_count p;
     item_count := item_count p; secret_count := secret_count p;
     powers := powers p; weapon_owned := o; ammo := ammo p;
     max_ammo := max_ammo p; capacity_upgrades := capacity_upgrades p;
     inventory := inventory p |}.

Definition set_completed (v : Z) (l : ap_level_state_t) : ap_level_state_t :=
  {| completed := v; keys := keys l; check_count := check_count l;
     has_map := has_map l; unlocked := unlocked l; checks := checks l;
     special := special l; flipped := flipped l; music := music l |}.

Definition set_keys (k : list Z) (l : ap_level_state_t) : ap_level_state_t :=
  {| completed := completed l; keys := k; check_count := check_count l;
     has_map := has_map l; unlocked := unlocked l; checks := checks l;
     special := special l; flipped := flipped l; music := music l |}.

Definition set_has_map (v : Z) (l : ap_level_state_t) : ap_level_state_t :=
  {| completed := completed l; keys := keys l; check_count := check_count l;
     has_map := v; unlocked := unlocked l; checks := checks l;
     special := special l; flipped := flipped l; music := music l |}.

Definition set_unlocked (v : Z) (l : ap_level_state_t) : ap_level_state_t :=
  {| completed := completed l; keys := keys l; check_count := check_count l;
     has_map := has_map l; unlocked := v; checks := checks l;
     special := special l; flipped := flipped l; music := music l |}.

Definition set_special (v : Z) (l : ap_level_state_t) : ap_level_state_t :=
  {| completed := completed l; keys := keys l; check_count := check_count l;
     has_map := has_map l; unlocked := unlocked l; checks := checks l;
     special := v; flipped := flipped l; music := music l |}.

Definition set_flipped (v : Z) (l : ap_level_state_t) : ap_level_state_t :=
  {| completed := completed l; keys := keys l; check_count := check_count l;
     has_map := has_map l; unlocked := unlocked l; checks := checks l;
     special := special l; flipped := v; music := music l |}.

Definition set_music (v : Z) (l : ap_level_state_t) : ap_level_state_t :=
  {| completed := completed l; keys := keys l; check_count := check_count l;
     has_map := has_map l; unlocked := unlocked l; checks := checks l;
     special := special l; flipped := flipped l; music := v |}.

Definition set_checks (c : list Z) (n : Z) (l : ap_level_state_t) : ap_level_state_t :=
  {| completed := completed l; keys := keys l; check_count := n;
     has_map := has_map l; unlocked := unlocked l; checks := c;
     special := special l; flipped := flipped l; music := music l |}.

Definition set_ap_state (s : ap_state_t) (w : world) : world :=
  {| ap_state := s; ap_is_in_game := ap_is_in_game w;
     ap_item_queue := ap_item_queue w;
     ap_progressive_locations := ap_progressive_locations w;
     ap_initialized := ap_initialized w;
     ap_cached_messages := ap_cached_messages w;
     ap_notification_icons := ap_notification_icons w;
     ap_save_dir_name := ap_save_dir_name w; trace := trace w |}.

Definition set_in_game (v : Z) (w : world) : world :=
  {| ap_state := ap_state w; ap_is_in_game := v;
     ap_item_queue := ap_item_queue w;
     ap_progressive_locations := ap_progressive_locations w;
     ap_initialized := ap_initialized w;
     ap_cached_messages := ap_cached_messages w;
     ap_notification_icons := ap_notification_icons w;
     ap_save_dir_name := ap_save_dir_name w; trace := trace w |}.

Definition set_item_queue (q : list Z) (w : world) : world :=
  {| ap_state := ap_state w; ap_is_in_game := ap_is_in_game w;
     ap_item_queue := q;
     ap_progressive_locations := ap_progressive_locations w;
     ap_initialized := ap_initialized w;
     ap_cached_messages := ap_cached_messages w;
     ap_notification_icons := ap_notification_icons w;
     ap_save_dir_name := ap_save_dir_name w; trace := trace w |}.

Definition set_progressive_locations (p : gset Z) (w : world) : world :=
  {| ap_state := ap_state w; ap_is_in_game := ap_is_in_game w;
     ap_item_queue := ap_item_queue w;
     ap_progressive_locations := p;
     ap_initialized := ap_initialized w;
     ap_cached_messages := ap_cached_messages w;
     ap_notification_icons := ap_notification_icons w;
     ap_save_dir_name := ap_save_dir_name w; trace := trace w |}.

Definition set_cached_messages (c : list string) (w : world) : world :=
  {| ap_state := ap_state w; ap_is_in_game := ap_is_in_game w;
     ap_item_queue := ap_item_queue w;
     ap_progressive_locations := ap_progressive_locations w;
     ap_initialized := ap_initialized w;
     ap_cached_messages := c;
     ap_notification_icons := ap_notification_icons w;
     ap_save_dir_name := ap_save_dir_name w; trace := trace w |}.

Definition set_notification_icons (n : list ap_notification_icon_t) (w : world) : world :=
  {| ap_state := ap_state w; ap_is_in_game := ap_is_in_game w;
     ap_item_queue := ap_item_queue w;
     ap_progressive_locations := ap_progressive_locations w;
     ap_initialized := ap_initialized w;
     ap_cached_messages := ap_cached_messages w;
     ap_notification_icons := n;
     ap_save_dir_name := ap_save_dir_name w; trace := trace w |}.

(** A call to a callback or to the network library. *)
Definition emit (e : event) (w : world) : world :=
  {| ap_state := ap_state w; ap_is_in_game := ap_is_in_game w;
     ap_item_queue := ap_item_queue w;
     ap_progressive_locations := ap_progressive_locations w;
     ap_initialized := ap_initialized w;
     ap_cached_messages := ap_cached_messages w;
     ap_notification_icons := ap_notification_icons w;
     ap_save_dir_name := ap_save_dir_name w; trace := trace w ++ [e] |}.

(** Messages handed over by the network library ([AP_Message] and its
    subclasses). *)
Inductive AP_Message :=
  | Msg_ItemSend (text item recvPlayer : string)
  | Msg_ItemRecv (text item sendPlayer : string)
  | Msg_Hint (text item sendPlayer recvPlayer location : string) (checked : bool)
  | Msg_Plaintext (text : string).

(** [std::map::find] on an association list in key order. *)
Fixpoint assoc_find {V} (k : Z) (l : list (Z * V)) : option V :=
  match l with
  | [] => None
  | (k', v) :: rest => if decide (k' = k) then Some v else assoc_find k rest
  end.

(** [for (...) { if (!p(i)) return; }]: [Some false] when some iteration
    returns early, [Some true] when the loop runs to its end. *)
Fixpoint all_loop (n : nat) (i : Z) (p : Z → option bool) : option bool :=
  match n with
  | O => Some true
  | S n' => b ← p i; if b : bool then all_loop n' (i + 1) p else Some false
  end.

Definition all_upto (hi : Z) (p : Z → option bool) : option bool :=
  all_loop (Z.to_nat hi) 0 p.

(** [name.find_first_of('(')] *)
Fixpoint find_first_of (c : ascii) (s : string) : option nat :=
  match s with
  | EmptyString => None
  | String c' rest =>
      if decide (c' = c) then Some O else S <$> find_first_of c rest
  end.

(** [name.substr(pos)] *)
Fixpoint substr_from (pos : nat) (s : string) : string :=
  match pos, s with
  | O, _ => s
  | S p, String _ rest => substr_from p rest
  | S _, EmptyString => EmptyString
  end.

Definition get_exmx_name (name : string) : string :=
  match find_first_of "("%char name with
  | None => name
  | Some pos => substr_from pos name
  end.

(** What [snprintf(dst, n + 1, "%s", src)] leaves in [dst]. *)
Fixpoint truncate (n : nat) (s : string) : string :=
  match n, s with
  | S n', String c rest => String c (truncate n' rest)
  | _, _ => EmptyString
  end.

Definition doom_keys_map : gmap Z Z :=
  list_to_map [(5, 0); (40, 0); (6, 1); (39, 1); (13, 2); (38, 2)].
Definition doom2_keys_map : gmap Z Z :=
  list_to_map [(5, 0); (40, 0); (6, 1); (39, 1); (13, 2); (38, 2)].
Definition heretic_keys_map : gmap Z Z :=
  list_to_map [(80, 0); (73, 1); (79, 2)].

Definition doom_weapons_map : gmap Z Z :=
  list_to_map [(2001, 2); (2002, 3); (2003, 4); (2004, 5); (2006, 6); (2005, 7)].
Definition doom2_weapons_map : gmap Z Z :=
  list_to_map [(2001, 2); (2002, 3); (2003, 4); (2004, 5); (2006, 6); (2005, 7); (82, 8)].
Definition heretic_weapons_map : gmap Z Z :=
  list_to_map [(2005, 7); (2001, 2); (53, 3); (2003, 5); (2002, 6); (2004, 4)].

Definition doom_max_ammos : list Z := [200; 50; 300; 50].
Definition doom2_max_ammos : list Z := [200; 50; 300; 50].
Definition heretic_max_ammos : list Z := [100; 50; 200; 200; 20; 150].

(** ** The save document

    [Json::Value] of jsoncpp, reduced to what [save_state] writes and
    [load_state] reads. Integral numbers of every width are [JInt]. An
    object is the list of its members; keys are unique, so lookups do not
    depend on the order. An operation on which jsoncpp throws is [None]. *)
Unset Elimination Schemes.
Inductive Json :=
  | JNull
  | JInt (z : Z)
  | JBool (b : bool)
  | JString (s : string)
  | JArray (elems : list Json)
  | JObject (members : list (string * Json)).
Set Elimination Schemes.

Fixpoint members_find (k : string) (l : list (string * Json)) : Json :=
  match l with
  | [] => JNull
  | (k', v) :: rest => if String.eqb k' k then v else members_find k rest
  end.

(** [json[key]] read: a missing member and a member of [null] read as
    [null]; any other non-object throws. *)
Definition json_member (k : string) (j : Json) : option Json :=
  match j with
  | JNull => Some JNull
  | JObject l => Some (members_find k l)
  | _ => None
  end.

(** [json[i]] read with an [int] subscript: an element past the end and an
    element of [null] read as [null]; any other non-array throws. The
    subscript converts to the unsigned [ArrayIndex], so a negative one is
    past the end. *)
Definition json_at (i : Z) (j : Json) : option Json :=
  match j with
  | JNull => Some JNull
  | JArray l => Some (default JNull (arr_get l i))
  | _ => None
  end.

(** [isInt()] holds of an integral number in the range of [int], and of
    nothing else: not of a boolean. *)
Definition json_isInt (j : Json) : bool :=
  match j with
  | JInt z => bool_decide (INT_MIN ≤ z ≤ INT_MAX)
  | _ => false
  end.

Definition json_asInt (j : Json) : option Z :=
  match j with
  | JNull => Some 0
  | JInt z => if decide (INT_MIN ≤ z ≤ INT_MAX) then Some z else None
  | JBool b => Some (if b then 1 else 0)
  | _ => None
  end.

Definition json_asInt64 (j : Json) : option Z :=
  match j with
  | JNull => Some 0
  | JInt z =>
      if decide (-9223372036854775808 ≤ z ≤ 9223372036854775807) then Some z else None
  | JBool b => Some (if b then 1 else 0)
  | _ => None
  end.

(** The values a range-[for] over a [Json::Value] visits. *)
Definition json_elems (j : Json) : list Json :=
  match j with
  | JArray l => l
  | JObject l => l.*2
  | _ => []
  end.

Definition json_get_int (json : Json) (out_or_default : Z) : option Z :=
  if json_isInt json then json_asInt json else Some out_or_default.

Definition json_get_bool_or (json : Json) (out_or_default : Z) : option Z :=
  if json_isInt json then Z.lor out_or_default <$> json_asInt json
  else Some out_or_default.

Definition APDOOM_VERSION_FULL_TEXT : string := "APDOOM 1.2.0 PWAD".

(** ** A small catalog

    Two episodes, three levels, six items and seven locations: enough to
    run every entry point of the model. [demo_srand] and [demo_rand]
    stand for a libc generator, a linear congruential one. *)

Definition demo_level_info (name : string) (e m : Z) : ap_level_info_t :=
  {| li_name := name; li_keys := [1; 0; 0]; li_use_skull := [0; 0; 0];
     li_check_count := 2; li_thing_count := 0; li_thing_infos := [];
     li_sanity_check_count := 0; li_game_episode := e; li_game_map := m |}.

Definition demo : defs :=
  {| ap_base_game := doom;
     preloaded_level_info :=
       [[demo_level_info "Hangar (E1M1)" 1 1;
         demo_level_info "Nuclear Plant (E1M2)" 1 2];
        [demo_level_info "Deimos Anomaly (E2M1)" 2 1]];
     preloaded_item_table :=
       list_to_map
         [(100, {| doom_type := 8; item_ep := -1; item_map := -1 |});
          (101, {| doom_type := 65001; item_ep := -1; item_map := -1 |});
          (200, {| doom_type := 5; item_ep := 1; item_map := 2 |});
          (201, {| doom_type := 2001; item_ep := -1; item_map := -1 |});
          (300, {| doom_type := -1; item_ep := 1; item_map := 2 |});
          (301, {| doom_type := -2; item_ep := 1; item_map := 1 |})];
     preloaded_location_table :=
       [(1, [(1, [(-1, 9000); (0, 9001); (3, 9002)]); (2, [(-1, 9010); (1, 9011)])]);
        (2, [(1, [(-1, 9020); (0, 9021)])])];
     preloaded_type_sprites :=
       list_to_map [(8, "BPAKA0"%string); (-1, "UNLKA0"%string);
                    (5, "BKEYA0"%string)] |}.

Definition demo_srand (seed : Z) : Z := seed.

Definition demo_rand (g : Z) : Z * Z :=
  let g' := (g * 1103515245 + 12345) `mod` 2147483648 in (g', g').

(** A one-level catalog whose level lists two things, the second of which
    is a check only under check sanity. *)
Definition demo_things : defs :=
  {| ap_base_game := doom;
     preloaded_level_info :=
       [[{| li_name := "Hangar (E1M1)"; li_keys := [1; 0; 0];
            li_use_skull := [0; 0; 0]; li_check_count := 2; li_thing_count := 2;
            li_thing_infos :=
              [{| ti_doom_type := 2018; ti_index := 0; ti_check_sanity := 0;
                  ti_unreachable := 0 |};
               {| ti_doom_type := 2019; ti_index := 1; ti_check_sanity := 1;
                  ti_unreachable := 0 |}];
            li_sanity_check_count := 1; li_game_episode := 1;
            li_game_map := 1 |}]];
     preloaded_item_table := ∅;
     preloaded_location_table := [];
     preloaded_type_sprites := ∅ |}.

(** ** The session over a fixed catalog *)

Section Session.

Variable D : defs.

Definition get_level_info_table : list (list ap_level_info_t) := preloaded_level_info D.
Definition get_item_type_table : gmap Z ap_item_t := preloaded_item_table D.
Definition get_location_table : list (Z * list (Z * list (Z * Z))) :=
  preloaded_location_table D.
Definition get_sprites : gmap Z string := preloaded_type_sprites D.

Definition get_keys_map : gmap Z Z :=
  match ap_base_game D with
  | doom => doom_keys_map
  | doom2 => doom2_keys_map
  | heretic => heretic_keys_map
  end.

Definition get_weapons_map : gmap Z Z :=
  match ap_base_game D with
  | doom => doom_weapons_map
  | doom2 => doom2_weapons_map
  | heretic => heretic_weapons_map
  end.

Definition get_map_doom_type : Z :=
  match ap_base_game D with
  | doom => 2026
  | doom2 => 2026
  | heretic => 35
  end.

Definition get_default_max_ammos : list Z :=
  match ap_base_game D with
  | doom => doom_max_ammos
  | doom2 => doom2_max_ammos
  | heretic => heretic_max_ammos
  end.

(** The counts [apdoom_init] derives from the base game and the level
    table before anything else runs. *)
Definition ap_weapon_count : Z := 9.
Definition ap_ammo_count : Z :=
  match ap_base_game D with heretic => 6 | _ => 4 end.
Definition ap_powerup_count : Z :=
  match ap_base_game D with heretic => 9 | _ => 6 end.
Definition ap_inventory_count : Z :=
  match ap_base_game D with heretic => 14 | _ => 0 end.
Definition ap_episode_count : Z := int_size get_level_info_table.
Definition max_map_count : Z :=
  foldl (λ m episode_level_info, Z.max m (int_size episode_level_info)) 0
        get_level_info_table.

(** *** Catalog accessors *)

(** In both accessors the bounds test precedes the subscript, so the
    subscript is never out of range; the fallback of [from_option] and the
    [None] of an inner [arr_get] are not reached
    (lemma [checked_subscript_defined]). *)
Definition ap_get_map_count (ep : Z) : Z :=
  let ep := int_sub ep 1 in
  if decide (ep < 0 ∨ ep >= int_size get_level_info_table) then -1
  else from_option int_size (-1) (arr_get get_level_info_table ep).

(** The null pointer is [None]. *)
Definition ap_get_level_info (idx : ap_level_index_t) : option ap_level_info_t :=
  if decide (idx_ep idx < 0 ∨ idx_ep idx >= int_size get_level_info_table) then None
  else
    row ← arr_get get_level_info_table (idx_ep idx);
    if decide (idx_map idx < 0 ∨ idx_map idx >= int_size row) then None
    else arr_get row (idx_map idx).




(** [idx.ep * max_map_count + idx.map], the subscript used by
    [ap_get_level_state]. *)
Definition level_state_index (idx : ap_level_index_t) : Z :=
  int_add (int_mul (idx_ep idx) max_map_count) (idx_map idx).

(** [*ap_get_level_state(idx)] read. *)
Definition ap_get_level_state (s : ap_state_t) (idx : ap_level_index_t)
  : option ap_level_state_t :=
  arr_get (level_states s) (level_state_index idx).

(** A write through the pointer [ap_get_level_state(idx)]. *)
Definition upd_level_state (idx : ap_level_index_t)
    (f : ap_level_state_t → option ap_level_state_t) (s : ap_state_t)
  : option ap_state_t :=
  l ← ap_get_level_state s idx;
  l' ← f l;
  ls ← arr_set (level_states s) (level_state_index idx) l';
  Some (set_level_states ls s).

Definition ap_index_to_map (idx : ap_level_index_t) : option Z :=
  row ← arr_get get_level_info_table (idx_ep idx);
  li_game_map <$> arr_get row (idx_map idx).

(** *** Ammo capacity *)

Definition recalc_max_ammo (s : ap_state_t) : option ap_state_t :=
  for_upto ap_ammo_count (λ i s,
    start ← arr_get (max_ammo_start s) i;
    add ← arr_get (max_ammo_add s) i;
    upgrades ← arr_get (capacity_upgrades (player_state s)) i;
    let recalc_max := int_add start (int_mul add upgrades) in
    m ← arr_set (max_ammo (player_state s)) i
          (if decide (recalc_max > 999) then 999 else recalc_max);
    Some (set_player_state (set_max_ammo m (player_state s)) s)) s.

(** [++ap_state.player_state.capacity_upgrades[i]] *)
Definition inc_capacity_upgrade (i : Z) (s : ap_state_t) : option ap_state_t :=
  c ← arr_get (capacity_upgrades (player_state s)) i;
  cs ← arr_set (capacity_upgrades (player_state s)) i (int_add c 1);
  Some (set_player_state (set_capacity_upgrades cs (player_state s)) s).

(** *** Item reception *)

Definition new_notification_icon (sprite_name notif_text : string)
  : ap_notification_icon_t :=
  let xf := AP_NOTIF_SIZE `quot` 2 + AP_NOTIF_PADDING in
  let yf := -200 + AP_NOTIF_SIZE `quot` 2 in
  {| n_sprite := truncate 8 sprite_name;
     n_x := xf; n_y := yf;
     n_xf := inject_Z xf; n_yf := inject_Z yf;
     n_velx := 0%Q; n_vely := 0%Q;
     n_text := if decide (notif_text ≠ ""%string) then truncate 259 notif_text
               else ""%string;
     n_t := 0;
     n_state := AP_NOTIF_STATE_PENDING |}.

(** [{item.ep - 1, item.map - 1}] *)
Definition item_level_index (item : ap_item_t) : ap_level_index_t :=
  {| idx_ep := int_sub (item_ep item) 1; idx_map := int_sub (item_map item) 1 |}.

Definition process_received_item (item_id : Z) (w : world) : option world :=
  match get_item_type_table !! item_id with
  | None => Some w
  | Some item =>
      notif_text ←
        (if decide (item_ep item ≠ -1) then
           level_info ← ap_get_level_info (item_level_index item);
           Some (get_exmx_name (li_name level_info))
         else Some ""%string);
      let w := emit (Ev_give_item (doom_type item) (item_ep item) (item_map item)) w in
      match get_sprites !! doom_type item with
      | Some sprite_name =>
          Some (set_notification_icons
                  (ap_notification_icons w
                     ++ [new_notification_icon sprite_name notif_text]) w)
      | None => Some w
      end
  end.

(** The blocks of [f_itemrecv], in source order. The pointer
    [level_state] is followed only inside the key, map, unlock and complete
    blocks. *)
(** "Backpack?" *)
Definition recv_backpack (item : ap_item_t) (s : ap_state_t) : option ap_state_t :=
  if decide (doom_type item = 8) then
    for_upto ap_ammo_count inc_capacity_upgrade s ≫= recalc_max_ammo
  else Some s.

(** "Single ammo capacity upgrade?" *)
Definition recv_ammo_upgrade (item : ap_item_t) (s : ap_state_t) : option ap_state_t :=
  if decide (doom_type item >= 65001 ∧ doom_type item <= 65006) then
    let ammo_num := int_sub (doom_type item) 65001 in
    (if decide (ammo_num < ap_ammo_count)
     then inc_capacity_upgrade ammo_num s else Some s)
      ≫= recalc_max_ammo
  else Some s.

(** "Key?" *)
Definition recv_key (item : ap_item_t) (s : ap_state_t) : option ap_state_t :=
  match get_keys_map !! doom_type item with
  | Some k =>
      upd_level_state (item_level_index item)
        (λ l, ks ← arr_set (keys l) k 1; Some (set_keys ks l)) s
  | None => Some s
  end.

(** "Weapon?" *)
Definition recv_weapon (item : ap_item_t) (s : ap_state_t) : option ap_state_t :=
  match get_weapons_map !! doom_type item with
  | Some wp =>
      o ← arr_set (weapon_owned (player_state s)) wp 1;
      Some (set_player_state (set_weapon_owned o (player_state s)) s)
  | None => Some s
  end.

(** "Map?" *)
Definition recv_map (item : ap_item_t) (s : ap_state_t) : option ap_state_t :=
  if decide (doom_type item = get_map_doom_type)
  then upd_level_state (item_level_index item) (λ l, Some (set_has_map 1 l)) s
  else Some s.

(** "Level unlock?" *)
Definition recv_unlock (item : ap_item_t) (s : ap_state_t) : option ap_state_t :=
  if decide (doom_type item = -1)
  then upd_level_state (item_level_index item) (λ l, Some (set_unlocked 1 l)) s
  else Some s.

(** "Level complete?" *)
Definition recv_complete (item : ap_item_t) (s : ap_state_t) : option ap_state_t :=
  if decide (doom_type item = -2)
  then upd_level_state (item_level_index item) (λ l, Some (set_completed 1 l)) s
  else Some s.

(** Everything [f_itemrecv] does to [ap_state], before it looks at
    [notify_player]. *)
Definition recv_state (item : ap_item_t) (s : ap_state_t) : option ap_state_t :=
  s ← recv_backpack item s;
  s ← recv_ammo_upgrade item s;
  s ← recv_key item s;
  s ← recv_weapon item s;
  s ← recv_map item s;
  s ← recv_unlock item s;
  recv_complete item s.

Definition f_itemrecv (item_id : Z) (player_id : Z) (notify_player : bool)
    (w : world) : option world :=
  match get_item_type_table !! item_id with
  | None => Some w
  | Some item =>
      s ← recv_state item (ap_state w);
      let w := set_ap_state s w in
      if negb notify_player then Some w
      else if decide (ap_is_in_game w = 0)
           then Some (set_item_queue (ap_item_queue w ++ [item_id]) w)
           else process_received_item item_id w
  end.

(** *** Location checks *)

(** The innermost loop of [find_location]: the first entry whose location
    id is [loc_id] sets the three outputs. *)
Fixpoint find_location_index (ep_key map_key loc_id : Z) (l : list (Z * Z))
    (out : Z * Z * Z) : Z * Z * Z :=
  match l with
  | [] => out
  | (index_key, id) :: rest =>
      if decide (id = loc_id) then (ep_key, map_key, index_key)
      else find_location_index ep_key map_key loc_id rest out
  end.

Fixpoint find_location_map (ep_key loc_id : Z) (l : list (Z * list (Z * Z)))
    (out : Z * Z * Z) : Z * Z * Z :=
  match l with
  | [] => out
  | (map_key, loc_index_table) :: rest =>
      let out := find_location_index ep_key map_key loc_id loc_index_table out in
      if decide (out.1.1 ≠ -1) then out
      else find_location_map ep_key loc_id rest out
  end.

Fixpoint find_location_ep (loc_id : Z) (l : list (Z * list (Z * list (Z * Z))))
    (out : Z * Z * Z) : Z * Z * Z :=
  match l with
  | [] => out
  | (ep_key, loc_map_table) :: rest =>
      let out := find_location_map ep_key loc_id loc_map_table out in
      if decide (out.1.1 ≠ -1) then out
      else find_location_ep loc_id rest out
  end.

(** Returns the [bool] result and the outputs [(ep, map, index)]. *)
Definition find_location (loc_id : Z) : bool * (Z * Z * Z) :=
  let out := find_location_ep loc_id get_location_table (-1, -1, -1) in
  (bool_decide (out.1.1 > 0), out).

Fixpoint is_loc_checked_loop (chk : list Z) (index : Z) (n : nat) (i : Z)
  : option bool :=
  match n with
  | O => Some false
  | S n' =>
      c ← arr_get chk i;
      if decide (c = index) then Some true
      else is_loc_checked_loop chk index n' (i + 1)
  end.

Definition level_is_loc_checked (l : ap_level_state_t) (index : Z) : option bool :=
  is_loc_checked_loop (checks l) index (Z.to_nat (check_count l)) 0.

Definition is_loc_checked (s : ap_state_t) (idx : ap_level_index_t) (index : Z)
  : option bool :=
  level_state ← ap_get_level_state s idx;
  level_is_loc_checked level_state index.

(** The body of [f_locrecv] once the location is found. *)
Definition record_check (idx : ap_level_index_t) (index : Z) (s : ap_state_t)
  : option ap_state_t :=
  checked ← is_loc_checked s idx index;
  if checked : bool then Some s
  else if decide (index < 0) then Some s
  else
    upd_level_state idx
      (λ level_state,
         c ← arr_set (checks level_state) (check_count level_state) index;
         Some (set_checks c (int_add (check_count level_state) 1) level_state)) s.

Definition f_locrecv (loc_id : Z) (w : world) : option world :=
  match find_location loc_id with
  | (false, _) => Some w
  | (true, (ep, map, index)) =>
      let idx := {| idx_ep := int_sub ep 1; idx_map := int_sub map 1 |} in
      s ← record_check idx index (ap_state w);
      Some (set_ap_state s w)
  end.

(** [AP_NetworkItem], reduced to the two fields [f_locinfo] reads. *)
Record AP_NetworkItem := { ni_location : Z; ni_flags : Z }.

Definition f_locinfo (loc_infos : list AP_NetworkItem) (w : world) : world :=
  foldl (λ w loc_info,
           if decide (Z.land (ni_flags loc_info) 1 ≠ 0)
           then set_progressive_locations
                  ({[ ni_location loc_info ]} ∪ ap_progressive_locations w) w
           else w) w loc_infos.

Definition apdoom_check_location (idx : ap_level_index_t) (index : Z) (w : world)
  : option world :=
  match assoc_find (int_add (idx_ep idx) 1) get_location_table with
  | None => Some w
  | Some t1 =>
      match assoc_find (int_add (idx_map idx) 1) t1 with
      | None => Some w
      | Some t2 =>
          match assoc_find index t2 with
          | None => Some w
          | Some id =>
              _ ← (if decide (index >= 0)
                   then is_loc_checked (ap_state w) idx index else Some false);
              Some (emit (Ev_AP_SendItem id) w)
          end
      end
  end.

Definition apdoom_complete_level (idx : ap_level_index_t) (w : world) : option world :=
  s ← upd_level_state idx (λ l, Some (set_completed 1 l)) (ap_state w);
  apdoom_check_location idx (-1) (set_ap_state s w).

(** *** Victory *)

(** The two completion scans of [apdoom_check_victory]; [Some false] is
    the early [return]. *)
Definition victory_levels_completed (s : ap_state_t) : option bool :=
  if decide (goal s = 1 ∧ (ap_base_game D = doom ∨ ap_base_game D = heretic)) then
    all_upto ap_episode_count (λ ep,
      e ← arr_get (episodes s) ep;
      if decide (e = 0) then Some true
      else
        l ← ap_get_level_state s {| idx_ep := ep; idx_map := 7 |};
        Some (bool_decide (completed l ≠ 0)))
  else
    all_upto ap_episode_count (λ ep,
      e ← arr_get (episodes s) ep;
      if decide (e = 0) then Some true
      else
        let map_count := ap_get_map_count (int_add ep 1) in
        all_upto map_count (λ map,
          l ← ap_get_level_state s {| idx_ep := ep; idx_map := map |};
          Some (bool_decide (completed l ≠ 0)))).

Definition apdoom_check_victory (w : world) : option world :=
  if decide (victory (ap_state w) ≠ 0) then Some w
  else
    done ← victory_levels_completed (ap_state w);
    if done : bool then
      Some (emit Ev_victory
              (emit Ev_AP_StoryComplete
                 (set_ap_state (set_victory 1 (ap_state w)) w)))
    else Some w.

(** *** Per-frame update *)

Definition colored_message (msg : AP_Message) : string :=
  match msg with
  | Msg_ItemSend _ item recvPlayer =>
      "~9" +:+ item +:+ "~2 was sent to ~4" +:+ recvPlayer
  | Msg_ItemRecv _ item sendPlayer =>
      "~2Received ~9" +:+ item +:+ "~2 from ~4" +:+ sendPlayer
  | Msg_Hint _ item sendPlayer recvPlayer location checked =>
      "~9" +:+ item +:+ "~2 from ~4" +:+ sendPlayer +:+ "~2 to ~4" +:+ recvPlayer
        +:+ "~2 at ~3" +:+ location
        +:+ (if checked then " (Checked)" else " (Unchecked)")
  | Msg_Plaintext text => "~2" +:+ text
  end.

Definition flush_cached_messages (w : world) : world :=
  if ap_initialized w then
    set_cached_messages [] (foldl (λ w m, emit (Ev_message m) w) w (ap_cached_messages w))
  else w.

(** The [while (AP_IsMessagePending())] loop over the messages the network
    library holds at the time of the call. *)
Definition handle_messages (pending : list AP_Message) (w : world) : world :=
  foldl (λ w msg,
           if ap_initialized w then emit (Ev_message (colored_message msg)) w
           else set_cached_messages (ap_cached_messages w ++ [colored_message msg]) w)
        w pending.

(** [while (!ap_item_queue.empty())]: the recursion follows the queue found
    on entry; [process_received_item] never touches the queue
    (lemma [process_received_item_queue]), so this is the queue the loop
    reads back at every iteration. *)
Fixpoint dequeue_items (queue : list Z) (w : world) : option world :=
  match queue with
  | [] => Some w
  | item_id :: rest =>
      process_received_item item_id (set_item_queue rest w) ≫= dequeue_items rest
  end.

(** The icon animation of [apdoom_update] works on [float] positions and
    velocities; it is taken as a parameter. *)
Variable update_notification_icons :
  list ap_notification_icon_t → list ap_notification_icon_t.

Definition apdoom_update (pending : list AP_Message) (w : world) : option world :=
  let w := flush_cached_messages w in
  let w := handle_messages pending w in
  w ← (if decide (ap_is_in_game w ≠ 0) then dequeue_items (ap_item_queue w) w
       else Some w);
  Some (set_notification_icons
          (update_notification_icons (ap_notification_icons w)) w).


(** *** Seeded randomisation of [apdoom_init] *)

(** [srand] and [rand] of the C library: a generator whose draws are
    determined by its state, and whose state after [srand] is determined by
    the seed. *)
Variable rng_state : Type.
Variable srand : Z → rng_state.
Variable rand : rng_state → Z * rng_state.

(** Whether plain [char] is signed on the target. *)
Variable char_is_signed : bool.

Definition wrap_u64 (z : Z) : Z := z `mod` 18446744073709551616.

(** [int c = *str] *)
Definition char_to_int (ch : ascii) : Z :=
  let n := Z.of_N (N_of_ascii ch) in
  if char_is_signed && bool_decide (n >= 128) then n - 256 else n.

Fixpoint hash_seed_loop (str : string) (hash : Z) : Z :=
  match str with
  | EmptyString => hash
  | String ch rest =>
      let c := char_to_int ch in
      if decide (c = 0) then hash
      else hash_seed_loop rest (wrap_u64 (wrap_u64 (Z.shiftl hash 5 + hash) + c))
  end.

Definition hash_seed (str : string) : Z := hash_seed_loop str 5381.

Definition apdoom_get_seed (w : world) : string := ap_save_dir_name w.

(** [if (!ep_count) ap_state.episodes[0] = 1;] *)
Definition select_default_episode (s : ap_state_t) : option ap_state_t :=
  ep_count ← for_upto ap_episode_count (λ i ep_count,
                e ← arr_get (episodes s) i;
                Some (if decide (e ≠ 0) then int_add ep_count 1 else ep_count)) 0;
  if decide (ep_count = 0) then
    e ← arr_set (episodes s) 0 1; Some (set_episodes e s)
  else Some s.

(** [for (ep ...) { map_count = ap_get_map_count(ep + 1); for (map ...) body }] *)
Definition for_each_level {St} (body : Z → Z → St → option St) (s : St)
  : option St :=
  for_upto ap_episode_count (λ ep s,
    let map_count := ap_get_map_count (int_add ep 1) in
    for_upto map_count (body ep) s) s.

Definition flip_levels_step (s : ap_state_t) (g : rng_state)
  : option (ap_state_t * rng_state) :=
  if decide (flip_levels s = 1) then
    s ← for_each_level (λ ep map s,
           upd_level_state {| idx_ep := ep; idx_map := map |}
             (λ l, Some (set_flipped 1 l)) s) s;
    Some (s, g)
  else if decide (flip_levels s = 2) then
    for_each_level (λ ep map '(s, g),
      let '(r, g) := rand g in
      s ← upd_level_state {| idx_ep := ep; idx_map := map |}
             (λ l, Some (set_flipped (r `rem` 2) l)) s;
      Some (s, g)) (s, g)
  else Some (s, g).

Definition ep4_music : list Z :=
  [2 * 9 + 3 + 1; 2 * 9 + 1 + 1; 2 * 9 + 2 + 1; 0 * 9 + 4 + 1; 1 * 9 + 6 + 1;
   1 * 9 + 3 + 1; 1 * 9 + 5 + 1; 1 * 9 + 4 + 1; 0 * 9 + 8 + 1].

Definition get_original_music_for_level (ep map : Z) : option Z :=
  match ap_base_game D with
  | doom =>
      if decide (ep = 4) then arr_get ep4_music (int_sub map 1)
      else Some (int_add (int_add 1 (int_mul (int_sub ep 1) (ap_get_map_count ep)))
                         (int_sub map 1))
  | doom2 =>
      m ← ap_index_to_map {| idx_ep := int_sub ep 1; idx_map := int_sub map 1 |};
      Some (int_sub (int_add 52 m) 1)
  | heretic =>
      Some (int_add (int_mul (int_sub ep 1) (ap_get_map_count ep)) (int_sub map 1))
  end.

Definition original_music_step (s : ap_state_t) : option ap_state_t :=
  for_each_level (λ ep map s,
    m ← get_original_music_for_level (int_add ep 1) (int_add map 1);
    upd_level_state {| idx_ep := ep; idx_map := map |}
      (λ l, Some (set_music m l)) s) s.

(** [for (ep ...) { if (selected) { map_count = ...; for (map ...) body } }] *)
Definition for_each_selected_level {St} (selected : Z → St → option bool)
    (body : Z → Z → St → option St) (s : St) : option St :=
  for_upto ap_episode_count (λ ep s,
    b ← selected ep s;
    if b : bool then
      let map_count := ap_get_map_count (int_add ep 1) in
      for_upto map_count (body ep) s
    else Some s) s.

(** "Collect music for all selected levels" *)
Definition collect_music_pool (s : ap_state_t) : option (list Z) :=
  for_each_selected_level
    (λ ep _, e ← arr_get (episodes s) ep;
             Some (bool_decide (e ≠ 0 ∨ random_music s = 2)))
    (λ ep map music_pool,
       l ← ap_get_level_state s {| idx_ep := ep; idx_map := map |};
       Some (music_pool ++ [music l])) [].

(** One iteration of the inner "Shuffle" loop. *)
Definition shuffle_music_level (ep map : Z)
    (st : ap_state_t * rng_state * list Z) : option (ap_state_t * rng_state * list Z) :=
  let '(s, g, music_pool) := st in
  let '(r, g) := rand g in
  if decide (int_size music_pool = 0) then None
  else
    let rnd := r `rem` int_size music_pool in
    mus ← arr_get music_pool rnd;
    let music_pool := delete (Z.to_nat rnd) music_pool in
    s ← upd_level_state {| idx_ep := ep; idx_map := map |}
           (λ l, Some (set_music mus l)) s;
    Some (s, g, music_pool).

Definition shuffle_music_step (s : ap_state_t) (g : rng_state)
  : option (ap_state_t * rng_state) :=
  if decide (random_music s > 0) then
    music_pool ← collect_music_pool s;
    '(s, g, _) ← for_each_selected_level
        (λ ep '(s, _, _), e ← arr_get (episodes s) ep; Some (bool_decide (e ≠ 0)))
        shuffle_music_level (s, g, music_pool);
    Some (s, g)
  else Some (s, g).

(** The part of [apdoom_init] between the end of the connection loop and
    the location scouting. The generator state on entry is replaced by
    [srand]. *)
Definition apdoom_init_randomize (w : world) : option (world * rng_state) :=
  s ← select_default_episode (ap_state w);
  let ap_seed := apdoom_get_seed w in
  let seed := hash_seed ap_seed in
  let g := srand (seed `mod` 4294967296) in
  '(s, g) ← flip_levels_step s g;
  s ← original_music_step s;
  '(s, g) ← shuffle_music_step s g;
  Some (set_ap_state s w, g).

(** *** Initial state, save and load *)

Definition zero_level_state : ap_level_state_t :=
  {| completed := 0; keys := [0; 0; 0]; check_count := 0; has_map := 0;
     unlocked := 0; checks := replicate (Z.to_nat AP_CHECK_MAX) 0; special := 0;
     flipped := 0; music := 0 |}.

(** [ap_state] as [apdoom_init] leaves it before it connects: zeroed
    arrays of the derived sizes, the starting inventory, the default ammo
    capacities, and every [checks] slot of a catalog level set to -1. *)
Definition apdoom_init_state : option ap_state_t :=
  let zeros (n : Z) := replicate (Z.to_nat n) 0 in
  p ← (weapons ← arr_set (zeros ap_weapon_count) 0 1;
       weapons ← arr_set weapons 1 1;
       ammos ← arr_set (zeros ap_ammo_count) 0 50;
       Some {| health := 100; armor_points := 0; armor_type := 0; ready_weapon := 1;
               kill_count := 0; item_count := 0; secret_count := 0;
               powers := zeros ap_powerup_count; weapon_owned := weapons;
               ammo := ammos; max_ammo := zeros ap_ammo_count;
               capacity_upgrades := zeros ap_ammo_count;
               inventory := replicate (Z.to_nat ap_inventory_count)
                              {| slot_type := 0; slot_count := 0 |} |});
  let s :=
    {| level_states :=
         replicate (Z.to_nat (int_mul ap_episode_count max_map_count)) zero_level_state;
       player_state := p; st_ep := 0; st_map := 0; difficulty := 0;
       random_monsters := 0; random_items := 0; random_music := 0;
       two_ways_keydoors := 0; episodes := zeros ap_episode_count; victory := 0;
       flip_levels := 0; check_sanity := 0; reset_level_on_death := 0; goal := 0;
       max_ammo_start := take (Z.to_nat ap_ammo_count) get_default_max_ammos;
       max_ammo_add := take (Z.to_nat ap_ammo_count) get_default_max_ammos |} in
  for_each_level (λ ep map s,
    upd_level_state {| idx_ep := ep; idx_map := map |}
      (λ l, c ← for_upto AP_CHECK_MAX (λ k c, arr_set c k (-1)) (checks l);
            Some (set_checks c (check_count l) l)) s) s.

(** An array of [count] ints appended one by one. *)
Definition json_int_array (count : Z) (a : list Z) : option Json :=
  JArray <$> for_upto count (λ i acc, v ← arr_get a i; Some (acc ++ [JInt v])) [].

Definition serialize_level (s : ap_state_t) (ep map : Z) : option Json :=
  level_state ← ap_get_level_state s
                   {| idx_ep := int_sub ep 1; idx_map := int_sub map 1 |};
  k0 ← arr_get (keys level_state) 0;
  k1 ← arr_get (keys level_state) 1;
  k2 ← arr_get (keys level_state) 2;
  json_checks ← for_upto AP_CHECK_MAX (λ k acc,
                   c ← arr_get (checks level_state) k;
                   Some (if decide (c = -1) then acc else acc ++ [JInt c])) [];
  Some (JObject
          [("completed", JInt (completed level_state)); ("keys0", JInt k0);
           ("keys1", JInt k1); ("keys2", JInt k2);
           ("check_count", JInt (check_count level_state));
           ("has_map", JInt (has_map level_state));
           ("unlocked", JInt (unlocked level_state));
           ("special", JInt (special level_state));
           ("checks", JArray json_checks)]%string).

(** [std::set] iterates in ascending order. *)
Definition set_in_order (s : gset Z) : list Z := merge_sort Z.le (elements s).

(** A member that exists only once something has been stored under it. *)
Definition member_if_any (k : string) (l : list Json) : list (string * Json) :=
  match l with [] => [] | _ => [(k, JArray l)] end.

(** The document [save_state] streams to [apstate.json]; when the file
    cannot be opened the function returns without writing. *)
Definition save_state (w : world) : option Json :=
  let s := ap_state w in
  let ps := player_state s in
  json_powers ← json_int_array ap_powerup_count (powers ps);
  json_weapon_owned ← json_int_array ap_weapon_count (weapon_owned ps);
  json_ammo ← json_int_array ap_ammo_count (ammo ps);
  json_max_ammo ← json_int_array ap_ammo_count (max_ammo ps);
  json_inventory ← for_upto ap_inventory_count (λ i acc,
      slot ← arr_get (inventory ps) i;
      Some (if decide (slot_type slot = 9) then acc
            else acc ++ [JObject [("type", JInt (slot_type slot));
                                  ("count", JInt (slot_count slot))]%string])) [];
  let json_player :=
    JObject [("health", JInt (health ps)); ("armor_points", JInt (armor_points ps));
             ("armor_type", JInt (armor_type ps));
             ("ready_weapon", JInt (ready_weapon ps));
             ("kill_count", JInt (kill_count ps)); ("item_count", JInt (item_count ps));
             ("secret_count", JInt (secret_count ps));
             ("powers", json_powers); ("weapon_owned", json_weapon_owned);
             ("ammo", json_ammo); ("max_ammo", json_max_ammo);
             ("inventory", JArray json_inventory)]%string in
  json_episodes ← for_upto ap_episode_count (λ i acc,
      let map_count := ap_get_map_count (int_add i 1) in
      json_levels ← for_upto map_count (λ j acc,
          lv ← serialize_level s (int_add i 1) (int_add j 1);
          Some (acc ++ [lv])) [];
      Some (acc ++ [JArray json_levels])) [];
  enabled ← for_upto ap_episode_count (λ i acc,
      e ← arr_get (episodes s) i;
      Some (acc ++ [JBool (bool_decide (e ≠ 0))])) [];
  Some (JObject
          ([("player", json_player); ("episodes", JArray json_episodes);
            ("item_queue", JArray (JInt <$> ap_item_queue w));
            ("ep", JInt (st_ep s))]%string
           ++ member_if_any "enabled_episodes" enabled
           ++ [("map", JInt (st_map s))]%string
           ++ member_if_any "progressive_locations"
                (JInt <$> set_in_order (ap_progressive_locations w))
           ++ [("victory", JInt (victory s));
               ("version", JString APDOOM_VERSION_FULL_TEXT)]%string)).

(** [json_get_int(json["player"][key], field)] *)
Definition load_player_int (json : Json) (k : string) (field : Z) : option Z :=
  j ← json_member "player" json ≫= json_member k;
  json_get_int j field.

Definition load_player_state (json : Json) (ps : ap_player_state_t)
  : option ap_player_state_t :=
  health' ← load_player_int json "health" (health ps);
  armor_points' ← load_player_int json "armor_points" (armor_points ps);
  armor_type' ← load_player_int json "armor_type" (armor_type ps);
  ready_weapon' ← load_player_int json "ready_weapon" (ready_weapon ps);
  kill_count' ← load_player_int json "kill_count" (kill_count ps);
  item_count' ← load_player_int json "item_count" (item_count ps);
  secret_count' ← load_player_int json "secret_count" (secret_count ps);
  powers' ← for_upto ap_powerup_count (λ i a,
      j ← (json_member "player" json ≫= json_member "powers") ≫= json_at i;
      old ← arr_get a i; v ← json_get_int j old; arr_set a i v) (powers ps);
  weapon_owned' ← for_upto ap_weapon_count (λ i a,
      j ← (json_member "player" json ≫= json_member "weapon_owned") ≫= json_at i;
      old ← arr_get a i; v ← json_get_bool_or j old; arr_set a i v) (weapon_owned ps);
  '(ammo', max_ammo') ← for_upto ap_ammo_count (λ i '(a, m),
      j ← (json_member "player" json ≫= json_member "ammo") ≫= json_at i;
      old ← arr_get a i; v ← json_get_int j old; a ← arr_set a i v;
      (* This will get overwritten later, but it must be saved if the player
         is in game before all their items have been re-received. *)
      j ← (json_member "player" json ≫= json_member "max_ammo") ≫= json_at i;
      old ← arr_get m i; v ← json_get_int j old; m ← arr_set m i v;
      Some (a, m)) (ammo ps, max_ammo ps);
  inventory' ← for_upto ap_inventory_count (λ i a,
      inventory_slot ← (json_member "player" json ≫= json_member "inventory")
                         ≫= json_at i;
      old ← arr_get a i;
      ty ← json_member "type" inventory_slot ≫= λ j, json_get_int j (slot_type old);
      cn ← json_member "count" inventory_slot ≫= λ j, json_get_int j (slot_count old);
      arr_set a i {| slot_type := ty; slot_count := cn |}) (inventory ps);
  Some {| health := health'; armor_points := armor_points';
          armor_type := armor_type'; ready_weapon := ready_weapon';
          kill_count := kill_count'; item_count := item_count';
          secret_count := secret_count'; powers := powers';
          weapon_owned := weapon_owned'; ammo := ammo'; max_ammo := max_ammo';
          capacity_upgrades := capacity_upgrades ps; inventory := inventory' |}.

(** [json_get_bool_or(json["episodes"][i][j][key], field)] *)
Definition load_level_flag (json : Json) (i j : Z) (k : string) (field : Z)
  : option Z :=
  v ← ((json_member "episodes" json ≫= json_at i) ≫= json_at j) ≫= json_member k;
  json_get_bool_or v field.

(** The check count and the check list are written by [serialize_level]
    but not read back: both reads are commented out in the source. *)
Definition load_level_state (json : Json) (i j : Z) (l : ap_level_state_t)
  : option ap_level_state_t :=
  completed' ← load_level_flag json i j "completed" (completed l);
  k0 ← arr_get (keys l) 0;
  k0' ← load_level_flag json i j "keys0" k0;
  ks ← arr_set (keys l) 0 k0';
  k1 ← arr_get ks 1;
  k1' ← load_level_flag json i j "keys1" k1;
  ks ← arr_set ks 1 k1';
  k2 ← arr_get ks 2;
  k2' ← load_level_flag json i j "keys2" k2;
  ks ← arr_set ks 2 k2';
  has_map' ← load_level_flag json i j "has_map" (has_map l);
  unlocked' ← load_level_flag json i j "unlocked" (unlocked l);
  special' ← load_level_flag json i j "special" (special l);
  Some {| completed := completed'; keys := ks; check_count := check_count l;
          has_map := has_map'; unlocked := unlocked'; checks := checks l;
          special := special'; flipped := flipped l; music := music l |}.

(** [load_state] on the parsed content of [apstate.json]; [file] is [None]
    when the file does not exist. The document read back is the document
    written: writer and parser belong to jsoncpp. *)
Definition load_state (file : option Json) (w : world) : option world :=
  match file with
  | None => Some w
  | Some json =>
      let s := ap_state w in
      (* Player state *)
      ps ← load_player_state json (player_state s);
      let s := set_player_state ps s in
      (* Level states *)
      s ← for_each_level (λ i j s,
             upd_level_state {| idx_ep := i; idx_map := j |}
               (load_level_state json i j) s) s;
      (* Item queue *)
      ids ← json_member "item_queue" json ≫= λ q, mapM json_asInt64 (json_elems q);
      let w := set_item_queue (ap_item_queue w ++ ids) w in
      ep' ← json_member "ep" json ≫= λ j, json_get_int j (st_ep s);
      eps ← for_upto ap_episode_count (λ i a,
               j ← json_member "enabled_episodes" json ≫= json_at i;
               old ← arr_get a i; v ← json_get_int j old; arr_set a i v) (episodes s);
      map' ← json_member "map" json ≫= λ j, json_get_int j (st_map s);
      let s := set_ep_map ep' map' (set_episodes eps s) in
      locs ← json_member "progressive_locations" json
               ≫= λ p, mapM json_asInt64 (json_elems p);
      let w := set_progressive_locations
                 (list_to_set locs ∪ ap_progressive_locations w) w in
      victory' ← json_member "victory" json ≫= λ j, json_get_bool_or j (victory s);
      Some (set_ap_state (set_victory victory' s) w)
  end.

(** The session [apdoom_init] hands to [load_state]: the initial state
    after [recalc_max_ammo], nothing queued, nothing scouted. *)
Definition fresh_world (save_dir : string) : option world :=
  s ← apdoom_init_state ≫= recalc_max_ammo;
  Some {| ap_state := s; ap_is_in_game := 0; ap_item_queue := [];
          ap_progressive_locations := ∅; ap_initialized := false;
          ap_cached_messages := []; ap_notification_icons := [];
          ap_save_dir_name := save_dir; trace := [] |}.

(** *** The entry points as one transition system *)

(** What the engine and the network library may call once the session is
    initialised. [Call_set_in_game] is the engine's assignment to the
    [extern int ap_is_in_game]. *)
Inductive call :=
  | Call_f_itemrecv (item_id player_id : Z) (notify_player : bool)
  | Call_f_locrecv (loc_id : Z)
  | Call_f_locinfo (loc_infos : list AP_NetworkItem)
  | Call_apdoom_check_location (idx : ap_level_index_t) (index : Z)
  | Call_apdoom_complete_level (idx : ap_level_index_t)
  | Call_apdoom_check_victory
  | Call_apdoom_update (pending : list AP_Message)
  | Call_set_in_game (v : Z).

Definition do_call (c : call) (w : world) : option world :=
  match c with
  | Call_f_itemrecv item_id player_id notify_player =>
      f_itemrecv item_id player_id notify_player w
  | Call_f_locrecv loc_id => f_locrecv loc_id w
  | Call_f_locinfo loc_infos => Some (f_locinfo loc_infos w)
  | Call_apdoom_check_location idx index => apdoom_check_location idx index w
  | Call_apdoom_complete_level idx => apdoom_complete_level idx w
  | Call_apdoom_check_victory => apdoom_check_victory w
  | Call_apdoom_update pending => apdoom_update pending w
  | Call_set_in_game v => Some (set_in_game v w)
  end.

Fixpoint run (cs : list call) (w : world) : option world :=
  match cs with
  | [] => Some w
  | c :: cs => do_call c w ≫= run cs
  end.

(** The [give_item_callback] calls of a trace, in call order. *)
Definition given_items (tr : list event) : list (Z * Z * Z) :=
  omap (λ e, match e with
             | Ev_give_item d e m => Some (d, e, m)
             | _ => None
             end) tr.

Definition victory_callbacks (tr : list event) : nat :=
  length (filter (λ e, e = Ev_victory) tr).

Definition story_complete_signals (tr : list event) : nat :=
  length (filter (λ e, e = Ev_AP_StoryComplete) tr).

(** ** Predicates and views the statements are written with *)

(** The table and each of its rows have a size an [int] can hold. *)
Definition catalog_fits : Prop :=
  Z.of_nat (length get_level_info_table) ≤ INT_MAX ∧
  Forall (λ row : list ap_level_info_t, Z.of_nat (length row) ≤ INT_MAX)
         get_level_info_table.

Definition ammo_arrays_ok (s : ap_state_t) : Prop :=
  length (max_ammo_start s) = Z.to_nat ap_ammo_count ∧
  length (max_ammo_add s) = Z.to_nat ap_ammo_count ∧
  length (capacity_upgrades (player_state s)) = Z.to_nat ap_ammo_count ∧
  length (max_ammo (player_state s)) = Z.to_nat ap_ammo_count.

(** The value [recalc_max_ammo] stores for one ammo type. *)
Definition recalc_value (start add upgrades : Z) : Z :=
  let recalc_max := int_add start (int_mul add upgrades) in
  if decide (recalc_max > 999) then 999 else recalc_max.

(** Max ammo is the value derived from base, increment and upgrade count,
    for every ammo type whose sum fits an [int]. *)
Definition max_ammo_derived (s : ap_state_t) : Prop :=
  ∀ i start add upgrades,
    0 ≤ i < ap_ammo_count →
    arr_get (max_ammo_start s) i = Some start →
    arr_get (max_ammo_add s) i = Some add →
    arr_get (capacity_upgrades (player_state s)) i = Some upgrades →
    in_int (start + add * upgrades) →
    arr_get (max_ammo (player_state s)) i = Some (Z.min 999 (start + add * upgrades)).

Definition with_max_ammo (m : list Z) (s : ap_state_t) : ap_state_t :=
  set_player_state (set_max_ammo m (player_state s)) s.

(** A capacity upgrade: the backpack (8) or one of the single-ammo
    upgrades (65001 to 65006). *)
Definition is_capacity_upgrade (item : ap_item_t) : Prop :=
  doom_type item = 8 ∨ (65001 ≤ doom_type item ≤ 65006).

(** The ammo types whose upgrade count [f_itemrecv] raises for an item:
    every ammo type of the game for the backpack, the one it names for a
    single-ammo upgrade when the game has that ammo type. *)
Definition upgrade_counted (item : ap_item_t) (i : Z) : Prop :=
  0 ≤ i < ap_ammo_count ∧ (doom_type item = 8 ∨ doom_type item = 65001 + i).

(** An item that raises an upgrade count. *)
Definition counts_upgrade (item : ap_item_t) : Prop :=
  ∃ i, upgrade_counted item i.

(** Every item of the table that names a level names a level of the
    catalog, so [process_received_item] finds its level info. *)
Definition items_resolve : Prop :=
  ∀ id item,
    get_item_type_table !! id = Some item → item_ep item ≠ -1 →
    is_Some (ap_get_level_info (item_level_index item)).

(** The text [process_received_item] puts on the icon of an item. *)
Definition item_notif_text (item : ap_item_t) : string :=
  if decide (item_ep item ≠ -1) then
    from_option (λ level_info, get_exmx_name (li_name level_info)) ""%string
                (ap_get_level_info (item_level_index item))
  else ""%string.

Definition item_icons (item : ap_item_t) : list ap_notification_icon_t :=
  match get_sprites !! doom_type item with
  | Some sprite_name => [new_notification_icon sprite_name (item_notif_text item)]
  | None => []
  end.

Definition item_event (item : ap_item_t) : event :=
  Ev_give_item (doom_type item) (item_ep item) (item_map item).

(** A call that delivers a capacity upgrade. *)
Definition capacity_upgrade_call (c : call) : Prop :=
  ∃ item_id player_id notify_player item,
    c = Call_f_itemrecv item_id player_id notify_player ∧
    get_item_type_table !! item_id = Some item ∧ is_capacity_upgrade item.

(** The checked list of a level: the first [check_count] slots of
    [checks]. *)
Definition checked_list (l : ap_level_state_t) : list Z :=
  take (Z.to_nat (check_count l)) (checks l).

(** A step that neither touches the victory flag nor calls the victory
    callback or [AP_StoryComplete]. *)
Definition quiet_event (e : event) : Prop :=
  e ≠ Ev_victory ∧ e ≠ Ev_AP_StoryComplete.

Definition quiet (w w' : world) : Prop :=
  victory (ap_state w') = victory (ap_state w) ∧
  ∃ es, trace w' = trace w ++ es ∧ Forall quiet_event es.

(** The one victory still to be announced, while the flag is down. *)
Definition pending_victory (w : world) : nat :=
  if decide (victory (ap_state w) = 0) then 1%nat else 0%nat.

(** The table entries of the ids of a queue, in queue order; an id the
    table does not know is skipped by [process_received_item]. *)
Definition known_items (queue : list Z) : list ap_item_t :=
  omap (λ id, get_item_type_table !! id) queue.

(** The session once the queue found in [w] has been emptied. *)
Definition after_dequeue (w : world) : world :=
  let items := known_items (ap_item_queue w) in
  {| ap_state := ap_state w; ap_is_in_game := ap_is_in_game w;
     ap_item_queue := [];
     ap_progressive_locations := ap_progressive_locations w;
     ap_initialized := ap_initialized w;
     ap_cached_messages := ap_cached_messages w;
     ap_notification_icons :=
       ap_notification_icons w ++ concat (item_icons <$> items);
     ap_save_dir_name := ap_save_dir_name w;
     trace := trace w ++ (item_event <$> items) |}.

(** Message handling touches the trace and the message cache only, and
    never calls [give_item_callback]. *)
Definition messages_only (w w' : world) : Prop :=
  ap_state w' = ap_state w ∧ ap_is_in_game w' = ap_is_in_game w ∧
  ap_item_queue w' = ap_item_queue w ∧
  ap_notification_icons w' = ap_notification_icons w ∧
  given_items (trace w') = given_items (trace w).

(** The ids a run of item-received events leaves in the queue while the
    player is outside gameplay: those of the events that notify and whose
    id the table knows. *)
Definition queued_ids (evs : list (Z * Z * bool)) : list Z :=
  omap (λ ev : Z * Z * bool,
          let '(item_id, _, notify_player) := ev in
          if notify_player && bool_decide (is_Some (get_item_type_table !! item_id))
          then Some item_id else None) evs.

Definition item_calls (evs : list (Z * Z * bool)) : list call :=
  (λ ev : Z * Z * bool,
     let '(item_id, player_id, notify_player) := ev in
     Call_f_itemrecv item_id player_id notify_player) <$> evs.

(** The values of [i] a [for_loop] goes through. *)
Fixpoint upto_from (n : nat) (i : Z) : list Z :=
  match n with
  | O => []
  | S n' => i :: upto_from n' (i + 1)
  end.

Definition upto (hi : Z) : list Z := upto_from (Z.to_nat hi) 0.

(** A loop body run over a list of loop values. *)
Fixpoint fold_opt {A St} (f : A → St → option St) (l : list A) (s : St)
  : option St :=
  match l with
  | [] => Some s
  | a :: l => f a s ≫= fold_opt f l
  end.

(** The level indices of one episode and of the catalog, in the order
    the nested loops of [apdoom_init] visit them. *)
Definition episode_levels (ep : Z) : list (Z * Z) :=
  (λ map, (ep, map)) <$> upto (ap_get_map_count (int_add ep 1)).

Definition catalog_levels : list (Z * Z) :=
  upto ap_episode_count ≫= episode_levels.

Definition selected_levels (en : Z → bool) : list (Z * Z) :=
  upto ap_episode_count ≫= λ ep, if en ep then episode_levels ep else [].

(** The generator after [n] draws, and the draws. *)
Fixpoint draws (n : nat) (g : rng_state) : list Z * rng_state :=
  match n with
  | O => ([], g)
  | S n' => let '(r, g) := rand g in
            let '(rs, g) := draws n' g in (r :: rs, g)
  end.

(** The classic djb2 hash over the characters of a C string, with 64-bit
    wrap-around: [hash * 33 + c] from 5381. *)
Fixpoint djb2_from (str : string) (hash : Z) : Z :=
  match str with
  | EmptyString => hash
  | String ch rest =>
      if decide (char_to_int ch = 0) then hash
      else djb2_from rest ((hash * 33 + char_to_int ch) `mod` 18446744073709551616)
  end.

(** The catalog is small enough for [int] arithmetic on its sizes and on
    the subscripts of [level_states]. *)
Definition catalog_small : Prop :=
  catalog_fits ∧
  Z.of_nat (length get_level_info_table) * max_map_count ≤ INT_MAX.

Definition level_idx (lv : Z * Z) : ap_level_index_t :=
  {| idx_ep := lv.1; idx_map := lv.2 |}.

(** The track the game plays on a level when nothing is shuffled. *)
Definition original_music (lv : Z * Z) : option Z :=
  get_original_music_for_level (int_add lv.1 1) (int_add lv.2 1).

(** The track a state assigns to a level. *)
Definition level_music (s : ap_state_t) (lv : Z * Z) : option Z :=
  music <$> ap_get_level_state s (level_idx lv).

(** [ap_state.episodes[ep]] as a condition. *)
Definition episode_enabled (s : ap_state_t) (ep : Z) : bool :=
  match arr_get (episodes s) ep with
  | Some e => bool_decide (e ≠ 0)
  | None => false
  end.

(** The levels of the enabled episodes, in catalog order. *)
Definition enabled_levels (s : ap_state_t) : list (Z * Z) :=
  selected_levels (episode_enabled s).

(** The arrays of [ap_state] have the sizes [apdoom_init] allocates. *)
Definition state_sized (s : ap_state_t) : Prop :=
  Z.of_nat (length (level_states s)) = ap_episode_count * max_map_count ∧
  Z.of_nat (length (episodes s)) = ap_episode_count.

(** Two states that differ in the content of [level_states] at most. *)
Definition only_levels_differ (s s' : ap_state_t) : Prop :=
  s' = set_level_states (level_states s') s ∧
  length (level_states s') = length (level_states s).

Definition in_int64 (z : Z) : Prop :=
  -9223372036854775808 ≤ z ≤ 9223372036854775807.

Definition player_sized (p : ap_player_state_t) : Prop :=
  Z.of_nat (length (powers p)) = ap_powerup_count ∧
  Z.of_nat (length (weapon_owned p)) = ap_weapon_count ∧
  Z.of_nat (length (ammo p)) = ap_ammo_count ∧
  Z.of_nat (length (max_ammo p)) = ap_ammo_count ∧
  Z.of_nat (length (inventory p)) = ap_inventory_count.

Definition level_sized (l : ap_level_state_t) : Prop :=
  length (keys l) = 3%nat ∧ Z.of_nat (length (checks l)) = AP_CHECK_MAX.

(** The values of the persisted fields are values of their C types. *)
Definition level_ints (l : ap_level_state_t) : Prop :=
  in_int (completed l) ∧ Forall in_int (keys l) ∧ in_int (has_map l) ∧
  in_int (unlocked l) ∧ in_int (special l).

Definition player_ints (p : ap_player_state_t) : Prop :=
  in_int (health p) ∧ in_int (armor_points p) ∧ in_int (armor_type p) ∧
  in_int (ready_weapon p) ∧ in_int (kill_count p) ∧ in_int (item_count p) ∧
  in_int (secret_count p) ∧
  Forall in_int (powers p) ∧ Forall in_int (weapon_owned p) ∧
  Forall in_int (ammo p) ∧ Forall in_int (max_ammo p) ∧
  Forall (λ slot, in_int (slot_type slot) ∧ in_int (slot_count slot)) (inventory p).

(** A session whose arrays have the allocated sizes and whose persisted
    fields hold values of their C types; every level of the catalog has its
    three key flags and its [AP_CHECK_MAX] check slots. *)
Definition well_sized (w : world) : Prop :=
  state_sized (ap_state w) ∧
  player_sized (player_state (ap_state w)) ∧
  player_ints (player_state (ap_state w)) ∧
  in_int (st_ep (ap_state w)) ∧ in_int (st_map (ap_state w)) ∧
  in_int (victory (ap_state w)) ∧
  Forall in_int64 (ap_item_queue w) ∧
  (∀ id, id ∈ ap_progressive_locations w → in_int64 id) ∧
  ∀ lv l, lv ∈ catalog_levels →
          ap_get_level_state (ap_state w) (level_idx lv) = Some l →
          level_sized l ∧ level_ints l.

Definition slot_doc (slot : ap_inventory_slot_t) : Json :=
  JObject [("type", JInt (slot_type slot)); ("count", JInt (slot_count slot))]%string.

(** What [serialize_level] writes for a level with key flags [k0 k1 k2]. *)
Definition level_doc (l : ap_level_state_t) (k0 k1 k2 : Z) (json_checks : list Json)
  : Json :=
  JObject
    [("completed", JInt (completed l)); ("keys0", JInt k0);
     ("keys1", JInt k1); ("keys2", JInt k2);
     ("check_count", JInt (check_count l));
     ("has_map", JInt (has_map l));
     ("unlocked", JInt (unlocked l));
     ("special", JInt (special l));
     ("checks", JArray json_checks)]%string.

(** What a level holds after [load_level_state] has merged the saved
    level [l] into the level [lf] of the receiving session: the flags are
    OR-ed, everything else stays as in the receiving session. *)
Definition merged_level (lf l : ap_level_state_t) : ap_level_state_t :=
  {| completed := Z.lor (completed lf) (completed l);
     keys := zip_with Z.lor (keys lf) (keys l);
     check_count := check_count lf;
     has_map := Z.lor (has_map lf) (has_map l);
     unlocked := Z.lor (unlocked lf) (unlocked l);
     checks := checks lf;
     special := Z.lor (special lf) (special l);
     flipped := flipped lf;
     music := music lf |}.

Definition player_doc (p : ap_player_state_t) : Json :=
  JObject [("health", JInt (health p)); ("armor_points", JInt (armor_points p));
           ("armor_type", JInt (armor_type p));
           ("ready_weapon", JInt (ready_weapon p));
           ("kill_count", JInt (kill_count p)); ("item_count", JInt (item_count p));
           ("secret_count", JInt (secret_count p));
           ("powers", JArray (JInt <$> powers p));
           ("weapon_owned", JArray (JInt <$> weapon_owned p));
           ("ammo", JArray (JInt <$> ammo p));
           ("max_ammo", JArray (JInt <$> max_ammo p));
           ("inventory",
            JArray (slot_doc <$> filter (λ slot, slot_type slot ≠ 9) (inventory p)))]%string.

(** The document [save_state] writes, given its "episodes" and
    "enabled_episodes" arrays. *)
Definition document (w : world) (json_episodes enabled : list Json) : Json :=
  JObject
    ([("player", player_doc (player_state (ap_state w)));
      ("episodes", JArray json_episodes);
      ("item_queue", JArray (JInt <$> ap_item_queue w));
      ("ep", JInt (st_ep (ap_state w)))]%string
     ++ member_if_any "enabled_episodes" enabled
     ++ [("map", JInt (st_map (ap_state w)))]%string
     ++ member_if_any "progressive_locations"
          (JInt <$> set_in_order (ap_progressive_locations w))
     ++ [("victory", JInt (victory (ap_state w)));
         ("version", JString APDOOM_VERSION_FULL_TEXT)]%string).

(** The "episodes" array holds, at [ep][map], what [serialize_level]
    writes for that level. *)
Definition episodes_doc_ok (s : ap_state_t) (json_episodes : list Json) : Prop :=
  ∀ lv l, lv ∈ catalog_levels →
    ap_get_level_state s (level_idx lv) = Some l →
    ∃ k0 k1 k2 cks,
      keys l = [k0; k1; k2] ∧
      json_at lv.1 (JArray json_episodes) ≫= json_at lv.2
      = Some (level_doc l k0 k1 k2 cks).

Definition is_JBool (j : Json) : Prop := ∃ b, j = JBool b.

(** The inventory slots [save_state] writes: every slot but those of
    type 9. *)
Definition saved_inventory (p : ap_player_state_t) : list ap_inventory_slot_t :=
  filter (λ slot, slot_type slot ≠ 9) (inventory p).

(** What the player holds after [load_player_state] has merged the saved
    player [p] into the player [pf] of the receiving session. *)
Definition merged_player (pf p : ap_player_state_t) : ap_player_state_t :=
  {| health := health p; armor_points := armor_points p;
     armor_type := armor_type p; ready_weapon := ready_weapon p;
     kill_count := kill_count p; item_count := item_count p;
     secret_count := secret_count p; powers := powers p;
     weapon_owned := zip_with Z.lor (weapon_owned pf) (weapon_owned p);
     ammo := ammo p; max_ammo := max_ammo p;
     capacity_upgrades := capacity_upgrades pf;
     inventory := saved_inventory p
                  ++ drop (length (saved_inventory p)) (inventory pf) |}.

(** ** Further entry points of [apdoom.cpp] *)

(** [for (...) { if (p(i)) return r; }]: [Some (Some r)] when some
    iteration returns, [Some None] when the loop runs to its end. *)
Fixpoint find_loop {A} (n : nat) (i : Z) (p : Z → option (option A))
  : option (option A) :=
  match n with
  | O => Some None
  | S n' =>
      r ← p i;
      match r with
      | Some a => Some (Some a)
      | None => find_loop n' (i + 1) p
      end
  end.

Definition find_upto {A} (hi : Z) (p : Z → option (option A)) : option (option A) :=
  find_loop (Z.to_nat hi) 0 p.

(** The first level of the table, in table order, whose info carries the
    engine's episode and map numbers; [{0, 0}] when there is none. *)
Definition ap_make_level_index (gameepisode gamemap : Z) : option ap_level_index_t :=
  found ← find_upto (int_size get_level_info_table) (λ ep,
             row ← arr_get get_level_info_table ep;
             find_upto (int_size row) (λ map,
               info ← arr_get row map;
               Some (if decide (li_game_episode info = gameepisode
                                ∧ li_game_map info = gamemap)
                     then Some {| idx_ep := ep; idx_map := map |} else None)));
  Some (default {| idx_ep := 0; idx_map := 0 |} found).

Definition ap_index_to_ep (idx : ap_level_index_t) : option Z :=
  row ← arr_get get_level_info_table (idx_ep idx);
  li_game_episode <$> arr_get row (idx_map idx).

Definition ap_get_highest_episode (s : ap_state_t) : option Z :=
  for_upto ap_episode_count (λ i highest,
    e ← arr_get (episodes s) i;
    Some (if decide (e ≠ 0) then i else highest)) 0.

(** [level_info->...] on the null pointer has no defined behaviour. *)
Definition validate_doom_location (s : ap_state_t) (idx : ap_level_index_t)
    (index : Z) : option Z :=
  level_info ← ap_get_level_info idx;
  if decide (index >= li_thing_count level_info) then Some 0
  else
    thing ← arr_get (li_thing_infos level_info) index;
    if decide (ti_unreachable thing ≠ 0) then Some 0
    else Some (if decide (ti_check_sanity thing = 0 ∨ check_sanity s = 1)
               then 1 else 0).

Definition ap_validate_doom_location (s : ap_state_t) (idx : ap_level_index_t)
    (doom_type index : Z) : option Z :=
  level_info ← ap_get_level_info idx;
  if decide (index >= li_thing_count level_info) then Some (-1)
  else
    thing ← arr_get (li_thing_infos level_info) index;
    if decide (ti_doom_type thing ≠ doom_type) then Some (-1)
    else if decide (ti_unreachable thing ≠ 0) then Some 0
    else Some (if decide (ti_check_sanity thing = 0 ∨ check_sanity s = 1)
               then 1 else 0).

Definition apdoom_is_location_progression (idx : ap_level_index_t) (index : Z)
    (w : world) : Z :=
  match assoc_find (int_add (idx_ep idx) 1) get_location_table with
  | None => 0
  | Some t1 =>
      match assoc_find (int_add (idx_map idx) 1) t1 with
      | None => 0
      | Some t2 =>
          match assoc_find index t2 with
          | None => 0
          | Some id => if decide (id ∈ ap_progressive_locations w) then 1 else 0
          end
      end
  end.

(** *** The save directory name *)

(** The characters a [const char*] argument denotes: those before the
    first NUL. *)
Fixpoint c_str (str : string) : string :=
  match str with
  | EmptyString => EmptyString
  | String ch rest =>
      if decide (ch = Ascii.zero) then EmptyString else String ch (c_str rest)
  end.

Definition hex_digits : string := "0123456789ABCDEF".

(** [hex_digits[n]] *)
Definition hex_digit (n : N) : option ascii := String.get (N.to_nat n) hex_digits.

(** The loop of [string_to_hex] over the [unsigned char]s of [in]. *)
Fixpoint hex_of (s : string) : option string :=
  match s with
  | EmptyString => Some EmptyString
  | String ch rest =>
      let c := N_of_ascii ch in
      hi ← hex_digit (N.shiftr c 4);
      lo ← hex_digit (N.land c 15);
      out ← hex_of rest;
      Some (String hi (String lo out))
  end.

Definition string_to_hex (str : string) : option string := hex_of (c_str str).

(** *** Map tweaks *)

Definition TWEAK_TYPE_MASK : Z := 240.

Record ap_maptweak_t := {
  tw_type : Z;
  tw_target : Z;
  tw_value : Z;
  tw_string : string
}.

(** The iteration variables [gmt_level], [gmt_type_mask] and [gmt_i]. *)
Record gmt_t := {
  gmt_level : ap_level_index_t;
  gmt_type_mask : Z;
  gmt_i : Z
}.

Definition ap_init_map_tweaks (idx : ap_level_index_t) (type_mask : Z) : gmt_t :=
  {| gmt_level := {| idx_ep := idx_ep idx; idx_map := idx_map idx |};
     gmt_type_mask := type_mask; gmt_i := 0 |}.

(** [while (gmt_i < tweak_list.size())] over the tweaks from [gmt_i] on:
    the tweak returned, if any, and [gmt_i] on return. *)
Fixpoint next_tweak (type_mask : Z) (rest : list ap_maptweak_t) (i : Z)
  : option ap_maptweak_t * Z :=
  match rest with
  | [] => (None, i)
  | tweak :: rest' =>
      if decide (Z.land (tw_type tweak) TWEAK_TYPE_MASK ≠ type_mask)
      then next_tweak type_mask rest' (i + 1)
      else (Some tweak, i + 1)
  end.

(** [ap_get_map_tweaks] over the file-scope [map_tweak_list]; the null
    pointer is [None]. *)
Definition ap_get_map_tweaks (map_tweak_list : gmap Z (gmap Z (list ap_maptweak_t)))
    (g : gmt_t) : option ap_maptweak_t * gmt_t :=
  match map_tweak_list !! idx_ep (gmt_level g) ≫= (.!! idx_map (gmt_level g)) with
  | None => (None, g)
  | Some tweak_list =>
      let '(r, i) := next_tweak (gmt_type_mask g)
                       (drop (Z.to_nat (gmt_i g)) tweak_list) (gmt_i g) in
      (r, {| gmt_level := gmt_level g; gmt_type_mask := gmt_type_mask g; gmt_i := i |})
  end.

(** ** Further views *)

(** The texts handed to [message_callback], in call order. *)
Definition shown_messages (tr : list event) : list string :=
  omap (λ e, match e with Ev_message m => Some m | _ => None end) tr.

(** The ids handed to [AP_SendItem], in call order. *)
Definition sent_items (tr : list event) : list Z :=
  omap (λ e, match e with Ev_AP_SendItem id => Some id | _ => None end) tr.

(** The results of [n] successive calls of [ap_get_map_tweaks]. *)
Fixpoint get_map_tweaks_calls (map_tweak_list : gmap Z (gmap Z (list ap_maptweak_t)))
    (n : nat) (g : gmt_t) : list (option ap_maptweak_t) :=
  match n with
  | O => []
  | S n' =>
      let '(r, g) := ap_get_map_tweaks map_tweak_list g in
      r :: get_map_tweaks_calls map_tweak_list n' g
  end.

(** The location table holds [id] under episode [ep], map [map] and
    index [index]. *)
Definition location_entry (ep map index id : Z) : Prop :=
  ∃ t1 t2, (ep, t1) ∈ get_location_table ∧ (map, t2) ∈ t1 ∧ (index, id) ∈ t2.

(** [loc_table.find(idx.ep + 1)->find(idx.map + 1)->find(index)], the id
    [apdoom_check_location] and [apdoom_is_location_progression] look up. *)
Definition location_id (idx : ap_level_index_t) (index : Z) : option Z :=
  t1 ← assoc_find (int_add (idx_ep idx) 1) get_location_table;
  t2 ← assoc_find (int_add (idx_map idx) 1) t1;
  assoc_find index t2.

(** No location id is stored twice in the table. *)
Definition location_ids_unique : Prop :=
  ∀ id ep map index ep' map' index',
    location_entry ep map index id → location_entry ep' map' index' id →
    (ep, map, index) = (ep', map', index').

(** The level is marked completed in the state. *)
Definition level_completed (s : ap_state_t) (lv : Z * Z) : Prop :=
  ∃ l, ap_get_level_state s (level_idx lv) = Some l ∧ completed l ≠ 0.

(** The engine's episode and map numbers of a level. *)
Definition level_numbers (lv : Z * Z) : option (Z * Z) :=
  e ← ap_index_to_ep (level_idx lv);
  m ← ap_index_to_map (level_idx lv);
  Some (e, m).

(** The value of a hexadecimal digit, and the string a string of digit
    pairs stands for: the inverse of [hex_of]. *)
Definition hex_value (ch : ascii) : N :=
  N.of_nat (default 0%nat (String.index 0 (String ch EmptyString) hex_digits)).

Fixpoint hex_decode (s : string) : string :=
  match s with
  | String hi (String lo rest) =>
      String (ascii_of_N (16 * hex_value hi + hex_value lo)) (hex_decode rest)
  | _ => EmptyString
  end.

(** The tweaks of a level whose type is in the group [type_mask], in the
    order the definitions file lists them. *)
Definition matching_tweaks (map_tweak_list : gmap Z (gmap Z (list ap_maptweak_t)))
    (idx : ap_level_index_t) (type_mask : Z) : list ap_maptweak_t :=
  filter (λ tweak, Z.land (tw_type tweak) TWEAK_TYPE_MASK = type_mask)
         (default [] (map_tweak_list !! idx_ep idx ≫= (.!! idx_map idx))).

(** A flag that is set stays set. *)
Definition flag_kept (before after : Z) : Prop := before ≠ 0 → after ≠ 0.

(** The progress recorded for a level is kept: the check list, the check
    count, the flip and the music are the same, and no flag is cleared. *)
Definition level_kept (l l' : ap_level_state_t) : Prop :=
  check_count l' = check_count l ∧ checks l' = checks l ∧
  flipped l' = flipped l ∧ music l' = music l ∧
  flag_kept (completed l) (completed l') ∧ flag_kept (has_map l) (has_map l') ∧
  flag_kept (unlocked l) (unlocked l') ∧ flag_kept (special l) (special l') ∧
  Forall2 flag_kept (keys l) (keys l').

(** Case analysis on the first step of a sequence of binds known to
    return. *)
Ltac bind_inv H :=
  cbv beta in H;
  match type of H with
  | (?m ≫= _) = Some _ =>
      let E := fresh "E" in
      destruct m eqn:E; [cbn [mbind option_bind] in H|discriminate H]
  end.

Tactic Notation "bind_inv_as" hyp(H) ident(x) :=
  cbv beta in H;
  match type of H with
  | (?m ≫= _) = Some _ =>
      let E := fresh "E" in
      destruct m as [x|] eqn:E; [cbn [mbind option_bind] in H|discriminate H]
  end.

(** The levels whose tracks enter the shuffle pool: those of the enabled
    episodes, or all of them in mode 2. *)
Definition pool_levels (s : ap_state_t) : list (Z * Z) :=
  selected_levels (λ ep, episode_enabled s ep || bool_decide (random_music s = 2)).

(** From [l] to [l'] a level has lost nothing: no flag is cleared, the
    checks recorded are still there in the same order, and the flip, the
    music and the flag of the special level are the same. *)
Definition level_progress (l l' : ap_level_state_t) : Prop :=
  flag_kept (completed l) (completed l') ∧
  Forall2 flag_kept (keys l) (keys l') ∧
  flag_kept (has_map l) (has_map l') ∧
  flag_kept (unlocked l) (unlocked l') ∧
  special l' = special l ∧ flipped l' = flipped l ∧ music l' = music l ∧
  length (checks l') = length (checks l) ∧
  checked_list l `prefix_of` checked_list l'.

Definition state_progress (s s' : ap_state_t) : Prop :=
  flag_kept (victory s) (victory s') ∧
  Forall2 flag_kept (weapon_owned (player_state s))
                    (weapon_owned (player_state s')) ∧
  Forall2 level_progress (level_states s) (level_states s').

(** Every level state has the [AP_CHECK_MAX] check slots of the struct. *)
Definition checks_allocated (s : ap_state_t) : Prop :=
  Forall (λ l, Z.of_nat (length (checks l)) = AP_CHECK_MAX) (level_states s).

(** A step that leaves [ap_state] and the progression locations alone. *)
Definition session_untouched (w w' : world) : Prop :=
  ap_state w' = ap_state w ∧
  ap_progressive_locations w' = ap_progressive_locations w.

(** A level state as [apdoom_init] leaves it: zeroed, every check slot
    set to -1. *)
Definition blank_level : ap_level_state_t :=
  set_checks (replicate (Z.to_nat AP_CHECK_MAX) (-1)) 0 zero_level_state.

(** * Properties *)

(** ** Machine integers and arrays *)

Lemma wrap_int_id z : in_int z → wrap_int z = z.
Proof.
  unfold in_int, INT_MIN, INT_MAX, wrap_int. intros Hz.
  rewrite Z.mod_small; lia.
Qed.

Lemma wrap_int_range z : in_int (wrap_int z).
Proof.
  unfold in_int, INT_MIN, INT_MAX, wrap_int.
  pose proof (Z.mod_pos_bound (z + 2147483648) 4294967296). lia.
Qed.


Lemma int_size_fits {A} (l : list A) :
  Z.of_nat (length l) ≤ INT_MAX → int_size l = Z.of_nat (length l).
Proof. intros H. apply wrap_int_id. unfold in_int, INT_MIN. lia. Qed.


Lemma arr_get_Some {A} (a : list A) i v :
  arr_get a i = Some v ↔ 0 ≤ i ∧ a !! Z.to_nat i = Some v.
Proof.
  unfold arr_get. case_decide; split; try done.
  - by intros [_ ?].
  - by intros [? _].
Qed.

Lemma arr_get_nonneg {A} (a : list A) i : 0 ≤ i → arr_get a i = a !! Z.to_nat i.
Proof. intros. unfold arr_get. by rewrite decide_True. Qed.

Lemma arr_get_lookup {A} (a : list A) (n : nat) : arr_get a (Z.of_nat n) = a !! n.
Proof. unfold arr_get. case_decide; [by rewrite Nat2Z.id | lia]. Qed.

Lemma arr_get_in_range {A} (a : list A) i :
  0 ≤ i < Z.of_nat (length a) → is_Some (arr_get a i).
Proof.
  intros Hi. unfold arr_get. rewrite decide_True by lia.
  apply lookup_lt_is_Some. lia.
Qed.

Lemma arr_get_None {A} (a : list A) i :
  arr_get a i = None ↔ i < 0 ∨ Z.of_nat (length a) ≤ i.
Proof.
  unfold arr_get. case_decide.
  - rewrite lookup_ge_None. lia.
  - split; [lia | done].
Qed.

Lemma arr_set_Some {A} (a : list A) i v a' :
  arr_set a i v = Some a' ↔
  0 ≤ i < Z.of_nat (length a) ∧ a' = <[Z.to_nat i := v]> a.
Proof.
  unfold arr_set. case_decide; split.
  - by intros [= <-].
  - by intros [_ ->].
  - done.
  - by intros [? _].
Qed.

Lemma arr_set_in_range {A} (a : list A) i v :
  0 ≤ i < Z.of_nat (length a) → arr_set a i v = Some (<[Z.to_nat i := v]> a).
Proof. intros. unfold arr_set. by rewrite decide_True. Qed.

Lemma arr_set_length {A} (a : list A) i v a' :
  arr_set a i v = Some a' → length a' = length a.
Proof. rewrite arr_set_Some. intros [_ ->]. apply length_insert. Qed.

Lemma arr_get_set_eq {A} (a : list A) i v a' :
  arr_set a i v = Some a' → arr_get a' i = Some v.
Proof.
  rewrite arr_set_Some. intros [Hi ->]. unfold arr_get.
  rewrite decide_True by lia. apply list_lookup_insert_eq. lia.
Qed.

Lemma arr_get_set_ne {A} (a : list A) i j v a' :
  arr_set a i v = Some a' → i ≠ j → arr_get a' j = arr_get a j.
Proof.
  rewrite arr_set_Some. intros [Hi ->] Hne. unfold arr_get.
  case_decide; [|done]. apply list_lookup_insert_ne. lia.
Qed.

(** ** Catalog accessors *)



Lemma ap_get_map_count_in_range ep row :
  catalog_fits → in_int ep → 1 ≤ ep →
  get_level_info_table !! Z.to_nat (ep - 1) = Some row →
  ap_get_map_count ep = Z.of_nat (length row).
Proof.
  intros [Hfit Hrows] Hep Hlo Hrow. unfold ap_get_map_count, int_sub.
  pose proof (lookup_lt_Some _ _ _ Hrow) as Hlt.
  rewrite wrap_int_id by (unfold in_int, INT_MIN, INT_MAX in *; lia).
  rewrite int_size_fits by done.
  rewrite decide_False by lia.
  rewrite arr_get_nonneg by lia. rewrite Hrow. simpl.
  apply int_size_fits.
  rewrite Forall_lookup in Hrows. by eapply Hrows.
Qed.





(** ** Loops *)

Lemma for_loop_inv {St} (P : Z → St → Prop) n i (body : Z → St → option St) s :
  P i s →
  (∀ j s, i ≤ j < i + Z.of_nat n → P j s →
          ∃ s', body j s = Some s' ∧ P (j + 1) s') →
  ∃ s', for_loop n i body s = Some s' ∧ P (i + Z.of_nat n) s'.
Proof.
  revert i s. induction n as [|n IH]; intros i s Hs Hstep.
  - exists s. split; [done|]. by replace (i + Z.of_nat 0) with i by lia.
  - destruct (Hstep i s) as (s1 & Hb & Hs1); [lia|done|].
    destruct (IH (i + 1) s1) as (s2 & Hl & Hs2); [done| |].
    + intros j s' Hj. apply Hstep. lia.
    + exists s2. simpl. rewrite Hb. simpl. split; [done|].
      by replace (i + Z.of_nat (S n)) with (i + 1 + Z.of_nat n) by lia.
Qed.

Lemma for_upto_inv {St} (P : Z → St → Prop) hi (body : Z → St → option St) s :
  0 ≤ hi → P 0 s →
  (∀ j s, 0 ≤ j < hi → P j s → ∃ s', body j s = Some s' ∧ P (j + 1) s') →
  ∃ s', for_upto hi body s = Some s' ∧ P hi s'.
Proof.
  intros Hhi Hs Hstep. unfold for_upto.
  destruct (for_loop_inv P (Z.to_nat hi) 0 body s) as (s' & Hl & Hs'); [done| |].
  - intros j s0 Hj. apply Hstep. lia.
  - exists s'. split; [done|]. by replace hi with (0 + Z.of_nat (Z.to_nat hi)) by lia.
Qed.

(** What holds of every state of a loop that runs to its end, without
    asking that each iteration be defined. *)
Lemma for_loop_preserves {St} (P : St → Prop) n i (body : Z → St → option St) s s' :
  (∀ j s s', body j s = Some s' → P s → P s') →
  for_loop n i body s = Some s' → P s → P s'.
Proof.
  intros Hstep. revert i s. induction n as [|n IH]; intros i s Hl Hs; simpl in Hl.
  - by injection Hl as <-.
  - destruct (body i s) as [s1|] eqn:Hb; [|done]. simpl in Hl.
    eapply IH; [done|]. by eapply Hstep.
Qed.

(** ** Ammo capacity *)


Lemma ap_ammo_count_pos : 0 < ap_ammo_count.
Proof. unfold ap_ammo_count. by destruct (ap_base_game D). Qed.

Lemma wrap_int_add_r a b : wrap_int (a + wrap_int b) = wrap_int (a + b).
Proof.
  unfold wrap_int. f_equal.
  replace (a + ((b + 2147483648) `mod` 4294967296 - 2147483648) + 2147483648)
    with (a + (b + 2147483648) `mod` 4294967296) by lia.
  rewrite Zplus_mod_idemp_r. f_equal. lia.
Qed.

Lemma recalc_value_min start add upgrades :
  in_int (start + add * upgrades) →
  recalc_value start add upgrades = Z.min 999 (start + add * upgrades).
Proof.
  intros Hin. unfold recalc_value, int_add, int_mul.
  rewrite wrap_int_add_r, wrap_int_id by done.
  case_decide; lia.
Qed.

Lemma recalc_max_ammo_spec s :
  ammo_arrays_ok s →
  ∃ m, recalc_max_ammo s = Some (with_max_ammo m s) ∧
       length m = Z.to_nat ap_ammo_count ∧
       ∀ i start add upgrades,
         0 ≤ i < ap_ammo_count →
         arr_get (max_ammo_start s) i = Some start →
         arr_get (max_ammo_add s) i = Some add →
         arr_get (capacity_upgrades (player_state s)) i = Some upgrades →
         arr_get m i = Some (recalc_value start add upgrades).
Proof.
  intros (Hst & Had & Hup & Hmx). pose proof ap_ammo_count_pos as Hpos.
  unfold recalc_max_ammo.
  destruct (for_upto_inv
    (λ j s', ∃ m, s' = with_max_ammo m s ∧ length m = Z.to_nat ap_ammo_count ∧
       ∀ i start add upgrades,
         0 ≤ i < j →
         arr_get (max_ammo_start s) i = Some start →
         arr_get (max_ammo_add s) i = Some add →
         arr_get (capacity_upgrades (player_state s)) i = Some upgrades →
         arr_get m i = Some (recalc_value start add upgrades))
    ap_ammo_count
    (λ i s,
       start ← arr_get (max_ammo_start s) i;
       add ← arr_get (max_ammo_add s) i;
       upgrades ← arr_get (capacity_upgrades (player_state s)) i;
       let recalc_max := int_add start (int_mul add upgrades) in
       m ← arr_set (max_ammo (player_state s)) i
             (if decide (recalc_max > 999) then 999 else recalc_max);
       Some (set_player_state (set_max_ammo m (player_state s)) s)) s)
    as (s' & Hrun & m & -> & Hlen & Hm).
  - lia.
  - exists (max_ammo (player_state s)). split; [|split; [done|intros; lia]].
    by destruct s as [? []].
  - intros j s1 Hj (m & -> & Hlen & Hm).
    destruct (arr_get_in_range (max_ammo_start s) j) as [st Hst']; [lia|].
    destruct (arr_get_in_range (max_ammo_add s) j) as [ad Had']; [lia|].
    destruct (arr_get_in_range (capacity_upgrades (player_state s)) j)
      as [up Hup']; [lia|].
    simpl. rewrite Hst'. simpl. rewrite Had'. simpl. rewrite Hup'. simpl.
    rewrite arr_set_in_range by lia. simpl.
    eexists. split; [done|].
    exists (<[Z.to_nat j := recalc_value st ad up]> m). split; [done|].
    split; [by rewrite length_insert|].
    intros i start add upgrades Hi H1 H2 H3.
    destruct (decide (i = j)) as [->|Hne].
    + rewrite arr_get_nonneg by lia.
      rewrite list_lookup_insert_eq by lia. congruence.
    + rewrite arr_get_nonneg by lia.
      rewrite list_lookup_insert_ne by lia.
      rewrite <- arr_get_nonneg by lia. apply Hm; [lia|done..].
  - exists m. split; [done|]. split; [done|]. done.
Qed.


Lemma recalc_max_ammo_derives s :
  ammo_arrays_ok s →
  ∃ s', recalc_max_ammo s = Some s' ∧ ammo_arrays_ok s' ∧ max_ammo_derived s'.
Proof.
  intros Hok. destruct (recalc_max_ammo_spec s Hok) as (m & Hr & Hlen & Hm).
  exists (with_max_ammo m s). split; [done|].
  destruct Hok as (Hst & Had & Hup & Hmx). split.
  - by destruct s as [? []].
  - intros i start add upgrades Hi H1 H2 H3 Hin.
    rewrite <- recalc_value_min by done.
    destruct s as [? []]. simpl in *. by eapply Hm.
Qed.

Lemma inc_capacity_upgrade_ok i s :
  ammo_arrays_ok s → 0 ≤ i < ap_ammo_count →
  ∃ s', inc_capacity_upgrade i s = Some s' ∧ ammo_arrays_ok s'.
Proof.
  intros (Hst & Had & Hup & Hmx) Hi. unfold inc_capacity_upgrade.
  destruct (arr_get_in_range (capacity_upgrades (player_state s)) i)
    as [c Hc]; [lia|].
  rewrite Hc. simpl. rewrite arr_set_in_range by lia. simpl.
  eexists. split; [done|].
  unfold ammo_arrays_ok. simpl. by rewrite length_insert.
Qed.


Lemma capacity_upgrade_only item :
  is_capacity_upgrade item →
  get_keys_map !! doom_type item = None ∧
  get_weapons_map !! doom_type item = None ∧
  doom_type item ≠ get_map_doom_type ∧
  doom_type item ≠ -1 ∧ doom_type item ≠ -2.
Proof.
  intros Hup.
  assert (doom_type item = 8 ∨ doom_type item = 65001 ∨ doom_type item = 65002 ∨
          doom_type item = 65003 ∨ doom_type item = 65004 ∨
          doom_type item = 65005 ∨ doom_type item = 65006) as Hcases
    by (destruct Hup; lia).
  unfold get_keys_map, get_weapons_map, get_map_doom_type.
  destruct Hcases as [-> | [-> | [-> | [-> | [-> | [-> | ->]]]]]];
    destruct (ap_base_game D); by vm_compute.
Qed.

Lemma recv_state_capacity_upgrade item s :
  is_capacity_upgrade item → ammo_arrays_ok s →
  ∃ s', recv_state item s = Some s' ∧ ammo_arrays_ok s' ∧ max_ammo_derived s'.
Proof.
  intros Hup Hok.
  destruct (capacity_upgrade_only item Hup) as (Hk & Hw & Hm & Hu & Hc).
  pose proof ap_ammo_count_pos as Hpos.
  assert (∃ s1, recv_backpack item s = Some s1 ∧ ammo_arrays_ok s1 ∧
                (doom_type item = 8 → max_ammo_derived s1)) as (s1 & H1 & Hok1 & Hd1).
  { unfold recv_backpack. case_decide as Hbp.
    - destruct (for_upto_inv (λ _ s', ammo_arrays_ok s') ap_ammo_count
                  inc_capacity_upgrade s) as (s0 & Hl & Hok0); [lia|done| |].
      { intros j s0 Hj Hs0. by apply inc_capacity_upgrade_ok. }
      rewrite Hl. simpl.
      destruct (recalc_max_ammo_derives s0 Hok0) as (s1 & Hr & ? & ?).
      by exists s1.
    - by exists s. }
  assert (∃ s2, recv_ammo_upgrade item s1 = Some s2 ∧ ammo_arrays_ok s2 ∧
                max_ammo_derived s2) as (s2 & H2 & Hok2 & Hd2).
  { unfold recv_ammo_upgrade. case_decide as Hr.
    - assert (∃ s0, (if decide (int_sub (doom_type item) 65001 < ap_ammo_count)
                     then inc_capacity_upgrade (int_sub (doom_type item) 65001) s1
                     else Some s1) = Some s0 ∧ ammo_arrays_ok s0)
        as (s0 & -> & Hok0).
      { case_decide as Hlt; [|by exists s1].
        apply inc_capacity_upgrade_ok; [done|].
        unfold int_sub in *.
        rewrite wrap_int_id in * by (unfold in_int, INT_MIN, INT_MAX; lia). lia. }
      simpl. by apply recalc_max_ammo_derives.
    - exists s1. split; [done|]. split; [done|]. apply Hd1.
      destruct Hup as [?|?]; [done|lia]. }
  exists s2. unfold recv_state. rewrite H1. simpl. rewrite H2. simpl.
  unfold recv_key. rewrite Hk. simpl.
  unfold recv_weapon. rewrite Hw. simpl.
  unfold recv_map. rewrite decide_False by done. simpl.
  unfold recv_unlock. rewrite decide_False by done. simpl.
  unfold recv_complete. by rewrite decide_False by done.
Qed.


(** ** Item reception *)


Lemma process_received_item_unknown item_id w :
  get_item_type_table !! item_id = None → process_received_item item_id w = Some w.
Proof. intros H. unfold process_received_item. by rewrite H. Qed.

(** A known item is handed to the engine once and gets one icon when its
    type has a sprite; nothing else changes. *)
Lemma process_received_item_known item_id item w :
  items_resolve → get_item_type_table !! item_id = Some item →
  process_received_item item_id w =
    Some (set_notification_icons (ap_notification_icons w ++ item_icons item)
            (emit (item_event item) w)).
Proof.
  intros Hres Hitem. unfold process_received_item, item_icons, item_notif_text.
  rewrite Hitem. case_decide as Hep.
  - destruct (Hres _ _ Hitem Hep) as [info Hinfo]. rewrite Hinfo. simpl.
    destruct (get_sprites !! doom_type item); [done|].
    rewrite app_nil_r. by destruct w.
  - simpl. destruct (get_sprites !! doom_type item); [done|].
    rewrite app_nil_r. by destruct w.
Qed.

Lemma process_received_item_state item_id w w' :
  process_received_item item_id w = Some w' →
  ap_state w' = ap_state w ∧ ap_item_queue w' = ap_item_queue w ∧
  ap_is_in_game w' = ap_is_in_game w.
Proof.
  unfold process_received_item. intros H.
  destruct (get_item_type_table !! item_id) as [item|]; [|by injection H as <-].
  destruct (decide (item_ep item ≠ -1)); simpl in H.
  - destruct (ap_get_level_info _); [|done]. simpl in H.
    destruct (get_sprites !! _); by injection H as <-.
  - destruct (get_sprites !! _); by injection H as <-.
Qed.

(** [process_received_item] leaves the queue alone, which is what
    [dequeue_items] relies on. *)
Lemma process_received_item_queue item_id w w' :
  process_received_item item_id w = Some w' → ap_item_queue w' = ap_item_queue w.
Proof. intros H. by apply process_received_item_state in H as (_ & ? & _). Qed.

Lemma f_itemrecv_known item_id player_id notify_player item w :
  items_resolve → get_item_type_table !! item_id = Some item →
  f_itemrecv item_id player_id notify_player w =
    s ← recv_state item (ap_state w);
    let w := set_ap_state s w in
    Some (if negb notify_player then w
          else if decide (ap_is_in_game w = 0)
               then set_item_queue (ap_item_queue w ++ [item_id]) w
               else set_notification_icons
                      (ap_notification_icons w ++ item_icons item)
                      (emit (item_event item) w)).
Proof.
  intros Hres Hitem. unfold f_itemrecv. rewrite Hitem.
  destruct (recv_state item (ap_state w)) as [s|]; [|done]. simpl.
  destruct notify_player; [|done]. simpl.
  case_decide; [done|]. by rewrite (process_received_item_known item_id item).
Qed.

Lemma f_itemrecv_state item_id player_id notify_player item w w' :
  get_item_type_table !! item_id = Some item →
  f_itemrecv item_id player_id notify_player w = Some w' →
  recv_state item (ap_state w) = Some (ap_state w').
Proof.
  intros Hitem. unfold f_itemrecv. rewrite Hitem.
  destruct (recv_state item (ap_state w)) as [s|]; [|done]. simpl.
  destruct notify_player; simpl.
  - case_decide.
    + by intros [= <-].
    + intros Hp. apply process_received_item_state in Hp as (-> & _). done.
  - by intros [= <-].
Qed.


Lemma capacity_upgrade_call_derives c w :
  items_resolve → capacity_upgrade_call c → ammo_arrays_ok (ap_state w) →
  ∃ w', do_call c w = Some w' ∧ ammo_arrays_ok (ap_state w') ∧
        max_ammo_derived (ap_state w').
Proof.
  intros Hres (item_id & player_id & notify_player & item & -> & Hitem & Hup) Hok.
  destruct (recv_state_capacity_upgrade item (ap_state w) Hup Hok)
    as (s' & Hs' & Hok' & Hd').
  simpl. rewrite (f_itemrecv_known _ _ _ item) by done. rewrite Hs'. simpl.
  eexists. split; [done|].
  destruct notify_player; simpl; [case_decide|]; by destruct w.
Qed.

Lemma capacity_upgrade_calls_keep cs w :
  items_resolve → Forall capacity_upgrade_call cs →
  ammo_arrays_ok (ap_state w) → max_ammo_derived (ap_state w) →
  ∃ w', run cs w = Some w' ∧ max_ammo_derived (ap_state w').
Proof.
  intros Hres. revert w. induction cs as [|c cs IH]; intros w Hcs Hok Hd.
  - by exists w.
  - apply Forall_cons in Hcs as [Hc Hcs].
    destruct (capacity_upgrade_call_derives c w Hres Hc Hok)
      as (w1 & H1 & Hok1 & Hd1).
    destruct (IH w1 Hcs Hok1 Hd1) as (w' & Hrun & Hd').
    exists w'. simpl. by rewrite H1.
Qed.

(** C2, as amended. After every capacity-upgrade event, whatever max-ammo
    held before, the max-ammo of every ammo type is
    min(999, max_ammo_start + max_ammo_add * capacity_upgrades), provided
    this sum fits an [int]; so it is after any sequence of such events that
    starts from a state where it holds. *)
Theorem max_ammo_after_upgrade_events cs w :
  items_resolve → ammo_arrays_ok (ap_state w) →
  Forall capacity_upgrade_call cs →
  cs ≠ [] ∨ max_ammo_derived (ap_state w) →
  ∃ w', run cs w = Some w' ∧ max_ammo_derived (ap_state w').
Proof.
  intros Hres Hok Hcs Hstart.
  destruct cs as [|c cs].
  - destruct Hstart as [?|Hd]; [done|]. by exists w.
  - apply Forall_cons in Hcs as [Hc Hcs].
    destruct (capacity_upgrade_call_derives c w Hres Hc Hok)
      as (w1 & H1 & Hok1 & Hd1).
    destruct (capacity_upgrade_calls_keep cs w1 Hres Hcs Hok1 Hd1)
      as (w' & Hrun & Hd').
    exists w'. simpl. by rewrite H1.
Qed.


(** ** Writes through a level-state pointer *)

Lemma upd_level_state_Some idx f s s' :
  upd_level_state idx f s = Some s' ↔
  ∃ l l', ap_get_level_state s idx = Some l ∧ f l = Some l' ∧
          s' = set_level_states
                 (<[Z.to_nat (level_state_index idx) := l']> (level_states s)) s.
Proof.
  unfold upd_level_state. split.
  - intros H. destruct (ap_get_level_state s idx) as [l|] eqn:Hl; [|done].
    simpl in H. destruct (f l) as [l'|] eqn:Hf; [|done]. simpl in H.
    destruct (arr_set _ _ _) as [ls|] eqn:Hs; [|done].
    apply arr_set_Some in Hs as [_ ->]. injection H as <-. by exists l, l'.
  - intros (l & l' & Hl & Hf & ->). rewrite Hl. simpl. rewrite Hf. simpl.
    unfold ap_get_level_state in Hl. apply arr_get_Some in Hl as [Hlo Hl].
    apply lookup_lt_Some in Hl. rewrite arr_set_in_range by lia. done.
Qed.

Lemma upd_level_state_get idx f s s' :
  upd_level_state idx f s = Some s' →
  ∃ l l', ap_get_level_state s idx = Some l ∧ f l = Some l' ∧
          ap_get_level_state s' idx = Some l'.
Proof.
  intros H. apply upd_level_state_Some in H as (l & l' & Hl & Hf & ->).
  exists l, l'. split; [done|]. split; [done|].
  unfold ap_get_level_state in *. simpl.
  apply arr_get_Some in Hl as [Hlo Hl]. apply lookup_lt_Some in Hl.
  rewrite arr_get_nonneg by done. by apply list_lookup_insert_eq.
Qed.

(** A write that stores what is already there changes nothing. *)
Lemma upd_level_state_idem idx f s s' :
  (∀ l l', f l = Some l' → f l' = Some l') →
  upd_level_state idx f s = Some s' → upd_level_state idx f s' = Some s'.
Proof.
  intros Hf H. pose proof (upd_level_state_get _ _ _ _ H) as (l & l' & Hl & Hfl & Hl').
  apply upd_level_state_Some. exists l', l'. split; [done|].
  split; [by eapply Hf|].
  apply upd_level_state_Some in H as (l0 & l0' & Hl0 & Hfl0 & ->).
  assert (l0' = l') as -> by congruence.
  simpl. by rewrite list_insert_insert_eq.
Qed.

Lemma upd_level_state_defined idx f s l l' :
  ap_get_level_state s idx = Some l → f l = Some l' →
  is_Some (upd_level_state idx f s).
Proof.
  intros Hl Hf. eexists. apply upd_level_state_Some. by exists l, l'.
Qed.


(** ** Re-delivery of an item *)

(** The doom types of keys, of weapons, of the map item and of the two
    level markers are pairwise distinct, so an item enters at most one of
    the key, weapon, map, unlock and complete blocks. *)
Lemma item_blocks_exclusive (dt : Z) :
  (is_Some (get_keys_map !! dt) →
     get_weapons_map !! dt = None ∧ dt ≠ get_map_doom_type ∧ dt ≠ -1 ∧ dt ≠ -2) ∧
  (is_Some (get_weapons_map !! dt) →
     dt ≠ get_map_doom_type ∧ dt ≠ -1 ∧ dt ≠ -2) ∧
  (dt = get_map_doom_type → dt ≠ -1 ∧ dt ≠ -2).
Proof.
  unfold get_keys_map, get_weapons_map, get_map_doom_type.
  split; [|split].
  - intros [k Hk]. destruct (ap_base_game D);
      apply elem_of_list_to_map_2 in Hk;
      repeat (apply elem_of_cons in Hk as [[= -> ->]|Hk]; [by vm_compute|]);
      by apply elem_of_nil in Hk.
  - intros [k Hk]. destruct (ap_base_game D);
      apply elem_of_list_to_map_2 in Hk;
      repeat (apply elem_of_cons in Hk as [[= -> ->]|Hk]; [by vm_compute|]);
      by apply elem_of_nil in Hk.
  - intros ->. by destruct (ap_base_game D).
Qed.

Lemma recv_key_idem item s s' :
  recv_key item s = Some s' → recv_key item s' = Some s'.
Proof.
  unfold recv_key. destruct (get_keys_map !! doom_type item) as [k|]; [|done].
  apply upd_level_state_idem. intros l l' Hl.
  destruct (arr_set (keys l) k 1) as [ks|] eqn:Hks; [|done].
  injection Hl as <-. simpl.
  apply arr_set_Some in Hks as [Hk ->].
  rewrite arr_set_in_range by (by rewrite length_insert). simpl.
  by rewrite list_insert_insert_eq.
Qed.

Lemma recv_weapon_idem item s s' :
  recv_weapon item s = Some s' → recv_weapon item s' = Some s'.
Proof.
  unfold recv_weapon. destruct (get_weapons_map !! doom_type item) as [wp|]; [|done].
  intros H. destruct (arr_set _ wp 1) as [o|] eqn:Ho; [|done].
  injection H as <-. simpl.
  apply arr_set_Some in Ho as [Hwp ->].
  rewrite arr_set_in_range by (by rewrite length_insert). simpl.
  by rewrite list_insert_insert_eq.
Qed.

Lemma recv_map_idem item s s' :
  recv_map item s = Some s' → recv_map item s' = Some s'.
Proof.
  unfold recv_map. case_decide; [|done].
  apply upd_level_state_idem. by intros l l' [= <-].
Qed.

Lemma recv_unlock_idem item s s' :
  recv_unlock item s = Some s' → recv_unlock item s' = Some s'.
Proof.
  unfold recv_unlock. case_decide; [|done].
  apply upd_level_state_idem. by intros l l' [= <-].
Qed.

Lemma recv_complete_idem item s s' :
  recv_complete item s = Some s' → recv_complete item s' = Some s'.
Proof.
  unfold recv_complete. case_decide; [|done].
  apply upd_level_state_idem. by intros l l' [= <-].
Qed.

(** An item that is no capacity upgrade goes through one block at most. *)
Lemma recv_state_one_block item :
  ¬ is_capacity_upgrade item →
  (∀ s, recv_state item s = recv_key item s) ∨
  (∀ s, recv_state item s = recv_weapon item s) ∨
  (∀ s, recv_state item s = recv_map item s) ∨
  (∀ s, recv_state item s = recv_unlock item s) ∨
  (∀ s, recv_state item s = recv_complete item s).
Proof.
  intros Hno.
  assert (∀ s, recv_backpack item s = Some s) as Hb.
  { intros s. unfold recv_backpack. case_decide; [|done].
    destruct Hno. by left. }
  assert (∀ s, recv_ammo_upgrade item s = Some s) as Ha.
  { intros s. unfold recv_ammo_upgrade. case_decide; [|done].
    destruct Hno. right. lia. }
  destruct (item_blocks_exclusive (doom_type item)) as (Hk & Hw & Hm).
  destruct (get_keys_map !! doom_type item) as [k|] eqn:Hkey.
  { left. intros s. destruct Hk as (Hw' & Hm' & Hu' & Hc'); [done|].
    unfold recv_state. rewrite Hb. simpl. rewrite Ha. simpl.
    destruct (recv_key item s) as [s1|]; [|done]. simpl.
    unfold recv_weapon. rewrite Hw'. simpl.
    unfold recv_map. rewrite decide_False by done. simpl.
    unfold recv_unlock. rewrite decide_False by done. simpl.
    unfold recv_complete. by rewrite decide_False by done. }
  destruct (get_weapons_map !! doom_type item) as [wp|] eqn:Hwp.
  { right. left. intros s. destruct Hw as (Hm' & Hu' & Hc'); [done|].
    unfold recv_state. rewrite Hb. simpl. rewrite Ha. simpl.
    unfold recv_key at 1. rewrite Hkey. simpl.
    destruct (recv_weapon item s) as [s1|]; [|done]. simpl.
    unfold recv_map. rewrite decide_False by done. simpl.
    unfold recv_unlock. rewrite decide_False by done. simpl.
    unfold recv_complete. by rewrite decide_False by done. }
  destruct (decide (doom_type item = get_map_doom_type)) as [Hmap|Hmap].
  { right. right. left. intros s. destruct (Hm Hmap) as (Hu' & Hc').
    unfold recv_state. rewrite Hb. simpl. rewrite Ha. simpl.
    unfold recv_key at 1. rewrite Hkey. simpl.
    unfold recv_weapon at 1. rewrite Hwp. simpl.
    destruct (recv_map item s) as [s1|]; [|done]. simpl.
    unfold recv_unlock. rewrite decide_False by done. simpl.
    unfold recv_complete. by rewrite decide_False by done. }
  destruct (decide (doom_type item = -1)) as [Hu|Hu].
  { right. right. right. left. intros s.
    unfold recv_state. rewrite Hb. simpl. rewrite Ha. simpl.
    unfold recv_key at 1. rewrite Hkey. simpl.
    unfold recv_weapon at 1. rewrite Hwp. simpl.
    unfold recv_map at 1. rewrite decide_False by done. simpl.
    destruct (recv_unlock item s) as [s1|]; [|done]. simpl.
    unfold recv_complete. rewrite decide_False; [done|lia]. }
  right. right. right. right. intros s.
  unfold recv_state. rewrite Hb. simpl. rewrite Ha. simpl.
  unfold recv_key at 1. rewrite Hkey. simpl.
  unfold recv_weapon at 1. rewrite Hwp. simpl.
  unfold recv_map at 1. rewrite decide_False by done. simpl.
  unfold recv_unlock at 1. by rewrite decide_False by done.
Qed.

Lemma recv_state_idem item s s' :
  ¬ is_capacity_upgrade item →
  recv_state item s = Some s' → recv_state item s' = Some s'.
Proof.
  intros Hno.
  destruct (recv_state_one_block item Hno) as [H|[H|[H|[H|H]]]];
    rewrite !H.
  - apply recv_key_idem.
  - apply recv_weapon_idem.
  - apply recv_map_idem.
  - apply recv_unlock_idem.
  - apply recv_complete_idem.
Qed.

Lemma set_ap_state_same w : set_ap_state (ap_state w) w = w.
Proof. by destruct w. Qed.

(** A loop that returns has kept its invariant. *)
Lemma for_loop_Some_inv {St} (P : Z → St → Prop) n i
    (body : Z → St → option St) s s' :
  for_loop n i body s = Some s' → P i s →
  (∀ j st st', i ≤ j < i + Z.of_nat n → P j st → body j st = Some st' →
               P (j + 1) st') →
  P (i + Z.of_nat n) s'.
Proof.
  revert i s. induction n as [|n IH]; intros i s H Hs Hstep; simpl in H.
  - injection H as <-. by replace (i + Z.of_nat 0) with i by lia.
  - destruct (body i s) as [s1|] eqn:Hb; [|done]. simpl in H.
    replace (i + Z.of_nat (S n)) with (i + 1 + Z.of_nat n) by lia.
    apply (IH (i + 1) s1 H).
    + apply (Hstep i s s1); [lia|done|done].
    + intros j st st' Hj. apply Hstep. lia.
Qed.

(** [recalc_max_ammo] writes [max_ammo] and nothing else. *)
Lemma recalc_max_ammo_only s s' :
  recalc_max_ammo s = Some s' →
  s' = with_max_ammo (max_ammo (player_state s')) s.
Proof.
  unfold recalc_max_ammo, for_upto. intros H.
  eapply (for_loop_preserves
            (λ st, st = with_max_ammo (max_ammo (player_state st)) s));
    [|exact H|by destruct s as [? []]].
  intros j st st' Hb Hst. do 4 bind_inv Hb. injection Hb as <-.
  rewrite Hst. by destruct s as [? []].
Qed.

(** Recomputing the capacities a second time changes nothing. *)
Lemma recalc_max_ammo_idem s s' :
  recalc_max_ammo s = Some s' → recalc_max_ammo s' = Some s'.
Proof.
  intros H. pose proof (recalc_max_ammo_only s s' H) as Hs'.
  pose proof ap_ammo_count_pos as Hpos.
  set (val := λ i, start ← arr_get (max_ammo_start s) i;
                   add ← arr_get (max_ammo_add s) i;
                   upgrades ← arr_get (capacity_upgrades (player_state s)) i;
                   Some (recalc_value start add upgrades)).
  assert (∀ i, 0 ≤ i < ap_ammo_count →
               ∃ v, val i = Some v ∧ arr_get (max_ammo (player_state s')) i = Some v)
    as Hval.
  { unfold recalc_max_ammo, for_upto in H.
    pose proof (for_loop_Some_inv
      (λ j st, max_ammo_start st = max_ammo_start s ∧
               max_ammo_add st = max_ammo_add s ∧
               capacity_upgrades (player_state st)
               = capacity_upgrades (player_state s) ∧
               ∀ i, 0 ≤ i < j →
                    ∃ v, val i = Some v ∧
                         arr_get (max_ammo (player_state st)) i = Some v)
      _ _ _ _ _ H) as Hinv.
    cbv beta in Hinv. rewrite Z2Nat.id in Hinv by lia.
    destruct Hinv as (_ & _ & _ & Hdone).
    - repeat split. intros i Hi. lia.
    - intros j st st' Hj (Hst1 & Hst2 & Hst3 & Hdone) Hb.
      rewrite Hst1, Hst2, Hst3 in Hb.
      destruct (arr_get (max_ammo_start s) j) as [start|] eqn:E1; [|done].
      cbn [mbind option_bind] in Hb.
      destruct (arr_get (max_ammo_add s) j) as [add|] eqn:E2; [|done].
      cbn [mbind option_bind] in Hb.
      destruct (arr_get (capacity_upgrades (player_state s)) j) as [upg|] eqn:E3;
        [|done].
      cbn [mbind option_bind] in Hb. cbv zeta in Hb.
      destruct (arr_set _ _ _) as [m|] eqn:E4 in Hb; [|done].
      cbn [mbind option_bind] in Hb. injection Hb as <-.
      repeat split; try by destruct st as [? []].
      intros i Hi. destruct (decide (i = j)) as [->|Hne].
      + exists (recalc_value start add upg). split.
        * unfold val. rewrite E1. cbn [mbind option_bind]. rewrite E2.
          cbn [mbind option_bind]. by rewrite E3.
        * destruct st as [? []]. simpl in *. by apply arr_get_set_eq in E4.
      + destruct (Hdone i ltac:(lia)) as (v & Hv & Hm). exists v.
        split; [done|]. destruct st as [? []]. simpl in *.
        by rewrite (arr_get_set_ne _ _ _ _ _ E4) by done.
    - intros i Hi. apply Hdone. lia. }
  assert (max_ammo_start s' = max_ammo_start s ∧
          max_ammo_add s' = max_ammo_add s ∧
          capacity_upgrades (player_state s') = capacity_upgrades (player_state s))
    as (Hs1 & Hs2 & Hs3).
  { rewrite Hs'. by destruct s as [? []]. }
  unfold recalc_max_ammo.
  destruct (for_upto_inv (λ _ st, st = s') ap_ammo_count
    (λ i s,
       start ← arr_get (max_ammo_start s) i;
       add ← arr_get (max_ammo_add s) i;
       upgrades ← arr_get (capacity_upgrades (player_state s)) i;
       let recalc_max := int_add start (int_mul add upgrades) in
       m ← arr_set (max_ammo (player_state s)) i
             (if decide (recalc_max > 999) then 999 else recalc_max);
       Some (set_player_state (set_max_ammo m (player_state s)) s)) s')
    as (s2 & Hrun & ->); [lia|done| |done].
  intros j st Hj ->. destruct (Hval j Hj) as (v & Hv & Hm).
  unfold val in Hv. rewrite Hs1, Hs2, Hs3.
  destruct (arr_get (max_ammo_start s) j) as [start|]; [|done].
  cbn [mbind option_bind] in *.
  destruct (arr_get (max_ammo_add s) j) as [add|]; [|done].
  cbn [mbind option_bind] in *.
  destruct (arr_get (capacity_upgrades (player_state s)) j) as [upgrades|];
    [|done].
  cbn [mbind option_bind] in *. cbv zeta.
  injection Hv as <-. apply arr_get_Some in Hm as [Hlo Hm].
  rewrite arr_set_in_range by (apply lookup_lt_Some in Hm; lia).
  cbn [mbind option_bind]. exists s'. split; [|done].
  unfold recalc_value in Hm. cbv zeta in Hm. rewrite list_insert_id by done.
  clear. by destruct s' as [? []].
Qed.

Lemma recalc_max_ammo_upgrades s s' :
  recalc_max_ammo s = Some s' →
  capacity_upgrades (player_state s') = capacity_upgrades (player_state s).
Proof. intros H. rewrite (recalc_max_ammo_only s s' H). by destruct s as [? []]. Qed.

(** A capacity upgrade goes through the two capacity blocks only. *)
Lemma recv_state_capacity_blocks item s :
  is_capacity_upgrade item →
  recv_state item s = recv_backpack item s ≫= recv_ammo_upgrade item.
Proof.
  intros Hup. destruct (capacity_upgrade_only item Hup) as (Hk & Hw & Hm & Hu & Hc).
  unfold recv_state.
  destruct (recv_backpack item s) as [s1|]; [|done]. simpl.
  destruct (recv_ammo_upgrade item s1) as [s2|]; [|done]. simpl.
  unfold recv_key. rewrite Hk. simpl. unfold recv_weapon. rewrite Hw. simpl.
  unfold recv_map. rewrite decide_False by done. simpl.
  unfold recv_unlock. rewrite decide_False by done. simpl.
  unfold recv_complete. by rewrite decide_False by done.
Qed.

(** A single-ammo upgrade of an ammo type the game does not have only
    recomputes the capacities. *)
Lemma recv_state_recalc_only item s :
  is_capacity_upgrade item → ¬ counts_upgrade item →
  recv_state item s = recalc_max_ammo s.
Proof.
  intros Hup Hno. rewrite recv_state_capacity_blocks by done.
  pose proof ap_ammo_count_pos as Hpos.
  assert (doom_type item ≠ 8) as Hb.
  { intros H8. apply Hno. exists 0. split; [lia|by left]. }
  assert (65001 ≤ doom_type item ≤ 65006) as Hrange by (destruct Hup; [done|lia]).
  unfold recv_backpack. rewrite decide_False by done. simpl.
  unfold recv_ammo_upgrade. rewrite decide_True by lia. cbv zeta.
  assert (int_sub (doom_type item) 65001 = doom_type item - 65001) as ->.
  { unfold int_sub. apply wrap_int_id. unfold in_int, INT_MIN, INT_MAX. lia. }
  rewrite decide_False; [done|]. intros Hlt. apply Hno.
  exists (doom_type item - 65001). split; [lia|]. right. lia.
Qed.

Lemma recv_state_idem_uncounted item s s' :
  ¬ counts_upgrade item →
  recv_state item s = Some s' → recv_state item s' = Some s'.
Proof.
  intros Hno. destruct (decide (doom_type item = 8 ∨ 65001 ≤ doom_type item ≤ 65006))
    as [Hup|Hup].
  - rewrite !recv_state_recalc_only by done. apply recalc_max_ammo_idem.
  - by apply recv_state_idem.
Qed.

(** One round of increments raises every count by one. *)
Lemma inc_capacity_upgrades_all s s' i c :
  for_upto ap_ammo_count inc_capacity_upgrade s = Some s' →
  0 ≤ i < ap_ammo_count →
  arr_get (capacity_upgrades (player_state s)) i = Some c →
  arr_get (capacity_upgrades (player_state s')) i = Some (int_add c 1).
Proof.
  intros H Hi Hc. unfold for_upto in H.
  pose proof (for_loop_Some_inv
    (λ j st, ∀ k, (0 ≤ k < j →
                   arr_get (capacity_upgrades (player_state st)) k
                   = (λ c, int_add c 1) <$>
                     arr_get (capacity_upgrades (player_state s)) k) ∧
                  (j ≤ k →
                   arr_get (capacity_upgrades (player_state st)) k
                   = arr_get (capacity_upgrades (player_state s)) k))
    _ _ _ _ _ H) as Hinv.
  cbv beta in Hinv. rewrite Z2Nat.id in Hinv by lia.
  assert (0 + ap_ammo_count = ap_ammo_count) as Hz by lia. rewrite Hz in Hinv.
  specialize (Hinv ltac:(intros k; split; [lia|done])).
  assert (∀ k, 0 ≤ k < ap_ammo_count →
               arr_get (capacity_upgrades (player_state s')) k
               = (λ c, int_add c 1) <$>
                 arr_get (capacity_upgrades (player_state s)) k) as Hdone.
  2: { rewrite (Hdone i Hi), Hc. done. }
  intros k Hk. apply Hinv; [|done]. clear k Hk.
  - intros j st st' Hj Hst Hb. unfold inc_capacity_upgrade in Hb.
    destruct (arr_get (capacity_upgrades (player_state st)) j) as [c0|] eqn:E;
      [|done].
    cbn [mbind option_bind] in Hb.
    destruct (arr_set _ _ _) as [cs|] eqn:E0 in Hb; [|done].
    cbn [mbind option_bind] in Hb. injection Hb as <-.
    destruct st as [? []]. simpl in *. intros k.
    destruct (decide (k = j)) as [->|Hne].
    + split; [|lia]. intros _. rewrite (arr_get_set_eq _ _ _ _ E0).
      destruct (Hst j) as [_ Hsame]. rewrite <- Hsame by lia. by rewrite E.
    + rewrite (arr_get_set_ne _ _ _ _ _ E0) by done.
      destruct (Hst k) as [Hlow Hhigh]. split; intros Hk; [apply Hlow|apply Hhigh]; lia.
Qed.

(** What one delivery does to the upgrade count of an ammo type the item
    counts for. *)
Lemma recv_state_counts item s s' i c :
  upgrade_counted item i → recv_state item s = Some s' →
  arr_get (capacity_upgrades (player_state s)) i = Some c →
  arr_get (capacity_upgrades (player_state s')) i = Some (int_add c 1).
Proof.
  intros [Hi Hty] H Hc.
  assert (ap_ammo_count ≤ 6) as Hsix.
  { unfold ap_ammo_count. destruct (ap_base_game D); lia. }
  rewrite recv_state_capacity_blocks in H by (destruct Hty; [by left|right; lia]).
  destruct Hty as [H8|Hone].
  - unfold recv_backpack in H. rewrite decide_True in H by done.
    bind_inv_as H s1. bind_inv_as E s0.
    apply recalc_max_ammo_upgrades in E.
    unfold recv_ammo_upgrade in H. rewrite decide_False in H by lia.
    injection H as <-. rewrite E. by eapply inc_capacity_upgrades_all.
  - unfold recv_backpack in H. rewrite decide_False in H by lia. simpl in H.
    unfold recv_ammo_upgrade in H. rewrite decide_True in H by lia. cbv zeta in H.
    assert (int_sub (doom_type item) 65001 = i) as Hnum.
    { unfold int_sub. rewrite wrap_int_id; [lia|].
      unfold in_int, INT_MIN, INT_MAX. lia. }
    rewrite Hnum in H. rewrite decide_True in H by lia.
    bind_inv_as H s1. apply recalc_max_ammo_upgrades in H. rewrite H.
    unfold inc_capacity_upgrade in E. rewrite Hc in E.
    cbn [mbind option_bind] in E.
    destruct (arr_set _ _ _) as [cs|] eqn:E0 in E; [|done].
    cbn [mbind option_bind] in E. injection E as <-.
    destruct s as [? []]. simpl in *. by eapply arr_get_set_eq.
Qed.

(** Whether [process_received_item] returns depends on the item alone. *)
Lemma process_received_item_again item_id w w1 v :
  process_received_item item_id w = Some w1 →
  ∃ v1, process_received_item item_id v = Some v1.
Proof.
  unfold process_received_item.
  destruct (get_item_type_table !! item_id) as [item|]; [|by eexists].
  destruct (decide (item_ep item ≠ -1)); simpl.
  - destruct (ap_get_level_info _); [|done]. simpl.
    destruct (get_sprites !! _); by eexists.
  - destruct (get_sprites !! _); by eexists.
Qed.

Lemma process_received_item_trace item_id item w w1 :
  get_item_type_table !! item_id = Some item →
  process_received_item item_id w = Some w1 →
  trace w1 = trace w ++ [item_event item].
Proof.
  unfold process_received_item. intros -> H.
  destruct (decide (item_ep item ≠ -1)); simpl in H.
  - destruct (ap_get_level_info _); [|done]. simpl in H.
    destruct (get_sprites !! _); by injection H as <-.
  - destruct (get_sprites !! _); by injection H as <-.
Qed.

(** C7, as amended. For an item of the table that raises no upgrade count
    (a key, a weapon, a map, an unlock, a completion, a single-ammo upgrade
    of an ammo type the game does not have, or any other item), a second
    delivery of the same item-received event leaves [ap_state] as the first
    delivery left it, and leaves the whole session untouched when the
    player is not to be notified. Nothing detects the duplicate: every
    delivery of a backpack raises the upgrade count of every ammo type by
    one, every delivery of a single-ammo upgrade that of its ammo type (a
    count below [INT_MAX]), and every delivery that notifies is queued
    outside gameplay and handed to the engine in gameplay. *)
Theorem item_redelivery item_id player_id notify_player item w w1 :
  get_item_type_table !! item_id = Some item →
  f_itemrecv item_id player_id notify_player w = Some w1 →
  (¬ counts_upgrade item →
   ∃ w2, f_itemrecv item_id player_id notify_player w1 = Some w2 ∧
         ap_state w2 = ap_state w1 ∧
         (notify_player = false → w2 = w1)) ∧
  (∀ i c, upgrade_counted item i →
     arr_get (capacity_upgrades (player_state (ap_state w))) i = Some c →
     INT_MIN ≤ c < INT_MAX →
     arr_get (capacity_upgrades (player_state (ap_state w1))) i = Some (c + 1)) ∧
  (notify_player = true → ap_is_in_game w = 0 →
   ap_item_queue w1 = ap_item_queue w ++ [item_id]) ∧
  (notify_player = true → ap_is_in_game w ≠ 0 →
   given_items (trace w1)
   = given_items (trace w) ++ [(doom_type item, item_ep item, item_map item)]).
Proof.
  intros Hitem H1.
  pose proof (f_itemrecv_state _ _ _ _ _ _ Hitem H1) as Hs.
  unfold f_itemrecv in H1. rewrite Hitem, Hs in H1. cbn [mbind option_bind] in H1.
  cbv zeta in H1.
  split; [|split; [|split]].
  - intros Hno. apply recv_state_idem_uncounted in Hs; [|done].
    unfold f_itemrecv. rewrite Hitem, Hs. cbn [mbind option_bind]. cbv zeta.
    rewrite set_ap_state_same. destruct notify_player; simpl in *.
    + destruct (decide (ap_is_in_game w = 0)) as [Hout|Hin].
      * injection H1 as <-. simpl. rewrite decide_True by done.
        eexists. by split.
      * pose proof (process_received_item_state _ _ _ H1) as (_ & _ & Hgame).
        simpl in Hgame. rewrite decide_False by congruence.
        destruct (process_received_item_again item_id _ w1 w1 H1) as [w2 H2].
        exists w2. split; [done|]. split; [|done].
        by apply process_received_item_state in H2 as (-> & _).
    + by exists w1.
  - intros i c Hcounted Hc Hrange.
    rewrite (recv_state_counts item _ _ i c Hcounted Hs Hc). f_equal.
    unfold int_add. apply wrap_int_id. unfold in_int. lia.
  - intros -> Hout. simpl in H1. rewrite decide_True in H1 by done.
    by injection H1 as <-.
  - intros -> Hin. simpl in H1. rewrite decide_False in H1 by done.
    apply (process_received_item_trace item_id item) in H1; [|done].
    rewrite H1. simpl. unfold given_items. by rewrite omap_app.
Qed.


(** ** Location checks *)


Lemma is_loc_checked_loop_spec chk index n i :
  (i + n ≤ length chk)%nat →
  is_loc_checked_loop chk index n (Z.of_nat i)
  = Some (bool_decide (index ∈ take n (drop i chk))).
Proof.
  revert i. induction n as [|n IH]; intros i Hlen; simpl.
  - done.
  - rewrite arr_get_lookup.
    destruct (lookup_lt_is_Some_2 chk i) as [c Hc]; [lia|].
    rewrite Hc. simpl. rewrite (drop_S _ _ _ Hc). simpl.
    case_decide as Heq.
    + subst c. f_equal. symmetry. apply bool_decide_eq_true. by left.
    + replace (Z.of_nat i + 1) with (Z.of_nat (S i)) by lia.
      rewrite IH by lia. f_equal. apply bool_decide_ext.
      rewrite elem_of_cons. split; [by right|]. by intros [?|?].
Qed.

Lemma level_is_loc_checked_spec l index :
  0 ≤ check_count l ≤ Z.of_nat (length (checks l)) →
  level_is_loc_checked l index = Some (bool_decide (index ∈ checked_list l)).
Proof.
  intros Hcc. unfold level_is_loc_checked, checked_list.
  rewrite (is_loc_checked_loop_spec _ _ _ 0) by lia. by rewrite drop_0.
Qed.

Lemma checked_list_append l index :
  0 ≤ check_count l < Z.of_nat (length (checks l)) → check_count l < INT_MAX →
  checked_list (set_checks (<[Z.to_nat (check_count l) := index]> (checks l))
                           (int_add (check_count l) 1) l)
  = checked_list l ++ [index].
Proof.
  intros Hcc Hmax. unfold checked_list, int_add. simpl.
  rewrite wrap_int_id by (unfold in_int, INT_MIN, INT_MAX in *; lia).
  replace (Z.to_nat (check_count l + 1)) with (S (Z.to_nat (check_count l))) by lia.
  erewrite take_S_r; [|apply list_lookup_insert_eq; lia].
  by rewrite take_insert_ge by lia.
Qed.

(** What [record_check] does to a level whose list already holds the
    index or has room for one more check. A negative index is never
    recorded. *)
Lemma record_check_spec idx index s l :
  ap_get_level_state s idx = Some l →
  Z.of_nat (length (checks l)) = AP_CHECK_MAX →
  0 ≤ check_count l ≤ AP_CHECK_MAX →
  index ∈ checked_list l ∨ index < 0 ∨ check_count l < AP_CHECK_MAX →
  record_check idx index s =
    Some (if decide (index ∈ checked_list l ∨ index < 0) then s
          else set_level_states
                 (<[Z.to_nat (level_state_index idx) :=
                      set_checks (<[Z.to_nat (check_count l) := index]> (checks l))
                                 (int_add (check_count l) 1) l]> (level_states s)) s).
Proof.
  intros Hl Hlen Hcc Hroom. unfold record_check, is_loc_checked. rewrite Hl. simpl.
  rewrite level_is_loc_checked_spec by lia. simpl.
  destruct (decide (index ∈ checked_list l)) as [Hin|Hin].
  - rewrite bool_decide_eq_true_2 by done. by rewrite decide_True by (by left).
  - rewrite bool_decide_eq_false_2 by done.
    destruct (decide (index < 0)) as [Hneg|Hpos].
    + by rewrite decide_True by (by right).
    + rewrite decide_False by (by intros [?|?]).
      apply upd_level_state_Some. exists l. eexists. split; [done|].
      rewrite arr_set_in_range by (destruct Hroom as [?|[?|?]]; [done|lia|lia]).
      done.
Qed.

(** On a full list a new index has no slot left: [f_locrecv] has no bound
    test, and the write [checks[check_count]] is out of range. *)
Lemma record_check_full_list idx index s l :
  ap_get_level_state s idx = Some l →
  Z.of_nat (length (checks l)) = AP_CHECK_MAX →
  check_count l = AP_CHECK_MAX →
  index ∉ checked_list l → 0 ≤ index →
  record_check idx index s = None.
Proof.
  intros Hl Hlen Hcc Hin Hpos. unfold record_check, is_loc_checked.
  rewrite Hl. simpl.
  rewrite level_is_loc_checked_spec by (unfold AP_CHECK_MAX in *; lia). simpl.
  rewrite bool_decide_eq_false_2 by done. rewrite decide_False by lia.
  unfold upd_level_state. rewrite Hl. simpl.
  unfold arr_set. by rewrite decide_False by lia.
Qed.

Lemma f_locrecv_full_list loc_id ep map index w l :
  find_location loc_id = (true, (ep, map, index)) →
  ap_get_level_state (ap_state w)
    {| idx_ep := int_sub ep 1; idx_map := int_sub map 1 |} = Some l →
  Z.of_nat (length (checks l)) = AP_CHECK_MAX →
  check_count l = AP_CHECK_MAX →
  index ∉ checked_list l → 0 ≤ index →
  f_locrecv loc_id w = None.
Proof.
  intros Hfind Hl Hlen Hcc Hin Hpos. unfold f_locrecv. rewrite Hfind.
  cbv zeta. by rewrite (record_check_full_list _ _ _ l).
Qed.

Lemma ap_get_level_state_insert idx s l l' :
  ap_get_level_state s idx = Some l →
  ap_get_level_state
    (set_level_states (<[Z.to_nat (level_state_index idx) := l']> (level_states s)) s)
    idx = Some l'.
Proof.
  unfold ap_get_level_state. simpl. intros Hl.
  apply arr_get_Some in Hl as [Hlo Hl]. apply lookup_lt_Some in Hl.
  rewrite arr_get_nonneg by done. by apply list_lookup_insert_eq.
Qed.

(** C1, as amended. Recording the same location check twice leaves the
    session as recording it once, on a level whose checked list already
    holds the index or has room for one more entry. When the index is
    already in the list, or is negative (the level-complete location, which
    [f_locrecv] leaves at its guard), the call changes nothing; otherwise
    the index is appended to the checked list and the check counter goes up
    by one. *)
Theorem location_check_idempotent loc_id ep map index w l :
  find_location loc_id = (true, (ep, map, index)) →
  ap_get_level_state (ap_state w)
    {| idx_ep := int_sub ep 1; idx_map := int_sub map 1 |} = Some l →
  Z.of_nat (length (checks l)) = AP_CHECK_MAX →
  0 ≤ check_count l ≤ AP_CHECK_MAX →
  index ∈ checked_list l ∨ index < 0 ∨ check_count l < AP_CHECK_MAX →
  ∃ w1,
    f_locrecv loc_id w = Some w1 ∧
    f_locrecv loc_id w1 = Some w1 ∧
    (index ∈ checked_list l ∨ index < 0 → w1 = w) ∧
    (index ∉ checked_list l → 0 ≤ index →
     ∃ l1, ap_get_level_state (ap_state w1)
             {| idx_ep := int_sub ep 1; idx_map := int_sub map 1 |} = Some l1 ∧
           checked_list l1 = checked_list l ++ [index] ∧
           check_count l1 = check_count l + 1).
Proof.
  intros Hfind Hl Hlen Hcc Hroom.
  set (idx := {| idx_ep := int_sub ep 1; idx_map := int_sub map 1 |}) in *.
  unfold f_locrecv. rewrite Hfind. fold idx.
  rewrite (record_check_spec idx index _ l) by done. simpl.
  destruct (decide (index ∈ checked_list l ∨ index < 0)) as [Hnop|Hrec].
  - exists w. rewrite set_ap_state_same. split; [done|].
    rewrite (record_check_spec idx index _ l) by done. simpl.
    rewrite decide_True by done. rewrite set_ap_state_same.
    split; [done|]. split; [done|].
    intros Hnot Hpos. destruct Hnop; [done|lia].
  - assert (check_count l < AP_CHECK_MAX) as Hlt.
    { destruct Hroom as [?|[?|?]]; [|destruct Hrec; by right|done].
      destruct Hrec. by left. }
    eexists. split; [done|]. simpl.
    set (l1 := set_checks (<[Z.to_nat (check_count l) := index]> (checks l))
                          (int_add (check_count l) 1) l).
    assert (ap_get_level_state
              (set_level_states
                 (<[Z.to_nat (level_state_index idx) := l1]>
                    (level_states (ap_state w))) (ap_state w)) idx = Some l1) as Hl1
      by (by eapply ap_get_level_state_insert).
    assert (checked_list l1 = checked_list l ++ [index]) as Hlist.
    { apply checked_list_append; unfold AP_CHECK_MAX, INT_MAX in *; lia. }
    assert (check_count l1 = check_count l + 1) as Hcount.
    { simpl. unfold int_add. apply wrap_int_id.
      unfold in_int, INT_MIN, INT_MAX, AP_CHECK_MAX in *. lia. }
    split; [|split].
    + unfold record_check, is_loc_checked. rewrite Hl1. simpl.
      rewrite level_is_loc_checked_spec.
      2:{ rewrite Hcount. simpl. rewrite length_insert. lia. }
      rewrite bool_decide_eq_true_2.
      2:{ rewrite Hlist. apply elem_of_app. right. by left. }
      simpl. by destruct w.
    + intros Hin. by destruct Hrec.
    + intros _ _. by exists l1.
Qed.


(** ** Victory *)


Lemma quiet_refl w : quiet w w.
Proof. split; [done|]. exists []. by rewrite app_nil_r. Qed.

Lemma quiet_trans w1 w2 w3 : quiet w1 w2 → quiet w2 w3 → quiet w1 w3.
Proof.
  intros [Hv1 (es1 & Ht1 & Hq1)] [Hv2 (es2 & Ht2 & Hq2)]. split; [congruence|].
  exists (es1 ++ es2). split.
  - by rewrite Ht2, Ht1, app_assoc.
  - by apply Forall_app.
Qed.

Lemma quiet_emit e w : quiet_event e → quiet w (emit e w).
Proof. intros He. split; [done|]. exists [e]. split; [done|]. by apply Forall_singleton. Qed.

(** A world that differs in fields other than the victory flag and the
    trace. *)
Lemma quiet_same w w' :
  victory (ap_state w') = victory (ap_state w) → trace w' = trace w → quiet w w'.
Proof. intros Hv Ht. split; [done|]. exists []. by rewrite app_nil_r. Qed.

Lemma upd_level_state_victory idx f s s' :
  upd_level_state idx f s = Some s' → victory s' = victory s.
Proof. intros H. by apply upd_level_state_Some in H as (l & l' & _ & _ & ->). Qed.

Lemma inc_capacity_upgrade_victory i s s' :
  inc_capacity_upgrade i s = Some s' → victory s' = victory s.
Proof.
  unfold inc_capacity_upgrade. intros H.
  destruct (arr_get _ i) as [c|]; [|done]. simpl in H.
  destruct (arr_set _ i _) as [cs|]; [|done]. by injection H as <-.
Qed.

Lemma recalc_max_ammo_victory s s' :
  recalc_max_ammo s = Some s' → victory s' = victory s.
Proof.
  unfold recalc_max_ammo, for_upto. intros H.
  eapply (for_loop_preserves (λ s0, victory s0 = victory s)); [|exact H|done].
  intros j s1 s2 Hb Hs1. simpl in Hb.
  destruct (arr_get (max_ammo_start s1) j); [|done]. simpl in Hb.
  destruct (arr_get (max_ammo_add s1) j); [|done]. simpl in Hb.
  destruct (arr_get (capacity_upgrades _) j); [|done]. simpl in Hb.
  destruct (arr_set _ j _); [|done]. by injection Hb as <-.
Qed.

Lemma recv_state_victory item s s' :
  recv_state item s = Some s' → victory s' = victory s.
Proof.
  unfold recv_state. intros H.
  destruct (recv_backpack item s) as [s1|] eqn:H1; [|done]. simpl in H.
  destruct (recv_ammo_upgrade item s1) as [s2|] eqn:H2; [|done]. simpl in H.
  destruct (recv_key item s2) as [s3|] eqn:H3; [|done]. simpl in H.
  destruct (recv_weapon item s3) as [s4|] eqn:H4; [|done]. simpl in H.
  destruct (recv_map item s4) as [s5|] eqn:H5; [|done]. simpl in H.
  destruct (recv_unlock item s5) as [s6|] eqn:H6; [|done]. simpl in H.
  assert (victory s1 = victory s) as E1.
  { unfold recv_backpack in H1. case_decide; [|by injection H1 as <-].
    destruct (for_upto _ _ s) as [s0|] eqn:Hl; [|done]. simpl in H1.
    apply recalc_max_ammo_victory in H1. rewrite H1.
    eapply (for_loop_preserves (λ s0, victory s0 = victory s)); [|exact Hl|done].
    intros j sa sb Hb Hsa. apply inc_capacity_upgrade_victory in Hb. congruence. }
  assert (victory s2 = victory s1) as E2.
  { unfold recv_ammo_upgrade in H2. case_decide; [|by injection H2 as <-].
    destruct (decide (_ < ap_ammo_count)).
    - destruct (inc_capacity_upgrade _ s1) as [s0|] eqn:Hi; [|done]. simpl in H2.
      apply recalc_max_ammo_victory in H2.
      apply inc_capacity_upgrade_victory in Hi. congruence.
    - simpl in H2. by apply recalc_max_ammo_victory in H2. }
  assert (victory s3 = victory s2) as E3.
  { unfold recv_key in H3. destruct (get_keys_map !! _); [|by injection H3 as <-].
    by apply upd_level_state_victory in H3. }
  assert (victory s4 = victory s3) as E4.
  { unfold recv_weapon in H4.
    destruct (get_weapons_map !! _); [|by injection H4 as <-].
    destruct (arr_set _ _ _); [|done]. by injection H4 as <-. }
  assert (victory s5 = victory s4) as E5.
  { unfold recv_map in H5. case_decide; [|by injection H5 as <-].
    by apply upd_level_state_victory in H5. }
  assert (victory s6 = victory s5) as E6.
  { unfold recv_unlock in H6. case_decide; [|by injection H6 as <-].
    by apply upd_level_state_victory in H6. }
  assert (victory s' = victory s6) as E7.
  { unfold recv_complete in H. case_decide; [|by injection H as <-].
    by apply upd_level_state_victory in H. }
  congruence.
Qed.

Lemma process_received_item_quiet item_id w w' :
  process_received_item item_id w = Some w' → quiet w w'.
Proof.
  unfold process_received_item. intros H.
  destruct (get_item_type_table !! item_id) as [item|];
    [|injection H as <-; apply quiet_refl].
  assert (quiet w (emit (item_event item) w)) as Hq by (by apply quiet_emit).
  destruct (decide (item_ep item ≠ -1)); simpl in H.
  - destruct (ap_get_level_info _); [|done]. simpl in H.
    destruct (get_sprites !! _); injection H as <-; [|done].
    eapply quiet_trans; [exact Hq|]. by apply quiet_same.
  - destruct (get_sprites !! _); injection H as <-; [|done].
    eapply quiet_trans; [exact Hq|]. by apply quiet_same.
Qed.

Lemma f_itemrecv_quiet item_id player_id notify_player w w' :
  f_itemrecv item_id player_id notify_player w = Some w' → quiet w w'.
Proof.
  unfold f_itemrecv. intros H.
  destruct (get_item_type_table !! item_id) as [item|];
    [|injection H as <-; apply quiet_refl].
  destruct (recv_state item (ap_state w)) as [s|] eqn:Hs; [|done]. simpl in H.
  apply recv_state_victory in Hs.
  assert (quiet w (set_ap_state s w)) as Hq by (by apply quiet_same).
  destruct notify_player; simpl in H.
  - case_decide.
    + injection H as <-. by apply quiet_same.
    + eapply quiet_trans; [exact Hq|]. by eapply process_received_item_quiet.
  - by injection H as <-.
Qed.

Lemma f_locrecv_quiet loc_id w w' : f_locrecv loc_id w = Some w' → quiet w w'.
Proof.
  unfold f_locrecv. intros H.
  destruct (find_location loc_id) as [[] [[e m] index]];
    [|injection H as <-; apply quiet_refl].
  destruct (record_check _ index (ap_state w)) as [s|] eqn:Hs; [|done].
  injection H as <-. apply quiet_same; [|done]. simpl.
  unfold record_check in Hs.
  destruct (is_loc_checked _ _ _) as [[]|]; [by injection Hs as <-| |done].
  simpl in Hs. case_decide; [by injection Hs as <-|].
  by apply upd_level_state_victory in Hs.
Qed.

Lemma f_locinfo_quiet loc_infos w : quiet w (f_locinfo loc_infos w).
Proof.
  unfold f_locinfo. revert w. induction loc_infos as [|i rest IH]; intros w.
  - apply quiet_refl.
  - simpl. eapply quiet_trans; [|apply IH].
    case_decide; [by apply quiet_same|apply quiet_refl].
Qed.

Lemma apdoom_check_location_quiet idx index w w' :
  apdoom_check_location idx index w = Some w' → quiet w w'.
Proof.
  unfold apdoom_check_location. intros H.
  destruct (assoc_find _ get_location_table) as [t1|];
    [|injection H as <-; apply quiet_refl].
  destruct (assoc_find _ t1) as [t2|]; [|injection H as <-; apply quiet_refl].
  destruct (assoc_find index t2) as [id|]; [|injection H as <-; apply quiet_refl].
  destruct (if decide (index >= 0) then _ else _); [|done].
  injection H as <-. by apply quiet_emit.
Qed.

Lemma apdoom_complete_level_quiet idx w w' :
  apdoom_complete_level idx w = Some w' → quiet w w'.
Proof.
  unfold apdoom_complete_level. intros H.
  destruct (upd_level_state _ _ _) as [s|] eqn:Hs; [|done]. simpl in H.
  apply upd_level_state_victory in Hs.
  eapply quiet_trans; [|by eapply apdoom_check_location_quiet].
  by apply quiet_same.
Qed.

Lemma emit_messages_quiet ms w :
  quiet w (foldl (λ w m, emit (Ev_message m) w) w ms).
Proof.
  revert w. induction ms as [|m ms IH]; intros w; [apply quiet_refl|].
  simpl. eapply quiet_trans; [|apply IH]. by apply quiet_emit.
Qed.

Lemma flush_cached_messages_quiet w : quiet w (flush_cached_messages w).
Proof.
  unfold flush_cached_messages. destruct (ap_initialized w); [|apply quiet_refl].
  eapply quiet_trans; [apply emit_messages_quiet|]. by apply quiet_same.
Qed.

Lemma handle_messages_quiet pending w : quiet w (handle_messages pending w).
Proof.
  unfold handle_messages. revert w.
  induction pending as [|m ms IH]; intros w; [apply quiet_refl|].
  simpl. eapply quiet_trans; [|apply IH].
  destruct (ap_initialized w); [by apply quiet_emit|by apply quiet_same].
Qed.

Lemma dequeue_items_quiet queue w w' :
  dequeue_items queue w = Some w' → quiet w w'.
Proof.
  revert w. induction queue as [|id rest IH]; intros w H; simpl in H.
  - injection H as <-. apply quiet_refl.
  - destruct (process_received_item id _) as [w1|] eqn:Hp; [|done]. simpl in H.
    apply process_received_item_quiet in Hp.
    eapply quiet_trans; [|by eapply IH].
    eapply quiet_trans; [|exact Hp]. by apply quiet_same.
Qed.

Lemma apdoom_update_quiet pending w w' :
  apdoom_update pending w = Some w' → quiet w w'.
Proof.
  unfold apdoom_update. intros H.
  pose proof (flush_cached_messages_quiet w) as H1.
  pose proof (handle_messages_quiet pending (flush_cached_messages w)) as H2.
  destruct (if decide (ap_is_in_game _ ≠ 0) then _ else _) as [w1|] eqn:Hd; [|done].
  injection H as <-.
  assert (quiet (handle_messages pending (flush_cached_messages w)) w1) as H3.
  { case_decide; [by eapply dequeue_items_quiet|].
    injection Hd as <-. apply quiet_refl. }
  eapply quiet_trans; [exact H1|]. eapply quiet_trans; [exact H2|].
  eapply quiet_trans; [exact H3|]. by apply quiet_same.
Qed.


Lemma quiet_events_no_victory es :
  Forall quiet_event es →
  filter (λ e, e = Ev_victory) es = [] ∧
  filter (λ e, e = Ev_AP_StoryComplete) es = [].
Proof.
  induction 1 as [|e es [H1 H2] _ [IH1 IH2]]; [done|].
  rewrite !filter_cons. by rewrite !decide_False.
Qed.

Lemma quiet_counts w w' :
  quiet w w' →
  victory (ap_state w') = victory (ap_state w) ∧
  victory_callbacks (trace w') = victory_callbacks (trace w) ∧
  story_complete_signals (trace w') = story_complete_signals (trace w).
Proof.
  intros [Hv (es & -> & Hq)]. split; [done|].
  destruct (quiet_events_no_victory es Hq) as [H1 H2].
  unfold victory_callbacks, story_complete_signals.
  rewrite !filter_app, !length_app, H1, H2. simpl. lia.
Qed.


Lemma apdoom_check_victory_step w w' :
  apdoom_check_victory w = Some w' →
  w' = w ∨
  (victory (ap_state w) = 0 ∧ victory (ap_state w') = 1 ∧
   trace w' = trace w ++ [Ev_AP_StoryComplete; Ev_victory]).
Proof.
  unfold apdoom_check_victory. intros H.
  case_decide as Hv; [injection H as <-; by left|].
  destruct (victory_levels_completed _) as [[]|]; [|injection H as <-; by left|done].
  injection H as <-. right. split; [|split].
  - destruct (decide (victory (ap_state w) = 0)); [done|]. by destruct Hv.
  - done.
  - simpl. by rewrite <- app_assoc.
Qed.

Lemma do_call_victory c w w' :
  do_call c w = Some w' →
  (victory (ap_state w) ≠ 0 → victory (ap_state w') ≠ 0) ∧
  (victory_callbacks (trace w') + pending_victory w'
     ≤ victory_callbacks (trace w) + pending_victory w)%nat ∧
  (story_complete_signals (trace w') + pending_victory w'
     ≤ story_complete_signals (trace w) + pending_victory w)%nat.
Proof.
  intros H.
  assert (quiet w w' → 
          (victory (ap_state w) ≠ 0 → victory (ap_state w') ≠ 0) ∧
          (victory_callbacks (trace w') + pending_victory w'
             ≤ victory_callbacks (trace w) + pending_victory w)%nat ∧
          (story_complete_signals (trace w') + pending_victory w'
             ≤ story_complete_signals (trace w) + pending_victory w)%nat) as Hquiet.
  { intros Hq. apply quiet_counts in Hq as (Hv & Hc & Hs).
    unfold pending_victory. rewrite Hv, Hc, Hs. split; [done|]. lia. }
  destruct c; simpl in H.
  - by eapply Hquiet, f_itemrecv_quiet.
  - by eapply Hquiet, f_locrecv_quiet.
  - injection H as <-. apply Hquiet, f_locinfo_quiet.
  - by eapply Hquiet, apdoom_check_location_quiet.
  - by eapply Hquiet, apdoom_complete_level_quiet.
  - apply apdoom_check_victory_step in H as [->|(Hv0 & Hv1 & Ht)].
    + split; [done|]. lia.
    + unfold pending_victory, victory_callbacks, story_complete_signals.
      rewrite Hv0, Hv1, Ht, !filter_app, !length_app. simpl.
      split; [done|]. lia.
  - by eapply Hquiet, apdoom_update_quiet.
  - injection H as <-. apply Hquiet. by apply quiet_same.
Qed.

(** C3. Along any sequence of calls, victory checks included, the victory
    flag never goes from set back to clear, and the victory callback and
    the story-complete signal each go out at most once: not at all when the
    flag is already set at the start. *)
Theorem victory_latched cs w w' :
  run cs w = Some w' →
  (victory (ap_state w) ≠ 0 → victory (ap_state w') ≠ 0) ∧
  (victory_callbacks (trace w')
     ≤ victory_callbacks (trace w) + pending_victory w)%nat ∧
  (story_complete_signals (trace w')
     ≤ story_complete_signals (trace w) + pending_victory w)%nat.
Proof.
  revert w. induction cs as [|c cs IH]; intros w H; simpl in H.
  - injection H as <-. split; [done|]. lia.
  - destruct (do_call c w) as [w1|] eqn:Hc; [|done]. simpl in H.
    apply do_call_victory in Hc as (Hv1 & Hc1 & Hs1).
    apply IH in H as (Hv2 & Hc2 & Hs2).
    split; [by auto|]. lia.
Qed.


(** ** The pending item queue *)


Lemma dequeue_items_spec w :
  items_resolve → dequeue_items (ap_item_queue w) w = Some (after_dequeue w).
Proof.
  intros Hres. remember (ap_item_queue w) as q eqn:Hq. revert w Hq.
  induction q as [|id rest IH]; intros w Hq; simpl.
  - unfold after_dequeue. rewrite <- Hq. simpl. rewrite !app_nil_r.
    destruct w. simpl in *. by subst.
  - destruct (get_item_type_table !! id) as [item|] eqn:Hitem.
    + rewrite (process_received_item_known id item) by done. simpl.
      rewrite IH by done. f_equal. unfold after_dequeue. rewrite <- Hq. simpl.
      unfold known_items. simpl. rewrite Hitem. simpl.
      by rewrite <- !app_assoc.
    + rewrite process_received_item_unknown by done. simpl.
      rewrite IH by done. f_equal. unfold after_dequeue. rewrite <- Hq. simpl.
      unfold known_items. simpl. by rewrite Hitem.
Qed.


Lemma messages_only_refl w : messages_only w w.
Proof. by repeat split. Qed.

Lemma messages_only_trans w1 w2 w3 :
  messages_only w1 w2 → messages_only w2 w3 → messages_only w1 w3.
Proof.
  intros (?&?&?&?&?) (?&?&?&?&?). repeat split; congruence.
Qed.

Lemma given_items_app tr1 tr2 :
  given_items (tr1 ++ tr2) = given_items tr1 ++ given_items tr2.
Proof. apply omap_app. Qed.

Lemma messages_only_emit m w : messages_only w (emit (Ev_message m) w).
Proof.
  repeat split; try done. simpl. rewrite given_items_app. simpl.
  by rewrite app_nil_r.
Qed.

Lemma emit_messages_only ms w :
  messages_only w (foldl (λ w m, emit (Ev_message m) w) w ms).
Proof.
  revert w. induction ms as [|m ms IH]; intros w; [apply messages_only_refl|].
  simpl. eapply messages_only_trans; [|apply IH]. apply messages_only_emit.
Qed.

Lemma flush_cached_messages_only w : messages_only w (flush_cached_messages w).
Proof.
  unfold flush_cached_messages.
  destruct (ap_initialized w); [|apply messages_only_refl].
  eapply messages_only_trans; [apply emit_messages_only|]. by repeat split.
Qed.

Lemma handle_messages_only pending w : messages_only w (handle_messages pending w).
Proof.
  unfold handle_messages. revert w.
  induction pending as [|m ms IH]; intros w; [apply messages_only_refl|].
  simpl. eapply messages_only_trans; [|apply IH].
  destruct (ap_initialized w); [apply messages_only_emit|by repeat split].
Qed.

Lemma given_items_events items :
  given_items (item_event <$> items)
  = (λ item, (doom_type item, item_ep item, item_map item)) <$> items.
Proof. induction items as [|i items IH]; [done|]. simpl. by f_equal. Qed.

(** One update in active gameplay: every id of the queue is handed to
    [process_received_item] once, front first, and the queue ends empty. *)
Lemma apdoom_update_drains pending w :
  items_resolve → ap_is_in_game w ≠ 0 →
  ∃ w', apdoom_update pending w = Some w' ∧
        ap_item_queue w' = [] ∧
        ap_state w' = ap_state w ∧
        given_items (trace w')
        = given_items (trace w)
            ++ ((λ item, (doom_type item, item_ep item, item_map item))
                  <$> known_items (ap_item_queue w)) ∧
        ap_notification_icons w'
        = update_notification_icons
            (ap_notification_icons w
               ++ concat (item_icons <$> known_items (ap_item_queue w))).
Proof.
  intros Hres Hin. unfold apdoom_update.
  set (w1 := handle_messages pending (flush_cached_messages w)).
  assert (messages_only w w1) as (Hs & Hg & Hq & Hi & Ht).
  { eapply messages_only_trans;
      [apply flush_cached_messages_only|apply handle_messages_only]. }
  rewrite decide_True by congruence.
  rewrite dequeue_items_spec by done. simpl.
  eexists. split; [done|]. simpl. rewrite Hq, Hi, Hs.
  split; [done|]. split; [done|]. split; [|done].
  by rewrite given_items_app, Ht, given_items_events.
Qed.

(** Outside gameplay an update leaves the queue, the state and the icons
    to the animation alone. *)
Lemma apdoom_update_outside pending w :
  ap_is_in_game w = 0 →
  ∃ w', apdoom_update pending w = Some w' ∧
        ap_item_queue w' = ap_item_queue w ∧
        given_items (trace w') = given_items (trace w).
Proof.
  intros Hout. unfold apdoom_update.
  set (w1 := handle_messages pending (flush_cached_messages w)).
  assert (messages_only w w1) as (Hs & Hg & Hq & Hi & Ht).
  { eapply messages_only_trans;
      [apply flush_cached_messages_only|apply handle_messages_only]. }
  rewrite decide_False by (rewrite Hg; lia). simpl.
  eexists. split; [done|]. simpl. by rewrite Hq, Ht.
Qed.


Lemma queued_ids_cons ev evs :
  queued_ids (ev :: evs) = queued_ids [ev] ++ queued_ids evs.
Proof.
  unfold queued_ids. simpl. destruct ev as [[item_id player_id] notify_player].
  by destruct (notify_player && _).
Qed.

Lemma f_itemrecv_outside item_id player_id notify_player w w' :
  ap_is_in_game w = 0 →
  f_itemrecv item_id player_id notify_player w = Some w' →
  ap_is_in_game w' = 0 ∧
  ap_item_queue w' = ap_item_queue w ++ queued_ids [(item_id, player_id, notify_player)] ∧
  trace w' = trace w ∧
  ap_notification_icons w' = ap_notification_icons w.
Proof.
  intros Hout. unfold f_itemrecv, queued_ids.
  destruct (get_item_type_table !! item_id) as [item|] eqn:Hitem.
  - destruct (recv_state item (ap_state w)) as [s|]; [|done]. simpl.
    rewrite Hitem.
    destruct notify_player; simpl.
    + rewrite decide_True by done. by intros [= <-].
    + intros [= <-]. simpl. by rewrite app_nil_r.
  - intros [= <-]. simpl. rewrite Hitem.
    rewrite andb_false_r. simpl. by rewrite app_nil_r.
Qed.

Lemma item_calls_outside evs w w' :
  ap_is_in_game w = 0 →
  run (item_calls evs) w = Some w' →
  ap_is_in_game w' = 0 ∧
  ap_item_queue w' = ap_item_queue w ++ queued_ids evs ∧
  trace w' = trace w ∧
  ap_notification_icons w' = ap_notification_icons w.
Proof.
  revert w. induction evs as [|[[item_id player_id] notify_player] evs IH];
    intros w Hout H; simpl in H.
  - injection H as <-. by rewrite app_nil_r.
  - destruct (f_itemrecv _ _ _ w) as [w1|] eqn:H1; [|done]. simpl in H.
    apply f_itemrecv_outside in H1 as (Hout1 & Hq1 & Ht1 & Hi1); [|done].
    apply IH in H as (Hout' & Hq' & Ht' & Hi'); [|done].
    split; [done|]. split; [|split; congruence].
    by rewrite Hq', Hq1, <- app_assoc, <- queued_ids_cons.
Qed.

(** C4. Items received while the player is outside active gameplay are
    only queued, in arrival order; the first update in active gameplay
    hands every queued id to the engine exactly once, in that order, and
    leaves the queue empty. *)
Theorem pending_items_fifo evs pending v w w1 :
  items_resolve →
  ap_is_in_game w = 0 → v ≠ 0 →
  run (item_calls evs) w = Some w1 →
  ap_item_queue w1 = ap_item_queue w ++ queued_ids evs ∧
  given_items (trace w1) = given_items (trace w) ∧
  ∃ w2, apdoom_update pending (set_in_game v w1) = Some w2 ∧
        ap_item_queue w2 = [] ∧
        given_items (trace w2)
        = given_items (trace w)
            ++ ((λ item, (doom_type item, item_ep item, item_map item))
                  <$> known_items (ap_item_queue w ++ queued_ids evs)).
Proof.
  intros Hres Hout Hv Hrun.
  apply item_calls_outside in Hrun as (Hout1 & Hq1 & Ht1 & Hi1); [|done].
  split; [done|]. split; [by rewrite Ht1|].
  destruct (apdoom_update_drains pending (set_in_game v w1) Hres)
    as (w2 & Hup & Hq2 & Hs2 & Ht2 & Hi2); [done|].
  exists w2. split; [done|]. split; [done|].
  rewrite Ht2. simpl. by rewrite Ht1, Hq1.
Qed.


Lemma recv_state_unlock item s :
  doom_type item = -1 →
  recv_state item s
  = upd_level_state (item_level_index item) (λ l, Some (set_unlocked 1 l)) s.
Proof.
  intros Hdt. unfold recv_state.
  unfold recv_backpack. rewrite decide_False by lia. simpl.
  unfold recv_ammo_upgrade. rewrite decide_False by lia. simpl.
  assert (get_keys_map !! doom_type item = None) as Hk.
  { rewrite Hdt. unfold get_keys_map. by destruct (ap_base_game D). }
  assert (get_weapons_map !! doom_type item = None) as Hw.
  { rewrite Hdt. unfold get_weapons_map. by destruct (ap_base_game D). }
  unfold recv_key. rewrite Hk. simpl.
  unfold recv_weapon. rewrite Hw. simpl.
  unfold recv_map. rewrite decide_False.
  2:{ rewrite Hdt. unfold get_map_doom_type. by destruct (ap_base_game D). }
  simpl. unfold recv_unlock. rewrite decide_True by done.
  destruct (upd_level_state _ _ s) as [s'|]; [|done]. simpl.
  unfold recv_complete. by rewrite decide_False by lia.
Qed.

(** C5, as amended. An item-received event that arrives while the player
    is outside active gameplay applies the effects of the item on
    [ap_state] at once (for a level unlock the [unlocked] flag of the level
    is set before the handler returns), then appends the raw item id to the
    pending queue and returns; the engine callback and the notification
    icon are left to the first update in active gameplay, which handles the
    queue front to back. *)
Theorem item_received_outside_gameplay item_id player_id item w :
  items_resolve →
  get_item_type_table !! item_id = Some item →
  ap_is_in_game w = 0 →
  f_itemrecv item_id player_id true w
  = (s ← recv_state item (ap_state w);
     Some (set_item_queue (ap_item_queue w ++ [item_id]) (set_ap_state s w))) ∧
  ∀ w1, f_itemrecv item_id player_id true w = Some w1 →
    trace w1 = trace w ∧
    ap_notification_icons w1 = ap_notification_icons w ∧
    (doom_type item = -1 →
     ∃ l, ap_get_level_state (ap_state w1) (item_level_index item) = Some l ∧
          unlocked l = 1) ∧
    ∀ pending v, v ≠ 0 →
      ∃ w2, apdoom_update pending (set_in_game v w1) = Some w2 ∧
            ap_state w2 = ap_state w1 ∧
            given_items (trace w2)
            = given_items (trace w)
                ++ ((λ item, (doom_type item, item_ep item, item_map item))
                      <$> (known_items (ap_item_queue w) ++ [item])) ∧
            ap_notification_icons w2
            = update_notification_icons
                (ap_notification_icons w
                   ++ concat (item_icons <$> (known_items (ap_item_queue w) ++ [item]))).
Proof.
  intros Hres Hitem Hout.
  assert (f_itemrecv item_id player_id true w
          = (s ← recv_state item (ap_state w);
             Some (set_item_queue (ap_item_queue w ++ [item_id])
                     (set_ap_state s w)))) as Heq.
  { rewrite (f_itemrecv_known _ _ _ item) by done.
    destruct (recv_state item (ap_state w)); [|done]. simpl.
    by rewrite decide_True. }
  split; [done|]. intros w1 H1. rewrite Heq in H1.
  destruct (recv_state item (ap_state w)) as [s|] eqn:Hs; [|done].
  injection H1 as <-. simpl.
  split; [done|]. split; [done|]. split.
  - intros Hdt. rewrite recv_state_unlock in Hs by done.
    apply upd_level_state_get in Hs as (l & l' & Hl & [= <-] & Hl').
    by exists (set_unlocked 1 l).
  - intros pending v Hv.
    destruct (apdoom_update_drains pending
                (set_in_game v (set_item_queue (ap_item_queue w ++ [item_id])
                                  (set_ap_state s w))) Hres)
      as (w2 & Hup & Hq2 & Hs2 & Ht2 & Hi2); [done|].
    exists w2. split; [done|]. split; [done|]. simpl in Ht2, Hi2.
    unfold known_items in *. rewrite omap_app in Ht2, Hi2.
    simpl in Ht2, Hi2. rewrite Hitem in Ht2, Hi2. by simpl in Ht2, Hi2.
Qed.


(** ** Loops over the levels of the catalog *)


Lemma for_loop_fold {St} n i (body : Z → St → option St) s :
  for_loop n i body s = fold_opt body (upto_from n i) s.
Proof.
  revert i s. induction n as [|n IH]; intros i s; [done|]. simpl.
  destruct (body i s); [|done]. simpl. apply IH.
Qed.

Lemma for_upto_fold {St} hi (body : Z → St → option St) s :
  for_upto hi body s = fold_opt body (upto hi) s.
Proof. apply for_loop_fold. Qed.

Lemma fold_opt_app {A St} (f : A → St → option St) l1 l2 s :
  fold_opt f (l1 ++ l2) s = fold_opt f l1 s ≫= fold_opt f l2.
Proof.
  revert s. induction l1 as [|a l1 IH]; intros s; [done|]. simpl.
  destruct (f a s); [|done]. simpl. apply IH.
Qed.

Lemma fold_opt_fmap {A B St} (g : A → B) (f : B → St → option St) l s :
  fold_opt f (g <$> l) s = fold_opt (λ a, f (g a)) l s.
Proof.
  revert s. induction l as [|a l IH]; intros s; [done|]. simpl.
  destruct (f (g a) s); [|done]. simpl. apply IH.
Qed.

Lemma fold_opt_ext {A St} (f g : A → St → option St) l s :
  (∀ a s, a ∈ l → f a s = g a s) → fold_opt f l s = fold_opt g l s.
Proof.
  revert s. induction l as [|a l IH]; intros s Hfg; [done|]. simpl.
  rewrite Hfg by (by left). destruct (g a s); [|done]. simpl.
  apply IH. intros b s' Hb. apply Hfg. by right.
Qed.

Lemma episode_levels_fold {St} ep (body : Z → Z → St → option St) s :
  fold_opt (λ lv, body lv.1 lv.2) (episode_levels ep) s
  = for_upto (ap_get_map_count (int_add ep 1)) (body ep) s.
Proof. unfold episode_levels. by rewrite fold_opt_fmap, for_upto_fold. Qed.

Lemma for_each_level_fold {St} (body : Z → Z → St → option St) s :
  for_each_level body s = fold_opt (λ lv, body lv.1 lv.2) catalog_levels s.
Proof.
  unfold for_each_level, catalog_levels. rewrite for_upto_fold.
  generalize (upto ap_episode_count). intros eps. revert s.
  induction eps as [|ep eps IH]; intros s; [done|]. simpl.
  rewrite fold_opt_app, episode_levels_fold.
  destruct (for_upto _ _ s); [|done]. simpl. apply IH.
Qed.

(** The processed part of the list is an index of the invariant; a step
    gets to know what comes before it and what comes after. *)
Lemma fold_opt_inv {A St} (I : list A → St → Prop) (f : A → St → option St) l s :
  I [] s →
  (∀ done a rest st, l = done ++ a :: rest → I done st →
     ∃ st', f a st = Some st' ∧ I (done ++ [a]) st') →
  ∃ s', fold_opt f l s = Some s' ∧ I l s'.
Proof.
  intros Hs Hstep.
  assert (∀ rest done st, l = done ++ rest → I done st →
            ∃ s', fold_opt f rest st = Some s' ∧ I l s') as Hgen.
  { induction rest as [|a rest IH]; intros done st Hl Hst.
    - exists st. rewrite app_nil_r in Hl. by subst.
    - destruct (Hstep done a rest st Hl Hst) as (st' & Hf & Hst').
      destruct (IH (done ++ [a]) st') as (s' & Hfold & Hs'); [|done|].
      + by rewrite <- app_assoc.
      + exists s'. simpl. by rewrite Hf. }
  by apply (Hgen l []).
Qed.

Lemma fold_opt_inv_Some {A St} (I : list A → St → Prop)
    (f : A → St → option St) l s s' :
  fold_opt f l s = Some s' →
  I [] s →
  (∀ done a rest st st', l = done ++ a :: rest → I done st →
     f a st = Some st' → I (done ++ [a]) st') →
  I l s'.
Proof.
  intros Hfold Hs Hstep.
  assert (∀ rest done st, l = done ++ rest → I done st →
            fold_opt f rest st = Some s' → I l s') as Hgen.
  { induction rest as [|a rest IH]; intros done st Hl Hst Hf.
    - injection Hf as <-. rewrite app_nil_r in Hl. by subst.
    - simpl in Hf. destruct (f a st) as [st'|] eqn:Hfa; [|done]. simpl in Hf.
      apply (IH (done ++ [a]) st'); [by rewrite <- app_assoc| |done].
      by eapply Hstep. }
  by apply (Hgen l [] s).
Qed.

(** The same, for two runs side by side. *)
Lemma fold_opt_rel {A St} (R : list A → St → St → Prop) (f : A → St → option St)
    l s1 s2 s1' s2' :
  fold_opt f l s1 = Some s1' → fold_opt f l s2 = Some s2' →
  R [] s1 s2 →
  (∀ done a st1 st2 st1' st2', R done st1 st2 →
     f a st1 = Some st1' → f a st2 = Some st2' → R (done ++ [a]) st1' st2') →
  R l s1' s2'.
Proof.
  intros H1 H2 HR Hstep.
  assert (∀ rest done st1 st2, l = done ++ rest → R done st1 st2 →
            fold_opt f rest st1 = Some s1' → fold_opt f rest st2 = Some s2' →
            R l s1' s2') as Hgen.
  { induction rest as [|a rest IH]; intros done st1 st2 Hl Hst Hf1 Hf2.
    - injection Hf1 as <-. injection Hf2 as <-. rewrite app_nil_r in Hl. by subst.
    - simpl in Hf1, Hf2.
      destruct (f a st1) as [t1|] eqn:E1; [|done].
      destruct (f a st2) as [t2|] eqn:E2; [|done]. simpl in Hf1, Hf2.
      apply (IH (done ++ [a]) t1 t2); [by rewrite <- app_assoc| |done..].
      by eapply Hstep. }
  by apply (Hgen l [] s1 s2).
Qed.

Lemma for_each_selected_level_fold {St} (I : St → Prop) (en : Z → bool)
    (selected : Z → St → option bool) (body : Z → Z → St → option St) s :
  I s →
  (∀ ep st, ep ∈ upto ap_episode_count → I st → selected ep st = Some (en ep)) →
  (∀ ep map st st', I st → body ep map st = Some st' → I st') →
  for_each_selected_level selected body s
  = fold_opt (λ lv, body lv.1 lv.2) (selected_levels en) s.
Proof.
  intros Hs Hsel Hbody.
  unfold for_each_selected_level, selected_levels. rewrite for_upto_fold.
  assert (∀ ep lvs st st', I st →
            fold_opt (λ lv, body lv.1 lv.2) ((λ map, (ep, map)) <$> lvs) st = Some st' →
            I st') as Hkeep.
  { intros ep lvs. induction lvs as [|m lvs IH]; intros st st' Hst Hf; simpl in Hf.
    - by injection Hf as <-.
    - destruct (body ep m st) as [st1|] eqn:Hb; [|done]. simpl in Hf.
      eapply IH; [|done]. by eapply Hbody. }
  revert Hsel. generalize (upto ap_episode_count). intros eps Hsel. revert s Hs.
  induction eps as [|ep eps IH]; intros s Hs; [done|]. simpl.
  rewrite Hsel by (done || by left). simpl. rewrite fold_opt_app.
  destruct (en ep).
  - rewrite episode_levels_fold.
    destruct (for_upto _ _ s) as [s1|] eqn:Hf; [|done]. simpl.
    apply IH; [intros; apply Hsel; [by right|done]|].
    rewrite <- episode_levels_fold in Hf. by eapply Hkeep.
  - simpl. apply IH; [|done]. intros; apply Hsel; [by right|done].
Qed.


(** ** Seeded randomisation *)

Lemma upd_level_state_other idx f s s' idx' :
  upd_level_state idx f s = Some s' →
  level_state_index idx' ≠ level_state_index idx →
  ap_get_level_state s' idx' = ap_get_level_state s idx'.
Proof.
  intros H Hne. apply upd_level_state_Some in H as (l & l' & Hl & Hf & ->).
  unfold ap_get_level_state in *. simpl.
  destruct (decide (0 ≤ level_state_index idx')) as [Hlo|Hlo].
  - rewrite !arr_get_nonneg by done. apply list_lookup_insert_ne.
    apply arr_get_Some in Hl as [? _]. lia.
  - unfold arr_get. by rewrite !decide_False.
Qed.

Lemma upd_level_state_same_index idx f s s' idx' l' :
  upd_level_state idx f s = Some s' →
  level_state_index idx' = level_state_index idx →
  ap_get_level_state s' idx = Some l' →
  ap_get_level_state s' idx' = Some l'.
Proof. unfold ap_get_level_state. by intros _ ->. Qed.

(** A write that leaves [flipped] alone leaves it alone everywhere. *)
Lemma upd_level_state_flipped idx f s s' idx' :
  (∀ l l', f l = Some l' → flipped l' = flipped l) →
  upd_level_state idx f s = Some s' →
  flipped <$> ap_get_level_state s' idx' = flipped <$> ap_get_level_state s idx'.
Proof.
  intros Hf H.
  destruct (decide (level_state_index idx' = level_state_index idx)) as [He|Hne].
  - pose proof (upd_level_state_get _ _ _ _ H) as (l & l' & Hl & Hfl & Hl').
    unfold ap_get_level_state in *. rewrite He, Hl, Hl'. simpl.
    f_equal. by eapply Hf.
  - by rewrite (upd_level_state_other _ _ _ _ _ H Hne).
Qed.

Lemma original_music_step_flipped s s' idx :
  original_music_step s = Some s' →
  flipped <$> ap_get_level_state s' idx = flipped <$> ap_get_level_state s idx.
Proof.
  unfold original_music_step. rewrite for_each_level_fold. intros H.
  apply (fold_opt_inv_Some
           (λ _ st, flipped <$> ap_get_level_state st idx
                    = flipped <$> ap_get_level_state s idx) _ _ _ _ H); [done|].
  intros done [e m] rest st st' _ Hst Hf. simpl in Hf.
  destruct (get_original_music_for_level _ _) as [mu|]; [|done]. simpl in Hf.
  rewrite <- Hst. eapply upd_level_state_flipped; [|exact Hf].
  by intros l l' [= <-].
Qed.

Lemma shuffle_music_level_flipped e m st st' idx :
  shuffle_music_level e m st = Some st' →
  flipped <$> ap_get_level_state st'.1.1 idx
  = flipped <$> ap_get_level_state st.1.1 idx.
Proof.
  destruct st as [[s g] pool]. unfold shuffle_music_level.
  destruct (rand g) as [r g']. case_decide; [done|].
  destruct (arr_get pool _) as [mus|]; [|done]. simpl.
  destruct (upd_level_state _ _ s) as [s1|] eqn:Hu; [|done]. simpl.
  intros [= <-]. simpl. eapply upd_level_state_flipped; [|exact Hu].
  by intros l l' [= <-].
Qed.

Lemma shuffle_music_step_flipped s g s' g' idx :
  shuffle_music_step s g = Some (s', g') →
  flipped <$> ap_get_level_state s' idx = flipped <$> ap_get_level_state s idx.
Proof.
  unfold shuffle_music_step. case_decide; [|by intros [= <- <-]].
  destruct (collect_music_pool s) as [pool|]; [|done]. simpl.
  destruct (for_each_selected_level _ _ _) as [[[s1 g1] pool1]|] eqn:Hl; [|done].
  simpl. intros [= <- <-].
  unfold for_each_selected_level, for_upto in Hl.
  apply (for_loop_preserves
           (λ st, flipped <$> ap_get_level_state st.1.1 idx
                  = flipped <$> ap_get_level_state s idx) _ _ _ _ _) in Hl;
    [done| |done].
  intros j [[sa ga] pa] [[sb gb] pb] Hb Hsa. simpl in Hb.
  destruct (arr_get (episodes sa) j) as [e|]; [|done]. simpl in Hb.
  case_bool_decide; [|by injection Hb as <- <- <-].
  unfold for_upto in Hb.
  apply (for_loop_preserves
           (λ st, flipped <$> ap_get_level_state st.1.1 idx
                  = flipped <$> ap_get_level_state s idx) _ _ _ _ _) in Hb;
    [done| |done].
  intros k sta stb Hk Hsta. rewrite <- Hsta.
  by eapply shuffle_music_level_flipped.
Qed.

Lemma select_default_episode_frame s s' :
  select_default_episode s = Some s' →
  flip_levels s' = flip_levels s ∧ level_states s' = level_states s.
Proof.
  unfold select_default_episode. intros H.
  destruct (for_upto _ _ 0) as [n|]; [|done]. simpl in H.
  case_decide; [|by injection H as <-].
  destruct (arr_set _ _ _); [|done]. by injection H as <-.
Qed.


(** Mode 2 of the flip derivation, run twice from the same generator
    state: the generator ends in the same state and every level written
    holds the same flag in both runs. *)
Lemma random_flips_lockstep s1 s2 g s1' s2' g1' g2' :
  for_each_level (λ ep map '(s, g),
      let '(r, g) := rand g in
      s ← upd_level_state {| idx_ep := ep; idx_map := map |}
             (λ l, Some (set_flipped (r `rem` 2) l)) s;
      Some (s, g)) (s1, g) = Some (s1', g1') →
  for_each_level (λ ep map '(s, g),
      let '(r, g) := rand g in
      s ← upd_level_state {| idx_ep := ep; idx_map := map |}
             (λ l, Some (set_flipped (r `rem` 2) l)) s;
      Some (s, g)) (s2, g) = Some (s2', g2') →
  g1' = g2' ∧ g1' = (draws (length catalog_levels) g).2 ∧
  ∀ lv, lv ∈ catalog_levels →
    flipped <$> ap_get_level_state s1' {| idx_ep := lv.1; idx_map := lv.2 |}
    = flipped <$> ap_get_level_state s2' {| idx_ep := lv.1; idx_map := lv.2 |}.
Proof.
  rewrite !for_each_level_fold. intros H1 H2.
  pose proof (fold_opt_rel
    (λ done (st1 st2 : ap_state_t * rng_state),
       st1.2 = st2.2 ∧ st1.2 = (draws (length done) g).2 ∧
       ∀ lv, lv ∈ done →
         flipped <$> ap_get_level_state st1.1 {| idx_ep := lv.1; idx_map := lv.2 |}
         = flipped <$> ap_get_level_state st2.1 {| idx_ep := lv.1; idx_map := lv.2 |})
    _ _ _ _ _ _ H1 H2) as Hrel.
  simpl in Hrel. apply Hrel; clear Hrel H1 H2.
  - split; [done|]. split; [done|]. intros lv Hlv. by apply elem_of_nil in Hlv.
  - intros done [e m] [sa ga] [sb gb] [sa' ga'] [sb' gb'] (Hg & Hd & Hagree).
    simpl in Hg, Hd, Hagree. subst gb. simpl.
    destruct (rand ga) as [r gn] eqn:Hr.
    destruct (upd_level_state _ _ sa) as [sa1|] eqn:Ha; [|done].
    destruct (upd_level_state _ _ sb) as [sb1|] eqn:Hb; [|done]. simpl.
    intros [= <- <-] [= <- <-]. simpl. split; [done|]. split.
    + rewrite length_app. simpl.
      clear -Hd Hr. revert g Hd. generalize (length done). intros n.
      induction n as [|n IH]; intros g0 Hd; simpl in *.
      * subst ga. rewrite Hr. done.
      * destruct (rand g0) as [r0 g1]. specialize (IH g1).
        destruct (draws n g1) as [rs gk] eqn:Hdr. simpl in Hd. subst ga.
        specialize (IH eq_refl). destruct (draws (n + 1) g1) as [rs' gk'].
        simpl in IH. by subst.
    + intros lv Hlv.
      set (idx := {| idx_ep := e; idx_map := m |}) in *.
      set (idx' := {| idx_ep := lv.1; idx_map := lv.2 |}).
      destruct (decide (level_state_index idx' = level_state_index idx)) as [He|Hne].
      * pose proof (upd_level_state_get _ _ _ _ Ha) as (la & la' & _ & [= <-] & Hla).
        pose proof (upd_level_state_get _ _ _ _ Hb) as (lb & lb' & _ & [= <-] & Hlb).
        unfold ap_get_level_state in *. rewrite He, Hla, Hlb. done.
      * rewrite (upd_level_state_other _ _ _ _ _ Ha Hne).
        rewrite (upd_level_state_other _ _ _ _ _ Hb Hne).
        apply Hagree. apply elem_of_app in Hlv as [?|Hlv]; [done|].
        apply list_elem_of_singleton in Hlv. subst lv. by destruct Hne.
Qed.


Lemma hash_seed_djb2 str : hash_seed str = djb2_from str 5381.
Proof.
  unfold hash_seed. generalize 5381. induction str as [|ch rest IH]; intros h.
  - done.
  - simpl. case_decide; [done|]. rewrite IH. f_equal.
    unfold wrap_u64. rewrite Z.shiftl_mul_pow2 by lia.
    rewrite Zplus_mod_idemp_l. f_equal. lia.
Qed.

Lemma flip_levels_step_random s g s' g' :
  flip_levels s = 2 →
  flip_levels_step s g = Some (s', g') →
  for_each_level (λ ep map '(s, g),
      let '(r, g) := rand g in
      s ← upd_level_state {| idx_ep := ep; idx_map := map |}
             (λ l, Some (set_flipped (r `rem` 2) l)) s;
      Some (s, g)) (s, g) = Some (s', g').
Proof.
  intros Hmode. unfold flip_levels_step.
  rewrite decide_False by lia. by rewrite decide_True by done.
Qed.

(** C9. In flip mode 2 the per-level flip flags are a function of the
    save-directory string alone: the seed is the djb2 hash of that string,
    the generator is seeded from it and from nothing else, one draw is taken
    per level in catalog order, and two runs that share the string end with
    the same flag on every level of the catalog, whatever else differs
    between the two sessions. *)
Theorem flip_derivation_deterministic w1 w2 w1' g1 w2' g2 :
  ap_save_dir_name w1 = ap_save_dir_name w2 →
  flip_levels (ap_state w1) = 2 → flip_levels (ap_state w2) = 2 →
  apdoom_init_randomize w1 = Some (w1', g1) →
  apdoom_init_randomize w2 = Some (w2', g2) →
  let seed := djb2_from (ap_save_dir_name w1) 5381 in
  (∃ s0 s1 gf,
     select_default_episode (ap_state w1) = Some s0 ∧
     flip_levels_step s0 (srand (seed `mod` 4294967296)) = Some (s1, gf) ∧
     gf = (draws (length catalog_levels) (srand (seed `mod` 4294967296))).2 ∧
     ∀ idx, flipped <$> ap_get_level_state (ap_state w1') idx
            = flipped <$> ap_get_level_state s1 idx) ∧
  ∀ lv, lv ∈ catalog_levels →
    flipped <$> ap_get_level_state (ap_state w1')
                  {| idx_ep := lv.1; idx_map := lv.2 |}
    = flipped <$> ap_get_level_state (ap_state w2')
                    {| idx_ep := lv.1; idx_map := lv.2 |}.
Proof.
  intros Hdir Hm1 Hm2 H1 H2 seed.
  unfold apdoom_init_randomize, apdoom_get_seed in H1, H2.
  rewrite <- Hdir in H2. rewrite hash_seed_djb2 in H1, H2. fold seed in H1, H2.
  destruct (select_default_episode (ap_state w1)) as [a0|] eqn:Ha0; [|done].
  destruct (select_default_episode (ap_state w2)) as [b0|] eqn:Hb0; [|done].
  simpl in H1, H2.
  destruct (flip_levels_step a0 _) as [[a1 ga]|] eqn:Ha1; [|done].
  destruct (flip_levels_step b0 _) as [[b1 gb]|] eqn:Hb1; [|done].
  simpl in H1, H2.
  destruct (original_music_step a1) as [a2|] eqn:Ha2; [|done].
  destruct (original_music_step b1) as [b2|] eqn:Hb2; [|done].
  simpl in H1, H2.
  destruct (shuffle_music_step a2 ga) as [[a3 ga3]|] eqn:Ha3; [|done].
  destruct (shuffle_music_step b2 gb) as [[b3 gb3]|] eqn:Hb3; [|done].
  simpl in H1, H2. injection H1 as <- <-. injection H2 as <- <-. simpl.
  apply select_default_episode_frame in Ha0 as Hfa. destruct Hfa as [Hfa _].
  apply select_default_episode_frame in Hb0 as Hfb. destruct Hfb as [Hfb _].
  apply flip_levels_step_random in Ha1 as Hra; [|congruence].
  apply flip_levels_step_random in Hb1 as Hrb; [|congruence].
  destruct (random_flips_lockstep _ _ _ _ _ _ _ Hra Hrb) as (Hg & Hdraws & Hsame).
  assert (∀ idx, flipped <$> ap_get_level_state a3 idx
                 = flipped <$> ap_get_level_state a1 idx) as Hkeep1.
  { intros idx. rewrite (shuffle_music_step_flipped _ _ _ _ _ Ha3).
    by rewrite (original_music_step_flipped _ _ _ Ha2). }
  assert (∀ idx, flipped <$> ap_get_level_state b3 idx
                 = flipped <$> ap_get_level_state b1 idx) as Hkeep2.
  { intros idx. rewrite (shuffle_music_step_flipped _ _ _ _ _ Hb3).
    by rewrite (original_music_step_flipped _ _ _ Hb2). }
  split.
  - by exists a0, a1, ga.
  - intros lv Hlv. rewrite Hkeep1, Hkeep2. by apply Hsame.
Qed.


(** ** The levels of the catalog and their slots in [level_states] *)

Lemma elem_of_upto_from n i j : j ∈ upto_from n i ↔ i ≤ j < i + Z.of_nat n.
Proof.
  revert i. induction n as [|n IH]; intros i; simpl.
  - rewrite elem_of_nil. lia.
  - rewrite elem_of_cons, IH. lia.
Qed.

Lemma elem_of_upto hi j : j ∈ upto hi ↔ 0 ≤ j < hi.
Proof. unfold upto. rewrite elem_of_upto_from. lia. Qed.

Lemma NoDup_upto_from n i : NoDup (upto_from n i).
Proof.
  revert i. induction n as [|n IH]; intros i; simpl; [constructor|].
  constructor; [|apply IH]. rewrite elem_of_upto_from. lia.
Qed.

Lemma length_upto_from n i : length (upto_from n i) = n.
Proof. revert i. induction n as [|n IH]; intros i; simpl; [done|]. by rewrite IH. Qed.


Lemma max_map_count_bound :
  0 ≤ max_map_count ∧
  ∀ row, row ∈ get_level_info_table → int_size row ≤ max_map_count.
Proof.
  unfold max_map_count. generalize get_level_info_table. intros t.
  assert (∀ a, a ≤ foldl (λ m (r : list ap_level_info_t), Z.max m (int_size r)) a t ∧
               ∀ row, row ∈ t →
                 int_size row
                 ≤ foldl (λ m (r : list ap_level_info_t), Z.max m (int_size r)) a t)
    as Hgen.
  { induction t as [|r t IH]; intros a; simpl.
    - split; [lia|]. intros row Hrow. by apply elem_of_nil in Hrow.
    - destruct (IH (Z.max a (int_size r))) as [Hge Hrows]. split; [lia|].
      intros row Hrow. apply elem_of_cons in Hrow as [->|Hrow]; [lia|].
      by apply Hrows. }
  destruct (Hgen 0) as [? ?]. done.
Qed.

Lemma ap_episode_count_fits :
  catalog_fits → ap_episode_count = Z.of_nat (length get_level_info_table).
Proof. intros [Hfit _]. by apply int_size_fits. Qed.

(** A level of the catalog: its episode and map are in range, and its slot
    in [level_states] is [ep * max_map_count + map]. *)
Lemma catalog_level_bounds lv :
  catalog_small → lv ∈ catalog_levels →
  0 ≤ lv.1 < ap_episode_count ∧ 0 ≤ lv.2 < max_map_count ∧
  0 ≤ lv.2 < ap_get_map_count (int_add lv.1 1) ∧
  level_state_index {| idx_ep := lv.1; idx_map := lv.2 |}
  = lv.1 * max_map_count + lv.2 ∧
  0 ≤ lv.1 * max_map_count + lv.2 < ap_episode_count * max_map_count.
Proof.
  intros [Hfits Hsmall] Hlv. unfold catalog_levels in Hlv.
  apply list_elem_of_bind in Hlv as (e & Hlv & He).
  unfold episode_levels in Hlv. apply list_elem_of_fmap in Hlv as (m & -> & Hm).
  apply elem_of_upto in He, Hm. simpl.
  pose proof (ap_episode_count_fits Hfits) as Hcount.
  destruct (lookup_lt_is_Some_2 get_level_info_table (Z.to_nat e)) as [row Hrow];
    [lia|].
  assert (ap_get_map_count (int_add e 1) = Z.of_nat (length row)) as Hmc.
  { unfold int_add. destruct Hfits as [Hf1 Hf2].
    rewrite wrap_int_id by (unfold in_int, INT_MIN, INT_MAX in *; lia).
    apply ap_get_map_count_in_range; [done| |lia|].
    - unfold in_int, INT_MIN, INT_MAX in *. lia.
    - by replace (e + 1 - 1) with e by lia. }
  destruct max_map_count_bound as [Hmax0 Hmax].
  assert (Z.of_nat (length row) ≤ max_map_count) as Hrowmax.
  { rewrite <- (int_size_fits row).
    - apply Hmax. by eapply list_elem_of_lookup_2.
    - destruct Hfits as [_ Hf2]. rewrite Forall_lookup in Hf2. by eapply Hf2. }
  assert (0 ≤ e * max_map_count + m < ap_episode_count * max_map_count) by nia.
  repeat split; try lia.
  unfold level_state_index, int_add, int_mul. simpl.
  rewrite (wrap_int_id (e * max_map_count))
    by (unfold in_int, INT_MIN, INT_MAX in *; nia).
  apply wrap_int_id. unfold in_int, INT_MIN, INT_MAX in *. nia.
Qed.

Lemma selected_levels_catalog en lv :
  lv ∈ selected_levels en → lv ∈ catalog_levels ∧ en lv.1 = true.
Proof.
  unfold selected_levels, catalog_levels. intros Hlv.
  apply list_elem_of_bind in Hlv as (e & Hlv & He).
  destruct (en e) eqn:Hen; [|by apply elem_of_nil in Hlv].
  split.
  - apply list_elem_of_bind. by exists e.
  - unfold episode_levels in Hlv.
    by apply list_elem_of_fmap in Hlv as (m & -> & _).
Qed.

Lemma NoDup_episode_levels e : NoDup (episode_levels e).
Proof.
  unfold episode_levels. apply NoDup_fmap_2; [|apply NoDup_upto_from].
  by intros a b [= ->].
Qed.

Lemma episode_levels_fst e lv : lv ∈ episode_levels e → lv.1 = e.
Proof.
  unfold episode_levels. intros H.
  by apply list_elem_of_fmap in H as (m & -> & _).
Qed.

Lemma NoDup_selected_levels en : NoDup (selected_levels en).
Proof.
  unfold selected_levels. apply NoDup_bind; [| |apply NoDup_upto_from].
  - intros e1 e2 lv _ _ H1 H2.
    destruct (en e1); [|by apply elem_of_nil in H1].
    destruct (en e2); [|by apply elem_of_nil in H2].
    apply episode_levels_fst in H1, H2. congruence.
  - intros e _. destruct (en e); [apply NoDup_episode_levels|constructor].
Qed.

(** Distinct levels of the catalog have distinct slots. *)
Lemma level_slots_distinct (lvs : list (Z * Z)) :
  catalog_small → NoDup lvs → (∀ lv, lv ∈ lvs → lv ∈ catalog_levels) →
  NoDup ((λ lv, level_state_index {| idx_ep := lv.1; idx_map := lv.2 |}) <$> lvs).
Proof.
  intros Hsmall Hnd Hcat. apply NoDup_fmap_2_strong; [|done].
  intros [e1 m1] [e2 m2] H1 H2 Heq.
  destruct (catalog_level_bounds _ Hsmall (Hcat _ H1)) as (He1 & Hm1 & _ & Hi1 & _).
  destruct (catalog_level_bounds _ Hsmall (Hcat _ H2)) as (He2 & Hm2 & _ & Hi2 & _).
  simpl in *. rewrite Hi1, Hi2 in Heq.
  assert (e1 = e2) as -> by nia. f_equal. lia.
Qed.

Lemma NoDup_fmap_before {A B} (f : A → B) done a rest b :
  NoDup (f <$> (done ++ a :: rest)) → b ∈ done → f b ≠ f a.
Proof.
  rewrite fmap_app, fmap_cons. intros Hnd Hb Heq.
  apply NoDup_app in Hnd as (_ & Hdisj & _).
  apply (Hdisj (f b)); [by apply list_elem_of_fmap_2|]. rewrite Heq. by left.
Qed.


(** ** Music shuffle *)


Lemma only_levels_differ_refl s : only_levels_differ s s.
Proof. split; [by destruct s|done]. Qed.

Lemma only_levels_differ_upd s st st' idx f :
  only_levels_differ s st → upd_level_state idx f st = Some st' →
  only_levels_differ s st'.
Proof.
  intros [Heq Hlen] H. apply upd_level_state_Some in H as (l & l' & _ & _ & ->).
  split.
  - simpl. rewrite Heq. done.
  - simpl. by rewrite length_insert.
Qed.

Lemma only_levels_differ_fields s s' :
  only_levels_differ s s' →
  episodes s' = episodes s ∧ random_music s' = random_music s ∧
  flip_levels s' = flip_levels s ∧ (state_sized s → state_sized s').
Proof.
  intros [Heq Hlen]. rewrite Heq. simpl.
  split; [done|]. split; [done|]. split; [done|].
  intros [H1 H2]. unfold state_sized. simpl. split; [lia|done].
Qed.

Lemma NoDup_catalog_levels : NoDup catalog_levels.
Proof.
  unfold catalog_levels. apply NoDup_bind; [| |apply NoDup_upto_from].
  - intros e1 e2 lv _ _ H1 H2. apply episode_levels_fst in H1, H2. congruence.
  - intros e _. apply NoDup_episode_levels.
Qed.

Lemma catalog_level_state s lv :
  catalog_small → state_sized s → lv ∈ catalog_levels →
  is_Some (ap_get_level_state s (level_idx lv)).
Proof.
  intros Hsmall [Hlen _] Hlv.
  destruct (catalog_level_bounds lv Hsmall Hlv) as (_ & _ & _ & Hi & Hr).
  unfold ap_get_level_state, level_idx. rewrite Hi.
  apply arr_get_in_range. lia.
Qed.

(** A write to one level of a list of levels with distinct slots: the
    level written reads back, the levels before it in the list are left as
    they were. *)
Lemma write_level_read_back (P : ap_state_t → Z * Z → Prop) done lv rest st st' f :
  NoDup ((λ lv, level_state_index (level_idx lv)) <$> (done ++ lv :: rest)) →
  upd_level_state (level_idx lv) f st = Some st' →
  ∀ lv', lv' ∈ done →
    ap_get_level_state st' (level_idx lv') = ap_get_level_state st (level_idx lv').
Proof.
  intros Hnd Hupd lv' Hlv'. eapply upd_level_state_other; [done|].
  by apply (NoDup_fmap_before _ _ _ _ _ Hnd).
Qed.

Lemma original_music_step_spec s :
  catalog_small → state_sized s →
  (∀ lv, lv ∈ catalog_levels → is_Some (original_music lv)) →
  ∃ s1, original_music_step s = Some s1 ∧ only_levels_differ s s1 ∧
        ∀ lv, lv ∈ catalog_levels → level_music s1 lv = original_music lv.
Proof.
  intros Hsmall Hsized Horig. unfold original_music_step.
  rewrite for_each_level_fold.
  pose proof (level_slots_distinct catalog_levels Hsmall NoDup_catalog_levels
                (λ _ H, H)) as Hnd.
  destruct (fold_opt_inv
    (λ done st, only_levels_differ s st ∧
                ∀ lv, lv ∈ done → level_music st lv = original_music lv)
    (λ lv s, m ← get_original_music_for_level (int_add lv.1 1) (int_add lv.2 1);
             upd_level_state {| idx_ep := lv.1; idx_map := lv.2 |}
               (λ l, Some (set_music m l)) s)
    catalog_levels s) as (s1 & Hrun & Hdiff & Hmus).
  - split; [apply only_levels_differ_refl|]. intros lv H. by apply elem_of_nil in H.
  - intros done lv rest st Hl [Hdiff Hmus].
    assert (lv ∈ catalog_levels) as Hlv.
    { rewrite Hl. apply elem_of_app. right. by left. }
    destruct (Horig lv Hlv) as [mu Hmu]. unfold original_music in Hmu.
    rewrite Hmu. simpl.
    apply only_levels_differ_fields in Hdiff as Hf.
    destruct Hf as (_ & _ & _ & Hsz). specialize (Hsz Hsized).
    destruct (catalog_level_state st lv Hsmall Hsz Hlv) as [l0 Hl0].
    destruct (upd_level_state_defined (level_idx lv)
                (λ l, Some (set_music mu l)) st l0 (set_music mu l0) Hl0 eq_refl)
      as [st' Hupd].
    exists st'. split; [exact Hupd|]. split; [by eapply only_levels_differ_upd|].
    intros lv' Hlv'. apply elem_of_app in Hlv' as [Hold|Hnew].
    + unfold level_music. rewrite Hl in Hnd.
      rewrite (write_level_read_back (λ _ _, True) _ _ _ _ _ _ Hnd Hupd lv' Hold).
      by apply Hmus.
    + apply list_elem_of_singleton in Hnew. subst lv'.
      apply upd_level_state_get in Hupd as (la & la' & _ & [= <-] & Hget).
      unfold level_music, original_music. rewrite Hget. simpl. by rewrite Hmu.
  - exists s1. split; [exact Hrun|]. split; [done|]. done.
Qed.


Lemma episode_read s e :
  state_sized s → e ∈ upto ap_episode_count →
  ∃ v, arr_get (episodes s) e = Some v ∧ episode_enabled s e = bool_decide (v ≠ 0).
Proof.
  intros [_ Hlen] He. apply elem_of_upto in He.
  destruct (arr_get_in_range (episodes s) e) as [v Hv]; [lia|].
  exists v. split; [done|]. unfold episode_enabled. by rewrite Hv.
Qed.

Lemma enabled_levels_catalog s lv : lv ∈ enabled_levels s → lv ∈ catalog_levels.
Proof. intros H. by apply selected_levels_catalog in H as [? _]. Qed.

(** There are no more levels than slots. *)
Lemma enabled_levels_length s :
  catalog_small →
  Z.of_nat (length (enabled_levels s)) ≤ ap_episode_count * max_map_count.
Proof.
  intros Hsmall.
  pose proof (level_slots_distinct (enabled_levels s) Hsmall
                (NoDup_selected_levels _) (enabled_levels_catalog s)) as Hnd.
  apply (NoDup_submseteq _ (seqZ 0 (ap_episode_count * max_map_count))) in Hnd.
  - apply submseteq_length in Hnd. rewrite length_fmap, length_seqZ in Hnd.
    destruct Hsmall as [Hfits _]. pose proof (ap_episode_count_fits Hfits).
    destruct max_map_count_bound as [? _]. nia.
  - intros k Hk. apply list_elem_of_fmap in Hk as (lv & -> & Hlv).
    apply enabled_levels_catalog in Hlv.
    destruct (catalog_level_bounds lv Hsmall Hlv) as (_ & _ & _ & Hi & Hr).
    rewrite Hi. apply elem_of_seqZ. lia.
Qed.

Lemma collect_music_pool_spec s :
  catalog_small → state_sized s → random_music s = 1 →
  ∃ pool, collect_music_pool s = Some pool ∧
          Forall2 (λ lv mu, level_music s lv = Some mu) (enabled_levels s) pool.
Proof.
  intros Hsmall Hsized Hmode. unfold collect_music_pool.
  rewrite (for_each_selected_level_fold (λ _, True) (episode_enabled s));
    [|done| |done].
  2:{ intros e st He _. destruct (episode_read s e Hsized He) as (v & -> & ->).
      simpl. f_equal. apply bool_decide_ext. rewrite Hmode.
      split; [intros [?|?]; [done|lia]|by left]. }
  destruct (fold_opt_inv
    (λ done pool, Forall2 (λ lv mu, level_music s lv = Some mu) done pool)
    (λ lv music_pool,
       l ← ap_get_level_state s {| idx_ep := lv.1; idx_map := lv.2 |};
       Some (music_pool ++ [music l]))
    (selected_levels (episode_enabled s)) []) as (pool & Hrun & Hpool).
  - constructor.
  - intros done lv rest pool Hl Hpool.
    assert (lv ∈ catalog_levels) as Hlv.
    { apply (enabled_levels_catalog s). unfold enabled_levels. rewrite Hl.
      apply elem_of_app. right. by left. }
    destruct (catalog_level_state s lv Hsmall Hsized Hlv) as [l0 Hl0].
    unfold level_idx in Hl0. rewrite Hl0. simpl.
    eexists. split; [done|]. apply Forall2_app; [done|].
    constructor; [|constructor]. unfold level_music, level_idx. by rewrite Hl0.
  - by exists pool.
Qed.

(** One draw: the pool loses the track drawn and the level gets it. *)
Lemma shuffle_music_level_spec lv st g pool :
  (∀ g, 0 ≤ (rand g).1) →
  Z.of_nat (length pool) ≤ INT_MAX → pool ≠ [] →
  is_Some (ap_get_level_state st (level_idx lv)) →
  ∃ st' g' mus i,
    shuffle_music_level lv.1 lv.2 (st, g, pool) = Some (st', g', delete i pool) ∧
    pool !! i = Some mus ∧
    upd_level_state (level_idx lv) (λ l, Some (set_music mus l)) st = Some st'.
Proof.
  intros Hrand Hfit Hne [l0 Hl0]. unfold shuffle_music_level.
  pose proof (Hrand g) as Hr. destruct (rand g) as [r g'] eqn:Hrg. simpl in Hr.
  rewrite int_size_fits by done.
  assert (0 < Z.of_nat (length pool)) as Hpos by (destruct pool; [done|simpl; lia]).
  rewrite decide_False by lia.
  pose proof (Z.rem_bound_pos r (Z.of_nat (length pool)) Hr Hpos) as Hrnd.
  destruct (arr_get_in_range pool (r `rem` Z.of_nat (length pool))) as [mus Hmus];
    [lia|].
  rewrite Hmus. simpl.
  destruct (upd_level_state_defined (level_idx lv)
              (λ l, Some (set_music mus l)) st l0 (set_music mus l0) Hl0 eq_refl)
    as [st' Hupd].
  unfold level_idx in Hupd. rewrite Hupd. simpl.
  exists st', g', mus, (Z.to_nat (r `rem` Z.of_nat (length pool))).
  split; [done|]. split; [|done].
  apply arr_get_Some in Hmus as [_ Hmus]. done.
Qed.


Lemma shuffle_music_level_differ s e m st g pool st' g' pool' :
  shuffle_music_level e m (st, g, pool) = Some (st', g', pool') →
  only_levels_differ s st → only_levels_differ s st'.
Proof.
  unfold shuffle_music_level. destruct (rand g) as [r gn].
  case_decide; [done|]. destruct (arr_get pool _) as [mus|]; [|done]. simpl.
  destruct (upd_level_state _ _ st) as [st1|] eqn:Hu; [|done]. simpl.
  intros [= <- <- <-] Hd. by eapply only_levels_differ_upd.
Qed.

(** Mode 1: the shuffle loop hands out the pool, every element once. *)
Lemma shuffle_music_step_spec s g :
  catalog_small → state_sized s → (∀ g, 0 ≤ (rand g).1) → random_music s = 1 →
  ∃ s' g' pool assigned,
    collect_music_pool s = Some pool ∧
    shuffle_music_step s g = Some (s', g') ∧
    only_levels_differ s s' ∧
    Forall2 (λ lv mu, level_music s' lv = Some mu) (enabled_levels s) assigned ∧
    assigned ≡ₚ pool.
Proof.
  intros Hsmall Hsized Hrand Hmode.
  destruct (collect_music_pool_spec s Hsmall Hsized Hmode) as (pool & Hcollect & Hpool).
  unfold shuffle_music_step. rewrite decide_True by lia. rewrite Hcollect. simpl.
  rewrite (for_each_selected_level_fold
             (λ x : ap_state_t * rng_state * list Z, only_levels_differ s x.1.1)
             (episode_enabled s)); [|apply only_levels_differ_refl| |].
  2:{ intros e [[st gx] px] He Hd. simpl in Hd.
      apply only_levels_differ_fields in Hd as (Heps & _). rewrite Heps.
      destruct (episode_read s e Hsized He) as (v & -> & ->). done. }
  2:{ intros e m [[st gx] px] [[st' gx'] px'] Hd Hb. simpl in *.
      by eapply shuffle_music_level_differ. }
  pose proof (level_slots_distinct (enabled_levels s) Hsmall
                (NoDup_selected_levels _) (enabled_levels_catalog s)) as Hnd.
  pose proof (Forall2_length _ _ _ Hpool) as Hlen.
  pose proof (enabled_levels_length s Hsmall) as Hbound.
  destruct (fold_opt_inv
    (λ done (x : ap_state_t * rng_state * list Z),
       only_levels_differ s x.1.1 ∧
       ∃ ms, Forall2 (λ lv mu, level_music x.1.1 lv = Some mu) done ms ∧
             ms ++ x.2 ≡ₚ pool)
    (λ lv, shuffle_music_level lv.1 lv.2)
    (selected_levels (episode_enabled s)) (s, g, pool))
    as ([[s' g'] pool'] & Hrun & Hd' & ms & Hms & Hperm).
  - split; [apply only_levels_differ_refl|]. exists []. split; [constructor|done].
  - intros done lv rest [[st gx] px] Hl [Hd (ms & Hms & Hperm)]. simpl in *.
    fold (enabled_levels s) in Hl.
    assert (lv ∈ catalog_levels) as Hlv.
    { apply (enabled_levels_catalog s). rewrite Hl.
      apply elem_of_app. right. by left. }
    apply only_levels_differ_fields in Hd as Hf.
    destruct Hf as (_ & _ & _ & Hsz). specialize (Hsz Hsized).
    pose proof (Forall2_length _ _ _ Hms) as Hlms.
    apply Permutation_length in Hperm as Hlp. rewrite length_app in Hlp.
    fold (enabled_levels s) in Hbound, Hlen.
    rewrite Hl, length_app in Hlen, Hbound. simpl in Hlen, Hbound.
    destruct Hsmall as [Hfits Hsm]. pose proof (ap_episode_count_fits Hfits) as Hcnt.
    destruct (shuffle_music_level_spec lv st gx px Hrand)
      as (st' & gx' & mus & i & Hstep & Hi & Hupd).
    { rewrite Hcnt in Hbound. lia. }
    { intros ->. simpl in Hlp. lia. }
    { apply catalog_level_state; [by split|done..]. }
    eexists. split; [exact Hstep|]. simpl.
    split; [by eapply only_levels_differ_upd|].
    exists (ms ++ [mus]). split.
    + apply Forall2_app.
      * apply Forall2_same_length_lookup in Hms as [Hsame Hlook].
        apply Forall2_same_length_lookup. split; [done|].
        intros k lv' mu Hk1 Hk2. unfold level_music. rewrite Hl in Hnd.
        rewrite (write_level_read_back (λ _ _, True) _ _ _ _ _ _ Hnd Hupd lv')
          by (by eapply list_elem_of_lookup_2).
        by eapply Hlook.
      * constructor; [|constructor].
        apply upd_level_state_get in Hupd as (la & la' & _ & [= <-] & Hget).
        unfold level_music. by rewrite Hget.
    + rewrite <- app_assoc. simpl. rewrite <- Hperm.
      apply Permutation_app_head. symmetry. by apply delete_Permutation.
  - exists s', g', pool, ms. rewrite Hrun. simpl in *.
    split; [done|]. split; [done|]. split; [done|]. split; [done|].
    pose proof (Forall2_length _ _ _ Hms) as Hlms.
    apply Permutation_length in Hperm as Hlp. rewrite length_app in Hlp.
    fold (enabled_levels s) in Hlms.
    assert (pool' = []) as -> by (destruct pool'; [done|simpl in Hlp; lia]).
    by rewrite app_nil_r in Hperm.
Qed.


Lemma select_default_episode_spec s :
  state_sized s → 0 < ap_episode_count →
  ∃ s0, select_default_episode s = Some s0 ∧
        level_states s0 = level_states s ∧
        random_music s0 = random_music s ∧ state_sized s0.
Proof.
  intros [Hls Heps] Hpos. unfold select_default_episode.
  destruct (for_upto_inv (λ _ _, True) ap_episode_count
              (λ i ep_count,
                 e ← arr_get (episodes s) i;
                 Some (if decide (e ≠ 0) then int_add ep_count 1 else ep_count)) 0)
    as (n & -> & _); [lia|done| |].
  { intros j c Hj _. destruct (arr_get_in_range (episodes s) j) as [e ->]; [lia|].
    simpl. by eexists. }
  simpl. case_decide.
  - rewrite arr_set_in_range by lia. simpl. eexists. split; [done|].
    split; [done|]. split; [done|]. split; simpl; [done|].
    by rewrite length_insert.
  - by exists s.
Qed.

Lemma flip_levels_step_spec s g :
  catalog_small → state_sized s →
  ∃ s1 g1, flip_levels_step s g = Some (s1, g1) ∧ only_levels_differ s s1.
Proof.
  intros Hsmall Hsized. unfold flip_levels_step.
  case_decide; [|case_decide].
  - rewrite for_each_level_fold.
    destruct (fold_opt_inv (λ _ st, only_levels_differ s st)
      (λ lv s, upd_level_state {| idx_ep := lv.1; idx_map := lv.2 |}
                 (λ l, Some (set_flipped 1 l)) s) catalog_levels s)
      as (s1 & -> & Hd); [apply only_levels_differ_refl| |].
    + intros done lv rest st Hl Hd.
      assert (lv ∈ catalog_levels) as Hlv
        by (rewrite Hl; apply elem_of_app; right; by left).
      apply only_levels_differ_fields in Hd as Hf.
      destruct Hf as (_ & _ & _ & Hsz). specialize (Hsz Hsized).
      destruct (catalog_level_state st lv Hsmall Hsz Hlv) as [l0 Hl0].
      destruct (upd_level_state_defined (level_idx lv)
                  (λ l, Some (set_flipped 1 l)) st l0 _ Hl0 eq_refl) as [st' Hupd].
      exists st'. split; [exact Hupd|]. by eapply only_levels_differ_upd.
    + simpl. by exists s1, g.
  - rewrite for_each_level_fold.
    destruct (fold_opt_inv
      (λ _ (x : ap_state_t * rng_state), only_levels_differ s x.1)
      (λ lv '(s, g),
         let '(r, g) := rand g in
         s ← upd_level_state {| idx_ep := lv.1; idx_map := lv.2 |}
                (λ l, Some (set_flipped (r `rem` 2) l)) s;
         Some (s, g)) catalog_levels (s, g))
      as ([s1 g1] & -> & Hd); [apply only_levels_differ_refl| |].
    + intros done lv rest [st gx] Hl Hd. simpl in Hd.
      assert (lv ∈ catalog_levels) as Hlv
        by (rewrite Hl; apply elem_of_app; right; by left).
      apply only_levels_differ_fields in Hd as Hf.
      destruct Hf as (_ & _ & _ & Hsz). specialize (Hsz Hsized).
      destruct (catalog_level_state st lv Hsmall Hsz Hlv) as [l0 Hl0].
      destruct (rand gx) as [r gn].
      destruct (upd_level_state_defined (level_idx lv)
                  (λ l, Some (set_flipped (r `rem` 2) l)) st l0 _ Hl0 eq_refl)
        as [st' Hupd].
      unfold level_idx in Hupd. rewrite Hupd. simpl.
      eexists. split; [done|]. simpl. by eapply only_levels_differ_upd.
    + by exists s1, g1.
  - exists s, g. split; [done|]. apply only_levels_differ_refl.
Qed.

Lemma enabled_levels_episodes s s' :
  episodes s' = episodes s → enabled_levels s' = enabled_levels s.
Proof.
  intros H. unfold enabled_levels, selected_levels, episode_enabled. by rewrite H.
Qed.

(** C8. In music-shuffle mode 1 the tracks assigned to the levels of the
    enabled episodes are, as a list in catalog order, a permutation of the
    original tracks of those same levels: the pool holds the original track
    of every enabled level and nothing else, every draw removes the track it
    assigns, and the pool is empty after the last level. *)
Theorem music_shuffle_bijection w :
  catalog_small → 0 < ap_episode_count →
  state_sized (ap_state w) →
  (∀ g, 0 ≤ (rand g).1) →
  (∀ lv, lv ∈ catalog_levels → is_Some (original_music lv)) →
  random_music (ap_state w) = 1 →
  ∃ w' g' originals assigned,
    apdoom_init_randomize w = Some (w', g') ∧
    mapM original_music (enabled_levels (ap_state w')) = Some originals ∧
    mapM (level_music (ap_state w')) (enabled_levels (ap_state w')) = Some assigned ∧
    assigned ≡ₚ originals.
Proof.
  intros Hsmall Hpos Hsized Hrand Horig Hmode. unfold apdoom_init_randomize.
  destruct (select_default_episode_spec _ Hsized Hpos) as (s0 & -> & _ & Hm0 & Hsz0).
  simpl.
  destruct (flip_levels_step_spec s0
              (srand (hash_seed (apdoom_get_seed w) `mod` 4294967296)) Hsmall Hsz0)
    as (s1 & g1 & -> & Hd1). simpl.
  apply only_levels_differ_fields in Hd1 as (He1 & Hm1 & _ & Hsz1).
  specialize (Hsz1 Hsz0).
  destruct (original_music_step_spec s1 Hsmall Hsz1 Horig) as (s2 & -> & Hd2 & Hmus2).
  simpl.
  apply only_levels_differ_fields in Hd2 as (He2 & Hm2 & _ & Hsz2).
  specialize (Hsz2 Hsz1).
  assert (random_music s2 = 1) as Hmode2 by congruence.
  destruct (shuffle_music_step_spec s2 g1 Hsmall Hsz2 Hrand Hmode2)
    as (s3 & g3 & pool & assigned & Hcollect & -> & Hd3 & Hassigned & Hperm).
  simpl.
  apply only_levels_differ_fields in Hd3 as (He3 & _).
  destruct (collect_music_pool_spec s2 Hsmall Hsz2 Hmode2) as (pool' & Hc' & Hpool).
  assert (pool' = pool) as -> by congruence.
  exists (set_ap_state s3 w), g3, pool, assigned. simpl.
  rewrite (enabled_levels_episodes s2 s3) by done.
  split; [done|]. split; [|split; [|done]].
  - apply mapM_Some. apply Forall2_same_length_lookup.
    apply Forall2_same_length_lookup in Hpool as [Hlen Hlook]. split; [done|].
    intros k lv mu Hk1 Hk2. rewrite <- Hmus2.
    + by eapply Hlook.
    + eapply enabled_levels_catalog, list_elem_of_lookup_2. exact Hk1.
  - by apply mapM_Some.
Qed.


(** ** Save and load *)

Lemma lookup_upto_from n i k :
  (k < n)%nat → upto_from n i !! k = Some (i + Z.of_nat k).
Proof.
  revert i k. induction n as [|n IH]; intros i k Hk; [lia|].
  destruct k as [|k]; simpl.
  - f_equal. lia.
  - rewrite IH by lia. f_equal. lia.
Qed.

Lemma lookup_upto hi i : 0 ≤ i < hi → upto hi !! Z.to_nat i = Some i.
Proof.
  intros Hi. unfold upto. rewrite lookup_upto_from by lia. f_equal. lia.
Qed.

(** A loop that appends one computed element per iteration. *)
Lemma for_upto_collect {A} n (F : Z → option A) (body : Z → list A → option (list A)) :
  0 ≤ n →
  (∀ i acc, 0 ≤ i < n → body i acc = (x ← F i; Some (acc ++ [x]))) →
  (∀ i, 0 ≤ i < n → is_Some (F i)) →
  ∃ l, for_upto n body [] = Some l ∧ length l = Z.to_nat n ∧
       ∀ i, 0 ≤ i < n → l !! Z.to_nat i = F i.
Proof.
  intros Hn Hbody HF.
  destruct (for_upto_inv
    (λ j acc, length acc = Z.to_nat j ∧
              ∀ i, 0 ≤ i < j → acc !! Z.to_nat i = F i) n body [])
    as (l & Hrun & Hlen & Hl); [done| |..].
  - split; [done|]. intros; lia.
  - intros j acc Hj [Hlen Hacc]. rewrite Hbody by done.
    destruct (HF j Hj) as [x Hx]. rewrite Hx. simpl.
    eexists. split; [done|]. split.
    + rewrite length_app. simpl. lia.
    + intros i Hi. destruct (decide (i = j)) as [->|Hne].
      * rewrite lookup_app_r by lia. rewrite Hlen, Nat.sub_diag. by rewrite Hx.
      * rewrite lookup_app_l by lia. apply Hacc. lia.
  - by exists l.
Qed.

(** A loop that rewrites the slots of an array one by one, each from its
    own old content. *)
Lemma for_upto_update {A} n (G : Z → A → option A)
    (body : Z → list A → option (list A)) a0 :
  Z.of_nat (length a0) = n →
  (∀ i a, 0 ≤ i < n →
     body i a = (old ← arr_get a i; v ← G i old; arr_set a i v)) →
  (∀ i old, 0 ≤ i < n → a0 !! Z.to_nat i = Some old → is_Some (G i old)) →
  ∃ a', for_upto n body a0 = Some a' ∧ length a' = length a0 ∧
        ∀ i old, 0 ≤ i < n → a0 !! Z.to_nat i = Some old →
                 a' !! Z.to_nat i = G i old.
Proof.
  intros Hlen Hbody HG.
  destruct (for_upto_inv
    (λ j a, length a = length a0 ∧
            (∀ i old, 0 ≤ i < j → a0 !! Z.to_nat i = Some old →
                      a !! Z.to_nat i = G i old) ∧
            (∀ i, j ≤ i → a !! Z.to_nat i = a0 !! Z.to_nat i)) n body a0)
    as (a' & Hrun & Hlen' & Ha' & _); [lia| |..].
  - split; [done|]. split; [intros; lia|done].
  - intros j a Hj (Hla & Hlo & Hhi). rewrite Hbody by done.
    destruct (lookup_lt_is_Some_2 a0 (Z.to_nat j)) as [old Hold]; [lia|].
    rewrite arr_get_nonneg by lia. rewrite (Hhi j) by lia. rewrite Hold. simpl.
    destruct (HG j old Hj Hold) as [v Hv]. rewrite Hv. simpl.
    rewrite arr_set_in_range by lia. eexists. split; [done|].
    split; [by rewrite length_insert|]. split.
    + intros i old' Hi Hold'. destruct (decide (i = j)) as [->|Hne].
      * rewrite list_lookup_insert_eq by lia. simpl. congruence.
      * rewrite list_lookup_insert_ne by lia. apply Hlo; [lia|done].
    + intros i Hi. rewrite list_lookup_insert_ne by lia. apply Hhi. lia.
  - by exists a'.
Qed.

(** The same for two arrays rewritten in step. *)
Lemma for_upto_update2 {A B} n (G : Z → A → option A) (H : Z → B → option B)
    (body : Z → list A * list B → option (list A * list B)) a0 b0 :
  Z.of_nat (length a0) = n → Z.of_nat (length b0) = n →
  (∀ i a b, 0 ≤ i < n →
     body i (a, b) = (old ← arr_get a i; v ← G i old; a' ← arr_set a i v;
                      old ← arr_get b i; v ← H i old; b' ← arr_set b i v;
                      Some (a', b'))) →
  (∀ i old, 0 ≤ i < n → a0 !! Z.to_nat i = Some old → is_Some (G i old)) →
  (∀ i old, 0 ≤ i < n → b0 !! Z.to_nat i = Some old → is_Some (H i old)) →
  ∃ a' b', for_upto n body (a0, b0) = Some (a', b') ∧
           length a' = length a0 ∧ length b' = length b0 ∧
           (∀ i old, 0 ≤ i < n → a0 !! Z.to_nat i = Some old →
                     a' !! Z.to_nat i = G i old) ∧
           (∀ i old, 0 ≤ i < n → b0 !! Z.to_nat i = Some old →
                     b' !! Z.to_nat i = H i old).
Proof.
  intros Hla Hlb Hbody HG HH.
  destruct (for_upto_inv
    (λ j (x : list A * list B),
       length x.1 = length a0 ∧ length x.2 = length b0 ∧
       (∀ i old, 0 ≤ i < j → a0 !! Z.to_nat i = Some old →
                 x.1 !! Z.to_nat i = G i old) ∧
       (∀ i old, 0 ≤ i < j → b0 !! Z.to_nat i = Some old →
                 x.2 !! Z.to_nat i = H i old) ∧
       (∀ i, j ≤ i → x.1 !! Z.to_nat i = a0 !! Z.to_nat i) ∧
       (∀ i, j ≤ i → x.2 !! Z.to_nat i = b0 !! Z.to_nat i)) n body (a0, b0))
    as ([a' b'] & Hrun & Hl1 & Hl2 & Ha' & Hb' & _); [lia| |..].
  - simpl. repeat split; try done; intros; lia.
  - intros j [a b] Hj (Hl1 & Hl2 & Hloa & Hlob & Hhia & Hhib). simpl in *.
    rewrite Hbody by done.
    destruct (lookup_lt_is_Some_2 a0 (Z.to_nat j)) as [olda Holda]; [lia|].
    destruct (lookup_lt_is_Some_2 b0 (Z.to_nat j)) as [oldb Holdb]; [lia|].
    rewrite (arr_get_nonneg a) by lia. rewrite (Hhia j) by lia. rewrite Holda. simpl.
    destruct (HG j olda Hj Holda) as [va Hva]. rewrite Hva. simpl.
    rewrite arr_set_in_range by lia. simpl.
    rewrite (arr_get_nonneg b) by lia. rewrite (Hhib j) by lia. rewrite Holdb. simpl.
    destruct (HH j oldb Hj Holdb) as [vb Hvb]. rewrite Hvb. simpl.
    rewrite arr_set_in_range by lia. simpl. eexists. split; [done|]. simpl.
    split; [by rewrite length_insert|]. split; [by rewrite length_insert|].
    split; [|split; [|split]].
    + intros i old' Hi Hold'. destruct (decide (i = j)) as [->|Hne].
      * rewrite list_lookup_insert_eq by lia. simpl. congruence.
      * rewrite list_lookup_insert_ne by lia. apply Hloa; [lia|done].
    + intros i old' Hi Hold'. destruct (decide (i = j)) as [->|Hne].
      * rewrite list_lookup_insert_eq by lia. simpl. congruence.
      * rewrite list_lookup_insert_ne by lia. apply Hlob; [lia|done].
    + intros i Hi. rewrite list_lookup_insert_ne by lia. apply Hhia. lia.
    + intros i Hi. rewrite list_lookup_insert_ne by lia. apply Hhib. lia.
  - by exists a', b'.
Qed.

(** An array whose every slot is known is known. *)
Lemma list_eq_upto {A} (a b : list A) n :
  Z.of_nat (length a) = n → Z.of_nat (length b) = n →
  (∀ i, 0 ≤ i < n → a !! Z.to_nat i = b !! Z.to_nat i) → a = b.
Proof.
  intros Ha Hb Hi. apply list_eq. intros k.
  destruct (decide (Z.of_nat k < n)) as [Hk|Hk].
  - specialize (Hi (Z.of_nat k)). rewrite Nat2Z.id in Hi. apply Hi. lia.
  - rewrite !lookup_ge_None_2 by lia. done.
Qed.


Lemma json_int_array_spec count a :
  Z.of_nat (length a) = count → json_int_array count a = Some (JArray (JInt <$> a)).
Proof.
  intros Hlen. unfold json_int_array.
  destruct (for_upto_collect count (λ i, JInt <$> arr_get a i)
              (λ i acc, v ← arr_get a i; Some (acc ++ [JInt v])))
    as (l & -> & Hl & Hlook); [lia| |..].
  - intros i acc _. by destruct (arr_get a i).
  - intros i Hi. destruct (arr_get_in_range a i) as [v ->]; [lia|]. by eexists.
  - simpl. do 2 f_equal. apply (list_eq_upto _ _ count); [lia| |].
    + rewrite length_fmap. lia.
    + intros i Hi. rewrite Hlook by done. rewrite arr_get_nonneg by lia.
      by rewrite list_lookup_fmap.
Qed.

Lemma int_add_sub_1 z : in_int z → z < INT_MAX → int_sub (int_add z 1) 1 = z.
Proof.
  intros Hz Hlt. unfold int_sub, int_add.
  rewrite (wrap_int_id (z + 1)) by (unfold in_int, INT_MIN, INT_MAX in *; lia).
  replace (z + 1 - 1) with z by lia. by apply wrap_int_id.
Qed.

Lemma catalog_level_int lv :
  catalog_small → lv ∈ catalog_levels →
  in_int lv.1 ∧ lv.1 < INT_MAX ∧ in_int lv.2 ∧ lv.2 < INT_MAX.
Proof.
  intros Hsmall Hlv.
  destruct (catalog_level_bounds lv Hsmall Hlv) as (He & Hm & _ & _ & Hr).
  destruct Hsmall as [Hfits Hsm]. pose proof (ap_episode_count_fits Hfits) as Hc.
  unfold in_int, INT_MIN, INT_MAX in *. nia.
Qed.

Lemma serialize_level_spec s lv l :
  catalog_small → lv ∈ catalog_levels →
  ap_get_level_state s (level_idx lv) = Some l → level_sized l →
  ∃ k0 k1 k2 cks,
    keys l = [k0; k1; k2] ∧
    serialize_level s (int_add lv.1 1) (int_add lv.2 1) = Some (level_doc l k0 k1 k2 cks).
Proof.
  intros Hsmall Hlv Hl [Hk Hc].
  destruct (catalog_level_int lv Hsmall Hlv) as (He1 & He2 & Hm1 & Hm2).
  unfold serialize_level. rewrite !int_add_sub_1 by done.
  unfold level_idx in Hl. rewrite Hl. simpl.
  destruct (keys l) as [|k0 [|k1 [|k2 [|]]]] eqn:Hkeys; try done. simpl.
  destruct (for_upto_inv (λ _ _, True) AP_CHECK_MAX
              (λ k acc, c ← arr_get (checks l) k;
                        Some (if decide (c = -1) then acc else acc ++ [JInt c])) [])
    as (cks & -> & _); [done|done| |].
  { intros j acc Hj _. destruct (arr_get_in_range (checks l) j) as [c ->]; [lia|].
    simpl. by eexists. }
  simpl. by exists k0, k1, k2, cks.
Qed.


Lemma elem_of_catalog_levels e m :
  0 ≤ e < ap_episode_count → 0 ≤ m < ap_get_map_count (int_add e 1) →
  (e, m) ∈ catalog_levels.
Proof.
  intros He Hm. unfold catalog_levels. apply list_elem_of_bind. exists e.
  split; [|by apply elem_of_upto].
  unfold episode_levels. apply list_elem_of_fmap. exists m.
  split; [done|]. by apply elem_of_upto.
Qed.

Lemma ap_episode_count_nonneg : catalog_small → 0 ≤ ap_episode_count.
Proof. intros [Hfits _]. rewrite (ap_episode_count_fits Hfits). lia. Qed.

Lemma inventory_doc_spec inv :
  Z.of_nat (length inv) = ap_inventory_count →
  for_upto ap_inventory_count (λ i acc,
      slot ← arr_get inv i;
      Some (if decide (slot_type slot = 9) then acc
            else acc ++ [JObject [("type", JInt (slot_type slot));
                                  ("count", JInt (slot_count slot))]%string])) []
  = Some (slot_doc <$> filter (λ slot, slot_type slot ≠ 9) inv).
Proof.
  intros Hlen.
  destruct (for_upto_inv
    (λ j acc, acc = slot_doc <$> filter (λ slot, slot_type slot ≠ 9)
                                        (take (Z.to_nat j) inv))
    ap_inventory_count
    (λ i acc,
      slot ← arr_get inv i;
      Some (if decide (slot_type slot = 9) then acc
            else acc ++ [JObject [("type", JInt (slot_type slot));
                                  ("count", JInt (slot_count slot))]%string])) [])
    as (l & -> & ->); [lia|done| |].
  - intros j acc Hj ->.
    destruct (lookup_lt_is_Some_2 inv (Z.to_nat j)) as [slot Hslot]; [lia|].
    rewrite arr_get_nonneg by lia. rewrite Hslot. simpl.
    eexists. split; [done|].
    replace (Z.to_nat (j + 1)) with (S (Z.to_nat j)) by lia.
    rewrite (take_S_r _ _ _ Hslot), filter_app, fmap_app.
    rewrite filter_cons, filter_nil.
    destruct (decide (slot_type slot = 9)) as [H9|H9].
    + rewrite decide_False by (by intros ?). by rewrite app_nil_r.
    + by rewrite decide_True by done.
  - do 3 f_equal. apply take_ge. lia.
Qed.

Lemma save_state_spec w :
  catalog_small → well_sized w →
  ∃ json_episodes enabled,
    save_state w = Some (document w json_episodes enabled) ∧
    episodes_doc_ok (ap_state w) json_episodes ∧
    Forall is_JBool enabled.
Proof.
  intros Hsmall (Hsized & (Hp1 & Hp2 & Hp3 & Hp4 & Hp5) & _ & _ & _ & _ & _ & _ & Hlv).
  pose proof (ap_episode_count_nonneg Hsmall) as Hcnt.
  (* the "episodes" array *)
  set (inner := λ e, for_upto (ap_get_map_count (int_add e 1))
         (λ j acc, lv ← serialize_level (ap_state w) (int_add e 1) (int_add j 1);
                   Some (acc ++ [lv])) []).
  assert (∀ e, 0 ≤ e < ap_episode_count →
            ∃ lvls, inner e = Some lvls ∧
                    ∀ m, 0 ≤ m < ap_get_map_count (int_add e 1) →
                         lvls !! Z.to_nat m
                         = serialize_level (ap_state w) (int_add e 1) (int_add m 1))
    as Hinner.
  { intros e He. unfold inner.
    destruct (decide (0 ≤ ap_get_map_count (int_add e 1))) as [Hmc|Hmc].
    - destruct (for_upto_collect (ap_get_map_count (int_add e 1))
                  (λ j, serialize_level (ap_state w) (int_add e 1) (int_add j 1))
                  (λ j acc, lv ← serialize_level (ap_state w) (int_add e 1) (int_add j 1);
                            Some (acc ++ [lv])))
        as (lvls & Hrun & _ & Hlook); [done|done| |by exists lvls].
      intros m Hm.
      pose proof (elem_of_catalog_levels e m He Hm) as Hin.
      destruct (catalog_level_state _ _ Hsmall Hsized Hin) as [l Hl].
      destruct (Hlv _ _ Hin Hl) as [Hsz _].
      destruct (serialize_level_spec _ _ _ Hsmall Hin Hl Hsz)
        as (k0 & k1 & k2 & cks & _ & Hser).
      simpl in Hser. by rewrite Hser.
    - exists []. unfold for_upto.
      replace (Z.to_nat (ap_get_map_count (int_add e 1))) with 0%nat by lia.
      split; [done|]. intros; lia. }
  destruct (for_upto_collect ap_episode_count (λ e, JArray <$> inner e)
    (λ i acc,
       let map_count := ap_get_map_count (int_add i 1) in
       json_levels ← for_upto map_count (λ j acc,
           lv ← serialize_level (ap_state w) (int_add i 1) (int_add j 1);
           Some (acc ++ [lv])) [];
       Some (acc ++ [JArray json_levels])))
    as (eps & Hepsrun & Hepslen & Heps); [done| | |].
  { intros e acc _. change (for_upto _ _ []) with (inner e). cbv zeta.
    by destruct (inner e). }
  { intros e He. destruct (Hinner e He) as (lvls & -> & _). by eexists. }
  (* the "enabled_episodes" array *)
  destruct (for_upto_collect ap_episode_count
    (λ i, (λ e, JBool (bool_decide (e ≠ 0))) <$> arr_get (episodes (ap_state w)) i)
    (λ i acc, e ← arr_get (episodes (ap_state w)) i;
              Some (acc ++ [JBool (bool_decide (e ≠ 0))])))
    as (enabled & Henrun & Henlen & Hen); [done| | |].
  { intros i acc _. by destruct (arr_get _ i). }
  { intros i Hi. destruct Hsized as [_ He].
    destruct (arr_get_in_range (episodes (ap_state w)) i) as [e ->]; [lia|].
    by eexists. }
  exists eps, enabled. split; [|split].
  - unfold save_state.
    rewrite !json_int_array_spec by done. cbn [mbind option_bind].
    rewrite inventory_doc_spec by done. cbn [mbind option_bind].
    cbv zeta in Hepsrun. rewrite Hepsrun. cbn [mbind option_bind]. by rewrite Henrun.
  - intros lv l Hin Hl.
    destruct (catalog_level_bounds lv Hsmall Hin) as (He & _ & Hm & _).
    destruct (Hlv _ _ Hin Hl) as [Hsz _].
    destruct (serialize_level_spec _ _ _ Hsmall Hin Hl Hsz)
      as (k0 & k1 & k2 & cks & Hkeys & Hser).
    exists k0, k1, k2, cks. split; [done|].
    destruct (Hinner lv.1 He) as (lvls & Hi1 & Hi2).
    simpl. rewrite arr_get_nonneg by lia. rewrite Heps by done. rewrite Hi1. simpl.
    rewrite arr_get_nonneg by lia. rewrite Hi2 by done. by rewrite Hser.
  - apply Forall_lookup. intros k j Hk.
    pose proof (lookup_lt_Some _ _ _ Hk) as Hklt.
    specialize (Hen (Z.of_nat k)). rewrite Nat2Z.id in Hen.
    rewrite Hen in Hk by lia.
    destruct (arr_get _ _) as [e|]; [|done]. injection Hk as <-. by eexists.
Qed.


(** ** Reading the document back *)

Lemma json_get_int_JInt z d : in_int z → json_get_int (JInt z) d = Some z.
Proof.
  intros Hz. unfold json_get_int. simpl.
  rewrite bool_decide_eq_true_2 by exact Hz. by rewrite decide_True by exact Hz.
Qed.

Lemma json_get_bool_or_JInt z d :
  in_int z → json_get_bool_or (JInt z) d = Some (Z.lor d z).
Proof.
  intros Hz. unfold json_get_bool_or. simpl.
  rewrite bool_decide_eq_true_2 by exact Hz. by rewrite decide_True by exact Hz.
Qed.

Lemma saved_at (get : Json → Z → option Z) (comb : Z → Z → Z) saved i old z :
  (∀ z d, in_int z → get (JInt z) d = Some (comb d z)) →
  0 ≤ i → saved !! Z.to_nat i = Some z → in_int z →
  (j ← json_at i (JArray (JInt <$> saved)); get j old) = Some (comb old z).
Proof.
  intros Hget Hi Hz Hin. simpl. rewrite arr_get_nonneg by done.
  rewrite list_lookup_fmap, Hz. simpl. by apply Hget.
Qed.

(** A loop that reads an array of the document into an array of the
    session, element by element. *)
Lemma load_array (get : Json → Z → option Z) (comb : Z → Z → Z) n saved a0
    (body : Z → list Z → option (list Z)) :
  (∀ z d, in_int z → get (JInt z) d = Some (comb d z)) →
  Z.of_nat (length saved) = n → Z.of_nat (length a0) = n → Forall in_int saved →
  (∀ i a, 0 ≤ i < n →
     body i a = (j ← json_at i (JArray (JInt <$> saved));
                 old ← arr_get a i; v ← get j old; arr_set a i v)) →
  for_upto n body a0 = Some (zip_with comb a0 saved).
Proof.
  intros Hget Hsaved Ha0 Hin Hbody.
  destruct (for_upto_update n
    (λ i old, j ← json_at i (JArray (JInt <$> saved)); get j old) body a0)
    as (a' & -> & Hlen & Hlook); [done| | |].
  - intros i a Hi. rewrite Hbody by done. simpl. by destruct (arr_get a i).
  - intros i old Hi _.
    destruct (lookup_lt_is_Some_2 saved (Z.to_nat i)) as [z Hz]; [lia|].
    rewrite (saved_at get comb saved i old z); [by eexists|done|lia|done|].
    by eapply Forall_lookup_1.
  - f_equal. apply (list_eq_upto _ _ n); [lia| |].
    + rewrite length_zip_with_l_eq; lia.
    + intros i Hi.
      destruct (lookup_lt_is_Some_2 a0 (Z.to_nat i)) as [old Hold]; [lia|].
      destruct (lookup_lt_is_Some_2 saved (Z.to_nat i)) as [z Hz]; [lia|].
      rewrite (Hlook i old Hi Hold), lookup_zip_with, Hold, Hz. simpl.
      apply saved_at; [done|lia|done|]. by eapply Forall_lookup_1.
Qed.

Lemma zip_with_right (a b : list Z) :
  length a = length b → zip_with (λ _ z, z) a b = b.
Proof.
  revert b. induction a as [|x a IH]; intros [|y b] Hlen; try done.
  simpl. f_equal. apply IH. simpl in Hlen. lia.
Qed.

(** The same for the loop that reads "ammo" and "max_ammo" together. *)
Lemma load_array2 n saved1 saved2 a0 b0
    (body : Z → list Z * list Z → option (list Z * list Z)) :
  Z.of_nat (length saved1) = n → Z.of_nat (length a0) = n → Forall in_int saved1 →
  Z.of_nat (length saved2) = n → Z.of_nat (length b0) = n → Forall in_int saved2 →
  (∀ i a b, 0 ≤ i < n →
     body i (a, b) =
       (j ← json_at i (JArray (JInt <$> saved1));
        old ← arr_get a i; v ← json_get_int j old; a' ← arr_set a i v;
        j ← json_at i (JArray (JInt <$> saved2));
        old ← arr_get b i; v ← json_get_int j old; b' ← arr_set b i v;
        Some (a', b'))) →
  for_upto n body (a0, b0) = Some (saved1, saved2).
Proof.
  intros Hs1 Ha0 Hin1 Hs2 Hb0 Hin2 Hbody.
  destruct (for_upto_update2 n
    (λ i old, j ← json_at i (JArray (JInt <$> saved1)); json_get_int j old)
    (λ i old, j ← json_at i (JArray (JInt <$> saved2)); json_get_int j old)
    body a0 b0)
    as (a' & b' & -> & Hlena & Hlenb & Hlooka & Hlookb); [done|done| | | |].
  - intros i a b Hi. rewrite Hbody by done. simpl.
    destruct (arr_get a i) as [olda|]; [|done]. simpl.
    destruct (json_get_int _ olda) as [va|]; [|done]. simpl.
    destruct (arr_set a i va) as [a1|]; [|done]. simpl.
    by destruct (arr_get b i).
  - intros i old Hi _.
    destruct (lookup_lt_is_Some_2 saved1 (Z.to_nat i)) as [z Hz]; [lia|].
    rewrite (saved_at json_get_int (λ _ z, z) saved1 i old z);
      [by eexists|apply json_get_int_JInt|lia|done|].
    exact (Forall_lookup_1 _ _ _ _ Hin1 Hz).
  - intros i old Hi _.
    destruct (lookup_lt_is_Some_2 saved2 (Z.to_nat i)) as [z Hz]; [lia|].
    rewrite (saved_at json_get_int (λ _ z, z) saved2 i old z);
      [by eexists|apply json_get_int_JInt|lia|done|].
    exact (Forall_lookup_1 _ _ _ _ Hin2 Hz).
  - f_equal. f_equal.
    + apply (list_eq_upto _ _ n); [lia|done|]. intros i Hi.
      destruct (lookup_lt_is_Some_2 a0 (Z.to_nat i)) as [old Hold]; [lia|].
      destruct (lookup_lt_is_Some_2 saved1 (Z.to_nat i)) as [z Hz]; [lia|].
      rewrite (Hlooka i old Hi Hold), Hz.
      apply (saved_at json_get_int (λ _ z, z));
        [apply json_get_int_JInt|lia|done|].
      exact (Forall_lookup_1 _ _ _ _ Hin1 Hz).
    + apply (list_eq_upto _ _ n); [lia|done|]. intros i Hi.
      destruct (lookup_lt_is_Some_2 b0 (Z.to_nat i)) as [old Hold]; [lia|].
      destruct (lookup_lt_is_Some_2 saved2 (Z.to_nat i)) as [z Hz]; [lia|].
      rewrite (Hlookb i old Hi Hold), Hz.
      apply (saved_at json_get_int (λ _ z, z));
        [apply json_get_int_JInt|lia|done|].
      exact (Forall_lookup_1 _ _ _ _ Hin2 Hz).
Qed.

(** The inventory loop: the slots the document holds replace the first
    slots of the session, the remaining slots stay. *)
Lemma load_inventory saved a0
    (body : Z → list ap_inventory_slot_t → option (list ap_inventory_slot_t)) :
  (length saved ≤ length a0)%nat →
  Forall (λ slot, in_int (slot_type slot) ∧ in_int (slot_count slot)) saved →
  (∀ i a, 0 ≤ i < Z.of_nat (length a0) →
     body i a =
       (inventory_slot ← json_at i (JArray (slot_doc <$> saved));
        old ← arr_get a i;
        ty ← json_member "type" inventory_slot ≫= λ j, json_get_int j (slot_type old);
        cn ← json_member "count" inventory_slot ≫= λ j, json_get_int j (slot_count old);
        arr_set a i {| slot_type := ty; slot_count := cn |})) →
  for_upto (Z.of_nat (length a0)) body a0
  = Some (saved ++ drop (length saved) a0).
Proof.
  intros Hle Hin Hbody.
  destruct (for_upto_update (Z.of_nat (length a0))
    (λ i old, Some (default old (saved !! Z.to_nat i))) body a0)
    as (a' & -> & Hlen & Hlook); [done| | |].
  - intros i a Hi. rewrite Hbody by done. simpl.
    rewrite arr_get_nonneg by lia. rewrite list_lookup_fmap.
    destruct (arr_get a i) as [old|]; [|done]. simpl.
    destruct (saved !! Z.to_nat i) as [slot|] eqn:Hslot; simpl.
    + destruct (Forall_lookup_1 _ _ _ _ Hin Hslot) as [Hty Hcn].
      rewrite !json_get_int_JInt by done. simpl. by destruct slot.
    + by destruct old.
  - intros; by eexists.
  - f_equal. apply (list_eq_upto _ _ (Z.of_nat (length a0))); [lia| |].
    + rewrite length_app, length_drop. lia.
    + intros i Hi.
      destruct (lookup_lt_is_Some_2 a0 (Z.to_nat i)) as [old Hold]; [lia|].
      rewrite (Hlook i old Hi Hold).
      destruct (saved !! Z.to_nat i) as [slot|] eqn:Hslot; simpl.
      * rewrite lookup_app_l by (by eapply lookup_lt_Some). by rewrite Hslot.
      * apply lookup_ge_None in Hslot.
        rewrite lookup_app_r by done. rewrite lookup_drop.
        rewrite <- Hold. f_equal. lia.
Qed.


Lemma load_player_int_spec json pd k z d :
  json_member "player" json = Some pd → json_member k pd = Some (JInt z) →
  in_int z → load_player_int json k d = Some z.
Proof.
  intros Hpd Hk Hz. unfold load_player_int. rewrite Hpd. simpl. rewrite Hk. simpl.
  by apply json_get_int_JInt.
Qed.

Lemma load_player_state_spec json p pf :
  json_member "player" json = Some (player_doc p) →
  player_sized p → player_ints p → player_sized pf →
  load_player_state json pf = Some (merged_player pf p).
Proof.
  intros Hpd (Hs1 & Hs2 & Hs3 & Hs4 & Hs5)
    (Hi1 & Hi2 & Hi3 & Hi4 & Hi5 & Hi6 & Hi7 & Hi8 & Hi9 & Hi10 & Hi11 & Hi12)
    (Hf1 & Hf2 & Hf3 & Hf4 & Hf5).
  unfold load_player_state.
  rewrite (load_player_int_spec json _ "health" (health p)) by done.
  rewrite (load_player_int_spec json _ "armor_points" (armor_points p)) by done.
  rewrite (load_player_int_spec json _ "armor_type" (armor_type p)) by done.
  rewrite (load_player_int_spec json _ "ready_weapon" (ready_weapon p)) by done.
  rewrite (load_player_int_spec json _ "kill_count" (kill_count p)) by done.
  rewrite (load_player_int_spec json _ "item_count" (item_count p)) by done.
  rewrite (load_player_int_spec json _ "secret_count" (secret_count p)) by done.
  cbn [mbind option_bind].
  rewrite (load_array json_get_int (λ _ z, z) ap_powerup_count (powers p));
    [|apply json_get_int_JInt|done|done|done|intros i a _; by rewrite Hpd].
  cbn [mbind option_bind].
  rewrite (load_array json_get_bool_or Z.lor ap_weapon_count (weapon_owned p));
    [|apply json_get_bool_or_JInt|done|done|done|intros i a _; by rewrite Hpd].
  cbn [mbind option_bind].
  rewrite (load_array2 ap_ammo_count (ammo p) (max_ammo p));
    [|done|done|done|done|done|done|intros i a b _; by rewrite Hpd].
  cbn [mbind option_bind].
  rewrite <- Hf5.
  rewrite (load_inventory (saved_inventory p)).
  - cbn [mbind option_bind]. unfold merged_player. f_equal. f_equal.
    apply zip_with_right. lia.
  - pose proof (length_filter (λ slot, slot_type slot ≠ 9) (inventory p)).
    unfold saved_inventory. lia.
  - apply Forall_forall. intros slot Hslot.
    apply list_elem_of_filter in Hslot as [_ Hslot].
    by apply (proj1 (Forall_forall _ _) Hi12).
  - intros i a _. by rewrite Hpd.
Qed.

Lemma load_level_state_spec json e m lf l k0 k1 k2 cks :
  (json_member "episodes" json ≫= json_at e) ≫= json_at m
  = Some (level_doc l k0 k1 k2 cks) →
  keys l = [k0; k1; k2] → level_ints l → length (keys lf) = 3%nat →
  load_level_state json e m lf = Some (merged_level lf l).
Proof.
  intros Hdoc Hkeys (Hc & Hk & Hm & Hu & Hs) Hlen.
  rewrite Hkeys in Hk.
  apply Forall_cons in Hk as [Hk0 Hk]. apply Forall_cons in Hk as [Hk1 Hk].
  apply Forall_cons in Hk as [Hk2 _].
  destruct (keys lf) as [|f0 [|f1 [|f2 [|]]]] eqn:Hkf; try done.
  unfold load_level_state, load_level_flag. rewrite Hdoc, Hkf.
  cbn [mbind option_bind level_doc json_member members_find String.eqb Ascii.eqb
       Bool.eqb].
  rewrite !json_get_bool_or_JInt by done. cbn [mbind option_bind].
  change (arr_get [f0; f1; f2] 0) with (Some f0). cbn [mbind option_bind].
  rewrite json_get_bool_or_JInt by done. cbn [mbind option_bind].
  change (arr_set [f0; f1; f2] 0 (Z.lor f0 k0)) with (Some [Z.lor f0 k0; f1; f2]).
  cbn [mbind option_bind].
  change (arr_get [Z.lor f0 k0; f1; f2] 1) with (Some f1). cbn [mbind option_bind].
  rewrite json_get_bool_or_JInt by done. cbn [mbind option_bind].
  change (arr_set [Z.lor f0 k0; f1; f2] 1 (Z.lor f1 k1))
    with (Some [Z.lor f0 k0; Z.lor f1 k1; f2]).
  cbn [mbind option_bind].
  change (arr_get [Z.lor f0 k0; Z.lor f1 k1; f2] 2) with (Some f2).
  cbn [mbind option_bind].
  rewrite json_get_bool_or_JInt by done. cbn [mbind option_bind].
  change (arr_set [Z.lor f0 k0; Z.lor f1 k1; f2] 2 (Z.lor f2 k2))
    with (Some [Z.lor f0 k0; Z.lor f1 k1; Z.lor f2 k2]).
  cbn [mbind option_bind].
  unfold merged_level. by rewrite Hkf, Hkeys.
Qed.


Lemma level_index_inj lv1 lv2 :
  catalog_small → lv1 ∈ catalog_levels → lv2 ∈ catalog_levels →
  level_state_index (level_idx lv1) = level_state_index (level_idx lv2) → lv1 = lv2.
Proof.
  intros Hsmall H1 H2 Heq. destruct lv1 as [e1 m1], lv2 as [e2 m2].
  destruct (catalog_level_bounds _ Hsmall H1) as (He1 & Hm1 & _ & Hi1 & _).
  destruct (catalog_level_bounds _ Hsmall H2) as (He2 & Hm2 & _ & Hi2 & _).
  unfold level_idx in Heq. simpl in *. rewrite Hi1, Hi2 in Heq.
  assert (e1 = e2) as -> by nia. f_equal. lia.
Qed.

(** The level loop of [load_state]: every level of the catalog ends up
    merged with its saved counterpart. *)
Lemma load_levels_spec json s0 sw :
  catalog_small → state_sized s0 → state_sized sw →
  (∀ lv lf l, lv ∈ catalog_levels →
     ap_get_level_state s0 (level_idx lv) = Some lf →
     ap_get_level_state sw (level_idx lv) = Some l →
     load_level_state json lv.1 lv.2 lf = Some (merged_level lf l)) →
  ∃ s1,
    for_each_level (λ i j s,
      upd_level_state {| idx_ep := i; idx_map := j |} (load_level_state json i j) s) s0
    = Some s1 ∧
    only_levels_differ s0 s1 ∧
    ∀ lv lf l, lv ∈ catalog_levels →
      ap_get_level_state s0 (level_idx lv) = Some lf →
      ap_get_level_state sw (level_idx lv) = Some l →
      ap_get_level_state s1 (level_idx lv) = Some (merged_level lf l).
Proof.
  intros Hsmall Hs0 Hsw Hload. rewrite for_each_level_fold.
  pose proof (level_slots_distinct catalog_levels Hsmall NoDup_catalog_levels
                (λ _ H, H)) as Hnd.
  destruct (fold_opt_inv
    (λ done st,
       only_levels_differ s0 st ∧
       (∀ lv lf l, lv ∈ done →
          ap_get_level_state s0 (level_idx lv) = Some lf →
          ap_get_level_state sw (level_idx lv) = Some l →
          ap_get_level_state st (level_idx lv) = Some (merged_level lf l)) ∧
       (∀ lv, lv ∈ catalog_levels → lv ∉ done →
          ap_get_level_state st (level_idx lv) = ap_get_level_state s0 (level_idx lv)))
    (λ lv s, upd_level_state {| idx_ep := lv.1; idx_map := lv.2 |}
               (load_level_state json lv.1 lv.2) s)
    catalog_levels s0) as (s1 & Hrun & Hdiff & Hdone & _).
  - split; [apply only_levels_differ_refl|]. split; [|done].
    intros lv lf l H. by apply elem_of_nil in H.
  - intros done lv rest st Hl (Hdiff & Hdone & Hrest).
    assert (lv ∈ catalog_levels) as Hlv.
    { rewrite Hl. apply elem_of_app. right. by left. }
    assert (lv ∉ done) as Hfresh.
    { pose proof NoDup_catalog_levels as Hn. rewrite Hl in Hn.
      apply NoDup_app in Hn as (_ & Hn & _). intros Hin. apply (Hn _ Hin). by left. }
    destruct (catalog_level_state s0 lv Hsmall Hs0 Hlv) as [lf Hlf].
    destruct (catalog_level_state sw lv Hsmall Hsw Hlv) as [l Hlw].
    pose proof (Hrest lv Hlv Hfresh) as Hcur. rewrite Hlf in Hcur.
    destruct (upd_level_state_defined (level_idx lv)
                (load_level_state json lv.1 lv.2) st lf (merged_level lf l) Hcur
                (Hload lv lf l Hlv Hlf Hlw)) as [st' Hupd].
    exists st'. split; [exact Hupd|]. split; [by eapply only_levels_differ_upd|].
    split.
    + intros lv' lf' l' Hlv' Hlf' Hlw'. apply elem_of_app in Hlv' as [Hold|Hnew].
      * rewrite Hl in Hnd.
        rewrite (write_level_read_back (λ _ _, True) _ _ _ _ _ _ Hnd Hupd lv' Hold).
        by apply Hdone.
      * apply list_elem_of_singleton in Hnew. subst lv'.
        apply upd_level_state_get in Hupd as (la & la' & Hla & Hfa & Hget).
        rewrite Hget. rewrite Hcur in Hla. injection Hla as <-.
        rewrite Hlf in Hlf'. injection Hlf' as <-.
        rewrite Hlw in Hlw'. injection Hlw' as <-.
        rewrite (Hload lv lf l Hlv Hlf Hlw) in Hfa. by injection Hfa as <-.
    + intros lv' Hlv' Hnot.
      rewrite (upd_level_state_other _ _ _ _ (level_idx lv') Hupd).
      * apply Hrest; [done|]. intros Hin. apply Hnot, elem_of_app. by left.
      * intros Heq. apply Hnot, elem_of_app. right.
        apply list_elem_of_singleton. by apply level_index_inj.
  - exists s1. split; [exact Hrun|]. split; [done|].
    intros lv lf l Hlv. by apply Hdone.
Qed.

Lemma mapM_asInt64_ids (ids : list Z) :
  Forall in_int64 ids → mapM json_asInt64 (JInt <$> ids) = Some ids.
Proof.
  intros Hids. apply mapM_fmap_Forall_Some.
  eapply Forall_impl; [exact Hids|].
  intros z Hz. simpl. by rewrite decide_True by exact Hz.
Qed.

(** The members [load_state] asks the document for. *)
Lemma document_members w json_episodes enabled :
  Forall is_JBool enabled →
  let json := document w json_episodes enabled in
  json_member "player" json = Some (player_doc (player_state (ap_state w))) ∧
  json_member "episodes" json = Some (JArray json_episodes) ∧
  json_member "item_queue" json = Some (JArray (JInt <$> ap_item_queue w)) ∧
  json_member "ep" json = Some (JInt (st_ep (ap_state w))) ∧
  json_member "map" json = Some (JInt (st_map (ap_state w))) ∧
  json_member "victory" json = Some (JInt (victory (ap_state w))) ∧
  (json_member "progressive_locations" json ≫= λ p, mapM json_asInt64 (json_elems p))
  = mapM json_asInt64 (JInt <$> set_in_order (ap_progressive_locations w)) ∧
  ∀ i, ∃ j, json_member "enabled_episodes" json ≫= json_at i = Some j ∧
            json_isInt j = false.
Proof.
  intros Hen json. unfold json, document.
  destruct (JInt <$> set_in_order (ap_progressive_locations w)) as [|p0 ps] eqn:Hp;
    destruct enabled as [|e0 en] eqn:He;
    (split; [done|]); (split; [done|]); (split; [done|]); (split; [done|]);
    (split; [done|]); (split; [done|]); (split; [done|]); intros i; simpl;
    try (by exists JNull).
  all: destruct (arr_get (e0 :: en) i) as [j|] eqn:Hj; simpl; [|by exists JNull].
  all: exists j; split; [done|].
  all: apply arr_get_Some in Hj as [_ Hj]; apply list_elem_of_lookup_2 in Hj.
  all: apply (proj1 (Forall_forall _ _) Hen) in Hj as [b ->]; done.
Qed.


Lemma set_in_order_ids (ids : gset Z) :
  (∀ id, id ∈ ids → in_int64 id) → Forall in_int64 (set_in_order ids).
Proof.
  intros Hids. apply Forall_forall. intros id Hid. apply Hids.
  unfold set_in_order in Hid. rewrite merge_sort_Permutation in Hid.
  by apply elem_of_elements in Hid.
Qed.

Lemma list_to_set_in_order (ids : gset Z) :
  list_to_set (set_in_order ids) = ids.
Proof.
  unfold set_in_order.
  rewrite (list_to_set_perm_L _ _ (merge_sort_Permutation Z.le (elements ids))).
  apply list_to_set_elements_L.
Qed.

(** The "enabled_episodes" loop of [load_state] on a document whose
    array holds no integer: nothing is read. *)
Lemma load_enabled_episodes json (a0 : list Z) :
  (∀ i, ∃ j, json_member "enabled_episodes" json ≫= json_at i = Some j ∧
             json_isInt j = false) →
  for_upto (Z.of_nat (length a0)) (λ i a,
      j ← json_member "enabled_episodes" json ≫= json_at i;
      old ← arr_get a i; v ← json_get_int j old; arr_set a i v) a0
  = Some a0.
Proof.
  intros Hen.
  destruct (for_upto_update (Z.of_nat (length a0)) (λ _ old, Some old)
    (λ i a, j ← json_member "enabled_episodes" json ≫= json_at i;
            old ← arr_get a i; v ← json_get_int j old; arr_set a i v) a0)
    as (a' & -> & Hlen & Hlook); [done| | |].
  - intros i a _. destruct (Hen i) as (j & -> & Hj). simpl.
    unfold json_get_int. rewrite Hj. done.
  - intros; by eexists.
  - f_equal. apply (list_eq_upto _ _ (Z.of_nat (length a0))); [lia|done|].
    intros i Hi.
    destruct (lookup_lt_is_Some_2 a0 (Z.to_nat i)) as [old Hold]; [lia|].
    by rewrite (Hlook i old Hi Hold).
Qed.

(** C6, as amended. A saved session read into a receiving session of the
    allocated sizes: [save_state] writes a document and [load_state] reads
    it; the player's scalar fields, powers, ammo and ammo capacities are
    the saved ones (the capacities are read from the file, the upgrade
    counts are the receiving session's); the owned weapons, the flags of
    every level and the victory flag are the saved ones OR-ed into the
    receiving session's; the saved inventory slots, those of type 9 left
    out, fill the first slots; the saved queue is appended to the
    receiving session's, the saved scouted locations are added to it; the
    episode and map are the saved ones; the check list and the check count
    stay those of the receiving session. Nothing is stated about the
    enabled episodes. *)
Theorem save_load_round_trip w f :
  catalog_small → well_sized w →
  state_sized (ap_state f) → player_sized (player_state (ap_state f)) →
  (∀ lv lf, lv ∈ catalog_levels →
     ap_get_level_state (ap_state f) (level_idx lv) = Some lf →
     length (keys lf) = 3%nat) →
  ∃ json w',
    save_state w = Some json ∧ load_state (Some json) f = Some w' ∧
    player_state (ap_state w')
    = merged_player (player_state (ap_state f)) (player_state (ap_state w)) ∧
    (∀ lv lf l, lv ∈ catalog_levels →
       ap_get_level_state (ap_state f) (level_idx lv) = Some lf →
       ap_get_level_state (ap_state w) (level_idx lv) = Some l →
       ap_get_level_state (ap_state w') (level_idx lv) = Some (merged_level lf l)) ∧
    ap_item_queue w' = ap_item_queue f ++ ap_item_queue w ∧
    st_ep (ap_state w') = st_ep (ap_state w) ∧
    st_map (ap_state w') = st_map (ap_state w) ∧
    ap_progressive_locations w'
    = ap_progressive_locations w ∪ ap_progressive_locations f ∧
    victory (ap_state w') = Z.lor (victory (ap_state f)) (victory (ap_state w)).
Proof.
  intros Hsmall Hw Hfs Hfp Hfk.
  destruct (save_state_spec w Hsmall Hw) as (eps & en & Hsave & Heps & Hen).
  destruct (document_members w eps en Hen)
    as (Hpl & Hep & Hq & Hepv & Hmap & Hvic & Hprog & Henab).
  destruct Hw as (Hws & Hwp & Hwi & Hiep & Himap & Hivic & Hiq & Hiprog & Hwl).
  set (json := document w eps en) in *.
  set (p1 := merged_player (player_state (ap_state f)) (player_state (ap_state w))).
  destruct (load_levels_spec json (set_player_state p1 (ap_state f)) (ap_state w))
    as (s1 & Hrun & Hdiff & Hlv); [done|done|done| |].
  { intros lv lf l Hin Hlf Hl.
    destruct (Heps lv l Hin Hl) as (k0 & k1 & k2 & cks & Hkeys & Hdoc).
    apply (load_level_state_spec json _ _ lf l k0 k1 k2 cks).
    - rewrite Hep. exact Hdoc.
    - done.
    - by apply (Hwl lv l Hin Hl).
    - by apply (Hfk lv lf Hin Hlf). }
  pose proof (only_levels_differ_fields _ _ Hdiff) as (Heq_eps & _ & _ & _).
  destruct Hdiff as [Hs1 _].
  exists json. eexists. split; [exact Hsave|]. split.
  - unfold load_state. cbv zeta.
    rewrite (load_player_state_spec json _ _ Hpl Hwp Hwi Hfp).
    cbn [mbind option_bind]. fold p1. rewrite Hrun. cbn [mbind option_bind].
    rewrite Hq. cbn [mbind option_bind json_elems].
    rewrite (mapM_asInt64_ids _ Hiq). cbn [mbind option_bind].
    rewrite Hepv. cbn [mbind option_bind]. rewrite (json_get_int_JInt _ _ Hiep).
    cbn [mbind option_bind].
    replace ap_episode_count with (Z.of_nat (length (episodes s1)))
      by (rewrite Heq_eps; apply Hfs).
    rewrite (load_enabled_episodes json _ Henab). cbn [mbind option_bind].
    rewrite Hmap. cbn [mbind option_bind]. rewrite (json_get_int_JInt _ _ Himap).
    cbn [mbind option_bind]. rewrite Hprog.
    rewrite (mapM_asInt64_ids _ (set_in_order_ids _ Hiprog)).
    cbn [mbind option_bind]. rewrite Hvic. cbn [mbind option_bind].
    rewrite (json_get_bool_or_JInt _ _ Hivic). cbn [mbind option_bind].
    reflexivity.
  - rewrite Hs1. simpl. rewrite list_to_set_in_order.
    split; [done|]. split; [|done].
    intros lv lf l Hin Hlf Hl.
    specialize (Hlv lv lf l Hin Hlf Hl). rewrite Hs1 in Hlv. exact Hlv.
Qed.

(** ** Looking a location up, both ways *)

Lemma assoc_find_Some {V} k (l : list (Z * V)) v :
  assoc_find k l = Some v → (k, v) ∈ l.
Proof.
  induction l as [|[k' v'] l IH]; [done|]. simpl. case_decide as Hk.
  - intros [= <-]. subst k'. by left.
  - intros H. right. by apply IH.
Qed.

Lemma location_id_entry idx index id :
  location_id idx index = Some id →
  location_entry (int_add (idx_ep idx) 1) (int_add (idx_map idx) 1) index id.
Proof.
  unfold location_id. intros H.
  destruct (assoc_find _ get_location_table) as [t1|] eqn:H1; [|done]. simpl in H.
  destruct (assoc_find _ t1) as [t2|] eqn:H2; [|done]. simpl in H.
  exists t1, t2. split; [by apply assoc_find_Some|].
  split; by apply assoc_find_Some.
Qed.

(** The scan of one index table: the outputs stay as they were when the
    id is not there, and name an entry that holds the id otherwise. *)
Lemma find_location_index_spec ep map loc_id l out :
  ((∀ index, (index, loc_id) ∉ l) ∧
   find_location_index ep map loc_id l out = out) ∨
  ∃ index, (index, loc_id) ∈ l ∧
           find_location_index ep map loc_id l out = (ep, map, index).
Proof.
  induction l as [|[i id] l IH]; simpl.
  - left. split; [|done]. intros index H. by apply elem_of_nil in H.
  - case_decide as Hid.
    + right. exists i. subst id. split; [by left|done].
    + destruct IH as [[Hno ->]|(index & Hin & ->)].
      * left. split; [|done]. intros index H.
        apply elem_of_cons in H as [[= _ Heq]|H]; [by subst|by apply (Hno index)].
      * right. exists index. split; [by right|done].
Qed.

Lemma find_location_map_spec ep loc_id t1 out :
  out.1.1 = -1 →
  ((∀ map t2 index, (map, t2) ∈ t1 → (index, loc_id) ∉ t2) ∧
   find_location_map ep loc_id t1 out = out) ∨
  ∃ map t2 index, (map, t2) ∈ t1 ∧ (index, loc_id) ∈ t2 ∧
                  find_location_map ep loc_id t1 out = (ep, map, index).
Proof.
  revert out. induction t1 as [|[m t2] t1 IH]; intros out Hout; simpl.
  - left. split; [|done]. intros map t2 index H. by apply elem_of_nil in H.
  - destruct (find_location_index_spec ep m loc_id t2 out)
      as [[Hno ->]|(index & Hin & ->)].
    + rewrite decide_False by (intros H; by apply H).
      destruct (IH out Hout) as [[Hno' ->]|(map & t2' & index & Hm & Hi & ->)].
      * left. split; [|done]. intros map t2' index H.
        apply elem_of_cons in H as [[= -> ->]|H]; [apply Hno|by eapply Hno'].
      * right. exists map, t2', index. split; [by right|done].
    + simpl. case_decide as Hep.
      * right. exists m, t2, index. split; [by left|done].
      * assert (ep = -1) as -> by (destruct (decide (ep = -1)); [done|by destruct Hep]).
        destruct (IH (-1, m, index) eq_refl)
          as [[_ ->]|(map & t2' & index' & Hm & Hi & ->)].
        -- right. exists m, t2, index. split; [by left|done].
        -- right. exists map, t2', index'. split; [by right|done].
Qed.

Lemma find_location_ep_spec loc_id t out :
  out.1.1 = -1 →
  ((∀ ep t1 map t2 index,
      (ep, t1) ∈ t → (map, t2) ∈ t1 → (index, loc_id) ∉ t2) ∧
   find_location_ep loc_id t out = out) ∨
  ∃ ep t1 map t2 index,
    (ep, t1) ∈ t ∧ (map, t2) ∈ t1 ∧ (index, loc_id) ∈ t2 ∧
    find_location_ep loc_id t out = (ep, map, index).
Proof.
  revert out. induction t as [|[e t1] t IH]; intros out Hout; simpl.
  - left. split; [|done]. intros ep t1 map t2 index H. by apply elem_of_nil in H.
  - destruct (find_location_map_spec e loc_id t1 out Hout)
      as [[Hno ->]|(map & t2 & index & Hm & Hi & ->)].
    + rewrite decide_False by (intros H; by apply H).
      destruct (IH out Hout)
        as [[Hno' ->]|(ep & t1' & map & t2 & index & He & Hm & Hi & ->)].
      * left. split; [|done]. intros ep t1' map t2 index H.
        apply elem_of_cons in H as [[= -> ->]|H]; [apply Hno|by eapply Hno'].
      * right. exists ep, t1', map, t2, index. split; [by right|done].
    + simpl. case_decide as Hep.
      * right. exists e, t1, map, t2, index. split; [by left|done].
      * assert (e = -1) as -> by (destruct (decide (e = -1)); [done|by destruct Hep]).
        destruct (IH (-1, map, index) eq_refl)
          as [[_ ->]|(ep & t1' & map' & t2' & index' & He & Hm' & Hi' & ->)].
        -- right. exists (-1), t1, map, t2, index. split; [by left|done].
        -- right. exists ep, t1', map', t2', index'. split; [by right|done].
Qed.

(** X1. [find_location] answers [true] only with the episode, map and
    index of an entry of the table that holds the id, under an episode
    number above 0; when no entry holds the id it answers [false] and
    leaves the three outputs at -1. *)
Theorem find_location_spec loc_id :
  (∀ ep map index,
     find_location loc_id = (true, (ep, map, index)) →
     location_entry ep map index loc_id ∧ 0 < ep) ∧
  ((∀ ep map index, ¬ location_entry ep map index loc_id) →
   find_location loc_id = (false, (-1, -1, -1))).
Proof.
  unfold find_location.
  destruct (find_location_ep_spec loc_id get_location_table (-1, -1, -1) eq_refl)
    as [[Hno ->]|(ep & t1 & map & t2 & index & He & Hm & Hi & ->)].
  - split; [intros ep map index [= ? _]; done|done].
  - split.
    + intros ep' map' index' [= Hpos <- <- <-]. split; [by exists t1, t2|].
      apply bool_decide_eq_true in Hpos. lia.
    + intros Hno. destruct (Hno ep map index). by exists t1, t2.
Qed.

(** In a table that stores no id twice, the id found under a level and an
    index with [std::map::find] is resolved by [find_location] back to that
    level and index. *)
Lemma find_location_of_location_id idx index id :
  location_ids_unique → location_id idx index = Some id →
  0 < int_add (idx_ep idx) 1 →
  find_location id
  = (true, (int_add (idx_ep idx) 1, int_add (idx_map idx) 1, index)).
Proof.
  intros Huniq Hid Hpos. apply location_id_entry in Hid.
  unfold find_location.
  destruct (find_location_ep_spec id get_location_table (-1, -1, -1) eq_refl)
    as [[Hno _]|(ep & t1 & map & t2 & index' & He & Hm & Hi & ->)].
  - destruct Hid as (t1 & t2 & He & Hm & Hi). by destruct (Hno _ _ _ _ index He Hm).
  - assert (location_entry ep map index' id) as Hentry by (by exists t1, t2).
    rewrite (Huniq _ _ _ _ _ _ _ Hentry Hid). simpl.
    by rewrite bool_decide_eq_true_2 by lia.
Qed.

Lemma sent_items_emit e w :
  sent_items (trace (emit e w))
  = sent_items (trace w) ++ match e with Ev_AP_SendItem id => [id] | _ => [] end.
Proof.
  unfold sent_items. simpl. rewrite omap_app. simpl.
  destruct e; simpl; by rewrite ?app_nil_r.
Qed.

(** X2. A location check and its echo, on a level whose checked list
    already holds the index or has room for one more entry. In a table that
    stores no id twice, [apdoom_check_location] on a location of the table
    sends the id of the location and records nothing; when the server
    answers with that id, [f_locrecv] records a non-negative index in the
    checked list of the very level the check was made in, at its end when
    it is new, and records nothing for a negative index (the level-complete
    location). *)
Theorem checked_location_comes_back idx index id w l :
  location_ids_unique → location_id idx index = Some id →
  0 ≤ idx_ep idx < INT_MAX → in_int (idx_map idx) → idx_map idx < INT_MAX →
  ap_get_level_state (ap_state w) idx = Some l →
  Z.of_nat (length (checks l)) = AP_CHECK_MAX →
  0 ≤ check_count l ≤ AP_CHECK_MAX →
  index ∈ checked_list l ∨ index < 0 ∨ check_count l < AP_CHECK_MAX →
  ∃ w1 w2 l2,
    apdoom_check_location idx index w = Some w1 ∧
    ap_state w1 = ap_state w ∧
    sent_items (trace w1) = sent_items (trace w) ++ [id] ∧
    f_locrecv id w1 = Some w2 ∧
    ap_get_level_state (ap_state w2) idx = Some l2 ∧
    (0 ≤ index → index ∈ checked_list l2) ∧
    (0 ≤ index → index ∉ checked_list l →
     checked_list l2 = checked_list l ++ [index]) ∧
    (index < 0 → w2 = w1).
Proof.
  intros Huniq Hid Hep Hmap Hmapmax Hl Hlen Hcc Hroom.
  assert (int_add (idx_ep idx) 1 = idx_ep idx + 1) as Hep1.
  { unfold int_add. apply wrap_int_id. unfold in_int, INT_MIN, INT_MAX in *. lia. }
  pose proof (find_location_of_location_id idx index id Huniq Hid
                ltac:(rewrite Hep1; lia)) as Hfind.
  assert ({| idx_ep := int_sub (int_add (idx_ep idx) 1) 1;
             idx_map := int_sub (int_add (idx_map idx) 1) 1 |} = idx) as Hidx.
  { rewrite !int_add_sub_1; [by destruct idx|done|done| |lia].
    unfold in_int, INT_MIN, INT_MAX in *. lia. }
  assert (apdoom_check_location idx index w = Some (emit (Ev_AP_SendItem id) w))
    as Hcheck.
  { unfold apdoom_check_location. unfold location_id in Hid.
    destruct (assoc_find _ get_location_table) as [t1|]; [|done]. simpl in Hid.
    destruct (assoc_find _ t1) as [t2|]; [|done]. simpl in Hid.
    rewrite Hid. destruct (decide (index >= 0)) as [Hpos|Hneg]; [|done].
    unfold is_loc_checked. rewrite Hl. simpl.
    rewrite level_is_loc_checked_spec by (unfold AP_CHECK_MAX in *; lia). done. }
  assert (∃ s2 l2,
            record_check idx index (ap_state w) = Some s2 ∧
            ap_get_level_state s2 idx = Some l2 ∧
            (0 ≤ index → index ∈ checked_list l2) ∧
            (0 ≤ index → index ∉ checked_list l →
             checked_list l2 = checked_list l ++ [index]) ∧
            (index < 0 → s2 = ap_state w))
    as (s2 & l2 & Hrec & Hl2 & Hin & Hnew & Hneg).
  { rewrite (record_check_spec idx index _ l) by done.
    destruct (decide (index ∈ checked_list l ∨ index < 0)) as [Hold|Hnot].
    - exists (ap_state w), l. split; [done|]. split; [exact Hl|].
      split; [|split; [|done]].
      + intros Hpos. destruct Hold as [Hold|?]; [done|lia].
      + intros Hpos Hn. destruct Hold as [Hold|?]; [by destruct Hn|lia].
    - assert (check_count l < AP_CHECK_MAX) as Hlt.
      { destruct Hroom as [?|[?|?]]; [|destruct Hnot; by right|done].
        destruct Hnot. by left. }
      eexists _, _. split; [done|]. split; [by eapply ap_get_level_state_insert|].
      rewrite checked_list_append by (unfold AP_CHECK_MAX, INT_MAX in *; lia).
      split; [|split; [done|]].
      + intros _. apply elem_of_app. right. by left.
      + intros Hlt0. destruct Hnot. by right. }
  exists (emit (Ev_AP_SendItem id) w),
         (set_ap_state s2 (emit (Ev_AP_SendItem id) w)), l2.
  split; [exact Hcheck|]. split; [done|]. split; [by rewrite sent_items_emit|].
  split; [|split; [done|split; [done|split; [done|]]]].
  - unfold f_locrecv. rewrite Hfind, Hidx. simpl. by rewrite Hrec.
  - intros Hlt0. rewrite (Hneg Hlt0). by destruct w.
Qed.

(** ** The victory check *)

Lemma all_loop_spec n i (p : Z → option bool) (f : Z → bool) :
  (∀ j, i ≤ j < i + Z.of_nat n → p j = Some (f j)) →
  all_loop n i p = Some (forallb f (upto_from n i)).
Proof.
  revert i. induction n as [|n IH]; intros i Hp; [done|]. simpl.
  rewrite Hp by lia. simpl. destruct (f i); [|done]. simpl.
  apply IH. intros j Hj. apply Hp. lia.
Qed.

Lemma all_upto_spec hi (p : Z → option bool) (f : Z → bool) :
  (∀ j, 0 ≤ j < hi → p j = Some (f j)) →
  all_upto hi p = Some (forallb f (upto hi)).
Proof.
  intros Hp. unfold all_upto, upto. apply all_loop_spec.
  intros j Hj. apply Hp. lia.
Qed.

Lemma forallb_elem_of {A} (f : A → bool) l :
  forallb f l = true ↔ ∀ x, x ∈ l → f x = true.
Proof.
  rewrite forallb_forall. split; intros H x Hx; apply H; by apply list_elem_of_In.
Qed.

(** The "all levels" scan of [apdoom_check_victory]. *)
Lemma victory_levels_completed_all s :
  catalog_small → state_sized s →
  ¬ (goal s = 1 ∧ (ap_base_game D = doom ∨ ap_base_game D = heretic)) →
  ∃ b, victory_levels_completed s = Some b ∧
       (b = true ↔ ∀ lv, lv ∈ enabled_levels s → level_completed s lv).
Proof.
  intros Hsmall Hsized Hgoal. unfold victory_levels_completed.
  rewrite decide_False by done.
  set (done_level := λ ep map,
         match ap_get_level_state s {| idx_ep := ep; idx_map := map |} with
         | Some l => bool_decide (completed l ≠ 0)
         | None => false
         end).
  set (done_episode := λ ep,
         negb (episode_enabled s ep)
         || forallb (done_level ep) (upto (ap_get_map_count (int_add ep 1)))).
  exists (forallb done_episode (upto ap_episode_count)). split.
  - apply all_upto_spec. intros ep Hep.
    destruct (episode_read s ep Hsized) as (e & -> & Hen); [by apply elem_of_upto|].
    simpl. unfold done_episode. rewrite Hen.
    destruct (decide (e = 0)) as [->|He]; [done|].
    rewrite bool_decide_eq_true_2 by done. simpl.
    apply all_upto_spec. intros map Hmap.
    destruct (catalog_level_state s (ep, map) Hsmall Hsized) as [l Hl].
    { by apply elem_of_catalog_levels. }
    unfold done_level. unfold level_idx in Hl. simpl in Hl. by rewrite Hl.
  - rewrite forallb_elem_of. split.
    + intros Hall [ep map] Hlv.
      unfold enabled_levels, selected_levels in Hlv.
      apply list_elem_of_bind in Hlv as (e & Hlv & He).
      specialize (Hall e He). unfold done_episode in Hall.
      destruct (episode_enabled s e); [|by apply elem_of_nil in Hlv].
      simpl in Hall. rewrite forallb_elem_of in Hall.
      unfold episode_levels in Hlv.
      apply list_elem_of_fmap in Hlv as (m & [= -> ->] & Hm).
      specialize (Hall m Hm). unfold done_level in Hall.
      destruct (ap_get_level_state s _) as [l|] eqn:Hl; [|done].
      exists l. split; [done|]. by apply bool_decide_eq_true in Hall.
    + intros Hall ep Hep. unfold done_episode.
      destruct (episode_enabled s ep) eqn:Hen; [|done]. simpl.
      apply forallb_elem_of. intros map Hmap.
      destruct (Hall (ep, map)) as (l & Hl & Hc).
      { unfold enabled_levels, selected_levels. apply list_elem_of_bind.
        exists ep. split; [|done]. rewrite Hen.
        unfold episode_levels. apply list_elem_of_fmap. by exists map. }
      unfold done_level. unfold level_idx in Hl. simpl in Hl. rewrite Hl.
      by apply bool_decide_eq_true.
Qed.

(** X3. The victory check with the "all levels" goal, on a session whose
    flag is clear: the flag is set, and [AP_StoryComplete] then the victory
    callback are called, exactly when every level of every enabled episode
    is marked completed; otherwise the call changes nothing. *)
Theorem victory_when_all_levels_completed w :
  catalog_small → state_sized (ap_state w) → victory (ap_state w) = 0 →
  ¬ (goal (ap_state w) = 1 ∧ (ap_base_game D = doom ∨ ap_base_game D = heretic)) →
  ∃ w', apdoom_check_victory w = Some w' ∧
        ((∀ lv, lv ∈ enabled_levels (ap_state w) → level_completed (ap_state w) lv) →
         victory (ap_state w') = 1 ∧
         trace w' = trace w ++ [Ev_AP_StoryComplete; Ev_victory]) ∧
        (¬ (∀ lv, lv ∈ enabled_levels (ap_state w) → level_completed (ap_state w) lv) →
         w' = w).
Proof.
  intros Hsmall Hsized Hv Hgoal.
  destruct (victory_levels_completed_all _ Hsmall Hsized Hgoal) as (b & Hb & Hiff).
  unfold apdoom_check_victory. rewrite decide_False by (intros H; by apply H).
  rewrite Hb. simpl. destruct b.
  - eexists. split; [done|]. split.
    + intros _. split; [done|]. simpl. by rewrite <- app_assoc.
    + intros Hnot. destruct Hnot. by apply Hiff.
  - exists w. split; [done|]. split; [|done].
    intros Hall. apply Hiff in Hall. done.
Qed.

(** ** Messages *)

Lemma shown_messages_emit e w :
  shown_messages (trace (emit e w))
  = shown_messages (trace w) ++ match e with Ev_message m => [m] | _ => [] end.
Proof.
  unfold shown_messages. simpl. rewrite omap_app. simpl.
  destruct e; simpl; by rewrite ?app_nil_r.
Qed.

Lemma emit_cached_shown ms w :
  let w' := foldl (λ w m, emit (Ev_message m) w) w ms in
  shown_messages (trace w') = shown_messages (trace w) ++ ms ∧
  ap_cached_messages w' = ap_cached_messages w ∧
  ap_initialized w' = ap_initialized w.
Proof.
  revert w. induction ms as [|m ms IH]; intros w; simpl.
  - by rewrite app_nil_r.
  - destruct (IH (emit (Ev_message m) w)) as (-> & -> & ->).
    rewrite shown_messages_emit. simpl. by rewrite <- app_assoc.
Qed.

Lemma flush_cached_messages_shown w :
  let w' := flush_cached_messages w in
  shown_messages (trace w') ++ ap_cached_messages w'
  = shown_messages (trace w) ++ ap_cached_messages w ∧
  ap_initialized w' = ap_initialized w ∧
  (ap_initialized w = true → ap_cached_messages w' = []) ∧
  (ap_initialized w = false → shown_messages (trace w') = shown_messages (trace w)).
Proof.
  unfold flush_cached_messages. destruct (ap_initialized w) eqn:Hinit; simpl.
  - destruct (emit_cached_shown (ap_cached_messages w) w) as (-> & _ & ->).
    by rewrite app_nil_r.
  - by rewrite Hinit.
Qed.

Lemma handle_messages_shown pending w :
  let w' := handle_messages pending w in
  ap_initialized w' = ap_initialized w ∧
  (ap_initialized w = true →
   shown_messages (trace w')
   = shown_messages (trace w) ++ (colored_message <$> pending) ∧
   ap_cached_messages w' = ap_cached_messages w) ∧
  (ap_initialized w = false →
   shown_messages (trace w') = shown_messages (trace w) ∧
   ap_cached_messages w'
   = ap_cached_messages w ++ (colored_message <$> pending)).
Proof.
  unfold handle_messages. revert w.
  induction pending as [|msg pending IH]; intros w; simpl.
  - split; [done|]. by rewrite !app_nil_r.
  - destruct (ap_initialized w) eqn:Hinit.
    + destruct (IH (emit (Ev_message (colored_message msg)) w)) as (Hi & Ht & _).
      rewrite shown_messages_emit in Ht.
      simpl in *. split; [by rewrite Hi|]. split; [|done]. intros _.
      destruct (Ht Hinit) as [-> ->]. by rewrite <- app_assoc.
    + destruct (IH (set_cached_messages
                      (ap_cached_messages w ++ [colored_message msg]) w))
        as (Hi & _ & Hf).
      simpl in *. split; [by rewrite Hi|]. split; [done|]. intros _.
      destruct (Hf Hinit) as [-> ->]. by rewrite <- app_assoc.
Qed.

Lemma process_received_item_messages item_id w w' :
  process_received_item item_id w = Some w' →
  shown_messages (trace w') = shown_messages (trace w) ∧
  ap_cached_messages w' = ap_cached_messages w ∧
  ap_initialized w' = ap_initialized w.
Proof.
  unfold process_received_item. intros H.
  destruct (get_item_type_table !! item_id) as [item|]; [|by injection H as <-].
  destruct (decide (item_ep item ≠ -1)); simpl in H.
  - destruct (ap_get_level_info _); [|done]. simpl in H.
    destruct (get_sprites !! _); injection H as <-; simpl;
      (split; [|done]); unfold shown_messages; rewrite omap_app; simpl;
      by rewrite app_nil_r.
  - destruct (get_sprites !! _); injection H as <-; simpl;
      (split; [|done]); unfold shown_messages; rewrite omap_app; simpl;
      by rewrite app_nil_r.
Qed.

Lemma dequeue_items_messages queue w w' :
  dequeue_items queue w = Some w' →
  shown_messages (trace w') = shown_messages (trace w) ∧
  ap_cached_messages w' = ap_cached_messages w ∧
  ap_initialized w' = ap_initialized w.
Proof.
  revert w. induction queue as [|id rest IH]; intros w H; simpl in H.
  - by injection H as <-.
  - destruct (process_received_item id _) as [w1|] eqn:Hp; [|done]. simpl in H.
    apply process_received_item_messages in Hp as (Ht & Hc & Hi).
    apply IH in H as (-> & -> & ->). by rewrite Ht, Hc, Hi.
Qed.

(** X4. No message is lost, repeated or reordered by [apdoom_update]:
    what has been handed to the message callback, followed by what is
    still cached, grows by the texts of the pending messages, in order.
    Once the session is initialised the cache is empty after the call;
    before that nothing is handed to the callback. *)
Theorem messages_kept_in_order pending w w' :
  apdoom_update pending w = Some w' →
  shown_messages (trace w') ++ ap_cached_messages w'
  = shown_messages (trace w) ++ ap_cached_messages w
      ++ (colored_message <$> pending) ∧
  (ap_initialized w = true → ap_cached_messages w' = []) ∧
  (ap_initialized w = false →
   shown_messages (trace w') = shown_messages (trace w)).
Proof.
  unfold apdoom_update. intros H.
  destruct (flush_cached_messages_shown w) as (Hsum & Hinit & Hflushed & Hquiet).
  destruct (handle_messages_shown pending (flush_cached_messages w))
    as (Hinit' & Hshown & Hcached).
  set (w1 := handle_messages pending (flush_cached_messages w)) in *.
  assert (∃ w2, (if decide (ap_is_in_game w1 ≠ 0)
                 then dequeue_items (ap_item_queue w1) w1 else Some w1) = Some w2 ∧
                w' = set_notification_icons
                       (update_notification_icons (ap_notification_icons w2)) w2)
    as (w2 & Hw2 & ->).
  { destruct (if decide (ap_is_in_game w1 ≠ 0) then _ else _) as [w2|]; [|done].
    simpl in H. injection H as <-. by exists w2. }
  assert (shown_messages (trace w2) = shown_messages (trace w1) ∧
          ap_cached_messages w2 = ap_cached_messages w1) as [Ht Hc].
  { case_decide.
    - by apply dequeue_items_messages in Hw2 as (? & ? & _).
    - by injection Hw2 as <-. }
  simpl. rewrite Ht, Hc. rewrite Hinit in Hshown, Hcached.
  destruct (ap_initialized w) eqn:Hi.
  - destruct (Hshown eq_refl) as [-> ->]. rewrite (Hflushed eq_refl) in *.
    rewrite app_nil_r in *. rewrite Hsum.
    split; [by rewrite app_assoc|]. done.
  - destruct (Hcached eq_refl) as [-> ->]. rewrite (Hquiet eq_refl) in *.
    split; [|done]. apply app_inv_head in Hsum. by rewrite Hsum.
Qed.

(** ** Episodes *)

(** X5. [ap_get_highest_episode] answers the greatest index of an enabled
    episode, and 0 when no episode is enabled. *)
Theorem highest_episode_spec s :
  state_sized s →
  ∃ h, ap_get_highest_episode s = Some h ∧
       ((∀ i, 0 ≤ i < ap_episode_count → episode_enabled s i = false) → h = 0) ∧
       (∀ i, 0 ≤ i < ap_episode_count → episode_enabled s i = true →
             episode_enabled s h = true ∧ i ≤ h < ap_episode_count).
Proof.
  intros [_ Hlen]. unfold ap_get_highest_episode.
  destruct (for_upto_inv
    (λ j h, ((∀ i, 0 ≤ i < j → episode_enabled s i = false) → h = 0) ∧
            (∀ i, 0 ≤ i < j → episode_enabled s i = true →
                  episode_enabled s h = true ∧ i ≤ h < j))
    ap_episode_count
    (λ i highest, e ← arr_get (episodes s) i;
                  Some (if decide (e ≠ 0) then i else highest)) 0)
    as (h & Hrun & Hnone & Hmax); [lia| | |by exists h].
  - split; [done|]. intros; lia.
  - intros j h Hj [Hnone Hmax].
    destruct (arr_get_in_range (episodes s) j) as [e He]; [lia|].
    rewrite He. simpl. eexists. split; [done|].
    assert (episode_enabled s j = bool_decide (e ≠ 0)) as Hen
      by (unfold episode_enabled; by rewrite He).
    destruct (decide (e ≠ 0)) as [Hne|He0].
    + rewrite bool_decide_eq_true_2 in Hen by done. split.
      * intros Hall. specialize (Hall j). rewrite Hen in Hall.
        discriminate Hall. lia.
      * intros i Hi _. split; [done|lia].
    + rewrite bool_decide_eq_false_2 in Hen by done. split.
      * intros Hall. apply Hnone. intros i Hi. apply Hall. lia.
      * intros i Hi Hi_en. destruct (decide (i = j)) as [->|Hij]; [congruence|].
        destruct (Hmax i) as [? ?]; [lia|done|]. split; [done|lia].
Qed.

(** ** Level indices and engine numbers *)

Lemma find_loop_spec {A} n i (p : Z → option (option A)) (q : Z → option A) :
  (∀ j, i ≤ j < i + Z.of_nat n → p j = Some (q j)) →
  find_loop n i p = Some (head (omap q (upto_from n i))).
Proof.
  revert i. induction n as [|n IH]; intros i Hp; [done|]. simpl.
  rewrite Hp by lia. simpl. destruct (q i); [done|].
  apply IH. intros j Hj. apply Hp. lia.
Qed.

Lemma find_upto_spec {A} hi (p : Z → option (option A)) (q : Z → option A) :
  (∀ j, 0 ≤ j < hi → p j = Some (q j)) →
  find_upto hi p = Some (head (omap q (upto hi))).
Proof.
  intros Hp. unfold find_upto, upto. apply find_loop_spec.
  intros j Hj. apply Hp. lia.
Qed.

Lemma omap_fmap_compose {A B C} (g : A → B) (q : B → option C) (k : list A) :
  omap q (g <$> k) = omap (λ a, q (g a)) k.
Proof.
  induction k as [|a k IH]; [done|]. rewrite fmap_cons.
  change (omap q (g a :: (g <$> k)))
    with (match q (g a) with Some y => y :: omap q (g <$> k)
                           | None => omap q (g <$> k) end).
  change (omap (λ a, q (g a)) (a :: k))
    with (match q (g a) with Some y => y :: omap (λ a, q (g a)) k
                           | None => omap (λ a, q (g a)) k end).
  by rewrite IH.
Qed.

(** A first match of a nested search is a first match over the pairs. *)
Lemma head_omap_nested {A B C} (f : A → list B) (q : A * B → option C) l :
  head (omap (λ a, head (omap (λ b, q (a, b)) (f a))) l)
  = head (omap q (l ≫= λ a, (λ b, (a, b)) <$> f a)).
Proof.
  induction l as [|a l IH]; [done|]. simpl.
  rewrite omap_app.
  rewrite omap_fmap_compose.
  destruct (omap (λ b, q (a, b)) (f a)) as [|c cs]; simpl; [apply IH|done].
Qed.

Lemma head_omap_first {A B} (q : A → option B) l :
  match head (omap q l) with
  | Some y => ∃ l1 x l2, l = l1 ++ x :: l2 ∧ q x = Some y ∧
                         ∀ x', x' ∈ l1 → q x' = None
  | None => ∀ x, x ∈ l → q x = None
  end.
Proof.
  induction l as [|x l IH]; simpl.
  - intros x H. by apply elem_of_nil in H.
  - destruct (q x) as [y|] eqn:Hq; simpl.
    + exists [], x, l. split; [done|]. split; [done|].
      intros x' H. by apply elem_of_nil in H.
    + change (list_omap A B q l) with (omap q l).
      destruct (head (omap q l)) as [y|].
      * destruct IH as (l1 & x0 & l2 & -> & Hq0 & Hl1).
        exists (x :: l1), x0, l2. split; [done|]. split; [done|].
        intros x' H. apply elem_of_cons in H as [->|H]; [done|by apply Hl1].
      * intros x' H. apply elem_of_cons in H as [->|H]; [done|by apply IH].
Qed.

Lemma episode_row e :
  catalog_fits → 0 ≤ e < ap_episode_count →
  ∃ row, arr_get get_level_info_table e = Some row ∧
         ap_get_map_count (int_add e 1) = int_size row ∧
         int_size row = Z.of_nat (length row).
Proof.
  intros Hfits He. pose proof (ap_episode_count_fits Hfits) as Hcount.
  destruct (lookup_lt_is_Some_2 get_level_info_table (Z.to_nat e)) as [row Hrow];
    [lia|].
  exists row. rewrite arr_get_nonneg by lia. split; [done|].
  assert (int_size row = Z.of_nat (length row)) as Hsize.
  { apply int_size_fits. destruct Hfits as [_ Hf]. rewrite Forall_lookup in Hf.
    by eapply Hf. }
  split; [|done]. rewrite Hsize. unfold int_add. destruct Hfits as [Hf1 Hf2].
  rewrite wrap_int_id by (unfold in_int, INT_MIN, INT_MAX in *; lia).
  apply ap_get_map_count_in_range; [done| |lia|].
  - unfold in_int, INT_MIN, INT_MAX in *. lia.
  - by replace (e + 1 - 1) with e by lia.
Qed.

(** [ap_make_level_index] as a first match over the levels of the
    catalog, in catalog order. *)
Lemma ap_make_level_index_head gameepisode gamemap :
  catalog_fits →
  ap_make_level_index gameepisode gamemap
  = Some (default {| idx_ep := 0; idx_map := 0 |}
            (head (omap (λ lv, if decide (level_numbers lv
                                          = Some (gameepisode, gamemap))
                               then Some (level_idx lv) else None)
                        catalog_levels))).
Proof.
  intros Hfits. unfold ap_make_level_index.
  set (q := λ lv : Z * Z,
         if decide (level_numbers lv = Some (gameepisode, gamemap))
         then Some (level_idx lv) else None).
  rewrite (find_upto_spec _ _
             (λ ep, head (omap (λ map, q (ep, map))
                               (upto (ap_get_map_count (int_add ep 1)))))).
  - simpl. do 2 f_equal. unfold catalog_levels.
    rewrite (head_omap_nested (λ ep, upto (ap_get_map_count (int_add ep 1))) q).
    done.
  - intros ep Hep. fold ap_episode_count in Hep.
    destruct (episode_row ep Hfits Hep) as (row & Hrow & -> & Hsize).
    rewrite Hrow. simpl. apply find_upto_spec. intros map Hmap.
    destruct (arr_get_in_range row map) as [info Hinfo]; [lia|].
    rewrite Hinfo. simpl. f_equal. unfold q, level_numbers, level_idx.
    unfold ap_index_to_ep, ap_index_to_map. simpl. rewrite Hrow. simpl.
    rewrite Hinfo. simpl.
    destruct (decide (li_game_episode info = gameepisode
                      ∧ li_game_map info = gamemap)) as [[<- <-]|Hne].
    + by rewrite decide_True.
    + rewrite decide_False; [done|]. intros [= ? ?]. by destruct Hne.
Qed.

(** X6. [ap_make_level_index] answers the first level of the catalog, in
    catalog order, whose info carries the engine's episode and map numbers
    asked for; when no level carries them it answers [{0, 0}], the index
    of the first level of the catalog. *)
Theorem make_level_index_first gameepisode gamemap :
  catalog_fits →
  ∃ idx, ap_make_level_index gameepisode gamemap = Some idx ∧
    ((∃ l1 lv l2,
        catalog_levels = l1 ++ lv :: l2 ∧ idx = level_idx lv ∧
        level_numbers lv = Some (gameepisode, gamemap) ∧
        ∀ lv', lv' ∈ l1 → level_numbers lv' ≠ Some (gameepisode, gamemap)) ∨
     (idx = {| idx_ep := 0; idx_map := 0 |} ∧
      ∀ lv, lv ∈ catalog_levels → level_numbers lv ≠ Some (gameepisode, gamemap))).
Proof.
  intros Hfits. rewrite ap_make_level_index_head by done.
  eexists. split; [done|].
  pose proof (head_omap_first
    (λ lv, if decide (level_numbers lv = Some (gameepisode, gamemap))
           then Some (level_idx lv) else None) catalog_levels) as Hfirst.
  destruct (head _) as [idx|]; simpl.
  - left. destruct Hfirst as (l1 & lv & l2 & Hl & Hq & Hl1).
    exists l1, lv, l2. split; [done|]. case_decide as Hn; [|done].
    injection Hq as <-. split; [done|]. split; [done|].
    intros lv' Hlv'. specialize (Hl1 lv' Hlv'). by case_decide.
  - right. split; [done|]. intros lv Hlv. specialize (Hfirst lv Hlv).
    by case_decide.
Qed.

(** X7. When no two levels of the catalog carry the same engine numbers,
    [ap_make_level_index] undoes [ap_index_to_ep] and [ap_index_to_map]:
    every level of the catalog has numbers, and they lead back to it. *)
Theorem level_index_round_trip lv :
  catalog_fits →
  (∀ lv1 lv2, lv1 ∈ catalog_levels → lv2 ∈ catalog_levels →
              level_numbers lv1 = level_numbers lv2 → lv1 = lv2) →
  lv ∈ catalog_levels →
  ∃ gameepisode gamemap,
    ap_index_to_ep (level_idx lv) = Some gameepisode ∧
    ap_index_to_map (level_idx lv) = Some gamemap ∧
    ap_make_level_index gameepisode gamemap = Some (level_idx lv).
Proof.
  intros Hfits Huniq Hlv.
  assert (∃ ge gm, ap_index_to_ep (level_idx lv) = Some ge ∧
                   ap_index_to_map (level_idx lv) = Some gm) as (ge & gm & Hge & Hgm).
  { pose proof Hlv as Hin. unfold catalog_levels in Hin.
    apply list_elem_of_bind in Hin as (e & Hin & He).
    unfold episode_levels in Hin. apply list_elem_of_fmap in Hin as (m & -> & Hm).
    apply elem_of_upto in He, Hm.
    destruct (episode_row e Hfits He) as (row & Hrow & Hmc & Hsize).
    destruct (arr_get_in_range row m) as [info Hinfo]; [lia|].
    exists (li_game_episode info), (li_game_map info).
    unfold ap_index_to_ep, ap_index_to_map, level_idx. simpl.
    rewrite Hrow. simpl. by rewrite Hinfo. }
  exists ge, gm. split; [done|]. split; [done|].
  assert (level_numbers lv = Some (ge, gm)) as Hnum
    by (unfold level_numbers; by rewrite Hge, Hgm).
  rewrite ap_make_level_index_head by done. f_equal.
  pose proof (head_omap_first
    (λ lv, if decide (level_numbers lv = Some (ge, gm))
           then Some (level_idx lv) else None) catalog_levels) as Hfirst.
  destruct (head _) as [idx|]; simpl.
  - destruct Hfirst as (l1 & lv0 & l2 & Hl & Hq & _).
    case_decide as Hn; [|done]. injection Hq as <-.
    f_equal. apply Huniq; [|done|congruence].
    rewrite Hl. apply elem_of_app. right. by left.
  - specialize (Hfirst lv Hlv). by rewrite decide_True in Hfirst.
Qed.

(** ** The save directory name *)

Lemma hex_pair_decode ch :
  ∃ hi lo,
    hex_digit (N.shiftr (N_of_ascii ch) 4) = Some hi ∧
    hex_digit (N.land (N_of_ascii ch) 15) = Some lo ∧
    ascii_of_N (16 * hex_value hi + hex_value lo) = ch ∧
    hi ∈ list_ascii_of_string hex_digits ∧ lo ∈ list_ascii_of_string hex_digits.
Proof.
  destruct ch as [[] [] [] [] [] [] [] []];
    (eexists _, _; split; [vm_compute; reflexivity|];
     split; [vm_compute; reflexivity|]; split; [vm_compute; reflexivity|];
     split; apply list_elem_of_In; vm_compute; tauto).
Qed.

Lemma hex_of_decode s :
  ∃ h, hex_of s = Some h ∧ hex_decode h = s ∧
       String.length h = (2 * String.length s)%nat ∧
       Forall (λ ch, ch ∈ list_ascii_of_string hex_digits) (list_ascii_of_string h).
Proof.
  induction s as [|ch s (h & Hh & Hdec & Hlen & Hdigits)].
  - exists EmptyString. repeat split; constructor.
  - destruct (hex_pair_decode ch) as (hi & lo & Hhi & Hlo & Hch & Hin1 & Hin2).
    exists (String hi (String lo h)). simpl. rewrite Hhi, Hlo, Hh. simpl.
    split; [done|]. split; [by rewrite Hch, Hdec|]. split; [lia|].
    apply Forall_cons. split; [exact Hin1|].
    apply Forall_cons. split; [exact Hin2|exact Hdigits].
Qed.

(** X8. [string_to_hex] always returns; its result is twice as long as
    the name, holds nothing but the sixteen digits 0-9 and A-F, and is
    the same for two names only when the names are the same. *)
Theorem string_to_hex_injective a b :
  ∃ ha hb,
    string_to_hex a = Some ha ∧ string_to_hex b = Some hb ∧
    String.length ha = (2 * String.length (c_str a))%nat ∧
    Forall (λ ch, ch ∈ list_ascii_of_string hex_digits) (list_ascii_of_string ha) ∧
    (ha = hb → c_str a = c_str b).
Proof.
  unfold string_to_hex.
  destruct (hex_of_decode (c_str a)) as (ha & Ha & Hda & Hla & Hdig).
  destruct (hex_of_decode (c_str b)) as (hb & Hb & Hdb & _).
  exists ha, hb. split; [done|]. split; [done|]. split; [done|]. split; [done|].
  intros ->. by rewrite <- Hda, <- Hdb.
Qed.

(** ** Map tweaks *)

Lemma next_tweak_spec type_mask rest i :
  ∃ k : nat,
    (k ≤ length rest)%nat ∧
    next_tweak type_mask rest i
    = (head (filter (λ tweak, Z.land (tw_type tweak) TWEAK_TYPE_MASK = type_mask)
                    rest),
       i + Z.of_nat k) ∧
    filter (λ tweak, Z.land (tw_type tweak) TWEAK_TYPE_MASK = type_mask)
           (drop k rest)
    = tail (filter (λ tweak, Z.land (tw_type tweak) TWEAK_TYPE_MASK = type_mask)
                   rest).
Proof.
  revert i. induction rest as [|tweak rest IH]; intros i.
  - exists 0%nat. simpl. split; [lia|]. split; [f_equal; lia|done].
  - simpl. rewrite filter_cons. case_decide as Hne.
    + rewrite decide_False by done.
      destruct (IH (i + 1)) as (k & Hk & -> & Hdrop).
      exists (S k). split; [lia|]. split; [f_equal; lia|done].
    + assert (Z.land (tw_type tweak) TWEAK_TYPE_MASK = type_mask) as Heq
        by (destruct (decide (Z.land (tw_type tweak) TWEAK_TYPE_MASK = type_mask));
            [done|by destruct Hne]).
      rewrite decide_True by done.
      exists 1%nat. simpl. split; [lia|]. split; [done|]. by rewrite drop_0.
Qed.

Lemma get_map_tweaks_calls_from map_tweak_list idx type_mask tweak_list n (i : nat) :
  map_tweak_list !! idx_ep idx ≫= (.!! idx_map idx) = Some tweak_list →
  (i ≤ length tweak_list)%nat →
  get_map_tweaks_calls map_tweak_list n
    {| gmt_level := idx; gmt_type_mask := type_mask; gmt_i := Z.of_nat i |}
  = (λ k, filter (λ tweak, Z.land (tw_type tweak) TWEAK_TYPE_MASK = type_mask)
                 (drop i tweak_list) !! k) <$> seq 0 n.
Proof.
  intros Hlist. revert i. induction n as [|n IH]; intros i Hi; [done|].
  simpl. unfold ap_get_map_tweaks. simpl. rewrite Hlist. rewrite Nat2Z.id.
  destruct (next_tweak_spec type_mask (drop i tweak_list) (Z.of_nat i))
    as (k & Hk & -> & Hdrop).
  rewrite length_drop in Hk. rewrite drop_drop in Hdrop.
  replace (Z.of_nat i + Z.of_nat k) with (Z.of_nat (i + k)) by lia.
  rewrite IH by lia. rewrite Hdrop. f_equal.
  - by destruct (filter _ (drop i tweak_list)).
  - rewrite <- fmap_S_seq, <- list_fmap_compose. apply list_fmap_ext.
    intros _ j _. simpl. by destruct (filter _ (drop i tweak_list)).
Qed.

(** X9. After [ap_init_map_tweaks], successive calls of
    [ap_get_map_tweaks] return the tweaks of the level whose type is in
    the group asked for, each once and in the order of the list, and the
    null pointer from then on; for a level without tweaks every call
    returns the null pointer. *)
Theorem map_tweaks_iteration map_tweak_list idx type_mask n :
  get_map_tweaks_calls map_tweak_list n (ap_init_map_tweaks idx type_mask)
  = (λ k, matching_tweaks map_tweak_list idx type_mask !! k) <$> seq 0 n.
Proof.
  unfold matching_tweaks, ap_init_map_tweaks.
  assert ({| idx_ep := idx_ep idx; idx_map := idx_map idx |} = idx) as ->
    by (by destruct idx).
  destruct (map_tweak_list !! idx_ep idx ≫= (.!! idx_map idx))
    as [tweak_list|] eqn:Hlist.
  - change 0 with (Z.of_nat 0).
    rewrite (get_map_tweaks_calls_from _ _ _ tweak_list) by (done || lia).
    by rewrite drop_0.
  - simpl. rewrite filter_nil.
    set (g := {| gmt_level := idx; gmt_type_mask := type_mask; gmt_i := 0 |}).
    assert (ap_get_map_tweaks map_tweak_list g = (None, g)) as Hnull
      by (unfold ap_get_map_tweaks; simpl; by rewrite Hlist).
    generalize 0%nat.
    induction n as [|n IH]; intros j; [done|]. simpl.
    rewrite Hnull. f_equal. apply IH.
Qed.

(** ** Progression locations *)

Lemma f_locinfo_locations loc_infos w id :
  id ∈ ap_progressive_locations (f_locinfo loc_infos w) ↔
  id ∈ ap_progressive_locations w ∨
  ∃ loc_info, loc_info ∈ loc_infos ∧ ni_location loc_info = id ∧
              Z.land (ni_flags loc_info) 1 ≠ 0.
Proof.
  unfold f_locinfo. revert w.
  induction loc_infos as [|loc_info loc_infos IH]; intros w; simpl.
  - split; [by left|]. intros [?|(? & H & _)]; [done|by apply elem_of_nil in H].
  - rewrite IH. case_decide as Hflag; simpl.
    + rewrite elem_of_union, elem_of_singleton. split.
      * intros [[->|?]|(x & Hx & ? & ?)].
        -- right. exists loc_info. split; [by left|done].
        -- by left.
        -- right. exists x. split; [by right|done].
      * intros [?|(x & Hx & Hloc & Hfl)]; [left; by right|].
        apply elem_of_cons in Hx as [->|Hx]; [left; by left|].
        right. by exists x.
    + split.
      * intros [?|(x & Hx & ? & ?)]; [by left|].
        right. exists x. split; [by right|done].
      * intros [?|(x & Hx & Hloc & Hfl)]; [by left|].
        apply elem_of_cons in Hx as [->|Hx]; [by destruct Hflag|].
        right. by exists x.
Qed.

Lemma apdoom_is_location_progression_id idx index w :
  apdoom_is_location_progression idx index w
  = match location_id idx index with
    | Some id => if decide (id ∈ ap_progressive_locations w) then 1 else 0
    | None => 0
    end.
Proof.
  unfold apdoom_is_location_progression, location_id.
  destruct (assoc_find _ get_location_table) as [t1|]; [|done]. simpl.
  by destruct (assoc_find _ t1) as [t2|].
Qed.

(** X10. After [f_locinfo], [apdoom_is_location_progression] answers 1
    for a location exactly when the table has an id for it and that id
    either was among the progression locations already or came in the
    answer with the lowest flag bit set; it answers 0 otherwise. Nothing
    is ever removed from the progression locations. *)
Theorem location_progression_after_locinfo idx index loc_infos w :
  (apdoom_is_location_progression idx index (f_locinfo loc_infos w) = 1 ↔
   ∃ id, location_id idx index = Some id ∧
         (id ∈ ap_progressive_locations w ∨
          ∃ loc_info, loc_info ∈ loc_infos ∧ ni_location loc_info = id ∧
                      Z.land (ni_flags loc_info) 1 ≠ 0)) ∧
  (apdoom_is_location_progression idx index (f_locinfo loc_infos w) ≠ 1 →
   apdoom_is_location_progression idx index (f_locinfo loc_infos w) = 0) ∧
  ap_progressive_locations w ⊆ ap_progressive_locations (f_locinfo loc_infos w).
Proof.
  rewrite apdoom_is_location_progression_id. split; [|split].
  - destruct (location_id idx index) as [id|].
    + case_decide as Hin.
      * split; [|done]. intros _. exists id. split; [done|].
        by apply f_locinfo_locations.
      * split; [done|]. intros (id' & [= <-] & H).
        by apply f_locinfo_locations in H.
    + split; [done|]. by intros (? & ? & _).
  - destruct (location_id idx index) as [id|]; [|done]. by case_decide.
  - intros id Hid. apply f_locinfo_locations. by left.
Qed.

(** ** Reading a document that holds nothing *)

Lemma for_upto_same {A} n (body : Z → list A → option (list A)) (a0 : list A) :
  Z.of_nat (length a0) = n →
  (∀ i a, 0 ≤ i < n → body i a = (old ← arr_get a i; arr_set a i old)) →
  for_upto n body a0 = Some a0.
Proof.
  intros Hlen Hbody.
  destruct (for_upto_update n (λ _ old, Some old) body a0)
    as (a' & -> & Hlen' & Hlook); [done| | |].
  - intros i a Hi. rewrite Hbody by done. by destruct (arr_get a i).
  - intros; by eexists.
  - f_equal. apply (list_eq_upto _ _ n); [lia|done|]. intros i Hi.
    destruct (lookup_lt_is_Some_2 a0 (Z.to_nat i)) as [old Hold]; [lia|].
    by rewrite (Hlook i old Hi Hold).
Qed.

Lemma for_upto_same2 {A B} n (body : Z → list A * list B → option (list A * list B))
    (a0 : list A) (b0 : list B) :
  Z.of_nat (length a0) = n → Z.of_nat (length b0) = n →
  (∀ i a b, 0 ≤ i < n →
     body i (a, b) = (old ← arr_get a i; a' ← arr_set a i old;
                      old ← arr_get b i; b' ← arr_set b i old; Some (a', b'))) →
  for_upto n body (a0, b0) = Some (a0, b0).
Proof.
  intros Hlena Hlenb Hbody.
  destruct (for_upto_update2 n (λ _ old, Some old) (λ _ old, Some old) body a0 b0)
    as (a' & b' & -> & Hla & Hlb & Hlooka & Hlookb); [done|done| | | |].
  - intros i a b Hi. rewrite Hbody by done.
    destruct (arr_get a i); [|done]. simpl.
    destruct (arr_set a i _); [|done]. simpl. by destruct (arr_get b i).
  - intros; by eexists.
  - intros; by eexists.
  - do 2 f_equal.
    + apply (list_eq_upto _ _ n); [lia|done|]. intros i Hi.
      destruct (lookup_lt_is_Some_2 a0 (Z.to_nat i)) as [old Hold]; [lia|].
      by rewrite (Hlooka i old Hi Hold).
    + apply (list_eq_upto _ _ n); [lia|done|]. intros i Hi.
      destruct (lookup_lt_is_Some_2 b0 (Z.to_nat i)) as [old Hold]; [lia|].
      by rewrite (Hlookb i old Hi Hold).
Qed.

Lemma upd_level_state_id idx f s l :
  ap_get_level_state s idx = Some l → f l = Some l → upd_level_state idx f s = Some s.
Proof.
  intros Hl Hf. apply upd_level_state_Some. exists l, l. split; [done|].
  split; [done|]. unfold ap_get_level_state in Hl.
  apply arr_get_Some in Hl as [_ Hl]. rewrite list_insert_id by done.
  by destruct s.
Qed.

Lemma load_player_state_nothing json p :
  (∀ k, json_member k json = Some JNull) → player_sized p →
  load_player_state json p = Some p.
Proof.
  intros Hnull (H1 & H2 & H3 & H4 & H5). unfold load_player_state, load_player_int.
  rewrite !Hnull. cbn [mbind option_bind json_member json_get_int json_isInt].
  rewrite (for_upto_same ap_powerup_count) by done. cbn [mbind option_bind].
  rewrite (for_upto_same ap_weapon_count) by done. cbn [mbind option_bind].
  rewrite (for_upto_same2 ap_ammo_count) by done. cbn [mbind option_bind].
  rewrite (for_upto_same ap_inventory_count); [by destruct p|done|].
  intros i a _. simpl. destruct (arr_get a i) as [[ty cn]|]; done.
Qed.

Lemma load_level_state_nothing json i j l :
  (∀ k, json_member k json = Some JNull) → length (keys l) = 3%nat →
  load_level_state json i j l = Some l.
Proof.
  intros Hnull Hkeys. unfold load_level_state, load_level_flag.
  rewrite !Hnull. destruct l as [c ks cc hm un ch sp fl mu]. simpl in *.
  destruct ks as [|k0 [|k1 [|k2 [|]]]]; done.
Qed.

(** X11. A document from which [load_state] reads nothing but [null],
    such as [null] itself, the empty object, or an object holding none of
    the members [load_state] asks for, leaves the session exactly as it
    is. *)
Theorem load_state_nothing_to_read json w :
  (∀ k, json_member k json = Some JNull) →
  catalog_small → state_sized (ap_state w) →
  player_sized (player_state (ap_state w)) →
  (∀ lv l, lv ∈ catalog_levels →
     ap_get_level_state (ap_state w) (level_idx lv) = Some l →
     length (keys l) = 3%nat) →
  load_state (Some json) w = Some w.
Proof.
  intros Hnull Hsmall Hsized Hplayer Hkeys. unfold load_state. cbv zeta.
  rewrite load_player_state_nothing by done. cbn [mbind option_bind].
  assert (set_player_state (player_state (ap_state w)) (ap_state w) = ap_state w)
    as -> by (by destruct (ap_state w)).
  rewrite for_each_level_fold.
  destruct (fold_opt_inv (λ _ st, st = ap_state w)
    (λ lv s, upd_level_state {| idx_ep := lv.1; idx_map := lv.2 |}
               (load_level_state json lv.1 lv.2) s)
    catalog_levels (ap_state w)) as (s1 & -> & ->); [done| |].
  { intros done lv rest st Hl ->. exists (ap_state w). split; [|done].
    assert (lv ∈ catalog_levels) as Hlv
      by (rewrite Hl; apply elem_of_app; right; by left).
    destruct (catalog_level_state (ap_state w) lv Hsmall Hsized Hlv) as [l Hget].
    apply (upd_level_state_id _ _ _ l); [done|].
    apply load_level_state_nothing; [done|]. by eapply Hkeys. }
  cbn [mbind option_bind]. rewrite !Hnull.
  cbn [mbind option_bind json_elems json_get_int json_get_bool_or json_isInt mapM].
  replace ap_episode_count with (Z.of_nat (length (episodes (ap_state w))))
    by apply Hsized.
  rewrite for_upto_same; [|done|intros i a _; simpl; by destruct (arr_get a i)].
  simpl. f_equal.
  destruct w as [s g q locs ini msgs icons dir tr]. unfold set_ap_state; simpl.
  rewrite app_nil_r. f_equal; [by destruct s|].
  apply (left_id_L ∅ (∪)).
Qed.

(** ** What [load_state] never takes away *)

Lemma flag_kept_refl : Reflexive flag_kept.
Proof. by intros x H. Qed.

Lemma flag_kept_trans : Transitive flag_kept.
Proof. intros x y z Hxy Hyz H. by apply Hyz, Hxy. Qed.

Lemma json_get_bool_or_kept j d r : json_get_bool_or j d = Some r → flag_kept d r.
Proof.
  unfold json_get_bool_or. destruct (json_isInt j).
  - destruct (json_asInt j) as [z|]; [|done]. intros [= <-] Hd Hor.
    apply Z.lor_eq_0_iff in Hor. by destruct Hor.
  - intros [= <-]. apply flag_kept_refl.
Qed.

Lemma Forall2_flag_kept_set a0 a i old v :
  Forall2 flag_kept a0 a → arr_get a i = Some old → flag_kept old v →
  ∀ a', arr_set a i v = Some a' → Forall2 flag_kept a0 a'.
Proof.
  intros Hall Hold Hv a' Hset. apply arr_set_Some in Hset as [Hi ->].
  apply arr_get_Some in Hold as [_ Hold].
  destruct (Forall2_lookup_r _ _ _ _ _ Hall Hold) as (x & Hx & Hxold).
  rewrite <- (list_insert_id a0 (Z.to_nat i) x) by done.
  apply Forall2_insert; [done|]. by eapply flag_kept_trans.
Qed.

Lemma load_flags_kept (src : Z → option Json) n a0 a' :
  for_upto n (λ i a, j ← src i; old ← arr_get a i;
                     v ← json_get_bool_or j old; arr_set a i v) a0 = Some a' →
  Forall2 flag_kept a0 a'.
Proof.
  intros H. unfold for_upto in H.
  eapply (for_loop_preserves (λ a, Forall2 flag_kept a0 a)); [|exact H|].
  - intros i a a1 Hbody Ha. cbv beta in Hbody.
    bind_inv Hbody. bind_inv Hbody. bind_inv Hbody.
    eapply Forall2_flag_kept_set; [done|done| |done]. by eapply json_get_bool_or_kept.
  - apply Forall2_same_length_lookup_2; [done|]. intros i x y Hx Hy.
    assert (x = y) as -> by congruence. apply flag_kept_refl.
Qed.

Lemma level_kept_refl : Reflexive level_kept.
Proof.
  intros l. repeat split; try apply flag_kept_refl.
  apply Forall2_same_length_lookup_2; [done|]. intros i x y Hx Hy.
  assert (x = y) as -> by congruence. apply flag_kept_refl.
Qed.

Lemma level_kept_trans : Transitive level_kept.
Proof.
  intros l1 l2 l3 (H1 & H2 & H3 & H4 & H5 & H6 & H7 & H8 & H9)
    (K1 & K2 & K3 & K4 & K5 & K6 & K7 & K8 & K9).
  repeat split; try congruence; try (by eapply flag_kept_trans).
  eapply Forall2_trans; [|done|done]. apply flag_kept_trans.
Qed.

Lemma load_level_flag_kept json i j k d r :
  load_level_flag json i j k d = Some r → flag_kept d r.
Proof.
  unfold load_level_flag. intros H. bind_inv H. by eapply json_get_bool_or_kept.
Qed.

Lemma load_level_state_kept json i j l l' :
  load_level_state json i j l = Some l' → level_kept l l'.
Proof.
  unfold load_level_state. intros H.
  repeat bind_inv H. injection H as <-. simpl.
  repeat match goal with
         | E : load_level_flag _ _ _ _ _ = Some _ |- _ =>
             apply load_level_flag_kept in E
         end.
  assert (Forall2 flag_kept (keys l) (keys l)) as H0.
  { pose proof (level_kept_refl l) as Hr. apply Hr. }
  repeat match goal with
         | Hget : arr_get ?a ?i = Some ?old, Hset : arr_set ?a ?i ?v = Some ?a',
           Hall : Forall2 flag_kept (keys l) ?a |- _ =>
             pose proof (Forall2_flag_kept_set _ _ _ _ _ Hall Hget ltac:(done)
                           _ Hset);
             clear Hget Hset Hall
         end.
  by repeat split.
Qed.

Lemma upd_level_state_kept idx f s s' :
  (∀ l l', f l = Some l' → level_kept l l') →
  upd_level_state idx f s = Some s' →
  Forall2 level_kept (level_states s) (level_states s').
Proof.
  intros Hf H. apply upd_level_state_Some in H as (l & l' & Hl & Hfl & ->). simpl.
  unfold ap_get_level_state in Hl. apply arr_get_Some in Hl as [_ Hl].
  rewrite <- (list_insert_id (level_states s) _ l Hl) at 1.
  apply Forall2_insert; [|by apply Hf].
  apply Forall2_same_length_lookup_2; [done|]. intros i x y Hx Hy.
  assert (x = y) as -> by congruence. apply level_kept_refl.
Qed.

Lemma load_player_state_kept json p p' :
  load_player_state json p = Some p' →
  capacity_upgrades p' = capacity_upgrades p ∧
  Forall2 flag_kept (weapon_owned p) (weapon_owned p').
Proof.
  unfold load_player_state. intros H.
  do 10 bind_inv H.
  match type of H with context [let '(_, _) := ?x in _] => destruct x end.
  bind_inv H. injection H as <-. simpl. split; [done|].
  match goal with
  | E : for_upto ap_weapon_count _ _ = Some _ |- _ =>
      exact (load_flags_kept
               (λ i, (json_member "player" json ≫= json_member "weapon_owned")
                       ≫= json_at i) _ _ _ E)
  end.
Qed.

(** X12. Whatever the document holds, [load_state] takes no progress
    away from the receiving session: the pending items stay at the front
    of the queue, the progression locations stay, a set victory flag stays
    set, no weapon and no level flag (completed, keys, map, unlocked,
    special) is cleared, and the capacity upgrades, the check lists, the
    check counts, the flips and the music are left as they are. *)
Theorem load_state_keeps_progress json w w' :
  load_state (Some json) w = Some w' →
  ap_item_queue w `prefix_of` ap_item_queue w' ∧
  ap_progressive_locations w ⊆ ap_progressive_locations w' ∧
  flag_kept (victory (ap_state w)) (victory (ap_state w')) ∧
  capacity_upgrades (player_state (ap_state w'))
  = capacity_upgrades (player_state (ap_state w)) ∧
  Forall2 flag_kept (weapon_owned (player_state (ap_state w)))
                    (weapon_owned (player_state (ap_state w'))) ∧
  Forall2 level_kept (level_states (ap_state w)) (level_states (ap_state w')).
Proof.
  unfold load_state. cbv zeta. intros H.
  bind_inv H. rename a into p'. apply load_player_state_kept in E as [Hcap Hweapons].
  bind_inv H. rename a into s1. rename E into E0.
  rewrite for_each_level_fold in E0.
  assert (only_levels_differ (set_player_state p' (ap_state w)) s1 ∧
          Forall2 level_kept (level_states (ap_state w)) (level_states s1))
    as [Hdiff Hlevels].
  { apply (fold_opt_inv_Some
      (λ _ st, only_levels_differ (set_player_state p' (ap_state w)) st ∧
               Forall2 level_kept (level_states (ap_state w)) (level_states st))
      _ _ _ _ E0).
    - split; [apply only_levels_differ_refl|]. simpl.
      apply Forall2_same_length_lookup_2; [done|]. intros i x y Hx Hy.
      assert (x = y) as -> by congruence. apply level_kept_refl.
    - intros done lv rest st st' _ [Hd Hk] Hupd.
      split; [by eapply only_levels_differ_upd|].
      eapply Forall2_trans; [apply level_kept_trans|exact Hk|].
      eapply upd_level_state_kept; [|exact Hupd].
      intros l l'. apply load_level_state_kept. }
  destruct Hdiff as [Hs1 _].
  do 5 bind_inv H. bind_inv H. rename E5 into Hv, z0 into victory'.
  injection H as <-. simpl.
  split; [by apply prefix_app_r|]. split; [apply union_subseteq_r|].
  rewrite Hs1. simpl. split; [|done].
  bind_inv Hv. rewrite Hs1 in Hv. simpl in Hv. by eapply json_get_bool_or_kept.
Qed.

(** ** Music shuffle in every mode *)

Lemma selected_levels_length en :
  catalog_small →
  Z.of_nat (length (selected_levels en)) ≤ ap_episode_count * max_map_count.
Proof.
  intros Hsmall.
  pose proof (level_slots_distinct (selected_levels en) Hsmall
                (NoDup_selected_levels _)
                (λ lv H, proj1 (selected_levels_catalog en lv H))) as Hnd.
  apply (NoDup_submseteq _ (seqZ 0 (ap_episode_count * max_map_count))) in Hnd.
  - apply submseteq_length in Hnd. rewrite length_fmap, length_seqZ in Hnd.
    destruct Hsmall as [Hfits _]. pose proof (ap_episode_count_fits Hfits).
    destruct max_map_count_bound as [? _]. nia.
  - intros k Hk. apply list_elem_of_fmap in Hk as (lv & -> & Hlv).
    apply selected_levels_catalog in Hlv as [Hlv _].
    destruct (catalog_level_bounds lv Hsmall Hlv) as (_ & _ & _ & Hi & Hr).
    rewrite Hi. apply elem_of_seqZ. lia.
Qed.

Lemma selected_levels_sublist (en1 en2 : Z → bool) :
  (∀ e, en1 e = true → en2 e = true) →
  selected_levels en1 `sublist_of` selected_levels en2.
Proof.
  intros Hen. unfold selected_levels. generalize (upto ap_episode_count).
  intros l. induction l as [|e l IH]; [done|]. simpl.
  apply sublist_app; [|exact IH].
  destruct (en1 e) eqn:H1; [by rewrite (Hen e H1)|apply sublist_nil_l].
Qed.

Lemma selected_levels_all en :
  (∀ e, en e = true) → selected_levels en = catalog_levels.
Proof.
  intros Hen. unfold selected_levels, catalog_levels.
  generalize (upto ap_episode_count).
  intros l. induction l as [|e l IH]; [done|].
  rewrite !bind_cons, Hen. by rewrite IH.
Qed.

Lemma collect_music_pool_levels s :
  catalog_small → state_sized s →
  ∃ pool, collect_music_pool s = Some pool ∧
          Forall2 (λ lv mu, level_music s lv = Some mu) (pool_levels s) pool.
Proof.
  intros Hsmall Hsized. unfold collect_music_pool.
  rewrite (for_each_selected_level_fold (λ _, True)
             (λ ep, episode_enabled s ep || bool_decide (random_music s = 2)));
    [|done| |done].
  2:{ intros e st He _. destruct (episode_read s e Hsized He) as (v & -> & ->).
      simpl. f_equal. apply eq_bool_prop_intro.
      rewrite orb_True, !bool_decide_spec. done. }
  destruct (fold_opt_inv
    (λ done pool, Forall2 (λ lv mu, level_music s lv = Some mu) done pool)
    (λ lv music_pool,
       l ← ap_get_level_state s {| idx_ep := lv.1; idx_map := lv.2 |};
       Some (music_pool ++ [music l]))
    (pool_levels s) []) as (pool & Hrun & Hpool).
  - constructor.
  - intros done lv rest pool Hl Hpool.
    assert (lv ∈ catalog_levels) as Hlv.
    { apply (selected_levels_catalog
               (λ ep, episode_enabled s ep || bool_decide (random_music s = 2))).
      fold (pool_levels s). rewrite Hl. apply elem_of_app. right. by left. }
    destruct (catalog_level_state s lv Hsmall Hsized Hlv) as [l0 Hl0].
    unfold level_idx in Hl0. rewrite Hl0. simpl.
    eexists. split; [done|]. apply Forall2_app; [done|].
    constructor; [|constructor]. unfold level_music, level_idx. by rewrite Hl0.
  - by exists pool.
Qed.

(** The shuffle loop over a pool that holds a track for every level it
    visits: every draw is defined, the tracks handed out and the tracks
    left over make up the pool, and no other level is written. *)
Lemma shuffle_loop_spec s g pool :
  catalog_small → state_sized s → (∀ g, 0 ≤ (rand g).1) →
  Z.of_nat (length pool) ≤ INT_MAX →
  (length (enabled_levels s) ≤ length pool)%nat →
  ∃ s' g' pool' assigned,
    fold_opt (λ lv, shuffle_music_level lv.1 lv.2) (enabled_levels s) (s, g, pool)
    = Some (s', g', pool') ∧
    only_levels_differ s s' ∧
    Forall2 (λ lv mu, level_music s' lv = Some mu) (enabled_levels s) assigned ∧
    assigned ++ pool' ≡ₚ pool ∧
    ∀ lv, lv ∈ catalog_levels → lv ∉ enabled_levels s →
          ap_get_level_state s' (level_idx lv) = ap_get_level_state s (level_idx lv).
Proof.
  intros Hsmall Hsized Hrand Hbound Hlen.
  pose proof (level_slots_distinct (enabled_levels s) Hsmall
                (NoDup_selected_levels _) (enabled_levels_catalog s)) as Hnd.
  destruct (fold_opt_inv
    (λ done (x : ap_state_t * rng_state * list Z),
       only_levels_differ s x.1.1 ∧
       (∃ ms, Forall2 (λ lv mu, level_music x.1.1 lv = Some mu) done ms ∧
              ms ++ x.2 ≡ₚ pool) ∧
       ∀ lv, lv ∈ catalog_levels → lv ∉ enabled_levels s →
             ap_get_level_state x.1.1 (level_idx lv)
             = ap_get_level_state s (level_idx lv))
    (λ lv, shuffle_music_level lv.1 lv.2)
    (enabled_levels s) (s, g, pool))
    as ([[s' g'] pool'] & Hrun & Hd' & (ms & Hms & Hperm) & Hother).
  - split; [apply only_levels_differ_refl|]. split; [|done].
    exists []. split; [constructor|done].
  - intros done lv rest [[st gx] px] Hl (Hd & (ms & Hms & Hperm) & Hother).
    simpl in *.
    assert (lv ∈ enabled_levels s) as Hen.
    { rewrite Hl. apply elem_of_app. right. by left. }
    pose proof (enabled_levels_catalog s lv Hen) as Hlv.
    apply only_levels_differ_fields in Hd as Hf.
    destruct Hf as (_ & _ & _ & Hsz). specialize (Hsz Hsized).
    pose proof (Forall2_length _ _ _ Hms) as Hlms.
    apply Permutation_length in Hperm as Hlp. rewrite length_app in Hlp.
    rewrite Hl, length_app in Hlen. simpl in Hlen.
    destruct (shuffle_music_level_spec lv st gx px Hrand)
      as (st' & gx' & mus & i & Hstep & Hi & Hupd).
    { lia. }
    { intros ->. simpl in Hlp. lia. }
    { by apply catalog_level_state. }
    eexists. split; [exact Hstep|]. simpl.
    split; [by eapply only_levels_differ_upd|]. split.
    + exists (ms ++ [mus]). split.
      * apply Forall2_app.
        -- apply Forall2_same_length_lookup in Hms as [Hsame Hlook].
           apply Forall2_same_length_lookup. split; [done|].
           intros k lv' mu Hk1 Hk2. unfold level_music. rewrite Hl in Hnd.
           rewrite (write_level_read_back (λ _ _, True) _ _ _ _ _ _ Hnd Hupd lv')
             by (by eapply list_elem_of_lookup_2).
           by eapply Hlook.
        -- constructor; [|constructor].
           apply upd_level_state_get in Hupd as (la & la' & _ & [= <-] & Hget).
           unfold level_music. by rewrite Hget.
      * rewrite <- app_assoc. simpl. rewrite <- Hperm.
        apply Permutation_app_head. symmetry. by apply delete_Permutation.
    + intros lv' Hlv' Hnot. rewrite <- (Hother lv' Hlv' Hnot).
      assert (lv' ≠ lv) as Hne by (by intros ->).
      pose proof (level_slots_distinct [lv'; lv] Hsmall) as Hnd2.
      eapply (write_level_read_back (λ _ _, True) [lv'] lv []); [|exact Hupd|by left].
      apply Hnd2.
      * apply NoDup_cons. split; [by rewrite list_elem_of_singleton|].
        apply NoDup_singleton.
      * intros x Hx. apply elem_of_cons in Hx as [->|Hx]; [done|].
        apply list_elem_of_singleton in Hx. by subst x.
  - exists s', g', pool', ms. by rewrite Hrun.
Qed.

(** The shuffle step in any mode above 0. *)
Lemma shuffle_music_step_levels s g :
  catalog_small → state_sized s → (∀ g, 0 ≤ (rand g).1) → 0 < random_music s →
  ∃ s' g' pool rest assigned,
    shuffle_music_step s g = Some (s', g') ∧
    only_levels_differ s s' ∧
    Forall2 (λ lv mu, level_music s lv = Some mu) (pool_levels s) pool ∧
    Forall2 (λ lv mu, level_music s' lv = Some mu) (enabled_levels s) assigned ∧
    assigned ++ rest ≡ₚ pool ∧
    ∀ lv, lv ∈ catalog_levels → lv ∉ enabled_levels s →
          ap_get_level_state s' (level_idx lv) = ap_get_level_state s (level_idx lv).
Proof.
  intros Hsmall Hsized Hrand Hmode.
  destruct (collect_music_pool_levels s Hsmall Hsized) as (pool & Hcollect & Hpool).
  unfold shuffle_music_step. rewrite decide_True by lia. rewrite Hcollect. simpl.
  rewrite (for_each_selected_level_fold
             (λ x : ap_state_t * rng_state * list Z, only_levels_differ s x.1.1)
             (episode_enabled s)); [|apply only_levels_differ_refl| |].
  2:{ intros e [[st gx] px] He Hd. simpl in Hd.
      apply only_levels_differ_fields in Hd as (Heps & _). rewrite Heps.
      destruct (episode_read s e Hsized He) as (v & -> & ->). done. }
  2:{ intros e m [[st gx] px] [[st' gx'] px'] Hd Hb. simpl in *.
      by eapply shuffle_music_level_differ. }
  pose proof (Forall2_length _ _ _ Hpool) as Hlen.
  pose proof (selected_levels_length
                (λ ep, episode_enabled s ep || bool_decide (random_music s = 2))
                Hsmall) as Hbound.
  fold (pool_levels s) in Hbound.
  assert (length (enabled_levels s) ≤ length (pool_levels s))%nat as Hsub.
  { apply sublist_length, selected_levels_sublist. intros e ->. done. }
  destruct Hsmall as [Hfits Hsm]. pose proof (ap_episode_count_fits Hfits) as Hcnt.
  destruct (shuffle_loop_spec s g pool (conj Hfits Hsm) Hsized Hrand)
    as (s' & g' & pool' & assigned & Hrun & Hd & Hassigned & Hperm & Hother).
  { rewrite Hcnt in Hbound. lia. }
  { lia. }
  fold (enabled_levels s). rewrite Hrun. simpl.
  by exists s', g', pool, pool', assigned.
Qed.

(** The randomisation of [apdoom_init] is defined in every mode. The
    tracks of the enabled levels come out of the pool, each track of the
    pool at most once, and the other levels keep their original track. *)
Lemma apdoom_init_randomize_music w :
  catalog_small → 0 < ap_episode_count → state_sized (ap_state w) →
  (∀ g, 0 ≤ (rand g).1) →
  (∀ lv, lv ∈ catalog_levels → is_Some (original_music lv)) →
  ∃ w' g',
    apdoom_init_randomize w = Some (w', g') ∧
    (∀ lv, lv ∈ catalog_levels →
       random_music (ap_state w) ≤ 0 ∨ lv ∉ enabled_levels (ap_state w') →
       level_music (ap_state w') lv = original_music lv) ∧
    (0 < random_music (ap_state w) →
     ∃ pool rest assigned,
       Forall2 (λ lv mu, original_music lv = Some mu)
               (selected_levels
                  (λ ep, episode_enabled (ap_state w') ep
                         || bool_decide (random_music (ap_state w) = 2))) pool ∧
       Forall2 (λ lv mu, level_music (ap_state w') lv = Some mu)
               (enabled_levels (ap_state w')) assigned ∧
       assigned ++ rest ≡ₚ pool).
Proof.
  intros Hsmall Hpos Hsized Hrand Horig. unfold apdoom_init_randomize.
  destruct (select_default_episode_spec _ Hsized Hpos) as (s0 & -> & _ & Hm0 & Hsz0).
  simpl.
  destruct (flip_levels_step_spec s0
              (srand (hash_seed (apdoom_get_seed w) `mod` 4294967296)) Hsmall Hsz0)
    as (s1 & g1 & -> & Hd1). simpl.
  apply only_levels_differ_fields in Hd1 as (He1 & Hm1 & _ & Hsz1).
  specialize (Hsz1 Hsz0).
  destruct (original_music_step_spec s1 Hsmall Hsz1 Horig) as (s2 & -> & Hd2 & Hmus2).
  simpl.
  apply only_levels_differ_fields in Hd2 as (He2 & Hm2 & _ & Hsz2).
  specialize (Hsz2 Hsz1).
  assert (random_music s2 = random_music (ap_state w)) as Hmode2 by congruence.
  destruct (decide (0 < random_music (ap_state w))) as [Hon|Hoff].
  - destruct (shuffle_music_step_levels s2 g1 Hsmall Hsz2 Hrand)
      as (s3 & g3 & pool & rest & assigned & -> & Hd3 & Hpool & Hassigned & Hperm
          & Hother); [lia|].
    simpl. apply only_levels_differ_fields in Hd3 as (He3 & _).
    exists (set_ap_state s3 w), g3. simpl.
    rewrite (enabled_levels_episodes s2 s3) by done.
    split; [done|]. split.
    + intros lv Hlv [Hle|Hnot]; [lia|].
      unfold level_music. rewrite (Hother lv Hlv Hnot). by apply Hmus2.
    + intros _. exists pool, rest, assigned. split; [|done].
      unfold pool_levels in Hpool. rewrite Hmode2 in Hpool.
      assert (episode_enabled s3 = episode_enabled s2) as ->.
      { unfold episode_enabled. by rewrite He3. }
      apply Forall2_same_length_lookup.
      apply Forall2_same_length_lookup in Hpool as [Hlen Hlook]. split; [done|].
      intros k lv mu Hk1 Hk2. rewrite <- Hmus2; [by eapply Hlook|].
      eapply selected_levels_catalog, list_elem_of_lookup_2. exact Hk1.
  - unfold shuffle_music_step. rewrite decide_False by lia. simpl.
    exists (set_ap_state s2 w), g1. simpl. split; [done|]. split; [|lia].
    intros lv Hlv _. by apply Hmus2.
Qed.

(** X13. In music-shuffle mode 2 the pool holds the original track of
    every level of the game, enabled or not. The initialisation is defined,
    every level of an enabled episode gets a track of that pool, no track
    of the pool is handed out more often than it occurs among the
    originals, and the levels of the other episodes keep their own. *)
Theorem music_shuffle_whole_game w :
  catalog_small → 0 < ap_episode_count → state_sized (ap_state w) →
  (∀ g, 0 ≤ (rand g).1) →
  (∀ lv, lv ∈ catalog_levels → is_Some (original_music lv)) →
  random_music (ap_state w) = 2 →
  ∃ w' g' originals assigned,
    apdoom_init_randomize w = Some (w', g') ∧
    mapM original_music catalog_levels = Some originals ∧
    mapM (level_music (ap_state w')) (enabled_levels (ap_state w')) = Some assigned ∧
    assigned ⊆+ originals ∧
    ∀ lv, lv ∈ catalog_levels → lv ∉ enabled_levels (ap_state w') →
          level_music (ap_state w') lv = original_music lv.
Proof.
  intros Hsmall Hpos Hsized Hrand Horig Hmode.
  destruct (apdoom_init_randomize_music w Hsmall Hpos Hsized Hrand Horig)
    as (w' & g' & Hrun & Hkeep & Hshuffle).
  destruct Hshuffle as (pool & rest & assigned & Hpool & Hassigned & Hperm); [lia|].
  rewrite selected_levels_all in Hpool.
  2:{ intros e. rewrite Hmode. rewrite bool_decide_true by done. apply orb_true_r. }
  exists w', g', pool, assigned. split; [done|].
  split; [by apply mapM_Some|]. split; [by apply mapM_Some|]. split.
  - rewrite <- Hperm. by apply submseteq_inserts_r.
  - intros lv Hlv Hnot. apply Hkeep; [done|by right].
Qed.

(** X14. The initialisation is defined in every music mode: the pool
    never runs out during the shuffle. With the shuffle off every level of
    the catalog plays its original track, and with the shuffle on the
    levels of the episodes that are not enabled still do. *)
Theorem music_outside_the_shuffle w :
  catalog_small → 0 < ap_episode_count → state_sized (ap_state w) →
  (∀ g, 0 ≤ (rand g).1) →
  (∀ lv, lv ∈ catalog_levels → is_Some (original_music lv)) →
  ∃ w' g',
    apdoom_init_randomize w = Some (w', g') ∧
    ∀ lv, lv ∈ catalog_levels →
      random_music (ap_state w) ≤ 0 ∨ lv ∉ enabled_levels (ap_state w') →
      level_music (ap_state w') lv = original_music lv.
Proof.
  intros Hsmall Hpos Hsized Hrand Horig.
  destruct (apdoom_init_randomize_music w Hsmall Hpos Hsized Hrand Horig)
    as (w' & g' & Hrun & Hkeep & _).
  by exists w', g'.
Qed.

(** ** The steps of the randomisation, one after the other *)

Lemma apdoom_init_randomize_steps w :
  catalog_small → 0 < ap_episode_count → state_sized (ap_state w) →
  (∀ g, 0 ≤ (rand g).1) →
  (∀ lv, lv ∈ catalog_levels → is_Some (original_music lv)) →
  ∃ s0 s1 g1 s2 s3 g3,
    select_default_episode (ap_state w) = Some s0 ∧
    flip_levels_step s0 (srand (hash_seed (apdoom_get_seed w) `mod` 4294967296))
    = Some (s1, g1) ∧
    original_music_step s1 = Some s2 ∧
    shuffle_music_step s2 g1 = Some (s3, g3) ∧
    apdoom_init_randomize w = Some (set_ap_state s3 w, g3) ∧
    state_sized s0 ∧ only_levels_differ s0 s3.
Proof.
  intros Hsmall Hpos Hsized Hrand Horig.
  destruct (apdoom_init_randomize_music w Hsmall Hpos Hsized Hrand Horig)
    as (w' & g' & Hrun & _).
  unfold apdoom_init_randomize in *.
  destruct (select_default_episode_spec _ Hsized Hpos) as (s0 & Hs0 & _ & _ & Hsz0).
  rewrite Hs0 in *. simpl in *.
  destruct (flip_levels_step_spec s0
              (srand (hash_seed (apdoom_get_seed w) `mod` 4294967296)) Hsmall Hsz0)
    as (s1 & g1 & Hs1 & Hd1).
  rewrite Hs1 in *. simpl in *.
  destruct (original_music_step s1) as [s2|] eqn:Hs2; [|done]. simpl in *.
  destruct (shuffle_music_step s2 g1) as [[s3 g3]|] eqn:Hs3; [|done]. simpl in *.
  exists s0, s1, g1, s2, s3, g3. do 5 (split; [done|]). split; [done|].
  assert (only_levels_differ s1 s2) as Hd2.
  { unfold original_music_step in Hs2. rewrite for_each_level_fold in Hs2.
    apply (fold_opt_inv_Some (λ _ st, only_levels_differ s1 st) _ _ _ _ Hs2);
      [apply only_levels_differ_refl|].
    intros done lv rest st st' _ Hd Hf.
    destruct (get_original_music_for_level _ _) as [mu|]; [|done]. simpl in Hf.
    by eapply only_levels_differ_upd. }
  assert (only_levels_differ s2 s3) as Hd3.
  { apply only_levels_differ_fields in Hd1 as Hf1. destruct Hf1 as (_ & _ & _ & Hz1).
    apply only_levels_differ_fields in Hd2 as Hf2. destruct Hf2 as (_ & _ & _ & Hz2).
    destruct (decide (0 < random_music s2)) as [Hon|Hoff].
    - destruct (shuffle_music_step_levels s2 g1 Hsmall (Hz2 (Hz1 Hsz0)) Hrand Hon)
        as (s3' & g3' & _ & _ & _ & Hs3' & Hd3 & _).
      by assert (s3' = s3) as <- by congruence.
    - unfold shuffle_music_step in Hs3. rewrite decide_False in Hs3 by lia.
      injection Hs3 as <- <-. apply only_levels_differ_refl. }
  destruct Hd1 as [E1 L1], Hd2 as [E2 L2], Hd3 as [E3 L3].
  split; [|congruence]. rewrite E3, E2, E1. by destruct s0.
Qed.

(** ** Level flips *)

Lemma flip_all_levels s s1 :
  catalog_small →
  for_each_level (λ ep map s,
      upd_level_state {| idx_ep := ep; idx_map := map |}
        (λ l, Some (set_flipped 1 l)) s) s = Some s1 →
  ∀ lv, lv ∈ catalog_levels →
    flipped <$> ap_get_level_state s1 (level_idx lv) = Some 1.
Proof.
  intros Hsmall H. rewrite for_each_level_fold in H.
  pose proof (level_slots_distinct catalog_levels Hsmall NoDup_catalog_levels
                (λ _ H, H)) as Hnd.
  apply (fold_opt_inv_Some
           (λ done st, ∀ lv, lv ∈ done →
              flipped <$> ap_get_level_state st (level_idx lv) = Some 1)
           _ _ _ _ H).
  - intros lv Hlv. by apply elem_of_nil in Hlv.
  - intros done lv rest st st' Hl Hdone Hupd lv' Hlv'.
    apply elem_of_app in Hlv' as [Hold|Hnew].
    + rewrite Hl in Hnd.
      rewrite (write_level_read_back (λ _ _, True) _ _ _ _ _ _ Hnd Hupd lv' Hold).
      by apply Hdone.
    + apply list_elem_of_singleton in Hnew. subst lv'.
      apply upd_level_state_get in Hupd as (la & la' & _ & [= <-] & Hget).
      unfold level_idx. by rewrite Hget.
Qed.

Lemma flip_random_levels s g s1 g1 :
  catalog_small → (∀ g, 0 ≤ (rand g).1) →
  for_each_level (λ ep map '(s, g),
      let '(r, g) := rand g in
      s ← upd_level_state {| idx_ep := ep; idx_map := map |}
             (λ l, Some (set_flipped (r `rem` 2) l)) s;
      Some (s, g)) (s, g) = Some (s1, g1) →
  ∀ lv, lv ∈ catalog_levels →
    flipped <$> ap_get_level_state s1 (level_idx lv) = Some 0 ∨
    flipped <$> ap_get_level_state s1 (level_idx lv) = Some 1.
Proof.
  intros Hsmall Hrand H. rewrite for_each_level_fold in H.
  pose proof (level_slots_distinct catalog_levels Hsmall NoDup_catalog_levels
                (λ _ H, H)) as Hnd.
  apply (fold_opt_inv_Some
           (λ done (x : ap_state_t * rng_state), ∀ lv, lv ∈ done →
              flipped <$> ap_get_level_state x.1 (level_idx lv) = Some 0 ∨
              flipped <$> ap_get_level_state x.1 (level_idx lv) = Some 1)
           _ _ _ _ H).
  - intros lv Hlv. by apply elem_of_nil in Hlv.
  - intros done lv rest [st gx] [st' gx'] Hl Hdone Hstep lv' Hlv'. simpl in *.
    pose proof (Hrand gx) as Hr. destruct (rand gx) as [r gn]. simpl in Hr.
    destruct (upd_level_state _ _ st) as [st1|] eqn:Hupd; [|done].
    simpl in Hstep. injection Hstep as <- <-.
    apply elem_of_app in Hlv' as [Hold|Hnew].
    + rewrite Hl in Hnd.
      rewrite (write_level_read_back (λ _ _, True) _ _ _ _ _ _ Hnd Hupd lv' Hold).
      by apply Hdone.
    + apply list_elem_of_singleton in Hnew. subst lv'.
      apply upd_level_state_get in Hupd as (la & la' & _ & [= <-] & Hget).
      unfold level_idx. rewrite Hget. simpl.
      pose proof (Z.rem_bound_pos r 2 Hr ltac:(lia)) as Hb.
      destruct (decide (r `rem` 2 = 0)) as [->|Hne]; [by left|].
      right. f_equal. lia.
Qed.

(** X15. The level flips of the initialisation, by mode. In mode 1 every
    level of the catalog ends flipped; in mode 2 every level of the catalog
    ends with a flag that is 0 or 1; in any other mode the flip flag of
    every level is what it was. *)
Theorem level_flips_by_mode w :
  catalog_small → 0 < ap_episode_count → state_sized (ap_state w) →
  (∀ g, 0 ≤ (rand g).1) →
  (∀ lv, lv ∈ catalog_levels → is_Some (original_music lv)) →
  ∃ w' g',
    apdoom_init_randomize w = Some (w', g') ∧
    (flip_levels (ap_state w) = 1 →
     ∀ lv, lv ∈ catalog_levels →
       flipped <$> ap_get_level_state (ap_state w') (level_idx lv) = Some 1) ∧
    (flip_levels (ap_state w) = 2 →
     ∀ lv, lv ∈ catalog_levels →
       flipped <$> ap_get_level_state (ap_state w') (level_idx lv) = Some 0 ∨
       flipped <$> ap_get_level_state (ap_state w') (level_idx lv) = Some 1) ∧
    (flip_levels (ap_state w) ≠ 1 → flip_levels (ap_state w) ≠ 2 →
     ∀ idx, flipped <$> ap_get_level_state (ap_state w') idx
            = flipped <$> ap_get_level_state (ap_state w) idx).
Proof.
  intros Hsmall Hpos Hsized Hrand Horig.
  destruct (apdoom_init_randomize_steps w Hsmall Hpos Hsized Hrand Horig)
    as (s0 & s1 & g1 & s2 & s3 & g3 & Hs0 & Hs1 & Hs2 & Hs3 & Hrun & _).
  exists (set_ap_state s3 w), g3. split; [done|]. simpl.
  apply select_default_episode_frame in Hs0 as [Hmode Hlevels].
  assert (∀ idx, flipped <$> ap_get_level_state s3 idx
                 = flipped <$> ap_get_level_state s1 idx) as Hkeep.
  { intros idx. rewrite (shuffle_music_step_flipped _ _ _ _ _ Hs3).
    by rewrite (original_music_step_flipped _ _ _ Hs2). }
  unfold flip_levels_step in Hs1. rewrite Hmode in Hs1.
  split; [|split].
  - intros H1 lv Hlv. rewrite Hkeep. rewrite decide_True in Hs1 by done.
    destruct (for_each_level _ s0) as [s1'|] eqn:Hl; [|done].
    simpl in Hs1. injection Hs1 as -> <-. by eapply flip_all_levels.
  - intros H2 lv Hlv. rewrite !Hkeep.
    rewrite decide_False in Hs1 by lia. rewrite decide_True in Hs1 by done.
    by eapply flip_random_levels.
  - intros H1 H2 idx. rewrite Hkeep. rewrite !decide_False in Hs1 by done.
    injection Hs1 as <- <-. unfold ap_get_level_state. by rewrite Hlevels.
Qed.

(** ** The default episode *)

Lemma select_default_episode_episodes s :
  catalog_fits → state_sized s → 0 < ap_episode_count →
  ∃ s0, select_default_episode s = Some s0 ∧
        ((∀ i, episode_enabled s i = false) →
         episodes s0 = <[0%nat := 1]> (episodes s)) ∧
        ((∃ i, episode_enabled s i = true) → s0 = s).
Proof.
  intros Hfits [Hls Heps] Hpos. unfold select_default_episode.
  pose proof (ap_episode_count_fits Hfits) as Hcnt. destruct Hfits as [Hfit _].
  destruct (for_upto_inv
              (λ j c, 0 ≤ c ≤ j ∧
                      (c = 0 ↔ ∀ i, 0 ≤ i < j → episode_enabled s i = false))
              ap_episode_count
              (λ i ep_count,
                 e ← arr_get (episodes s) i;
                 Some (if decide (e ≠ 0) then int_add ep_count 1 else ep_count)) 0)
    as (n & -> & Hn & Hzero); [lia| | |].
  { split; [lia|]. split; [intros _ i Hi; lia|done]. }
  { intros j c Hj [Hc Hz]. unfold episode_enabled in *.
    destruct (arr_get_in_range (episodes s) j) as [e He]; [lia|].
    rewrite He. simpl. eexists. split; [done|].
    case_decide as Hnz.
    - unfold int_add. rewrite wrap_int_id by (unfold in_int, INT_MIN; lia).
      split; [lia|]. split; [lia|]. intros Hall.
      specialize (Hall j ltac:(lia)). rewrite He in Hall.
      by rewrite bool_decide_true in Hall.
    - split; [lia|]. rewrite Hz. split.
      + intros Hall i Hi. destruct (decide (i = j)) as [->|Hne].
        * rewrite He. apply bool_decide_eq_false. intros H'. by apply H'.
        * apply Hall. lia.
      + intros Hall i Hi. apply Hall. lia. }
  simpl. case_decide as Hc.
  - rewrite arr_set_in_range by lia. simpl. eexists. split; [done|].
    split; [done|]. intros [i Hi]. pose proof Hi as Hi'.
    unfold episode_enabled in Hi'.
    destruct (arr_get (episodes s) i) as [e|] eqn:He; [|done].
    apply arr_get_Some in He as [Hlo He]. apply lookup_lt_Some in He.
    rewrite (proj1 Hzero Hc i) in Hi by lia. done.
  - exists s. split; [done|]. split; [|done]. intros Hall. destruct Hc.
    apply Hzero. intros i _. apply Hall.
Qed.

Lemma episode_enabled_cases s :
  (∀ i, episode_enabled s i = false) ∨ (∃ i, episode_enabled s i = true).
Proof.
  destruct (decide (Forall (λ e, e = 0) (episodes s))) as [Hall|Hex].
  - left. intros i. unfold episode_enabled.
    destruct (arr_get (episodes s) i) as [e|] eqn:He; [|done].
    apply arr_get_Some in He as [_ He].
    rewrite (Forall_lookup_1 _ _ _ _ Hall He). apply bool_decide_eq_false.
    intros H. by apply H.
  - right. apply not_Forall_Exists in Hex; [|apply _].
    apply Exists_exists in Hex as (e & He & Hne).
    apply list_elem_of_lookup in He as [k Hk]. exists (Z.of_nat k).
    unfold episode_enabled. rewrite arr_get_nonneg by lia.
    rewrite Nat2Z.id, Hk. by apply bool_decide_eq_true.
Qed.

(** X16. The initialisation leaves at least one episode enabled: when
    none is enabled on entry it enables the first one and no other, and
    when one is enabled it leaves the episode flags as they are. *)
Theorem default_episode_selected w :
  catalog_small → 0 < ap_episode_count → state_sized (ap_state w) →
  (∀ g, 0 ≤ (rand g).1) →
  (∀ lv, lv ∈ catalog_levels → is_Some (original_music lv)) →
  ∃ w' g',
    apdoom_init_randomize w = Some (w', g') ∧
    ((∀ i, episode_enabled (ap_state w) i = false) →
     episodes (ap_state w') = <[0%nat := 1]> (episodes (ap_state w))) ∧
    ((∃ i, episode_enabled (ap_state w) i = true) →
     episodes (ap_state w') = episodes (ap_state w)) ∧
    ∃ i, episode_enabled (ap_state w') i = true.
Proof.
  intros Hsmall Hpos Hsized Hrand Horig.
  destruct (apdoom_init_randomize_steps w Hsmall Hpos Hsized Hrand Horig)
    as (s0 & s1 & g1 & s2 & s3 & g3 & Hs0 & _ & _ & _ & Hrun & _ & Hd).
  apply only_levels_differ_fields in Hd as (Heps & _).
  destruct (select_default_episode_episodes (ap_state w) (proj1 Hsmall) Hsized Hpos)
    as (s0' & Hs0' & Hnone & Hsome).
  assert (s0' = s0) as -> by congruence.
  exists (set_ap_state s3 w), g3. split; [done|]. simpl. rewrite Heps.
  split; [done|]. split; [by intros H; rewrite (Hsome H)|].
  destruct (episode_enabled_cases (ap_state w)) as [Hno|Hex].
  - exists 0. unfold episode_enabled. rewrite Heps, Hnone by done.
    destruct Hsized as [_ Hlen]. unfold arr_get. rewrite decide_True by lia.
    rewrite list_lookup_insert_eq by lia. done.
  - destruct Hex as [i Hi]. exists i. unfold episode_enabled in *.
    rewrite Heps. by rewrite (Hsome (ex_intro _ i Hi)).
Qed.

(** ** No call takes progress away *)

Lemma Forall2_diag_refl {A} (R : A → A → Prop) l : (∀ x, R x x) → Forall2 R l l.
Proof. intros HR. induction l; by constructor. Qed.

Lemma level_progress_refl l : level_progress l l.
Proof.
  split; [apply flag_kept_refl|].
  split; [apply Forall2_diag_refl, flag_kept_refl|].
  do 2 (split; [apply flag_kept_refl|]). by do 4 (split; [done|]).
Qed.

Lemma level_progress_trans l1 l2 l3 :
  level_progress l1 l2 → level_progress l2 l3 → level_progress l1 l3.
Proof.
  intros (H1 & H2 & H3 & H4 & H5 & H6 & H7 & H8 & H9)
    (K1 & K2 & K3 & K4 & K5 & K6 & K7 & K8 & K9).
  split; [by eapply flag_kept_trans|].
  split; [eapply Forall2_trans; [|done|done]; apply flag_kept_trans|].
  do 2 (split; [by eapply flag_kept_trans|]).
  do 4 (split; [congruence|]). by etrans.
Qed.

Lemma state_progress_refl s : state_progress s s.
Proof.
  split; [apply flag_kept_refl|].
  split; [apply Forall2_diag_refl, flag_kept_refl|].
  apply Forall2_diag_refl, level_progress_refl.
Qed.

Lemma state_progress_trans s1 s2 s3 :
  state_progress s1 s2 → state_progress s2 s3 → state_progress s1 s3.
Proof.
  intros (H1 & H2 & H3) (K1 & K2 & K3). split; [by eapply flag_kept_trans|].
  split.
  - eapply Forall2_trans; [|done|done]. apply flag_kept_trans.
  - eapply Forall2_trans; [|done|done]. apply level_progress_trans.
Qed.

Lemma state_progress_same s s' :
  victory s' = victory s →
  weapon_owned (player_state s') = weapon_owned (player_state s) →
  level_states s' = level_states s →
  state_progress s s'.
Proof.
  intros Hv Hw Hl. unfold state_progress. rewrite Hv, Hw, Hl.
  apply state_progress_refl.
Qed.

Lemma state_progress_checks s s' :
  state_progress s s' → checks_allocated s → checks_allocated s'.
Proof.
  intros (_ & _ & Hl) Hs. unfold checks_allocated in *.
  apply Forall_lookup_2. intros i l' Hl'.
  destruct (Forall2_lookup_r _ _ _ _ _ Hl Hl') as (l & Hi & Hp).
  destruct Hp as (_ & _ & _ & _ & _ & _ & _ & Hlen & _). rewrite Hlen.
  exact (Forall_lookup_1 _ _ _ _ Hs Hi).
Qed.

Lemma upd_level_state_progress idx f s s' :
  (∀ l l', ap_get_level_state s idx = Some l → f l = Some l' →
           level_progress l l') →
  upd_level_state idx f s = Some s' → state_progress s s'.
Proof.
  intros Hf H. apply upd_level_state_Some in H as (l & l' & Hl & Hfl & ->).
  split; [apply flag_kept_refl|].
  split; [apply Forall2_diag_refl, flag_kept_refl|]. simpl.
  pose proof (Hf l l' Hl Hfl) as Hp.
  unfold ap_get_level_state in Hl. apply arr_get_Some in Hl as [_ Hl].
  rewrite <- (list_insert_id (level_states s) _ l Hl) at 1.
  apply Forall2_insert; [|done]. apply Forall2_diag_refl, level_progress_refl.
Qed.

Lemma inc_capacity_upgrade_frame i s s' :
  inc_capacity_upgrade i s = Some s' →
  victory s' = victory s ∧
  weapon_owned (player_state s') = weapon_owned (player_state s) ∧
  level_states s' = level_states s.
Proof.
  unfold inc_capacity_upgrade. intros H. do 2 bind_inv H. by injection H as <-.
Qed.

Lemma recalc_max_ammo_frame s s' :
  recalc_max_ammo s = Some s' →
  victory s' = victory s ∧
  weapon_owned (player_state s') = weapon_owned (player_state s) ∧
  level_states s' = level_states s.
Proof.
  unfold recalc_max_ammo, for_upto. intros H.
  eapply (for_loop_preserves
            (λ st, victory st = victory s ∧
                   weapon_owned (player_state st) = weapon_owned (player_state s) ∧
                   level_states st = level_states s)); [|exact H|done].
  intros j st st' Hb (Hv & Hw & Hl). cbv beta in Hb. do 4 bind_inv Hb.
  by injection Hb as <-.
Qed.

Lemma recv_backpack_progress item s s' :
  recv_backpack item s = Some s' → state_progress s s'.
Proof.
  unfold recv_backpack. case_decide as Hty; [|intros [= <-]; apply state_progress_refl].
  intros H. bind_inv H. apply recalc_max_ammo_frame in H as (Hv & Hw & Hl).
  unfold for_upto in E.
  apply (for_loop_preserves
           (λ st, victory st = victory s ∧
                  weapon_owned (player_state st) = weapon_owned (player_state s) ∧
                  level_states st = level_states s)) in E as (Hv' & Hw' & Hl');
    [|intros j st st' Hb (? & ? & ?);
      apply inc_capacity_upgrade_frame in Hb as (? & ? & ?);
      repeat split; congruence|done].
  apply state_progress_same; congruence.
Qed.

Lemma recv_ammo_upgrade_progress item s s' :
  recv_ammo_upgrade item s = Some s' → state_progress s s'.
Proof.
  unfold recv_ammo_upgrade.
  case_decide as Hty; [|intros [= <-]; apply state_progress_refl].
  cbv zeta. intros H. bind_inv H.
  apply recalc_max_ammo_frame in H as (Hv & Hw & Hl).
  case_decide as Hnum.
  - apply inc_capacity_upgrade_frame in E as (? & ? & ?).
    apply state_progress_same; congruence.
  - injection E as <-. by apply state_progress_same.
Qed.

Lemma Forall2_flag_kept_raise a i a' :
  arr_set a i 1 = Some a' → Forall2 flag_kept a a'.
Proof.
  intros H. destruct (arr_get a i) as [old|] eqn:Hold.
  - eapply Forall2_flag_kept_set; [|exact Hold| |exact H].
    + apply Forall2_diag_refl, flag_kept_refl.
    + by intros _.
  - apply arr_set_Some in H as [Hi _]. apply arr_get_None in Hold. lia.
Qed.

Lemma recv_key_progress item s s' :
  recv_key item s = Some s' → state_progress s s'.
Proof.
  unfold recv_key. destruct (get_keys_map !! _) as [k|];
    [|intros [= <-]; apply state_progress_refl].
  apply upd_level_state_progress. intros l l' _ H. bind_inv H. injection H as <-.
  pose proof (level_progress_refl l) as (? & ? & ? & ? & ? & ? & ? & ? & ?).
  repeat split; try done. simpl. by eapply Forall2_flag_kept_raise.
Qed.

Lemma recv_weapon_progress item s s' :
  recv_weapon item s = Some s' → state_progress s s'.
Proof.
  unfold recv_weapon. destruct (get_weapons_map !! _) as [wp|];
    [|intros [= <-]; apply state_progress_refl].
  intros H. bind_inv H. injection H as <-.
  split; [apply flag_kept_refl|]. simpl.
  split; [by eapply Forall2_flag_kept_raise|].
  apply Forall2_diag_refl, level_progress_refl.
Qed.

Lemma set_flag_progress (set : Z → ap_level_state_t → ap_level_state_t) idx s s' :
  (∀ l, level_progress l (set 1 l)) →
  upd_level_state idx (λ l, Some (set 1 l)) s = Some s' → state_progress s s'.
Proof.
  intros Hset. apply upd_level_state_progress. intros l l' _ [= <-]. apply Hset.
Qed.

Lemma set_has_map_progress l : level_progress l (set_has_map 1 l).
Proof.
  pose proof (level_progress_refl l) as (? & ? & ? & ? & ? & ? & ? & ? & ?).
  by repeat split.
Qed.

Lemma set_unlocked_progress l : level_progress l (set_unlocked 1 l).
Proof.
  pose proof (level_progress_refl l) as (? & ? & ? & ? & ? & ? & ? & ? & ?).
  by repeat split.
Qed.

Lemma set_completed_progress l : level_progress l (set_completed 1 l).
Proof.
  pose proof (level_progress_refl l) as (? & ? & ? & ? & ? & ? & ? & ? & ?).
  by repeat split.
Qed.

Lemma recv_state_progress item s s' :
  recv_state item s = Some s' → state_progress s s'.
Proof.
  unfold recv_state. intros H. do 6 bind_inv H.
  apply recv_backpack_progress in E. apply recv_ammo_upgrade_progress in E0.
  apply recv_key_progress in E1. apply recv_weapon_progress in E2.
  assert (state_progress a2 a3) as E3'.
  { unfold recv_map in E3. case_decide; [|injection E3 as <-; apply state_progress_refl].
    eapply (set_flag_progress set_has_map); [apply set_has_map_progress|exact E3]. }
  assert (state_progress a3 a4) as E4'.
  { unfold recv_unlock in E4.
    case_decide; [|injection E4 as <-; apply state_progress_refl].
    eapply (set_flag_progress set_unlocked); [apply set_unlocked_progress|exact E4]. }
  assert (state_progress a4 s') as E5'.
  { unfold recv_complete in H.
    case_decide; [|injection H as <-; apply state_progress_refl].
    eapply (set_flag_progress set_completed); [apply set_completed_progress|exact H]. }
  repeat (eapply state_progress_trans; [eassumption|]). apply state_progress_refl.
Qed.

Lemma record_check_progress idx index s s' :
  checks_allocated s → record_check idx index s = Some s' → state_progress s s'.
Proof.
  intros Halloc. unfold record_check. intros H. bind_inv H.
  match type of H with
  | (if ?c then _ else _) = _ =>
      destruct c; [injection H as <-; apply state_progress_refl|]
  end.
  case_decide; [injection H as <-; apply state_progress_refl|].
  eapply upd_level_state_progress; [|exact H].
  intros l l' Hl Hf. bind_inv Hf. injection Hf as <-.
  apply arr_set_Some in E0 as [Hcc ->].
  unfold ap_get_level_state in Hl. apply arr_get_Some in Hl as [_ Hl].
  pose proof (Forall_lookup_1 _ _ _ _ Halloc Hl) as Hlen. simpl in Hlen.
  pose proof (level_progress_refl l) as (? & ? & ? & ? & ? & ? & ? & ? & ?).
  repeat split; try done.
  - simpl. by rewrite length_insert.
  - rewrite checked_list_append; [by apply prefix_app_r|lia|].
    unfold AP_CHECK_MAX, INT_MAX in *. lia.
Qed.

Lemma session_untouched_progress w w' :
  session_untouched w w' →
  state_progress (ap_state w) (ap_state w') ∧
  ap_progressive_locations w ⊆ ap_progressive_locations w'.
Proof. intros [-> ->]. split; [apply state_progress_refl|done]. Qed.

Lemma session_untouched_trans w1 w2 w3 :
  session_untouched w1 w2 → session_untouched w2 w3 → session_untouched w1 w3.
Proof. intros [H1 H2] [K1 K2]. split; congruence. Qed.

Lemma process_received_item_untouched item_id w w' :
  process_received_item item_id w = Some w' → session_untouched w w'.
Proof.
  unfold process_received_item. intros H.
  destruct (get_item_type_table !! item_id) as [item|]; [|by injection H as <-].
  destruct (decide (item_ep item ≠ -1)); simpl in H.
  - destruct (ap_get_level_info _); [|done]. simpl in H.
    destruct (get_sprites !! _); by injection H as <-.
  - destruct (get_sprites !! _); by injection H as <-.
Qed.

Lemma apdoom_check_location_untouched idx index w w' :
  apdoom_check_location idx index w = Some w' → session_untouched w w'.
Proof.
  unfold apdoom_check_location. intros H.
  destruct (assoc_find _ get_location_table) as [t1|]; [|by injection H as <-].
  destruct (assoc_find _ t1) as [t2|]; [|by injection H as <-].
  destruct (assoc_find _ t2) as [id|]; [|by injection H as <-].
  bind_inv H. by injection H as <-.
Qed.

Lemma handle_messages_untouched pending w :
  session_untouched w (handle_messages pending w).
Proof.
  unfold handle_messages. revert w.
  induction pending as [|m ms IH]; intros w; [done|]. simpl.
  eapply session_untouched_trans; [|apply IH]. by destruct (ap_initialized w).
Qed.

Lemma flush_cached_messages_untouched w :
  session_untouched w (flush_cached_messages w).
Proof.
  unfold flush_cached_messages. destruct (ap_initialized w); [|done].
  generalize (ap_cached_messages w). intros ms.
  assert (∀ w0, session_untouched w0 (foldl (λ w m, emit (Ev_message m) w) w0 ms))
    as Hms.
  { induction ms as [|m ms IH]; intros w0; [done|]. simpl.
    eapply session_untouched_trans; [|apply IH]. done. }
  destruct (Hms w) as [H1 H2]. by split.
Qed.

Lemma dequeue_items_untouched queue w w' :
  dequeue_items queue w = Some w' → session_untouched w w'.
Proof.
  revert w. induction queue as [|item_id rest IH]; intros w H; simpl in H.
  - by injection H as <-.
  - bind_inv H. apply process_received_item_untouched in E.
    eapply session_untouched_trans; [|by apply IH].
    destruct E as [E1 E2]. by split.
Qed.

Lemma apdoom_update_untouched pending w w' :
  apdoom_update pending w = Some w' → session_untouched w w'.
Proof.
  unfold apdoom_update. cbv zeta. intros H. bind_inv_as H a. injection H as <-.
  eapply session_untouched_trans; [apply flush_cached_messages_untouched|].
  eapply session_untouched_trans; [apply handle_messages_untouched|].
  assert (session_untouched (handle_messages pending (flush_cached_messages w)) a)
    as [H1 H2].
  { case_decide; [by eapply dequeue_items_untouched|by injection E as <-]. }
  by split.
Qed.

Lemma f_locinfo_state loc_infos w : ap_state (f_locinfo loc_infos w) = ap_state w.
Proof.
  unfold f_locinfo. revert w.
  induction loc_infos as [|loc_info loc_infos IH]; intros w; [done|]. simpl.
  rewrite IH. by case_decide.
Qed.

Lemma do_call_progress c w w' :
  checks_allocated (ap_state w) → do_call c w = Some w' →
  state_progress (ap_state w) (ap_state w') ∧
  ap_progressive_locations w ⊆ ap_progressive_locations w'.
Proof.
  intros Halloc H. destruct c; simpl in H.
  - unfold f_itemrecv in H.
    destruct (get_item_type_table !! item_id) as [item|];
      [|injection H as <-; split; [apply state_progress_refl|done]].
    bind_inv H. apply recv_state_progress in E. cbv zeta in H.
    destruct notify_player; simpl in H.
    + case_decide.
      * injection H as <-. by split.
      * apply process_received_item_untouched in H as [-> ->]. by split.
    + injection H as <-. by split.
  - unfold f_locrecv in H. destruct (find_location loc_id) as [[] [[ep map] index]].
    + bind_inv H. injection H as <-. simpl. split; [|done].
      by eapply record_check_progress.
    + injection H as <-. split; [apply state_progress_refl|done].
  - injection H as <-. rewrite f_locinfo_state.
    split; [apply state_progress_refl|].
    intros id Hid. apply f_locinfo_locations. by left.
  - by eapply session_untouched_progress, apdoom_check_location_untouched.
  - unfold apdoom_complete_level in H. bind_inv H.
    apply apdoom_check_location_untouched in H as [-> ->]. simpl. split; [|done].
    eapply (set_flag_progress set_completed); [apply set_completed_progress|exact E].
  - unfold apdoom_check_victory in H.
    case_decide; [injection H as <-; split; [apply state_progress_refl|done]|].
    bind_inv H.
    match type of H with
    | (if ?c then _ else _) = _ =>
        destruct c; injection H as <-; [|split; [apply state_progress_refl|done]]
    end.
    simpl. split; [|done]. split; [by intros _|].
    split; [apply Forall2_diag_refl, flag_kept_refl|].
    apply Forall2_diag_refl, level_progress_refl.
  - by eapply session_untouched_progress, apdoom_update_untouched.
  - injection H as <-. split; [apply state_progress_refl|done].
Qed.

(** X17. A run of calls in which every call is defined takes no progress
    away. [run cs w = Some w'] says that no call of the run subscripts an
    array out of range; in particular no level is sent a new check when the
    [AP_CHECK_MAX] slots of its list are full, where [f_locrecv], which has
    no bound test, writes past the list. After such a run of item,
    location, completion, victory and update calls, from a session whose
    check lists have their [AP_CHECK_MAX] slots, the victory flag is still
    set if it was, no weapon is lost, no level has lost a key, its map, its
    unlock or its completion, the checks recorded for it are still there in
    the same order, its flip and its music are what they were, and every
    progression location is still known. *)
Theorem run_never_loses_progress cs w w' :
  checks_allocated (ap_state w) →
  run cs w = Some w' →
  state_progress (ap_state w) (ap_state w') ∧
  ap_progressive_locations w ⊆ ap_progressive_locations w'.
Proof.
  revert w. induction cs as [|c cs IH]; intros w Halloc H; simpl in H.
  - injection H as <-. split; [apply state_progress_refl|done].
  - bind_inv_as H a. destruct (do_call_progress c w a Halloc E) as [Hp Hl].
    destruct (IH a (state_progress_checks _ _ Hp Halloc) H) as [Hp' Hl'].
    split; [by eapply state_progress_trans|]. by etrans.
Qed.

(** ** The level part of a level name *)

Lemma find_first_of_split c s pos :
  find_first_of c s = Some pos →
  ∃ pre rest, s = (pre ++ String c rest)%string ∧
              substr_from pos s = String c rest ∧
              find_first_of c pre = None.
Proof.
  revert pos. induction s as [|c' s IH]; intros pos H; simpl in H; [done|].
  case_decide as Hc.
  - injection H as <-. subst c'. by exists EmptyString, s.
  - destruct (find_first_of c s) as [p|] eqn:Hp; [|done].
    injection H as <-. destruct (IH p eq_refl) as (pre & rest & -> & Hs & Hpre).
    exists (String c' pre), rest. simpl. split; [done|]. split; [done|].
    rewrite decide_False by done. by rewrite Hpre.
Qed.

(** X18. [get_exmx_name] returns the name from its first opening
    parenthesis on, and the whole name when it has none: the result is a
    suffix of the name, what is cut off holds no parenthesis, and asking
    again for the level part of the result changes nothing. *)
Theorem exmx_name_is_the_suffix name :
  ∃ pre,
    name = (pre ++ get_exmx_name name)%string ∧
    find_first_of "("%char pre = None ∧
    (find_first_of "("%char name = None → get_exmx_name name = name) ∧
    (is_Some (find_first_of "("%char name) →
     ∃ rest, get_exmx_name name = String "("%char rest) ∧
    get_exmx_name (get_exmx_name name) = get_exmx_name name.
Proof.
  destruct (find_first_of "("%char name) as [pos|] eqn:Hpos.
  - destruct (find_first_of_split _ _ _ Hpos) as (pre & rest & Hname & Hsub & Hpre).
    assert (get_exmx_name name = String "("%char rest) as ->.
    { unfold get_exmx_name. by rewrite Hpos. }
    exists pre. split; [done|]. split; [done|].
    split; [done|]. split; [by exists rest|].
    unfold get_exmx_name. by simpl.
  - assert (get_exmx_name name = name) as Hg.
    { unfold get_exmx_name. by rewrite Hpos. }
    rewrite !Hg. exists EmptyString. split; [done|]. split; [done|].
    split; [done|]. by split; [intros [? ?]|].
Qed.

(** ** Validating a location against the level catalog *)

(** X19. The two validators agree. For a thing of the level that is in
    range, [ap_validate_doom_location] answers -1 when the thing type asked
    for is not the type of the thing, and otherwise what
    [validate_doom_location] answers, which is 0 for an unreachable thing
    and else 1 exactly when the thing needs no check sanity or check sanity
    is on. *)
Theorem validators_agree s idx index level_info thing doom_type :
  ap_get_level_info idx = Some level_info →
  index < li_thing_count level_info →
  arr_get (li_thing_infos level_info) index = Some thing →
  ∃ v, validate_doom_location s idx index = Some v ∧
       (v = 1 ↔ ti_unreachable thing = 0 ∧
                (ti_check_sanity thing = 0 ∨ check_sanity s = 1)) ∧
       (v ≠ 1 → v = 0) ∧
       ap_validate_doom_location s idx doom_type index
       = Some (if decide (ti_doom_type thing = doom_type) then v else -1).
Proof.
  intros Hinfo Hidx Hthing. unfold validate_doom_location, ap_validate_doom_location.
  rewrite Hinfo. simpl. rewrite !decide_False by lia. rewrite Hthing. simpl.
  destruct (decide (ti_unreachable thing ≠ 0)) as [Hun|Hre].
  - exists 0. split; [done|]. split; [|split; [done|]].
    + split; [done|]. by intros [? _].
    + by repeat case_decide.
  - destruct (decide (ti_check_sanity thing = 0 ∨ check_sanity s = 1)) as [Hs|Hs].
    + exists 1. split; [done|]. split; [|split; [done|]].
      * split; [|done]. intros _. split; [|done].
        destruct (decide (ti_unreachable thing = 0)); [done|by destruct Hre].
      * by repeat case_decide.
    + exists 0. split; [done|]. split; [|split; [done|]].
      * split; [done|]. by intros [_ ?].
      * by repeat case_decide.
Qed.

(** ** The session [apdoom_init] starts from *)

Lemma clear_checks_blank l :
  l = zero_level_state ∨ l = blank_level →
  (c ← for_upto AP_CHECK_MAX (λ k c, arr_set c k (-1)) (checks l);
   Some (set_checks c (check_count l) l)) = Some blank_level.
Proof. intros [->| ->]; vm_compute; reflexivity. Qed.

Lemma apdoom_init_state_spec :
  catalog_small →
  ∃ s, apdoom_init_state = Some s ∧
       state_sized s ∧ player_sized (player_state s) ∧ ammo_arrays_ok s ∧
       checks_allocated s ∧ victory s = 0 ∧
       weapon_owned (player_state s) = [1; 1; 0; 0; 0; 0; 0; 0; 0] ∧
       capacity_upgrades (player_state s) = replicate (Z.to_nat ap_ammo_count) 0 ∧
       episodes s = replicate (Z.to_nat ap_episode_count) 0 ∧
       ∀ lv, lv ∈ catalog_levels →
             ap_get_level_state s (level_idx lv) = Some blank_level.
Proof.
  intros Hsmall. unfold apdoom_init_state. cbv zeta.
  assert (0 < ap_ammo_count) as Hammo by apply ap_ammo_count_pos.
  change (arr_set (replicate (Z.to_nat ap_weapon_count) 0) 0 1)
    with (Some [1; 0; 0; 0; 0; 0; 0; 0; 0]).
  cbn [mbind option_bind].
  change (arr_set [1; 0; 0; 0; 0; 0; 0; 0; 0] 1 1)
    with (Some [1; 1; 0; 0; 0; 0; 0; 0; 0]).
  cbn [mbind option_bind].
  rewrite arr_set_in_range by (rewrite length_replicate; lia).
  cbn [mbind option_bind].
  match goal with
  | |- ∃ s, for_each_level _ ?s0 = Some s ∧ _ => set (init := s0)
  end.
  assert (state_sized init) as Hsz0.
  { destruct Hsmall as [Hfits Hsm]. pose proof (ap_episode_count_fits Hfits) as Hcnt.
    destruct max_map_count_bound as [Hmm _].
    split; simpl; rewrite length_replicate; [|lia].
    unfold int_mul. rewrite wrap_int_id; [nia|].
    unfold in_int, INT_MIN. rewrite Hcnt. nia. }
  rewrite for_each_level_fold.
  pose proof (level_slots_distinct catalog_levels Hsmall NoDup_catalog_levels
                (λ _ H, H)) as Hnd.
  destruct (fold_opt_inv
    (λ done st, only_levels_differ init st ∧
                (∀ lv, lv ∈ done →
                       ap_get_level_state st (level_idx lv) = Some blank_level) ∧
                Forall (λ l, l = zero_level_state ∨ l = blank_level)
                       (level_states st))
    (λ lv s, upd_level_state {| idx_ep := lv.1; idx_map := lv.2 |}
               (λ l, c ← for_upto AP_CHECK_MAX (λ k c, arr_set c k (-1)) (checks l);
                     Some (set_checks c (check_count l) l)) s)
    catalog_levels init) as (s & Hrun & Hdiff & Hblank & Hall).
  - split; [apply only_levels_differ_refl|]. split.
    + intros lv H. by apply elem_of_nil in H.
    + simpl. apply Forall_replicate. by left.
  - intros done lv rest st Hl (Hdiff & Hblank & Hall).
    assert (lv ∈ catalog_levels) as Hlv.
    { rewrite Hl. apply elem_of_app. right. by left. }
    apply only_levels_differ_fields in Hdiff as Hf.
    destruct Hf as (_ & _ & _ & Hsz). specialize (Hsz Hsz0).
    destruct (catalog_level_state st lv Hsmall Hsz Hlv) as [l0 Hl0].
    assert (l0 = zero_level_state ∨ l0 = blank_level) as Hl0'.
    { unfold ap_get_level_state in Hl0. apply arr_get_Some in Hl0 as [_ Hl0].
      exact (Forall_lookup_1 _ _ _ _ Hall Hl0). }
    destruct (upd_level_state_defined (level_idx lv)
                (λ l, c ← for_upto AP_CHECK_MAX (λ k c, arr_set c k (-1)) (checks l);
                      Some (set_checks c (check_count l) l))
                st l0 blank_level Hl0 (clear_checks_blank l0 Hl0')) as [st' Hupd].
    exists st'. split; [exact Hupd|]. split; [by eapply only_levels_differ_upd|].
    split.
    + intros lv' Hlv'. apply elem_of_app in Hlv' as [Hold|Hnew].
      * rewrite Hl in Hnd.
        rewrite (write_level_read_back (λ _ _, True) _ _ _ _ _ _ Hnd Hupd lv' Hold).
        by apply Hblank.
      * apply list_elem_of_singleton in Hnew. subst lv'.
        apply upd_level_state_get in Hupd as (la & la' & Hla & Hfa & Hget).
        rewrite Hget. f_equal. rewrite Hla in Hl0. injection Hl0 as ->.
        rewrite (clear_checks_blank l0 Hl0') in Hfa. by injection Hfa.
    + apply upd_level_state_Some in Hupd as (la & la' & Hla & Hfa & ->). simpl.
      rewrite Hla in Hl0. injection Hl0 as ->.
      rewrite (clear_checks_blank l0 Hl0') in Hfa. injection Hfa as <-.
      apply Forall_insert; [done|by right].
  - exists s. split; [done|].
    apply only_levels_differ_fields in Hdiff as Hf.
    destruct Hf as (_ & _ & _ & Hsz). destruct Hdiff as [Heq _].
    assert (player_state s = player_state init ∧ victory s = 0 ∧
            episodes s = episodes init ∧
            max_ammo_start s = max_ammo_start init ∧
            max_ammo_add s = max_ammo_add init) as (Hp & Hv & He & Hms & Hma)
      by (by rewrite Heq).
    split; [by apply Hsz|].
    split.
    { rewrite Hp. unfold player_sized. simpl.
      rewrite length_insert, !length_replicate.
      unfold ap_weapon_count. simpl.
      assert (0 ≤ ap_powerup_count ∧ 0 ≤ ap_inventory_count) as [? ?].
      { unfold ap_powerup_count, ap_inventory_count.
        by destruct (ap_base_game D). }
      repeat split; lia. }
    split.
    { unfold ammo_arrays_ok. rewrite Hp, Hms, Hma. simpl.
      rewrite !length_replicate, !length_take.
      unfold ap_ammo_count, get_default_max_ammos.
      by destruct (ap_base_game D). }
    split.
    { unfold checks_allocated. eapply Forall_impl; [exact Hall|].
      by intros l [->| ->]. }
    rewrite Hp, He. by repeat split.
Qed.

(** X20. For every catalog whose sizes fit an [int], the session
    [apdoom_init] starts from is defined and blank: the arrays have their
    allocated sizes, the player owns the first two weapons and nothing
    else, no episode is enabled yet, nothing is completed or queued, every
    level of the catalog has all its check slots at -1 and no check
    recorded, and the ammo capacities are the ones derived from the
    defaults. *)
Theorem fresh_session_is_blank save_dir :
  catalog_small →
  ∃ w, fresh_world save_dir = Some w ∧
       state_sized (ap_state w) ∧ player_sized (player_state (ap_state w)) ∧
       checks_allocated (ap_state w) ∧ max_ammo_derived (ap_state w) ∧
       victory (ap_state w) = 0 ∧ ap_item_queue w = [] ∧
       ap_progressive_locations w = ∅ ∧ trace w = [] ∧
       weapon_owned (player_state (ap_state w)) = [1; 1; 0; 0; 0; 0; 0; 0; 0] ∧
       (∀ i, episode_enabled (ap_state w) i = false) ∧
       ∀ lv, lv ∈ catalog_levels →
         ap_get_level_state (ap_state w) (level_idx lv) = Some blank_level ∧
         checked_list blank_level = [].
Proof.
  intros Hsmall. unfold fresh_world.
  destruct (apdoom_init_state_spec Hsmall)
    as (s & -> & Hsz & Hps & Hammo & Halloc & Hv & Hw & Hcap & Heps & Hlv).
  simpl.
  destruct (recalc_max_ammo_spec s Hammo) as (m & Hrun & Hm & _).
  destruct (recalc_max_ammo_derives s Hammo) as (s' & Hrun' & _ & Hderived).
  assert (s' = with_max_ammo m s) as -> by congruence.
  rewrite Hrun. simpl. eexists. split; [done|]. simpl.
  split; [done|]. split.
  { destruct Hps as (? & ? & ? & ? & ?). repeat split; try done. simpl.
    rewrite Hm. pose proof ap_ammo_count_pos. lia. }
  split; [done|]. split; [done|]. do 5 (split; [done|]). split.
  - intros i. unfold episode_enabled. simpl. rewrite Heps.
    destruct (arr_get _ i) as [e|] eqn:He; [|done].
    apply arr_get_Some in He as [_ He]. apply lookup_replicate in He as [-> _].
    apply bool_decide_eq_false. intros H. by apply H.
  - intros lv Hin. split; [by apply Hlv|done].
Qed.

(** ** Notification icons *)

Lemma truncate_length n s : (String.length (truncate n s) ≤ n)%nat.
Proof.
  revert s. induction n as [|n IH]; intros s; [done|].
  destruct s as [|c rest]; simpl; [lia|]. specialize (IH rest). lia.
Qed.

(** X21. Handing an item to the game adds at most one notification
    icon, at the end of the list and in the pending state. Its sprite name
    fits the 8 characters and its text the 259 characters the icon has room
    for, and no icon is added when the item is unknown or has no sprite. *)
Theorem notification_icon_fits item_id w w' :
  process_received_item item_id w = Some w' →
  ∃ new,
    ap_notification_icons w' = ap_notification_icons w ++ new ∧
    (length new ≤ 1)%nat ∧
    Forall (λ icon, (String.length (n_sprite icon) ≤ 8)%nat ∧
                    (String.length (n_text icon) ≤ 259)%nat ∧
                    n_state icon = AP_NOTIF_STATE_PENDING ∧ n_t icon = 0) new ∧
    (new = [] ↔
     ∀ item, get_item_type_table !! item_id = Some item →
             get_sprites !! doom_type item = None).
Proof.
  unfold process_received_item. intros H.
  destruct (get_item_type_table !! item_id) as [item|].
  - bind_inv_as H notif_text. cbv zeta in H.
    destruct (get_sprites !! doom_type item) as [sprite_name|] eqn:Hsprite.
    + injection H as <-. eexists. split; [done|]. split; [done|]. split.
      * apply Forall_singleton. unfold new_notification_icon. cbv zeta.
        cbn [n_sprite n_text n_state n_t].
        split; [apply (truncate_length 8)|]. split; [|done].
        destruct (decide (notif_text ≠ ""%string));
          [apply (truncate_length 259)|simpl; lia].
      * split; [done|]. intros Hnone. specialize (Hnone item eq_refl). congruence.
    + injection H as <-. exists []. simpl. rewrite app_nil_r.
      split; [done|]. split; [lia|]. split; [constructor|].
      split; [|done]. by intros _ item' [= <-].
  - injection H as <-. exists []. rewrite app_nil_r.
    split; [done|]. split; [simpl; lia|]. split; [constructor|]. by split.
Qed.

End Session.

(** * The model on a small catalog *)

(** The statements above, at a catalog of two episodes and three levels
    and at the session [apdoom_init] builds for it. *)

Lemma demo_catalog_small : catalog_small demo.
Proof.
  split; [split|].
  - vm_compute. discriminate.
  - unfold get_level_info_table. simpl. repeat constructor; vm_compute; discriminate.
  - vm_compute. discriminate.
Qed.

Lemma demo_items_resolve : items_resolve demo.
Proof.
  intros id item Hitem Hne. apply elem_of_map_to_list in Hitem.
  vm_compute in Hitem.
  repeat (apply elem_of_cons in Hitem as [[= -> ->]|Hitem];
          [first [by destruct Hne | vm_compute; eauto]|]).
  by apply elem_of_nil in Hitem.
Qed.

Lemma demo_catalog_levels lv :
  lv ∈ catalog_levels demo → lv = (0, 0) ∨ lv = (0, 1) ∨ lv = (1, 0).
Proof.
  intros Hlv. vm_compute in Hlv.
  repeat (apply elem_of_cons in Hlv as [->|Hlv]; [tauto|]).
  by apply elem_of_nil in Hlv.
Qed.

Lemma demo_rand_nonneg g : 0 ≤ (demo_rand g).1.
Proof. unfold demo_rand. simpl. apply Z.mod_pos_bound. lia. Qed.


(** C2 at the small catalog: a backpack, then a capacity upgrade of the
    first ammo type. *)
Lemma max_ammo_after_upgrade_events_witness :
  ∃ w, fresh_world demo "AP_seed" = Some w ∧
       items_resolve demo ∧ ammo_arrays_ok demo (ap_state w) ∧
       ∃ w', run demo (λ icons, icons)
               [Call_f_itemrecv 100 0 false; Call_f_itemrecv 101 0 false] w
             = Some w' ∧
             max_ammo_derived demo (ap_state w') ∧
             capacity_upgrades (player_state (ap_state w')) = [2; 1; 1; 1] ∧
             max_ammo (player_state (ap_state w')) = [600; 100; 600; 100].
Proof.
  eexists. split; [vm_compute; reflexivity|].
  split; [exact demo_items_resolve|].
  match goal with |- ammo_arrays_ok demo (ap_state ?w0) ∧ _ =>
    assert (ammo_arrays_ok demo (ap_state w0)) as Hok by (vm_compute; done);
    destruct (max_ammo_after_upgrade_events demo (λ icons, icons)
                [Call_f_itemrecv 100 0 false; Call_f_itemrecv 101 0 false] w0
                demo_items_resolve Hok) as (w' & Hrun & Hderived)
  end.
  - repeat constructor.
    + eexists _, _, _, _. split; [reflexivity|]. split; [vm_compute; reflexivity|].
      left. reflexivity.
    + eexists _, _, _, _. split; [reflexivity|]. split; [vm_compute; reflexivity|].
      right. simpl. lia.
  - by left.
  - split; [exact Hok|]. exists w'. split; [exact Hrun|]. split; [exact Hderived|].
    vm_compute in Hrun. injection Hrun as <-. split; reflexivity.
Defined.

(** C7 at the small catalog: a key delivered twice without notification. *)
Lemma item_redelivery_witness :
  ∃ w w1, fresh_world demo "AP_seed" = Some w ∧
          get_item_type_table demo !! 200
          = Some {| doom_type := 5; item_ep := 1; item_map := 2 |} ∧
          f_itemrecv demo 200 0 false w = Some w1 ∧
          ¬ counts_upgrade demo {| doom_type := 5; item_ep := 1; item_map := 2 |} ∧
          ∃ w2, f_itemrecv demo 200 0 false w1 = Some w2 ∧
                ap_state w2 = ap_state w1 ∧ (false = false → w2 = w1).
Proof.
  assert (¬ counts_upgrade demo {| doom_type := 5; item_ep := 1; item_map := 2 |})
    as Hno.
  { intros (i & Hi & [H|H]); simpl in H; [discriminate H|lia]. }
  eexists _, _. split; [vm_compute; reflexivity|].
  split; [vm_compute; reflexivity|].
  match goal with |- f_itemrecv demo 200 0 false ?w0 = _ ∧ _ => pose (w := w0) end.
  split; [vm_compute; reflexivity|]. split; [exact Hno|].
  destruct (item_redelivery demo 200 0 false
              {| doom_type := 5; item_ep := 1; item_map := 2 |} w _
              ltac:(vm_compute; reflexivity)
              ltac:(vm_compute; reflexivity)) as (Hidem & _).
  exact (Hidem Hno).
Defined.

(** C1 at the small catalog: location 9002 is check 3 of E1M1. *)
Lemma location_check_idempotent_witness :
  ∃ w l, fresh_world demo "AP_seed" = Some w ∧
         find_location demo 9002 = (true, (1, 1, 3)) ∧
         ap_get_level_state demo (ap_state w) {| idx_ep := 0; idx_map := 0 |} = Some l ∧
         ∃ w1, f_locrecv demo 9002 w = Some w1 ∧
               f_locrecv demo 9002 w1 = Some w1 ∧
               ∃ l1, ap_get_level_state demo (ap_state w1)
                       {| idx_ep := 0; idx_map := 0 |} = Some l1 ∧
                     checked_list l1 = checked_list l ++ [3] ∧
                     check_count l1 = check_count l + 1.
Proof.
  eexists _, _. split; [vm_compute; reflexivity|].
  split; [vm_compute; reflexivity|]. split; [vm_compute; reflexivity|].
  match goal with |- ∃ w1, f_locrecv demo 9002 ?w0 = _ ∧ _ =>
    destruct (location_check_idempotent demo 9002 1 1 3 w0 _
                ltac:(vm_compute; reflexivity) ltac:(vm_compute; reflexivity)
                ltac:(vm_compute; reflexivity)
                ltac:(vm_compute; split; discriminate)
                ltac:(right; right; vm_compute; reflexivity))
      as (w1 & Hfirst & Hsecond & _ & Hnew)
  end.
  exists w1. split; [exact Hfirst|]. split; [exact Hsecond|].
  apply Hnew; [|lia]. vm_compute. intros Hin. by apply elem_of_nil in Hin.
Defined.

(** C3 at the small catalog: with no episode enabled the first check
    announces the victory; the later ones announce nothing. *)
Lemma victory_latched_witness :
  ∃ w w', fresh_world demo "AP_seed" = Some w ∧
          run demo (λ icons, icons)
            [Call_apdoom_check_victory;
             Call_apdoom_complete_level {| idx_ep := 0; idx_map := 0 |};
             Call_apdoom_check_victory; Call_apdoom_check_victory] w = Some w' ∧
          victory (ap_state w') = 1 ∧
          (victory_callbacks (trace w') ≤ 1)%nat ∧
          (story_complete_signals (trace w') ≤ 1)%nat.
Proof.
  eexists _, _. split; [vm_compute; reflexivity|].
  match goal with |- run _ _ _ ?w0 = _ ∧ _ => pose (w := w0) end.
  split; [vm_compute; reflexivity|].
  match goal with |- victory (ap_state ?w1) = _ ∧ _ => pose (w' := w1) end.
  destruct (victory_latched demo (λ icons, icons)
              [Call_apdoom_check_victory;
               Call_apdoom_complete_level {| idx_ep := 0; idx_map := 0 |};
               Call_apdoom_check_victory; Call_apdoom_check_victory] w w'
              ltac:(vm_compute; reflexivity)) as (_ & Hcalls & Hsignals).
  split; [reflexivity|]. split; [exact Hcalls|exact Hsignals].
Defined.

(** C4 at the small catalog: a backpack, an unlock, an id the table does
    not know and a silent key arrive outside gameplay. *)
Lemma pending_items_fifo_witness :
  ∃ w w1, fresh_world demo "AP_seed" = Some w ∧
          ap_is_in_game w = 0 ∧
          run demo (λ icons, icons)
            (item_calls [(100, 0, true); (300, 0, true); (999, 0, true);
                         (200, 0, false)]) w = Some w1 ∧
          ap_item_queue w1 = [100; 300] ∧
          given_items (trace w1) = [] ∧
          ∃ w2, apdoom_update demo (λ icons, icons) [] (set_in_game 1 w1) = Some w2 ∧
                ap_item_queue w2 = [] ∧
                given_items (trace w2) = [(8, -1, -1); (-1, 1, 2)].
Proof.
  eexists _, _. split; [vm_compute; reflexivity|]. split; [reflexivity|].
  match goal with |- run _ _ _ ?w0 = _ ∧ _ => pose (w := w0) end.
  split; [vm_compute; reflexivity|].
  match goal with |- ap_item_queue ?w' = _ ∧ _ => pose (w1 := w') end.
  destruct (pending_items_fifo demo (λ icons, icons)
              [(100, 0, true); (300, 0, true); (999, 0, true); (200, 0, false)]
              [] 1 w w1 demo_items_resolve eq_refl ltac:(lia)
              ltac:(vm_compute; reflexivity))
    as (Hqueue & Hgiven & w2 & Hupdate & Hempty & Horder).
  split; [exact Hqueue|]. split; [exact Hgiven|].
  exists w2. split; [exact Hupdate|]. split; [exact Hempty|]. exact Horder.
Defined.

(** C5 at the small catalog: the unlock of E1M2 arrives outside
    gameplay. *)
Lemma item_received_outside_gameplay_witness :
  ∃ w w1, fresh_world demo "AP_seed" = Some w ∧
          ap_is_in_game w = 0 ∧
          f_itemrecv demo 300 0 true w = Some w1 ∧
          ap_item_queue w1 = [300] ∧ trace w1 = [] ∧
          ap_notification_icons w1 = [] ∧
          (∃ l, ap_get_level_state demo (ap_state w1) {| idx_ep := 0; idx_map := 1 |}
                = Some l ∧ unlocked l = 1) ∧
          ∃ w2, apdoom_update demo (λ icons, icons) [] (set_in_game 1 w1) = Some w2 ∧
                ap_state w2 = ap_state w1 ∧
                given_items (trace w2) = [(-1, 1, 2)] ∧
                length (ap_notification_icons w2) = 1%nat.
Proof.
  eexists _, _. split; [vm_compute; reflexivity|]. split; [reflexivity|].
  match goal with |- f_itemrecv _ _ _ _ ?w0 = _ ∧ _ => pose (w := w0) end.
  split; [vm_compute; reflexivity|].
  match goal with |- ap_item_queue ?w' = _ ∧ _ => pose (w1 := w') end.
  destruct (item_received_outside_gameplay demo (λ icons, icons) 300 0
              {| doom_type := -1; item_ep := 1; item_map := 2 |} w
              demo_items_resolve ltac:(vm_compute; reflexivity) eq_refl)
    as [_ Hafter].
  destruct (Hafter w1 ltac:(vm_compute; reflexivity))
    as (Htrace & Hicons & Hunlocked & Hupdate).
  split; [reflexivity|]. split; [exact Htrace|]. split; [exact Hicons|].
  split; [exact (Hunlocked eq_refl)|].
  destruct (Hupdate [] 1 ltac:(lia)) as (w2 & Hrun & Hstate & Hgiven & Hshown).
  exists w2. split; [exact Hrun|]. split; [exact Hstate|]. split; [exact Hgiven|].
  rewrite Hshown. reflexivity.
Defined.

(** C9 at the small catalog: two sessions of one save directory, one of
    them with the music shuffle on as well, flip the same levels. *)
Lemma flip_derivation_deterministic_witness :
  ∃ w w1' g1 w2' g2,
    fresh_world demo "AP_seed" = Some w ∧
    apdoom_init_randomize demo Z demo_srand demo_rand true
      (set_ap_state (f_flip_levels 2 (ap_state w)) w) = Some (w1', g1) ∧
    apdoom_init_randomize demo Z demo_srand demo_rand true
      (set_ap_state (f_random_music 1 (f_flip_levels 2 (ap_state w))) w)
    = Some (w2', g2) ∧
    ∀ lv, lv ∈ catalog_levels demo →
      flipped <$> ap_get_level_state demo (ap_state w1')
                    {| idx_ep := lv.1; idx_map := lv.2 |}
      = flipped <$> ap_get_level_state demo (ap_state w2')
                      {| idx_ep := lv.1; idx_map := lv.2 |}.
Proof.
  eexists _, _, _, _, _. split; [vm_compute; reflexivity|].
  match goal with |- apdoom_init_randomize _ _ _ _ _ ?w1 = _ ∧ _ => pose (wa := w1) end.
  split; [vm_compute; reflexivity|].
  match goal with |- apdoom_init_randomize _ _ _ _ _ ?w2 = _ ∧ _ => pose (wb := w2) end.
  split; [vm_compute; reflexivity|].
  exact (proj2 (flip_derivation_deterministic demo Z demo_srand demo_rand true
                  wa wb _ _ _ _ eq_refl eq_refl eq_refl
                  ltac:(vm_compute; reflexivity) ltac:(vm_compute; reflexivity))).
Defined.

(** C8 at the small catalog: both episodes enabled, shuffle mode 1. *)
Lemma music_shuffle_bijection_witness :
  ∃ w, fresh_world demo "AP_seed" = Some w ∧
       catalog_small demo ∧ (∀ g, 0 ≤ (demo_rand g).1) ∧
       ∃ w' g' originals assigned,
         apdoom_init_randomize demo Z demo_srand demo_rand true
           (set_ap_state (f_random_music 1 (set_episodes [1; 1] (ap_state w))) w)
         = Some (w', g') ∧
         mapM (original_music demo) (enabled_levels demo (ap_state w')) = Some originals ∧
         mapM (level_music demo (ap_state w')) (enabled_levels demo (ap_state w'))
         = Some assigned ∧
         assigned ≡ₚ originals.
Proof.
  eexists. split; [vm_compute; reflexivity|].
  split; [exact demo_catalog_small|]. split; [exact demo_rand_nonneg|].
  apply (music_shuffle_bijection demo Z demo_srand demo_rand true).
  - exact demo_catalog_small.
  - reflexivity.
  - split; reflexivity.
  - exact demo_rand_nonneg.
  - intros lv Hlv. apply demo_catalog_levels in Hlv.
    destruct Hlv as [Hlv|[Hlv|Hlv]]; rewrite Hlv; vm_compute; eauto.
  - reflexivity.
Defined.

(** C6 at the small catalog: a session with one check recorded, a
    backpack and a key queued, saved and read into the session
    [apdoom_init] builds. *)
Lemma save_load_round_trip_witness :
  ∃ f w, fresh_world demo "AP_seed" = Some f ∧
         run demo (λ icons, icons)
           [Call_f_locrecv 9002; Call_f_itemrecv 100 0 true;
            Call_f_itemrecv 200 0 true] f = Some w ∧
         catalog_small demo ∧ well_sized demo w ∧
         ∃ json w',
           save_state demo w = Some json ∧ load_state demo (Some json) f = Some w' ∧
           player_state (ap_state w')
           = merged_player (player_state (ap_state f)) (player_state (ap_state w)) ∧
           (∀ lv lf l, lv ∈ catalog_levels demo →
              ap_get_level_state demo (ap_state f) (level_idx lv) = Some lf →
              ap_get_level_state demo (ap_state w) (level_idx lv) = Some l →
              ap_get_level_state demo (ap_state w') (level_idx lv)
              = Some (merged_level lf l)) ∧
           ap_item_queue w' = [100; 200] ∧
           st_ep (ap_state w') = st_ep (ap_state w) ∧
           st_map (ap_state w') = st_map (ap_state w) ∧
           ap_progressive_locations w'
           = ap_progressive_locations w ∪ ap_progressive_locations f ∧
           victory (ap_state w') = Z.lor (victory (ap_state f)) (victory (ap_state w)).
Proof.
  eexists _, _. split; [vm_compute; reflexivity|].
  match goal with |- run _ _ _ ?w0 = _ ∧ _ => pose (f := w0) end.
  split; [vm_compute; reflexivity|].
  split; [exact demo_catalog_small|].
  match goal with |- well_sized demo ?w0 ∧ _ => pose (w := w0) end.
  assert (well_sized demo w) as Hw.
  { split; [split; reflexivity|]. split; [repeat split|].
    split; [unfold player_ints, in_int, INT_MIN, INT_MAX; simpl;
            repeat split; try lia; repeat constructor; lia|].
    split; [unfold in_int, INT_MIN, INT_MAX; simpl; lia|].
    split; [unfold in_int, INT_MIN, INT_MAX; simpl; lia|].
    split; [unfold in_int, INT_MIN, INT_MAX; simpl; lia|].
    split; [unfold in_int64; simpl; repeat constructor; lia|].
    split; [intros id Hid; by apply elem_of_empty in Hid|].
    intros lv l Hlv Hl. apply demo_catalog_levels in Hlv.
    destruct Hlv as [Hlv|[Hlv|Hlv]]; rewrite Hlv in Hl; vm_compute in Hl;
      injection Hl as <-;
      (split; [split; reflexivity|]);
      unfold level_ints, in_int, INT_MIN, INT_MAX; simpl;
      repeat split; try lia; repeat constructor; lia. }
  split; [exact Hw|].
  destruct (save_load_round_trip demo w f demo_catalog_small Hw)
    as (json & w' & Hsave & Hload & Hplayer & Hlevels & Hqueue & Hep & Hmap
        & Hlocs & Hvictory).
  - split; reflexivity.
  - repeat split.
  - intros lv lf Hlv Hlf. apply demo_catalog_levels in Hlv.
    destruct Hlv as [Hlv|[Hlv|Hlv]]; rewrite Hlv in Hlf; vm_compute in Hlf;
      by injection Hlf as <-.
  - exists json, w'. split; [exact Hsave|]. split; [exact Hload|].
    split; [exact Hplayer|]. split; [exact Hlevels|]. split; [exact Hqueue|].
    split; [exact Hep|]. split; [exact Hmap|].
    split; [exact Hlocs|exact Hvictory].
Defined.

(** C2 as stated fails: a session that received a backpack is saved and
    read into the session [apdoom_init] builds. The capacities come from
    the file, the upgrade counts are not in it: the first ammo type holds
    400 while base 200, increment 200 and 0 upgrades derive 200. *)
Lemma max_ammo_read_from_file :
  ∃ f w json w',
    fresh_world demo "AP_seed" = Some f ∧
    f_itemrecv demo 100 0 false f = Some w ∧
    save_state demo w = Some json ∧ load_state demo (Some json) f = Some w' ∧
    max_ammo_start (ap_state w') = [200; 50; 300; 50] ∧
    max_ammo_add (ap_state w') = [200; 50; 300; 50] ∧
    capacity_upgrades (player_state (ap_state w')) = [0; 0; 0; 0] ∧
    max_ammo (player_state (ap_state w')) = [400; 100; 600; 100] ∧
    ¬ max_ammo_derived demo (ap_state w').
Proof.
  eexists _, _, _, _. split; [vm_compute; reflexivity|].
  split; [vm_compute; reflexivity|]. split; [vm_compute; reflexivity|].
  split; [vm_compute; reflexivity|].
  split; [reflexivity|]. split; [reflexivity|]. split; [reflexivity|].
  split; [reflexivity|].
  intros Hderived.
  specialize (Hderived 0 200 200 0 ltac:(vm_compute; split; [discriminate|reflexivity])
                eq_refl eq_refl eq_refl ltac:(vm_compute; split; discriminate)).
  vm_compute in Hderived. discriminate Hderived.
Qed.

(** C1 as stated fails: location 9000 is the level-complete location of
    E1M1, index -1. The index is not in the checked list of the level, and
    [f_locrecv] neither appends it nor raises the check counter: it returns
    at its guard [index < 0] and leaves the session as it was. *)
Lemma completion_location_not_recorded :
  ∃ w l,
    fresh_world demo "AP_seed" = Some w ∧
    find_location demo 9000 = (true, (1, 1, -1)) ∧
    ap_get_level_state demo (ap_state w) {| idx_ep := 0; idx_map := 0 |} = Some l ∧
    ¬ ((-1) ∈ checked_list l) ∧ check_count l = 0 ∧
    f_locrecv demo 9000 w = Some w.
Proof.
  eexists _, _. split; [vm_compute; reflexivity|].
  split; [vm_compute; reflexivity|]. split; [vm_compute; reflexivity|].
  split; [|split; [reflexivity|vm_compute; reflexivity]].
  vm_compute. intros Hin. by apply elem_of_nil in Hin.
Qed.

(** C5 as stated fails: the unlock of E1M2 arrives outside gameplay, and
    the level is unlocked when [f_itemrecv] returns, before any update. *)
Lemma unlock_applied_outside_gameplay :
  ∃ w w1 l l1,
    fresh_world demo "AP_seed" = Some w ∧ ap_is_in_game w = 0 ∧
    f_itemrecv demo 300 0 true w = Some w1 ∧ ap_is_in_game w1 = 0 ∧
    ap_get_level_state demo (ap_state w) {| idx_ep := 0; idx_map := 1 |} = Some l ∧
    ap_get_level_state demo (ap_state w1) {| idx_ep := 0; idx_map := 1 |} = Some l1 ∧
    unlocked l = 0 ∧ unlocked l1 = 1 ∧ ap_item_queue w1 = [300] ∧
    ap_state w1 ≠ ap_state w.
Proof.
  eexists _, _, _, _. split; [vm_compute; reflexivity|]. split; [reflexivity|].
  split; [vm_compute; reflexivity|]. split; [reflexivity|].
  split; [vm_compute; reflexivity|]. split; [vm_compute; reflexivity|].
  split; [reflexivity|]. split; [reflexivity|]. split; [reflexivity|].
  intros Heq. apply (f_equal (λ s, unlocked <$> level_states s)) in Heq.
  vm_compute in Heq. discriminate Heq.
Qed.

(** C6 as stated fails: a session with one check recorded and a backpack
    received is saved and read into the session [apdoom_init] builds. The
    check list and the check count are not read back, and the ammo
    capacities are those of the file, not the derived ones. *)
Lemma save_load_loses_checks :
  ∃ f w json w' l l',
    fresh_world demo "AP_seed" = Some f ∧
    run demo (λ icons, icons) [Call_f_locrecv 9002; Call_f_itemrecv 100 0 false] f
    = Some w ∧
    save_state demo w = Some json ∧ load_state demo (Some json) f = Some w' ∧
    ap_get_level_state demo (ap_state w) {| idx_ep := 0; idx_map := 0 |} = Some l ∧
    ap_get_level_state demo (ap_state w') {| idx_ep := 0; idx_map := 0 |} = Some l' ∧
    check_count l = 1 ∧ checked_list l = [3] ∧
    check_count l' = 0 ∧ checked_list l' = [] ∧
    max_ammo (player_state (ap_state w')) = [400; 100; 600; 100] ∧
    ¬ max_ammo_derived demo (ap_state w').
Proof.
  eexists _, _, _, _, _, _. split; [vm_compute; reflexivity|].
  split; [vm_compute; reflexivity|]. split; [vm_compute; reflexivity|].
  split; [vm_compute; reflexivity|]. split; [vm_compute; reflexivity|].
  split; [vm_compute; reflexivity|].
  split; [reflexivity|]. split; [reflexivity|]. split; [reflexivity|].
  split; [reflexivity|]. split; [reflexivity|].
  intros Hderived.
  specialize (Hderived 0 200 200 0 ltac:(vm_compute; split; [discriminate|reflexivity])
                eq_refl eq_refl eq_refl ltac:(vm_compute; split; discriminate)).
  vm_compute in Hderived. discriminate Hderived.
Qed.

(** C7 as stated fails: a backpack delivered twice counts as two
    upgrades, and a key delivered twice with notification is queued
    twice. *)
Lemma redelivery_applied_again :
  ∃ w w1 w2 v1 v2,
    fresh_world demo "AP_seed" = Some w ∧
    f_itemrecv demo 100 0 false w = Some w1 ∧
    f_itemrecv demo 100 0 false w1 = Some w2 ∧
    capacity_upgrades (player_state (ap_state w1)) = [1; 1; 1; 1] ∧
    capacity_upgrades (player_state (ap_state w2)) = [2; 2; 2; 2] ∧
    max_ammo (player_state (ap_state w1)) = [400; 100; 600; 100] ∧
    max_ammo (player_state (ap_state w2)) = [600; 150; 900; 150] ∧
    ap_state w2 ≠ ap_state w1 ∧
    f_itemrecv demo 200 0 true w = Some v1 ∧
    f_itemrecv demo 200 0 true v1 = Some v2 ∧
    ap_item_queue v1 = [200] ∧ ap_item_queue v2 = [200; 200] ∧ v2 ≠ v1.
Proof.
  eexists _, _, _, _, _. split; [vm_compute; reflexivity|].
  split; [vm_compute; reflexivity|]. split; [vm_compute; reflexivity|].
  split; [reflexivity|]. split; [reflexivity|]. split; [reflexivity|].
  split; [reflexivity|].
  split.
  { intros Heq. apply (f_equal (λ s, capacity_upgrades (player_state s))) in Heq.
    vm_compute in Heq. discriminate Heq. }
  split; [vm_compute; reflexivity|]. split; [vm_compute; reflexivity|].
  split; [reflexivity|]. split; [reflexivity|].
  intros Heq. apply (f_equal ap_item_queue) in Heq.
  vm_compute in Heq. discriminate Heq.
Qed.

(** ** Further properties at the small catalog *)

Lemma demo_location_entries ep map index id :
  location_entry demo ep map index id →
  (ep, map, index, id) ∈
    [(1, 1, -1, 9000); (1, 1, 0, 9001); (1, 1, 3, 9002); (1, 2, -1, 9010);
     (1, 2, 1, 9011); (2, 1, -1, 9020); (2, 1, 0, 9021)].
Proof.
  intros (t1 & t2 & H1 & H2 & H3). unfold get_location_table in H1. simpl in H1.
  repeat match goal with
         | H : _ ∈ [] |- _ => by apply elem_of_nil in H
         | H : _ ∈ _ :: _ |- _ => apply elem_of_cons in H as [H|H]
         | H : (_, _) = (_, _) |- _ => injection H as ? ?; subst
         end;
    repeat first [by left | right].
Qed.

Lemma demo_location_ids_unique : location_ids_unique demo.
Proof.
  intros id ep map index ep' map' index' H1 H2.
  apply demo_location_entries in H1, H2.
  repeat match goal with
         | H : _ ∈ [] |- _ => by apply elem_of_nil in H
         | H : _ ∈ _ :: _ |- _ => apply elem_of_cons in H as [H|H]
         end;
    by simplify_eq.
Qed.

Lemma demo_level_numbers_unique lv1 lv2 :
  lv1 ∈ catalog_levels demo → lv2 ∈ catalog_levels demo →
  level_numbers demo lv1 = level_numbers demo lv2 → lv1 = lv2.
Proof.
  intros H1 H2. apply demo_catalog_levels in H1, H2.
  destruct H1 as [->|[->| ->]], H2 as [->|[->| ->]]; vm_compute; congruence.
Qed.

Lemma demo_original_music lv :
  lv ∈ catalog_levels demo → is_Some (original_music demo lv).
Proof.
  intros Hlv. apply demo_catalog_levels in Hlv.
  destruct Hlv as [Hlv|[Hlv|Hlv]]; rewrite Hlv; vm_compute; eauto.
Qed.

(** X1 at the small catalog: location 9002 is found as check 3 of E1M1,
    which is where the table has it. *)
Lemma find_location_spec_witness :
  find_location demo 9002 = (true, (1, 1, 3)) ∧
  location_entry demo 1 1 3 9002 ∧ 0 < 1.
Proof.
  split; [vm_compute; reflexivity|].
  apply (proj1 (find_location_spec demo 9002) 1 1 3). vm_compute. reflexivity.
Defined.

(** X2 at the small catalog: check 3 of E1M1 is reported, and the echo
    of the server records it. *)
Lemma checked_location_comes_back_witness :
  ∃ w l, fresh_world demo "AP_seed" = Some w ∧
         location_ids_unique demo ∧
         location_id demo {| idx_ep := 0; idx_map := 0 |} 3 = Some 9002 ∧
         ap_get_level_state demo (ap_state w) {| idx_ep := 0; idx_map := 0 |} = Some l ∧
         check_count l < AP_CHECK_MAX ∧
         ∃ w1 w2 l2,
           apdoom_check_location demo {| idx_ep := 0; idx_map := 0 |} 3 w = Some w1 ∧
           ap_state w1 = ap_state w ∧
           sent_items (trace w1) = sent_items (trace w) ++ [9002] ∧
           f_locrecv demo 9002 w1 = Some w2 ∧
           ap_get_level_state demo (ap_state w2) {| idx_ep := 0; idx_map := 0 |}
           = Some l2 ∧
           (0 ≤ 3 → 3 ∈ checked_list l2) ∧
           (0 ≤ 3 → 3 ∉ checked_list l → checked_list l2 = checked_list l ++ [3]) ∧
           (3 < 0 → w2 = w1).
Proof.
  eexists _, _. split; [vm_compute; reflexivity|].
  split; [exact demo_location_ids_unique|]. split; [vm_compute; reflexivity|].
  split; [vm_compute; reflexivity|]. split; [vm_compute; reflexivity|].
  match goal with |- ∃ w1 w2 l2, apdoom_check_location _ _ _ ?w0 = _ ∧ _ =>
    apply (checked_location_comes_back demo {| idx_ep := 0; idx_map := 0 |} 3 9002 w0)
  end.
  - exact demo_location_ids_unique.
  - vm_compute. reflexivity.
  - simpl. unfold INT_MAX. lia.
  - simpl. unfold in_int, INT_MIN, INT_MAX. lia.
  - simpl. unfold INT_MAX. lia.
  - vm_compute. reflexivity.
  - vm_compute. reflexivity.
  - vm_compute. split; discriminate.
  - right. right. vm_compute. reflexivity.
Defined.

(** X3 at the small catalog: with every level of the enabled first
    episode completed, the victory check announces the victory. *)
Lemma victory_when_all_levels_completed_witness :
  ∃ w w0, fresh_world demo "AP_seed" = Some w ∧
          run demo (λ icons, icons)
            [Call_apdoom_complete_level {| idx_ep := 0; idx_map := 0 |};
             Call_apdoom_complete_level {| idx_ep := 0; idx_map := 1 |}]
            (set_ap_state (set_episodes [1; 0] (ap_state w)) w) = Some w0 ∧
          catalog_small demo ∧ state_sized demo (ap_state w0) ∧
          victory (ap_state w0) = 0 ∧
          (∀ lv, lv ∈ enabled_levels demo (ap_state w0) →
                 level_completed demo (ap_state w0) lv) ∧
          ∃ w', apdoom_check_victory demo w0 = Some w' ∧
                victory (ap_state w') = 1 ∧
                trace w' = trace w0 ++ [Ev_AP_StoryComplete; Ev_victory].
Proof.
  eexists _, _. split; [vm_compute; reflexivity|].
  split; [vm_compute; reflexivity|].
  match goal with |- _ ∧ state_sized demo (ap_state ?w1) ∧ _ => pose (w0 := w1) end.
  assert (∀ lv, lv ∈ enabled_levels demo (ap_state w0) →
                level_completed demo (ap_state w0) lv) as Hall.
  { intros lv Hlv. vm_compute in Hlv.
    apply elem_of_cons in Hlv as [->|Hlv];
      [|apply elem_of_cons in Hlv as [->|Hlv]; [|by apply elem_of_nil in Hlv]];
      eexists; (split; [vm_compute; reflexivity|]); simpl; discriminate. }
  split; [exact demo_catalog_small|]. split; [split; reflexivity|].
  split; [reflexivity|]. split; [exact Hall|].
  destruct (victory_when_all_levels_completed demo w0 demo_catalog_small
              ltac:(split; reflexivity) eq_refl) as (w' & Hrun & Hyes & _).
  - simpl. intros [Hgoal _]. discriminate Hgoal.
  - exists w'. split; [exact Hrun|]. exact (Hyes Hall).
Defined.

(** X4 at the small catalog: before the session is initialised a message
    is cached and not shown. *)
Lemma messages_kept_in_order_witness :
  ∃ w w', fresh_world demo "AP_seed" = Some w ∧
          apdoom_update demo (λ icons, icons) [Msg_Plaintext "Connected"] w
          = Some w' ∧
          shown_messages (trace w') ++ ap_cached_messages w'
          = shown_messages (trace w) ++ ap_cached_messages w
              ++ ["~2Connected"%string] ∧
          shown_messages (trace w') = shown_messages (trace w).
Proof.
  eexists _, _. split; [vm_compute; reflexivity|].
  match goal with |- apdoom_update _ _ _ ?w0 = _ ∧ _ => pose (w := w0) end.
  split; [vm_compute; reflexivity|].
  match goal with |- shown_messages (trace ?w1) ++ _ = _ ∧ _ =>
    destruct (messages_kept_in_order demo (λ icons, icons)
                [Msg_Plaintext "Connected"] w w1 ltac:(vm_compute; reflexivity))
      as (Hall & _ & Hcached)
  end.
  split; [exact Hall|]. apply Hcached. reflexivity.
Defined.

(** X5 at the small catalog: with the first episode enabled and the
    second not, the highest enabled episode is an enabled one. *)
Lemma highest_episode_spec_witness :
  ∃ w h, fresh_world demo "AP_seed" = Some w ∧
         state_sized demo (set_episodes [1; 0] (ap_state w)) ∧
         ap_get_highest_episode demo (set_episodes [1; 0] (ap_state w)) = Some h ∧
         episode_enabled (set_episodes [1; 0] (ap_state w)) h = true ∧
         0 ≤ h < ap_episode_count demo.
Proof.
  eexists _, _. split; [vm_compute; reflexivity|].
  match goal with |- state_sized demo ?s0 ∧ _ =>
    destruct (highest_episode_spec demo s0 ltac:(split; reflexivity))
      as (h & Hh & _ & Hen)
  end.
  split; [split; reflexivity|].
  destruct (Hen 0 ltac:(vm_compute; split; [discriminate|reflexivity]) eq_refl)
    as [Hen0 Hrange].
  vm_compute in Hh. injection Hh as <-.
  split; [vm_compute; reflexivity|]. split; [exact Hen0|]. lia.
Defined.

(** X6 at the small catalog: the engine's E1M2 is the second level of
    the first episode. *)
Lemma make_level_index_first_witness :
  catalog_fits demo ∧
  ∃ idx, ap_make_level_index demo 1 2 = Some idx ∧
         ((∃ l1 lv l2, catalog_levels demo = l1 ++ lv :: l2 ∧
                       idx = level_idx lv ∧
                       level_numbers demo lv = Some (1, 2) ∧
                       ∀ lv', lv' ∈ l1 → level_numbers demo lv' ≠ Some (1, 2)) ∨
          (idx = {| idx_ep := 0; idx_map := 0 |} ∧
           ∀ lv, lv ∈ catalog_levels demo → level_numbers demo lv ≠ Some (1, 2))).
Proof.
  split; [exact (proj1 demo_catalog_small)|].
  apply (make_level_index_first demo 1 2). exact (proj1 demo_catalog_small).
Defined.

(** X7 at the small catalog: E1M2 and back. *)
Lemma level_index_round_trip_witness :
  catalog_fits demo ∧ (0, 1) ∈ catalog_levels demo ∧
  ∃ gameepisode gamemap,
    ap_index_to_ep demo (level_idx (0, 1)) = Some gameepisode ∧
    ap_index_to_map demo (level_idx (0, 1)) = Some gamemap ∧
    ap_make_level_index demo gameepisode gamemap = Some (level_idx (0, 1)).
Proof.
  assert ((0, 1) ∈ catalog_levels demo) as Hin.
  { vm_compute. right. by left. }
  split; [exact (proj1 demo_catalog_small)|]. split; [exact Hin|].
  apply (level_index_round_trip demo (0, 1)).
  - exact (proj1 demo_catalog_small).
  - exact demo_level_numbers_unique.
  - exact Hin.
Defined.

(** X10 at the small catalog: a scouted location with the progression
    bit set is a progression location afterwards. *)
Lemma location_progression_after_locinfo_witness :
  ∃ w, fresh_world demo "AP_seed" = Some w ∧
       apdoom_is_location_progression demo {| idx_ep := 0; idx_map := 0 |} 3
         (f_locinfo [{| ni_location := 9002; ni_flags := 1 |}] w) = 1.
Proof.
  eexists. split; [vm_compute; reflexivity|].
  match goal with |- apdoom_is_location_progression _ _ _ (f_locinfo _ ?w0) = _ =>
    apply (proj2 (proj1 (location_progression_after_locinfo demo
                           {| idx_ep := 0; idx_map := 0 |} 3
                           [{| ni_location := 9002; ni_flags := 1 |}] w0)))
  end.
  exists 9002. split; [vm_compute; reflexivity|]. right.
  exists {| ni_location := 9002; ni_flags := 1 |}.
  split; [by left|]. split; [reflexivity|]. simpl. discriminate.
Defined.

(** X11 at the small catalog: reading the empty document into the
    session [apdoom_init] builds. *)
Lemma load_state_nothing_to_read_witness :
  ∃ w, fresh_world demo "AP_seed" = Some w ∧
       (∀ k, json_member k (JObject []) = Some JNull) ∧
       load_state demo (Some (JObject [])) w = Some w.
Proof.
  eexists. split; [vm_compute; reflexivity|]. split; [reflexivity|].
  match goal with |- load_state _ _ ?w0 = _ =>
    apply (load_state_nothing_to_read demo (JObject []) w0)
  end.
  - reflexivity.
  - exact demo_catalog_small.
  - split; reflexivity.
  - repeat split; reflexivity.
  - intros lv l Hlv Hl. apply demo_catalog_levels in Hlv.
    destruct Hlv as [->|[->| ->]]; vm_compute in Hl; injection Hl as <-; reflexivity.
Defined.

(** X12 at the small catalog: a document that holds a victory and one
    queued item, read into the session [apdoom_init] builds. *)
Lemma load_state_keeps_progress_witness :
  ∃ w w', fresh_world demo "AP_seed" = Some w ∧
          load_state demo
            (Some (JObject [("victory"%string, JInt 1);
                            ("item_queue"%string, JArray [JInt 200])])) w
          = Some w' ∧
          ap_item_queue w' = [200] ∧ victory (ap_state w') = 1 ∧
          ap_item_queue w `prefix_of` ap_item_queue w' ∧
          ap_progressive_locations w ⊆ ap_progressive_locations w' ∧
          flag_kept (victory (ap_state w)) (victory (ap_state w')) ∧
          capacity_upgrades (player_state (ap_state w'))
          = capacity_upgrades (player_state (ap_state w)) ∧
          Forall2 flag_kept (weapon_owned (player_state (ap_state w)))
                            (weapon_owned (player_state (ap_state w'))) ∧
          Forall2 level_kept (level_states (ap_state w)) (level_states (ap_state w')).
Proof.
  eexists _, _. split; [vm_compute; reflexivity|].
  match goal with |- load_state _ _ ?w0 = _ ∧ _ => pose (w := w0) end.
  split; [vm_compute; reflexivity|].
  split; [reflexivity|]. split; [reflexivity|].
  match goal with |- _ `prefix_of` ap_item_queue ?w1 ∧ _ =>
    apply (load_state_keeps_progress demo
             (JObject [("victory"%string, JInt 1);
                       ("item_queue"%string, JArray [JInt 200])]) w w1)
  end.
  vm_compute. reflexivity.
Defined.

(** X13 at the small catalog: the first episode enabled, shuffle mode 2. *)
Lemma music_shuffle_whole_game_witness :
  ∃ w, fresh_world demo "AP_seed" = Some w ∧
       catalog_small demo ∧ (∀ g, 0 ≤ (demo_rand g).1) ∧
       ∃ w' g' originals assigned,
         apdoom_init_randomize demo Z demo_srand demo_rand true
           (set_ap_state (f_random_music 2 (set_episodes [1; 0] (ap_state w))) w)
         = Some (w', g') ∧
         mapM (original_music demo) (catalog_levels demo) = Some originals ∧
         mapM (level_music demo (ap_state w')) (enabled_levels demo (ap_state w'))
         = Some assigned ∧
         assigned ⊆+ originals ∧
         ∀ lv, lv ∈ catalog_levels demo → lv ∉ enabled_levels demo (ap_state w') →
               level_music demo (ap_state w') lv = original_music demo lv.
Proof.
  eexists. split; [vm_compute; reflexivity|].
  split; [exact demo_catalog_small|]. split; [exact demo_rand_nonneg|].
  apply (music_shuffle_whole_game demo Z demo_srand demo_rand true).
  - exact demo_catalog_small.
  - reflexivity.
  - split; reflexivity.
  - exact demo_rand_nonneg.
  - exact demo_original_music.
  - reflexivity.
Defined.

(** X14 at the small catalog: the first episode enabled, shuffle mode 1;
    the level of the second episode keeps its track. *)
Lemma music_outside_the_shuffle_witness :
  ∃ w, fresh_world demo "AP_seed" = Some w ∧
       catalog_small demo ∧ (∀ g, 0 ≤ (demo_rand g).1) ∧
       ∃ w' g',
         apdoom_init_randomize demo Z demo_srand demo_rand true
           (set_ap_state (f_random_music 1 (set_episodes [1; 0] (ap_state w))) w)
         = Some (w', g') ∧
         level_music demo (ap_state w') (1, 0) = original_music demo (1, 0).
Proof.
  eexists. split; [vm_compute; reflexivity|].
  split; [exact demo_catalog_small|]. split; [exact demo_rand_nonneg|].
  match goal with |- ∃ w' g', apdoom_init_randomize _ _ _ _ _ ?w0 = _ ∧ _ =>
    destruct (music_outside_the_shuffle demo Z demo_srand demo_rand true w0
                demo_catalog_small eq_refl ltac:(split; reflexivity)
                demo_rand_nonneg demo_original_music)
      as (w' & g' & Hrun & Hkeep)
  end.
  exists w', g'. split; [exact Hrun|]. apply Hkeep.
  - vm_compute. right. right. by left.
  - right. vm_compute in Hrun. injection Hrun as <- _. vm_compute.
    intros Hin.
    repeat (apply elem_of_cons in Hin as [Hin|Hin]; [discriminate Hin|]).
    by apply elem_of_nil in Hin.
Defined.

(** X15 at the small catalog: flip mode 1. *)
Lemma level_flips_by_mode_witness :
  ∃ w, fresh_world demo "AP_seed" = Some w ∧
       catalog_small demo ∧ (∀ g, 0 ≤ (demo_rand g).1) ∧
       ∃ w' g',
         apdoom_init_randomize demo Z demo_srand demo_rand true
           (set_ap_state (f_flip_levels 1 (ap_state w)) w) = Some (w', g') ∧
         ∀ lv, lv ∈ catalog_levels demo →
           flipped <$> ap_get_level_state demo (ap_state w') (level_idx lv) = Some 1.
Proof.
  eexists. split; [vm_compute; reflexivity|].
  split; [exact demo_catalog_small|]. split; [exact demo_rand_nonneg|].
  match goal with |- ∃ w' g', apdoom_init_randomize _ _ _ _ _ ?w0 = _ ∧ _ =>
    destruct (level_flips_by_mode demo Z demo_srand demo_rand true w0
                demo_catalog_small eq_refl ltac:(split; reflexivity)
                demo_rand_nonneg demo_original_music)
      as (w' & g' & Hrun & Hall & _)
  end.
  exists w', g'. split; [exact Hrun|]. apply Hall. reflexivity.
Defined.

(** X16 at the small catalog: no episode is enabled in the session
    [apdoom_init] builds, so the first one gets enabled. *)
Lemma default_episode_selected_witness :
  ∃ w, fresh_world demo "AP_seed" = Some w ∧
       catalog_small demo ∧ (∀ g, 0 ≤ (demo_rand g).1) ∧
       ∃ w' g',
         apdoom_init_randomize demo Z demo_srand demo_rand true w = Some (w', g') ∧
         episodes (ap_state w') = [1; 0] ∧
         ∃ i, episode_enabled (ap_state w') i = true.
Proof.
  eexists. split; [vm_compute; reflexivity|].
  split; [exact demo_catalog_small|]. split; [exact demo_rand_nonneg|].
  match goal with |- ∃ w' g', apdoom_init_randomize _ _ _ _ _ ?w0 = _ ∧ _ =>
    destruct (default_episode_selected demo Z demo_srand demo_rand true w0
                demo_catalog_small eq_refl ltac:(split; reflexivity)
                demo_rand_nonneg demo_original_music)
      as (w' & g' & Hrun & Hnone & _ & Hsome)
  end.
  exists w', g'. split; [exact Hrun|]. split; [|exact Hsome].
  rewrite Hnone; [reflexivity|]. intros i. unfold episode_enabled. simpl.
  unfold arr_get. destruct (decide (0 ≤ i)) as [Hi|Hi]; [|reflexivity].
  destruct (Z.to_nat i) as [|[|n]]; reflexivity.
Defined.

(** X17 at the small catalog: a check, a key, a completion and a victory
    check, one after the other. *)
Lemma run_never_loses_progress_witness :
  ∃ w w', fresh_world demo "AP_seed" = Some w ∧
          checks_allocated (ap_state w) ∧
          run demo (λ icons, icons)
            [Call_f_locrecv 9002; Call_f_itemrecv 200 0 false;
             Call_apdoom_complete_level {| idx_ep := 0; idx_map := 0 |};
             Call_apdoom_check_victory] w = Some w' ∧
          state_progress (ap_state w) (ap_state w') ∧
          ap_progressive_locations w ⊆ ap_progressive_locations w'.
Proof.
  eexists _, _. split; [vm_compute; reflexivity|].
  match goal with |- checks_allocated (ap_state ?w0) ∧ _ => pose (w := w0) end.
  assert (checks_allocated (ap_state w)) as Halloc.
  { unfold checks_allocated. simpl. repeat constructor. }
  split; [exact Halloc|]. split; [vm_compute; reflexivity|].
  match goal with |- state_progress _ (ap_state ?w1) ∧ _ =>
    apply (run_never_loses_progress demo (λ icons, icons)
             [Call_f_locrecv 9002; Call_f_itemrecv 200 0 false;
              Call_apdoom_complete_level {| idx_ep := 0; idx_map := 0 |};
              Call_apdoom_check_victory] w w1 Halloc)
  end.
  vm_compute. reflexivity.
Defined.

(** X19 at a level with two things: the second thing is a check only
    under check sanity, and asking for another thing type is refused. *)
Lemma validators_agree_witness :
  ∃ s level_info thing,
    fresh_world demo_things "AP_seed" ≫= (λ w, Some (ap_state w)) = Some s ∧
    ap_get_level_info demo_things {| idx_ep := 0; idx_map := 0 |} = Some level_info ∧
    arr_get (li_thing_infos level_info) 1 = Some thing ∧
    validate_doom_location demo_things s {| idx_ep := 0; idx_map := 0 |} 1 = Some 0 ∧
    ap_validate_doom_location demo_things s {| idx_ep := 0; idx_map := 0 |} 2019 1
    = Some 0 ∧
    ap_validate_doom_location demo_things s {| idx_ep := 0; idx_map := 0 |} 2018 1
    = Some (-1).
Proof.
  eexists _, _, _. split; [vm_compute; reflexivity|].
  split; [vm_compute; reflexivity|]. split; [vm_compute; reflexivity|].
  match goal with
  | |- validate_doom_location _ ?s0 _ _ = _ ∧ _ =>
      destruct (validators_agree demo_things s0 {| idx_ep := 0; idx_map := 0 |} 1
                  _ _ 2019 ltac:(vm_compute; reflexivity) ltac:(simpl; lia)
                  ltac:(vm_compute; reflexivity)) as (v & Hv & _ & _ & Hsame);
      destruct (validators_agree demo_things s0 {| idx_ep := 0; idx_map := 0 |} 1
                  _ _ 2018 ltac:(vm_compute; reflexivity) ltac:(simpl; lia)
                  ltac:(vm_compute; reflexivity)) as (v' & Hv' & _ & _ & Hother)
  end.
  vm_compute in Hv. injection Hv as <-. vm_compute in Hv'. injection Hv' as <-.
  split; [vm_compute; reflexivity|]. split; [exact Hsame|exact Hother].
Defined.

(** X20 at the small catalog. *)
Lemma fresh_session_is_blank_witness :
  catalog_small demo ∧
  ∃ w, fresh_world demo "AP_seed" = Some w ∧
       state_sized demo (ap_state w) ∧ player_sized demo (player_state (ap_state w)) ∧
       checks_allocated (ap_state w) ∧ max_ammo_derived demo (ap_state w) ∧
       victory (ap_state w) = 0 ∧ ap_item_queue w = [] ∧
       ap_progressive_locations w = ∅ ∧ trace w = [] ∧
       weapon_owned (player_state (ap_state w)) = [1; 1; 0; 0; 0; 0; 0; 0; 0] ∧
       (∀ i, episode_enabled (ap_state w) i = false) ∧
       ∀ lv, lv ∈ catalog_levels demo →
         ap_get_level_state demo (ap_state w) (level_idx lv) = Some blank_level ∧
         checked_list blank_level = [].
Proof.
  split; [exact demo_catalog_small|].
  apply (fresh_session_is_blank demo "AP_seed"). exact demo_catalog_small.
Defined.

(** X21 at the small catalog: the blue key of E1M2 gets an icon that
    names the level. *)
Lemma notification_icon_fits_witness :
  ∃ w w' new,
    fresh_world demo "AP_seed" = Some w ∧
    process_received_item demo 200 w = Some w' ∧
    ap_notification_icons w' = ap_notification_icons w ++ new ∧
    (n_text <$> new) = ["(E1M2)"%string] ∧
    Forall (λ icon, (String.length (n_sprite icon) ≤ 8)%nat ∧
                    (String.length (n_text icon) ≤ 259)%nat ∧
                    n_state icon = AP_NOTIF_STATE_PENDING ∧ n_t icon = 0) new.
Proof.
  eexists _, _, _. split; [vm_compute; reflexivity|].
  match goal with |- process_received_item _ _ ?w0 = _ ∧ _ => pose (w := w0) end.
  split; [vm_compute; reflexivity|].
  match goal with |- ap_notification_icons ?w1 = _ ∧ _ =>
    destruct (notification_icon_fits demo 200 w w1 ltac:(vm_compute; reflexivity))
      as (new & Hnew & _ & Hfits & _)
  end.
  simpl in Hnew. subst new. split; [reflexivity|]. split; [reflexivity|].
  exact Hfits.
Defined.
